(** * BLAST database readers: index parser, BER header decoder, sequence decoder

    A shallow embedding of [src/app/blastdb/legacy_header_reader.cpp] and
    [src/app/blastdb/psq_reader.cpp], followed by the statements that the
    specification makes about them.

    Conventions of the embedding.
    - A byte buffer ([std::vector<uint8_t>], [std::string]) is a [list byte];
      a byte read from it is the integer [u8 b] in [0, 255].
    - [std::size_t] is the 64-bit unsigned type of an LP64 platform: every
      addition on offsets goes through [szadd], which wraps modulo [2^64].
      [std::uint32_t] wraps modulo [2^32], [std::int64_t] is two's complement
      on 64 bits.
    - The C++ functions take the cursor as [std::size_t &offset] (or keep it
      in [m_Pos]) and signal failure by throwing. They are embedded in a
      state-and-exception monad over the offset. A thrown exception carries
      the value the offset had when it was thrown, because the reference
      parameter keeps every update made before the [throw].
    - [buffer[i]] with [i] outside the vector is undefined behaviour in C++;
      it is the outcome [Undefined] here.
    - [while] loops whose termination is not evident from a counter run on
      fuel; running out of fuel is the outcome [OutOfFuel]. *)

From Stdlib Require Import ZArith List String Ascii Bool Lia DecimalString.
From Stdlib.Strings Require Import Byte.
Import ListNotations.
Local Open Scope Z_scope.

(** ** Machine integers and byte buffers *)

Definition u8 (b : byte) : Z := Z.of_N (Byte.to_N b).

Definition size (buffer : list byte) : Z := Z.of_nat (List.length buffer).

Definition uint32 (x : Z) : Z := x mod 2 ^ 32.
Definition uint64 (x : Z) : Z := x mod 2 ^ 64.
Definition int64 (x : Z) : Z := (x + 2 ^ 63) mod 2 ^ 64 - 2 ^ 63.

(** Addition on [std::size_t]. *)
Definition szadd (a b : Z) : Z := uint64 (a + b).

Infix "+w" := szadd (at level 50, left associativity).

(** [std::to_string] on an integer. *)
Definition to_string (x : Z) : string := NilZero.string_of_int (Z.to_int x).

(** The bytes [buffer[offset .. offset + n)]; [slice] gives them when that
    range lies inside the buffer. *)
Definition sub_bytes (buffer : list byte) (offset n : Z) : list byte :=
  firstn (Z.to_nat n) (skipn (Z.to_nat offset) buffer).

Definition slice (buffer : list byte) (offset n : Z) : option (list byte) :=
  if (0 <=? offset) && (0 <=? n) && (offset + n <=? size buffer)
  then Some (sub_bytes buffer offset n)
  else None.

Definition empty (s : string) : bool :=
  match s with EmptyString => true | _ => false end.

(** ** Exceptions *)

Inductive exn : Type :=
| PinParseError (what : string)
| runtime_error (what : string)
| length_error (what : string)
| out_of_range (what : string).

Definition what (e : exn) : string :=
  match e with
  | PinParseError w => w
  | runtime_error w => w
  | length_error w => w
  | out_of_range w => w
  end.

(** [std::basic_string::max_size()]; the constructor
    [std::string(const char*, size_t n)] throws [std::length_error] when
    [n] exceeds it. *)
Definition string_max_size : Z := 2 ^ 63 - 1.

Definition basic_string_length_error : exn :=
  length_error "basic_string::_M_create".

(** ** The cursor monad *)

Inductive result (A : Type) : Type :=
| Ret (a : A) (offset : Z)
| Throw (e : exn) (offset : Z)
| Undefined
| OutOfFuel.

Arguments Ret {A} a offset.
Arguments Throw {A} e offset.
Arguments Undefined {A}.
Arguments OutOfFuel {A}.

Definition M (A : Type) : Type := Z -> result A.

Definition ret {A} (a : A) : M A := fun offset => Ret a offset.

Definition bind {A B} (c : M A) (k : A -> M B) : M B :=
  fun offset =>
    match c offset with
    | Ret a offset' => k a offset'
    | Throw e offset' => Throw e offset'
    | Undefined => Undefined
    | OutOfFuel => OutOfFuel
    end.

Declare Scope cursor_scope.
Delimit Scope cursor_scope with cursor.
Notation "x <- c ;; k" := (bind c (fun x => k))
  (at level 61, c at next level, right associativity) : cursor_scope.
Notation "c ;; k" := (bind c (fun _ => k))
  (at level 61, right associativity) : cursor_scope.
Local Open Scope cursor_scope.

Definition throw {A} (e : exn) : M A := fun offset => Throw e offset.
Definition undefined {A} : M A := fun _ => Undefined.
Definition out_of_fuel {A} : M A := fun _ => OutOfFuel.
Definition get_offset : M Z := fun offset => Ret offset offset.
Definition set_offset (o : Z) : M unit := fun _ => Ret tt o.

(** [offset += n] *)
Definition advance (n : Z) : M unit := fun offset => Ret tt (offset +w n).

Definition when (b : bool) (c : M unit) : M unit := if b then c else ret tt.

(** [buffer[i]] *)
Definition byte_at (buffer : list byte) (i : Z) : M Z :=
  match slice buffer i 1 with
  | Some (b :: _) => ret (u8 b)
  | _ => undefined
  end.

(** Reading [buffer[offset .. offset + n)] element by element. *)
Definition bytes_at (buffer : list byte) (offset n : Z) : M (list byte) :=
  match slice buffer offset n with
  | Some bs => ret bs
  | None => undefined
  end.

(** [try { body } catch (const PinParseError &) { handler }]: the handler
    starts from the offset that the [throw] left behind; other exceptions
    pass through. *)
Definition try_catch_PinParseError {A} (body handler : M A) : M A :=
  fun offset =>
    match body offset with
    | Throw (PinParseError _) offset' => handler offset'
    | r => r
    end.

(** One round of a [while] loop either goes round again with the loop
    variables updated or leaves the loop. *)
Inductive step (S R : Type) : Type :=
| Continue (s : S)
| Break (r : R).

Arguments Continue {S R} s.
Arguments Break {S R} r.

Fixpoint loop {S R} (fuel : nat) (body : S -> M (step S R)) (s : S) : M R :=
  match fuel with
  | O => out_of_fuel
  | Datatypes.S fuel' =>
      fun offset =>
        match body s offset with
        | Ret (Continue s') offset' => loop fuel' body s' offset'
        | Ret (Break r) offset' => Ret r offset'
        | Throw e offset' => Throw e offset'
        | Undefined => Undefined
        | OutOfFuel => OutOfFuel
        end
  end.

(** A loop inside [try { ... } catch (const std::exception &ex)], with loop
    variables [s] declared outside the [try]: the handler sees the exception
    and the variables as the last completed round left them. *)
Fixpoint loop_try {S R} (fuel : nat) (body : S -> M (step S R)) (s : S)
  : M (R + exn * S) :=
  match fuel with
  | O => out_of_fuel
  | Datatypes.S fuel' =>
      fun offset =>
        match body s offset with
        | Ret (Continue s') offset' => loop_try fuel' body s' offset'
        | Ret (Break r) offset' => Ret (inl r) offset'
        | Throw e offset' => Ret (inr (e, s)) offset'
        | Undefined => Undefined
        | OutOfFuel => OutOfFuel
        end
  end.

(** * legacy_header_reader.cpp *)

Module LegacyHeaderReader.

Inductive BerClass : Type :=
| Universal
| Application
| ContextSpecific
| Private.

Definition BerClass_of (x : Z) : BerClass :=
  if x =? 0 then Universal
  else if x =? 1 then Application
  else if x =? 2 then ContextSpecific
  else Private.

Definition BerClass_eqb (a b : BerClass) : bool :=
  match a, b with
  | Universal, Universal
  | Application, Application
  | ContextSpecific, ContextSpecific
  | Private, Private => true
  | _, _ => false
  end.

Record BerTag : Type := mkTag {
  cls : BerClass;
  constructed : bool;
  number : Z
}.

Record BerLength : Type := mkLength {
  indefinite : bool;
  length : Z
}.

Record PinIndex : Type := mkPinIndex {
  version : Z;
  is_protein : bool;
  volume_number : Z;
  title : string;
  lmdb_file : string;
  date : string;
  num_oids : Z;
  total_length : Z;
  max_length : Z;
  header_offsets : list Z;
  sequence_offsets : list Z;
  ambiguity_offsets : list Z
}.

Record SeqId : Type := mkSeqId {
  type : string;
  value : string;
  id_version : option Z   (* [SeqId::version] *)
}.

Record BlastDefLine : Type := mkDefLine {
  def_title : string;     (* [BlastDefLine::title] *)
  seqids : list SeqId;
  taxid : option Z
}.

Section Reader.

Variable buffer : list byte.

(** [value = (value << 8) | b] over the bytes read, in a [std::uint32_t]. *)
Definition be_accumulate (bs : list byte) : Z :=
  fold_left (fun value b => uint32 (Z.lor (Z.shiftl value 8) (u8 b))) bs 0.

Definition ReadBE32 : M Z :=
  offset <- get_offset ;;
  if size buffer <? offset +w 4
  then throw (PinParseError "Unexpected end of file while reading 32-bit value")
  else
    bs <- bytes_at buffer offset 4 ;;
    advance 4 ;;
    ret (be_accumulate bs).

(** The long-form loop of [ReadTag]:
    [while (offset < buffer.size()) { b = buffer[offset++]; ... }].
    [rest] is the part of the buffer from [offset] on, so that [rest] is
    empty exactly when [offset < buffer.size()] fails. *)
Fixpoint ReadTag_long (rest : list byte) (number offset : Z) : Z * Z :=
  match rest with
  | [] => (number, offset)
  | b :: rest' =>
      let number' := uint32 (Z.lor (Z.shiftl number 7) (Z.land (u8 b) 0x7F)) in
      if Z.land (u8 b) 0x80 =? 0
      then (number', offset +w 1)
      else ReadTag_long rest' number' (offset +w 1)
  end.

Definition ReadTag : M BerTag :=
  offset <- get_offset ;;
  if size buffer <=? offset
  then throw (PinParseError "Unexpected end of buffer while reading BER tag")
  else
    first <- byte_at buffer offset ;;
    advance 1 ;;
    let tag_cls := BerClass_of (Z.shiftr (Z.land first 0xC0) 6) in
    let tag_constructed := negb (Z.land first 0x20 =? 0) in
    let tag_number := Z.land first 0x1F in
    if tag_number =? 0x1F
    then
      offset <- get_offset ;;
      let '(long_number, offset') :=
        ReadTag_long (skipn (Z.to_nat offset) buffer) 0 offset in
      set_offset offset' ;;
      ret (mkTag tag_cls tag_constructed long_number)
    else ret (mkTag tag_cls tag_constructed tag_number).

(** The body of the [for] loop of [ReadLength], [n] rounds left. *)
Fixpoint ReadLength_body (n : nat) (len : Z) : M Z :=
  match n with
  | O => ret len
  | S n' =>
      offset <- get_offset ;;
      if size buffer <=? offset
      then throw (PinParseError "Unexpected end of buffer while reading BER length body")
      else
        b <- byte_at buffer offset ;;
        advance 1 ;;
        ReadLength_body n' (uint64 (Z.lor (Z.shiftl len 8) b))
  end.

Definition ReadLength : M BerLength :=
  offset <- get_offset ;;
  if size buffer <=? offset
  then throw (PinParseError "Unexpected end of buffer while reading BER length")
  else
    first <- byte_at buffer offset ;;
    advance 1 ;;
    if first =? 0x80 then ret (mkLength true 0)
    else if Z.land first 0x80 =? 0 then ret (mkLength false first)
    else
      let num_bytes := Z.land first 0x7F in
      if (num_bytes =? 0) || (8 <? num_bytes)
      then throw (PinParseError "Unsupported BER length size")
      else
        len <- ReadLength_body (Z.to_nat num_bytes) 0 ;;
        ret (mkLength false len).

(** [IsEoc(buffer, offset)] at the current offset. *)
Definition IsEoc : M bool :=
  offset <- get_offset ;;
  if offset +w 1 <? size buffer
  then
    b0 <- byte_at buffer offset ;;
    if b0 =? 0
    then b1 <- byte_at buffer (offset +w 1) ;; ret (b1 =? 0)
    else ret false
  else ret false.

(** One round of the [while (true)] loop of [SkipElement]; [skip] stands
    for the recursive call [SkipElement(buffer, offset)]. *)
Definition SkipElement_round (skip : M unit) (_ : unit) : M (step unit unit) :=
  eoc <- IsEoc ;;
  if eoc
  then advance 2 ;; ret (Break tt)
  else skip ;; ret (Continue tt).

Fixpoint SkipElement (fuel : nat) : M unit :=
  match fuel with
  | O => out_of_fuel
  | S fuel' =>
      tag <- ReadTag ;;
      len <- ReadLength ;;
      if indefinite len
      then
        if negb (constructed tag)
        then throw (PinParseError "Indefinite length used with primitive element")
        else loop fuel' (SkipElement_round (SkipElement fuel')) tt
      else
        offset <- get_offset ;;
        if size buffer <? offset +w length len
        then throw (PinParseError "BER element exceeds buffer size")
        else advance (length len)
  end.

(** The loop of [ParseInteger]: [value = (value << 8) | buffer[offset + i]]
    in a [std::int64_t]. *)
Definition integer_accumulate (init : Z) (bs : list byte) : Z :=
  fold_left (fun value b => int64 (Z.lor (Z.shiftl value 8) (u8 b))) bs init.

Definition ParseInteger (len : Z) : M Z :=
  offset <- get_offset ;;
  if (len =? 0) || (size buffer <? offset +w len)
  then throw (PinParseError "Invalid integer length")
  else
    first <- byte_at buffer offset ;;
    bs <- bytes_at buffer offset len ;;
    let init := if Z.land first 0x80 =? 0 then 0 else -1 in
    advance len ;;
    ret (integer_accumulate init bs).

(** [std::string result(&buffer[offset], length)] *)
Definition make_string (offset len : Z) : M string :=
  if string_max_size <? len then throw basic_string_length_error
  else bs <- bytes_at buffer offset len ;; ret (string_of_list_byte bs).

Definition ParseString (len : Z) : M string :=
  offset <- get_offset ;;
  if size buffer <? offset +w len
  then throw (PinParseError "String overruns buffer")
  else
    result <- make_string offset len ;;
    advance len ;;
    ret result.

(** [for (int i = 7; i >= 0; --i) value = (value << 8) | buffer[offset + i]]
    in a [std::uint64_t]. *)
Definition le_accumulate (bs : list byte) : Z :=
  fold_left (fun value b => uint64 (Z.lor (Z.shiftl value 8) (u8 b))) (rev bs) 0.

Definition ReadLE64 : M Z :=
  offset <- get_offset ;;
  if size buffer <? offset +w 8
  then throw (PinParseError "Unexpected end of file while reading 64-bit value")
  else
    bs <- bytes_at buffer offset 8 ;;
    advance 8 ;;
    ret (le_accumulate bs).

Definition ReadPascalString : M string :=
  len <- ReadBE32 ;;
  offset <- get_offset ;;
  if size buffer <? offset +w len
  then throw (PinParseError "String length exceeds file size")
  else
    result <- make_string offset len ;;
    advance len ;;
    ret result.

Definition IsVisibleLikeTag (tag : BerTag) : bool :=
  if negb (BerClass_eqb (cls tag) Universal) then false
  else
    let n := number tag in
    (n =? 12) || (n =? 18) || (n =? 19) || (n =? 20) || (n =? 21) || (n =? 22)
    || (n =? 25) || (n =? 26) || (n =? 27) || (n =? 28) || (n =? 29) || (n =? 30).

Definition ParseVisible (fuel : nat) : M string :=
  inner_tag <- ReadTag ;;
  inner_len <- ReadLength ;;
  if negb (IsVisibleLikeTag inner_tag)
  then throw (PinParseError "Expected string type inside explicit tag")
  else if negb (constructed inner_tag)
  then
    if indefinite inner_len
    then throw (PinParseError "Primitive string used with indefinite length")
    else ParseString (length inner_len)
  else
    offset <- get_offset ;;
    let inner_indef := indefinite inner_len in
    let inner_end := if inner_indef then size buffer else offset +w length inner_len in
    combined <-
      loop fuel
        (fun combined : string =>
           eoc <- (if inner_indef then IsEoc else ret false) ;;
           if eoc then advance 2 ;; ret (Break combined)
           else
             offset <- get_offset ;;
             if negb inner_indef && (inner_end <=? offset) then ret (Break combined)
             else
               chunk_tag <- ReadTag ;;
               chunk_len <- ReadLength ;;
               if IsVisibleLikeTag chunk_tag && negb (constructed chunk_tag)
                  && negb (indefinite chunk_len)
               then
                 chunk <- ParseString (length chunk_len) ;;
                 ret (Continue (combined ++ chunk)%string)
               else SkipElement fuel ;; ret (Continue combined))
        EmptyString ;;
    offset <- get_offset ;;
    when (negb inner_indef && (offset <? inner_end)) (set_offset inner_end) ;;
    ret combined.

(** In the loop bodies below the value [Some s] stands for [return s] from
    the enclosing function and [None] for falling through to the next
    statement; [extract limit] stands for the recursive call
    [ExtractVisibleLike(buffer, offset, limit)]. *)

(** One round of the inner [while (true)] loop of [ExtractVisibleLike]. *)
Definition ExtractVisibleLike_inner_round
           (extract : Z -> M (option string)) (limit : Z) (_ : unit)
  : M (step unit (option string)) :=
  eoc <- IsEoc ;;
  if eoc then advance 2 ;; ret (Break None)
  else
    inner <- extract limit ;;
    match inner with
    | Some s => ret (Break (Some s))
    | None => ret (Continue tt)
    end.

(** One round of the loop [while (offset < limit)] of [ExtractVisibleLike];
    [fuel] bounds the inner loop. *)
Definition ExtractVisibleLike_round
           (extract : Z -> M (option string)) (fuel : nat) (limit : Z) (_ : unit)
  : M (step unit (option string)) :=
  offset <- get_offset ;;
  if negb (offset <? limit) then ret (Break None)
  else
    eoc <- IsEoc ;;
    if eoc then advance 2 ;; ret (Break None)
    else
      let element_start := offset in
      tag <- ReadTag ;;
      len <- ReadLength ;;
      returned <-
        (if IsVisibleLikeTag tag
         then
           if constructed tag
           then
             offset <- get_offset ;;
             let indef := indefinite len in
             let end_ := if indef then limit else offset +w length len in
             inner <- extract end_ ;;
             match inner with
             | Some s => ret (Some s)
             | None =>
                 offset <- get_offset ;;
                 when (negb indef && (offset <? end_)) (set_offset end_) ;;
                 ret None
             end
           else if indefinite len
           then throw (PinParseError "Primitive string used with indefinite length")
           else s <- ParseString (length len) ;; ret (Some s)
         else if indefinite len
         then
           if negb (constructed tag)
           then throw (PinParseError "Indefinite length used with primitive element")
           else loop fuel (ExtractVisibleLike_inner_round extract limit) tt
         else
           offset <- get_offset ;;
           if size buffer <? offset +w length len
           then throw (PinParseError "BER element exceeds buffer size")
           else advance (length len) ;; ret None) ;;
      match returned with
      | Some s => ret (Break (Some s))
      | None =>
          offset <- get_offset ;;
          if offset <=? element_start
          then throw (PinParseError "Failed to advance while scanning for string element")
          else ret (Continue tt)
      end.

Fixpoint ExtractVisibleLike (fuel : nat) (limit : Z) : M (option string) :=
  match fuel with
  | O => out_of_fuel
  | S fuel' =>
      loop fuel' (ExtractVisibleLike_round (ExtractVisibleLike fuel') fuel' limit) tt
  end.

Definition kNames : list (Z * string) :=
  [ (0, "local"); (1, "gibbsq"); (2, "gibbmt"); (3, "giim");
    (4, "genbank"); (5, "embl"); (6, "pir"); (7, "swissprot");
    (8, "patent"); (9, "other"); (10, "general"); (11, "gi");
    (12, "ddbj"); (13, "prf"); (14, "pdb"); (15, "tpg");
    (16, "tpe"); (17, "tpd"); (18, "gpipe"); (19, "named-annot-track") ]%string.

Fixpoint find (num : Z) (table : list (Z * string)) : option string :=
  match table with
  | [] => None
  | (k, name) :: table' => if k =? num then Some name else find num table'
  end.

Definition TagNameFromNumber (num : Z) : string :=
  match find num kNames with
  | Some name => name
  | None => ("unknown-" ++ to_string num)%string
  end.

Definition ParseExplicitInteger (fuel : nat) (len : BerLength) : M Z :=
  start <- get_offset ;;
  inner_tag <- ReadTag ;;
  inner_len <- ReadLength ;;
  if negb (BerClass_eqb (cls inner_tag) Universal) || negb (number inner_tag =? 2)
     || indefinite inner_len
  then throw (PinParseError "Expected INTEGER inside explicit wrapper")
  else
    val <- ParseInteger (length inner_len) ;;
    (if indefinite len
     then
       loop fuel
         (fun _ : unit =>
            eoc <- IsEoc ;;
            if negb eoc then SkipElement fuel ;; ret (Continue tt)
            else ret (Break tt))
         tt ;;
       advance 2
     else
       let end_ := start +w length len in
       offset <- get_offset ;;
       when (offset <? end_) (set_offset end_)) ;;
    ret val.

Definition ParseExplicitVisible (fuel : nat) (len : BerLength) : M string :=
  start <- get_offset ;;
  let end_ := if indefinite len then size buffer else start +w length len in
  result <-
    try_catch_PinParseError
      (ParseVisible fuel)
      (set_offset start ;;
       recovered <- ExtractVisibleLike fuel end_ ;;
       ret (match recovered with Some s => s | None => EmptyString end)) ;;
  (if indefinite len
   then
     loop fuel
       (fun _ : unit =>
          offset <- get_offset ;;
          if offset <? end_
          then
            eoc <- IsEoc ;;
            if negb eoc then SkipElement fuel ;; ret (Continue tt)
            else ret (Break tt)
          else ret (Break tt))
       tt ;;
     eoc <- IsEoc ;;
     when eoc (advance 2)
   else
     offset <- get_offset ;;
     when (offset <? end_) (set_offset end_)) ;;
  ret result.

Definition set_value (id : SeqId) (v : string) : SeqId :=
  mkSeqId (type id) v (id_version id).

Definition set_version (id : SeqId) (v : Z) : SeqId :=
  mkSeqId (type id) (value id) (Some v).

Definition set_type (id : SeqId) (t : string) : SeqId :=
  mkSeqId t (value id) (id_version id).

(** [if (field_len.indefinite) SkipElement(...); else offset += field_len.length;] *)
Definition skip_field (fuel : nat) (field_len : BerLength) : M unit :=
  if indefinite field_len then SkipElement fuel else advance (length field_len).

Definition ParseTextSeqId (fuel : nat) (end_limit : option Z) : M SeqId :=
  len <- ReadLength ;;
  offset <- get_offset ;;
  let indef := indefinite len in
  let end_ :=
    if indef then (match end_limit with Some e => e | None => size buffer end)
    else offset +w length len in
  id <-
    loop fuel
      (fun id : SeqId =>
         eoc <- (if indef then IsEoc else ret false) ;;
         if eoc then advance 2 ;; ret (Break id)
         else
           offset <- get_offset ;;
           if negb indef && (end_ <=? offset) then ret (Break id)
           else
             tag <- ReadTag ;;
             field_len <- ReadLength ;;
             let explicit := constructed tag || indefinite field_len in
             if number tag =? 0 then
               if empty (value id)
               then
                 v <- (if explicit then ParseExplicitVisible fuel field_len
                       else ParseString (length field_len)) ;;
                 ret (Continue (set_value id v))
               else skip_field fuel field_len ;; ret (Continue id)
             else if number tag =? 1 then
               v <- (if explicit then ParseExplicitVisible fuel field_len
                     else ParseString (length field_len)) ;;
               ret (Continue (set_value id v))
             else if number tag =? 3 then
               v <- (if explicit then ParseExplicitInteger fuel field_len
                     else ParseInteger (length field_len)) ;;
               ret (Continue (set_version id v))
             else skip_field fuel field_len ;; ret (Continue id))
      (mkSeqId EmptyString EmptyString None) ;;
  when indef (advance 2) ;;
  ret id.

(** [std::isalnum] in the "C" locale, which the program never changes. *)
Definition isalnum (ch : Z) : bool :=
  ((0x30 <=? ch) && (ch <=? 0x39)) || ((0x41 <=? ch) && (ch <=? 0x5A))
  || ((0x61 <=? ch) && (ch <=? 0x7A)).

(** The scan of [ParseSeqId] for the longest run of [[A-Za-z0-9_.]]; the
    state is the pair of C++ locals [(best, current)]. *)
Definition longest_run_step (st : list byte * list byte) (b : byte)
  : list byte * list byte :=
  let '(best, current) := st in
  if isalnum (u8 b) || (u8 b =? 0x5F) || (u8 b =? 0x2E)
  then (best, current ++ [b])
  else if (List.length best <? List.length current)%nat
       then (current, [])
       else (best, []).

Definition longest_run (raw : list byte) : string :=
  let '(best, current) := fold_left longest_run_step raw ([], []) in
  string_of_list_byte
    (if (List.length best <? List.length current)%nat then current else best).

(** One round of the loop of [ParseSeqId] over the fields of a PDB-seq-id,
    [while (indefinite ? !IsEoc(buffer, offset) : offset < end)]; the loop
    variable is [id]. *)
Definition ParseSeqId_pdb_field (indef : bool) (end_ : Z) (id : SeqId)
  : M (step SeqId SeqId) :=
  go <- (if indef then eoc <- IsEoc ;; ret (negb eoc)
         else offset <- get_offset ;; ret (offset <? end_)) ;;
  if negb go then ret (Break id)
  else
    field_tag <- ReadTag ;;
    field_len <- ReadLength ;;
    if indefinite field_len
    then throw (PinParseError "Indefinite length inside PDB-seq-id")
    else if BerClass_eqb (cls field_tag) Universal
            && (number field_tag =? 26) && empty (value id)
    then
      v <- ParseString (length field_len) ;;
      ret (Continue (set_value id v))
    else if BerClass_eqb (cls field_tag) Universal
            && (number field_tag =? 2)
            && (match id_version id with None => true | Some _ => false end)
    then
      v <- ParseInteger (length field_len) ;;
      ret (Continue (set_version id v))
    else advance (length field_len) ;; ret (Continue id).

Definition ParseSeqId (fuel : nat) : M SeqId :=
  seqid_start <- get_offset ;;
  tag <- ReadTag ;;
  let id0 := mkSeqId (TagNameFromNumber (number tag)) EmptyString None in
  if negb (BerClass_eqb (cls tag) ContextSpecific)
  then throw (PinParseError "Seq-id uses unexpected tag class")
  else
    id <-
      (if constructed tag
       then
         if number tag =? 14
         then
           len <- ReadLength ;;
           offset <- get_offset ;;
           let indef := indefinite len in
           let end_ := if indef then size buffer else offset +w length len in
           id <- loop fuel (ParseSeqId_pdb_field indef end_) id0 ;;
           when indef (advance 2) ;;
           ret id
         else
           id <- ParseTextSeqId fuel None ;;
           ret (set_type id (TagNameFromNumber (number tag)))
       else
         len <- ReadLength ;;
         if indefinite len
         then throw (PinParseError "Unexpected indefinite length for primitive Seq-id")
         else
           val <- ParseInteger (length len) ;;
           ret (set_value id0 (to_string val))) ;;
    seqid_end <- get_offset ;;
    if empty (value id)
    then
      raw <- (if seqid_start <? seqid_end
              then bytes_at buffer seqid_start (seqid_end - seqid_start)
              else ret []) ;;
      let best := longest_run raw in
      ret (if empty best then id else set_value id best)
    else ret id.

Definition ParseSeqIdList (fuel : nat) : M (list SeqId) :=
  tag <- ReadTag ;;
  if negb (BerClass_eqb (cls tag) Universal) || negb (number tag =? 16)
     || negb (constructed tag)
  then throw (PinParseError "Expected SEQUENCE for Seq-id list")
  else
    len <- ReadLength ;;
    offset <- get_offset ;;
    let indef := indefinite len in
    let end_ := if indef then size buffer else offset +w length len in
    loop fuel
      (fun ids : list SeqId =>
         eoc <- (if indef then IsEoc else ret false) ;;
         if eoc then advance 2 ;; ret (Break ids)
         else
           offset <- get_offset ;;
           if negb indef && (end_ <=? offset) then ret (Break ids)
           else
             id <- ParseSeqId fuel ;;
             ret (Continue (ids ++ [id])))
      [].

Definition ParseSeqIdField (fuel : nat) : M (list SeqId) :=
  len <- ReadLength ;;
  start <- get_offset ;;
  ids <- ParseSeqIdList fuel ;;
  (if indefinite len
   then
     loop fuel
       (fun _ : unit =>
          eoc <- IsEoc ;;
          if negb eoc then SkipElement fuel ;; ret (Continue tt)
          else ret (Break tt))
       tt ;;
     advance 2
   else
     let end_ := start +w length len in
     offset <- get_offset ;;
     when (offset <? end_) (set_offset end_)) ;;
  ret ids.

Definition set_title (entry : BlastDefLine) (t : string) : BlastDefLine :=
  mkDefLine t (seqids entry) (taxid entry).

Definition set_seqids (entry : BlastDefLine) (ids : list SeqId) : BlastDefLine :=
  mkDefLine (def_title entry) ids (taxid entry).

Definition set_taxid (entry : BlastDefLine) (t : Z) : BlastDefLine :=
  mkDefLine (def_title entry) (seqids entry) (Some t).

(** [!entry.title.empty() || !entry.seqids.empty() || entry.taxid] *)
Definition populated (entry : BlastDefLine) : bool :=
  negb (empty (def_title entry))
  || negb (match seqids entry with [] => true | _ => false end)
  || (match taxid entry with Some _ => true | None => false end).

(** One round of the loop over the fields of a definition line (the inner
    [while (true)] of [DecodeDeflineSet]); the loop variable is [entry]. *)
Definition defline_field (fuel : nat) (def_indef : bool) (def_end : Z)
           (entry : BlastDefLine) : M (step BlastDefLine BlastDefLine) :=
  eoc <- (if def_indef then IsEoc else ret false) ;;
  if eoc then advance 2 ;; ret (Break entry)
  else
    offset <- get_offset ;;
    if negb def_indef && (def_end <=? offset) then ret (Break entry)
    else
      field_tag <- ReadTag ;;
      if negb (BerClass_eqb (cls field_tag) ContextSpecific)
      then SkipElement fuel ;; ret (Continue entry)
      else if number field_tag =? 0 then
        len <- ReadLength ;;
        t <- (if constructed field_tag || indefinite len
              then ParseExplicitVisible fuel len
              else ParseString (length len)) ;;
        ret (Continue (set_title entry t))
      else if number field_tag =? 1 then
        ids <- ParseSeqIdField fuel ;;
        ret (Continue (set_seqids entry ids))
      else if number field_tag =? 2 then
        len <- ReadLength ;;
        t <- (if constructed field_tag || indefinite len
              then ParseExplicitInteger fuel len
              else ParseInteger (length len)) ;;
        ret (Continue (set_taxid entry t))
      else SkipElement fuel ;; ret (Continue entry).

(** [error_out] is [None] for a null pointer and [Some w] for a pointer to a
    string holding [w]. *)
Definition deflines_state : Type := list BlastDefLine * option string.

(** One round of the loop over the definition lines (the outer
    [while (true)] of [DecodeDeflineSet]); the loop variables are [deflines]
    and [*error_out]. The handler of the inner [try] ends in [break], which
    leaves this loop. *)
Definition defline_round (fuel : nat) (outer_indef : bool) (outer_end : Z)
           (st : deflines_state) : M (step deflines_state deflines_state) :=
  let '(deflines, error_out) := st in
  eoc <- (if outer_indef then IsEoc else ret false) ;;
  if eoc then advance 2 ;; ret (Break st)
  else
    offset <- get_offset ;;
    if negb outer_indef && (outer_end <=? offset) then ret (Break st)
    else
      let def_start := offset in
      def_tag <- ReadTag ;;
      if negb (BerClass_eqb (cls def_tag) Universal) || negb (number def_tag =? 16)
         || negb (constructed def_tag)
      then set_offset def_start ;; SkipElement fuel ;; ret (Continue st)
      else
        def_len <- ReadLength ;;
        offset <- get_offset ;;
        let def_indef := indefinite def_len in
        let def_end := if def_indef then size buffer else offset +w length def_len in
        fields <- loop_try fuel (defline_field fuel def_indef def_end)
                    (mkDefLine EmptyString [] None) ;;
        match fields with
        | inl entry => ret (Continue (deflines ++ [entry], error_out))
        | inr (ex, entry) =>
            let error_out' :=
              match error_out with
              | Some EmptyString => Some (what ex)
              | _ => error_out
              end in
            let deflines' :=
              if populated entry then deflines ++ [entry] else deflines in
            ret (Break (deflines', error_out'))
        end.

(** The statements of [DecodeDeflineSet] that come before the outer [try]. *)
Definition outer_header : M BerLength :=
  outer_tag <- ReadTag ;;
  if negb (BerClass_eqb (cls outer_tag) Universal) || negb (number outer_tag =? 16)
  then throw (PinParseError "Expected Blast-def-line-set sequence")
  else ReadLength.

(** [read_offset_array]: [count] calls of [ReadBE32] fill the table. *)
Fixpoint read_offset_array (count : nat) : M (list Z) :=
  match count with
  | O => ret []
  | S count' =>
      v <- ReadBE32 ;;
      rest <- read_offset_array count' ;;
      ret (v :: rest)
  end.

(** The body of [ParsePinFile] on the bytes of the file. The second
    component of the result tells whether the trailing-bytes warning was
    written to [std::cerr]. *)
Definition ParsePinFile_body : M (PinIndex * bool) :=
  index_version <- ReadBE32 ;;
  if negb (index_version =? 4) && negb (index_version =? 5)
  then throw (PinParseError
                ("Unsupported database format version: " ++ to_string index_version))
  else
    seq_type_flag <- ReadBE32 ;;
    let index_is_protein := seq_type_flag =? 1 in
    index_volume_number <- (if index_version =? 5 then ReadBE32 else ret 0) ;;
    index_title <- ReadPascalString ;;
    index_lmdb_file <- (if index_version =? 5 then ReadPascalString
                        else ret EmptyString) ;;
    index_date <- ReadPascalString ;;
    index_num_oids <- ReadBE32 ;;
    index_total_length <- ReadLE64 ;;
    index_max_length <- ReadBE32 ;;
    let count := Z.to_nat (index_num_oids +w 1) in
    index_header_offsets <- read_offset_array count ;;
    index_sequence_offsets <- read_offset_array count ;;
    index_ambiguity_offsets <- (if negb index_is_protein then read_offset_array count
                                else ret []) ;;
    offset <- get_offset ;;
    ret (mkPinIndex index_version index_is_protein index_volume_number
           index_title index_lmdb_file index_date index_num_oids
           index_total_length index_max_length index_header_offsets
           index_sequence_offsets index_ambiguity_offsets,
         negb (offset =? size buffer)).

End Reader.

(** [DecodeDeflineSet(blob, error_out)]: the returned vector together with the
    final content of [*error_out]. *)
Definition DecodeDeflineSet (fuel : nat) (blob : list byte) (error_out : option string)
  : result deflines_state :=
  (outer_len <- outer_header blob ;;
   offset <- get_offset ;;
   let outer_indef := indefinite outer_len in
   let outer_end := if outer_indef then size blob else offset +w length outer_len in
   caught <- loop_try fuel (defline_round blob fuel outer_indef outer_end)
               ([], error_out) ;;
   match caught with
   | inl st => ret st
   | inr (ex, (deflines, error_out')) =>
       ret (deflines,
            match error_out' with
            | Some _ => Some (what ex)
            | None => None
            end)
   end) 0.

(** [ParsePinFile(path)], given the bytes [ReadFile(path)] returned. *)
Definition ParsePinFile (data : list byte) : result (PinIndex * bool) :=
  ParsePinFile_body data 0.

(** [std::vector::at] *)
Definition at_ (v : list Z) (i : Z) : exn + Z :=
  match (if 0 <=? i then nth_error v (Z.to_nat i) else None) with
  | Some x => inr x
  | None => inl (out_of_range "vector::_M_range_check")
  end.

(** The loop of [ExtractHeaders] from [i] on, [n] rounds left. *)
Fixpoint ExtractHeaders_loop (index : PinIndex) (data : list byte) (n : nat) (i : Z)
  : exn + list (list byte) :=
  match n with
  | O => inr []
  | S n' =>
      match at_ (header_offsets index) i with
      | inl e => inl e
      | inr start =>
          match at_ (header_offsets index) (i + 1) with
          | inl e => inl e
          | inr end_ =>
              if (end_ <? start) || (size data <? end_)
              then inl (runtime_error
                          ("Header offsets for OID " ++ to_string i ++ " are invalid"))
              else
                match ExtractHeaders_loop index data n' (i + 1) with
                | inl e => inl e
                | inr headers => inr (sub_bytes data start (end_ - start) :: headers)
                end
          end
      end
  end.

(** [ExtractHeaders(index, phr_path)], given the bytes of the header file. *)
Definition ExtractHeaders (index : PinIndex) (data : list byte)
  : exn + list (list byte) :=
  ExtractHeaders_loop index data (Z.to_nat (num_oids index)) 0.

(** One character of the output of [os << std::hex]: the digit [d] in
    base 16, in lower case. *)
Definition hex_digit (d : Z) : ascii :=
  nth (Z.to_nat d)
    [ "0"; "1"; "2"; "3"; "4"; "5"; "6"; "7";
      "8"; "9"; "a"; "b"; "c"; "d"; "e"; "f" ]%char "0"%char.

(** [os << std::setw(2) << v] under [std::hex] and [std::setfill('0')], for
    the value [v] of an [unsigned char]. *)
Definition hex_byte (v : Z) : string :=
  String (hex_digit (v / 16)) (String (hex_digit (v mod 16)) EmptyString).

(** The loop of [TruncateForDisplay] over the first [limit] bytes: a blank
    follows every byte but the last, [if (i + 1 != limit) os << ' ']. *)
Fixpoint TruncateForDisplay_loop (shown : list byte) : string :=
  match shown with
  | [] => EmptyString
  | [b] => hex_byte (u8 b)
  | b :: rest => (hex_byte (u8 b) ++ " " ++ TruncateForDisplay_loop rest)%string
  end.

Definition TruncateForDisplay (data : list byte) (max_bytes : Z) : string :=
  let limit := Z.min max_bytes (size data) in
  let dots := if limit <? size data then " ..."%string else EmptyString in
  (TruncateForDisplay_loop (sub_bytes data 0 limit) ++ dots)%string.

Definition FormatSeqId (id : SeqId) : string :=
  (type id ++ ":" ++ (if empty (value id) then "<none>" else value id)
   ++ match id_version id with
      | Some v => "." ++ to_string v
      | None => ""
      end)%string.

(** ["\n"] *)
Definition newline : string := String "010"%char EmptyString.

(** What [PrintSummary] prints before the header blocks. *)
Definition summary_head (index : PinIndex) : string :=
  ("Database version : " ++ to_string (version index) ++ newline
   ++ "Sequence type    : " ++ (if is_protein index then "protein" else "nucleotide")
   ++ newline
   ++ "Volume number    : " ++ to_string (volume_number index) ++ newline
   ++ "Title            : " ++ title index ++ newline
   ++ (if negb (empty (lmdb_file index))
       then "LMDB file        : " ++ lmdb_file index ++ newline
       else EmptyString)
   ++ "Date             : " ++ date index ++ newline
   ++ "Sequences        : " ++ to_string (num_oids index) ++ newline
   ++ "Total length     : " ++ to_string (total_length index) ++ newline
   ++ "Max sequence len : " ++ to_string (max_length index) ++ newline
   ++ newline ++ "Header blocks:" ++ newline)%string.

(** The loop of [PrintSummary] over the Seq-ids of a definition line;
    [first] tells whether [k] is 0. *)
Fixpoint seqids_report (first : bool) (ids : list SeqId) : string :=
  match ids with
  | [] => EmptyString
  | id :: ids' =>
      ((if first then EmptyString else ", ") ++ FormatSeqId id
       ++ seqids_report false ids')%string
  end.

(** What [PrintSummary] prints for the definition line [j]. *)
Definition defline_report (j : Z) (def : BlastDefLine) : string :=
  ("    Defline " ++ to_string j ++ ": "
   ++ (if empty (def_title def) then "<no title>" else def_title def) ++ newline
   ++ (match seqids def with
       | [] => EmptyString
       | ids => "      IDs    : " ++ seqids_report true ids ++ newline
       end)
   ++ (match taxid def with
       | Some t => "      TaxID : " ++ to_string t ++ newline
       | None => EmptyString
       end))%string.

Fixpoint deflines_report (j : Z) (deflines : list BlastDefLine) : string :=
  match deflines with
  | [] => EmptyString
  | def :: deflines' => (defline_report j def ++ deflines_report (j + 1) deflines')%string
  end.

(** How [PrintSummary] ends: it returns, or an exception leaves it, each
    time with the text that [std::cout] holds; or [DecodeDeflineSet] has no
    defined behaviour or runs out of fuel. *)
Inductive summary : Type :=
| Printed (out : string)
| Aborted (out : string) (e : exn)
| Unfinished.

(** The body of the loop of [PrintSummary] on the header [i]. *)
Definition header_report (fuel : nat) (i : Z) (header : list byte) (out : string)
  : summary :=
  let out :=
    (out ++ "  OID " ++ to_string i ++ " -> " ++ to_string (size header) ++ " bytes"
     ++ newline)%string in
  match DecodeDeflineSet fuel header (Some EmptyString) with
  | Ret (deflines, decode_error) _ =>
      Printed
        (out
         ++ (match deflines with
             | [] => "    (no deflines decoded)" ++ newline
             | _ => EmptyString
             end)
         ++ deflines_report 0 deflines
         ++ (match decode_error with
             | Some (String c w) =>
                 "    Warning: partial decode - " ++ String c w ++ newline
                 ++ "    Raw: " ++ TruncateForDisplay header 32 ++ newline
             | _ => EmptyString
             end))%string
  | Throw e _ => Aborted out e
  | Undefined => Unfinished
  | OutOfFuel => Unfinished
  end.

(** The loop of [PrintSummary] over the headers from [i] on. *)
Fixpoint PrintSummary_loop (fuel : nat) (headers : list (list byte)) (i : Z)
         (out : string) : summary :=
  match headers with
  | [] => Printed out
  | header :: headers' =>
      match header_report fuel i header out with
      | Printed out' => PrintSummary_loop fuel headers' (i + 1) out'
      | ended => ended
      end
  end.

(** [PrintSummary(index, headers)] *)
Definition PrintSummary (fuel : nat) (index : PinIndex) (headers : list (list byte))
  : summary :=
  PrintSummary_loop fuel headers 0 (summary_head index).

End LegacyHeaderReader.

(** * psq_reader.cpp *)

Module PsqReader.

Record PinIndex : Type := mkPinIndex {
  version : Z;
  sequence_type : Z;
  volume_number : Z;
  title : string;
  lmdb_name : string;
  creation_date : string;
  num_sequences : Z;
  total_residues : Z;
  max_length : Z;
  sequence_offsets : list Z
}.

(** [static_cast<int>] of a [uint32_t]. *)
Definition int32 (x : Z) : Z := (x + 2 ^ 31) mod 2 ^ 32 - 2 ^ 31.

(** The class [BinaryCursor]: [m_Data] is the section variable, [m_Pos] the
    state of the monad. *)
Section BinaryCursor.

Variable m_Data : list byte.

Definition EnsureAvailable (bytes : Z) : M unit :=
  m_Pos <- get_offset ;;
  if size m_Data <? m_Pos +w bytes
  then throw (runtime_error "PIN file ended unexpectedly")
  else ret tt.

(** [(b0 << 24) | (b1 << 16) | (b2 << 8) | b3] on [uint32_t]. *)
Definition be32 (b0 b1 b2 b3 : Z) : Z :=
  Z.lor (Z.lor (Z.lor (uint32 (Z.shiftl b0 24)) (uint32 (Z.shiftl b1 16)))
               (uint32 (Z.shiftl b2 8))) b3.

Definition ReadUInt32 : M Z :=
  EnsureAvailable 4 ;;
  m_Pos <- get_offset ;;
  b0 <- byte_at m_Data m_Pos ;;
  b1 <- byte_at m_Data (m_Pos +w 1) ;;
  b2 <- byte_at m_Data (m_Pos +w 2) ;;
  b3 <- byte_at m_Data (m_Pos +w 3) ;;
  advance 4 ;;
  ret (be32 b0 b1 b2 b3).

(** [for (int i = 0; i < 8; ++i) value = (value << 8) | m_Data[m_Pos + i]] *)
Definition ReadUInt64 : M Z :=
  EnsureAvailable 8 ;;
  m_Pos <- get_offset ;;
  bs <- bytes_at m_Data m_Pos 8 ;;
  advance 8 ;;
  ret (fold_left (fun value b => uint64 (Z.lor (Z.shiftl value 8) (u8 b))) bs 0).

Definition ReadString : M string :=
  len <- ReadUInt32 ;;
  EnsureAvailable len ;;
  m_Pos <- get_offset ;;
  bs <- bytes_at m_Data m_Pos len ;;
  advance len ;;
  ret (string_of_list_byte bs).

(** The body of [ParsePin] after [BinaryCursor cursor(ReadFile(path))]. The
    [for] loop over [i <= index.num_sequences] runs on fuel: with
    [num_sequences = 0xFFFFFFFF] its condition never fails. *)
Definition ParsePin_body (fuel : nat) : M PinIndex :=
  v <- ReadUInt32 ;;
  t <- ReadUInt32 ;;
  let index_version := int32 v in
  let index_sequence_type := int32 t in
  if negb (index_version =? 4) && negb (index_version =? 5)
  then throw (runtime_error
                ("Unsupported PIN format version: " ++ to_string index_version))
  else
    index_volume_number <- (if index_version =? 5 then ReadUInt32 else ret 0) ;;
    index_title <- ReadString ;;
    index_lmdb_name <- (if index_version =? 5 then ReadString else ret EmptyString) ;;
    index_creation_date <- ReadString ;;
    index_num_sequences <- ReadUInt32 ;;
    index_total_residues <- ReadUInt64 ;;
    index_max_length <- ReadUInt32 ;;
    let region_bytes := uint64 (uint32 (index_num_sequences + 1) * 4) in
    header_offsets <- get_offset ;;
    let sequence_offsets_pos := header_offsets +w region_bytes in
    if size m_Data <? sequence_offsets_pos +w region_bytes
    then throw (runtime_error "PIN offset tables are incomplete")
    else
      offsets <-
        loop fuel
          (fun st : Z * list Z =>
             let '(i, offsets) := st in
             if i <=? index_num_sequences
             then
               let pos := sequence_offsets_pos +w uint32 (i * 4) in
               b0 <- byte_at m_Data pos ;;
               b1 <- byte_at m_Data (pos +w 1) ;;
               b2 <- byte_at m_Data (pos +w 2) ;;
               b3 <- byte_at m_Data (pos +w 3) ;;
               ret (Continue (uint32 (i + 1), offsets ++ [be32 b0 b1 b2 b3]))
             else ret (Break offsets))
          (0, []) ;;
      if (List.length offsets <? 2)%nat
         || (last offsets 0 <=? hd 0 offsets)
      then throw (runtime_error "PIN sequence offsets appear to be corrupt")
      else if negb (index_sequence_type =? 1)
      then throw (runtime_error "This reader only supports protein databases (type 1)")
      else
        ret (mkPinIndex index_version index_sequence_type index_volume_number
               index_title index_lmdb_name index_creation_date
               index_num_sequences index_total_residues index_max_length offsets).

End BinaryCursor.

(** [ParsePin(path)], given the bytes of the file; [ReadFile] of this program
    rejects an empty file. *)
Definition ParsePin (fuel : nat) (path : string) (data : list byte) : result PinIndex :=
  match data with
  | [] => Throw (runtime_error ("File is empty: " ++ path)) 0
  | _ => ParsePin_body data fuel 0
  end.

Definition kNcbistdaaToAscii : list ascii :=
  [ "*"; "A"; "B"; "C"; "D"; "E"; "F"; "G"; "H"; "I"; "K"; "L"; "M";
    "N"; "P"; "Q"; "R"; "S"; "T"; "V"; "W"; "Y"; "X"; "Z"; "U"; "O";
    "J"; "-" ]%char.

Definition DecodeResidue (code : Z) : ascii :=
  if code =? 0 then Ascii.zero
  else if code <? Z.of_nat (List.length kNcbistdaaToAscii)
  then nth (Z.to_nat code) kNcbistdaaToAscii Ascii.zero
  else "?"%char.

(** The loop of [DecodeSequence] over [data[pos]], [pos] from [start] up to
    [end]; [codes] are the bytes not yet visited. *)
Fixpoint DecodeSequence_loop (codes : list byte) (decoded : string) : string :=
  match codes with
  | [] => decoded
  | code :: codes' =>
      let aa := DecodeResidue (u8 code) in
      if Ascii.eqb aa Ascii.zero then decoded
      else DecodeSequence_loop codes' (decoded ++ String aa EmptyString)
  end.

Definition DecodeSequence (data : list byte) (start end_ : Z) : exn + string :=
  if (end_ <? start) || (size data <? end_)
  then inl (runtime_error "Sequence offsets exceed PSQ file length")
  else inr (DecodeSequence_loop (sub_bytes data start (end_ - start)) EmptyString).

(** [path.compare(path.size() - ext.size(), ext.size(), ext) == 0] is the
    comparison of the last [ext.size()] characters of [path] with [ext]. *)
Definition StripExtension (path ext : string) : string :=
  if (String.length ext <=? String.length path)%nat
     && String.eqb
          (substring (String.length path - String.length ext) (String.length ext) path)
          ext
  then substring 0 (String.length path - String.length ext) path
  else path.

(** The first statements of [main]: the names [pin_path] and [psq_path] of
    the two files, from [argv[1]]. *)
Definition database_paths (input : string) : string * string :=
  let input := StripExtension (StripExtension input ".pin") ".psq" in
  ((input ++ ".pin")%string, (input ++ ".psq")%string).

(** ["\n"] *)
Definition newline : string := String "010"%char EmptyString.

(** What the loop of [main] over the sequences has written to [std::cout],
    and how it ended: at its end, by an exception, or by a read outside
    [index.sequence_offsets], which has no defined behaviour. *)
Inductive printed : Type :=
| Completed (out : string)
| Raised (out : string) (e : exn)
| OutsideTable (out : string).

(** The loop of [main] over the sequences from [i] on, [n] rounds left;
    [out] is what [std::cout] holds. *)
Fixpoint print_sequences (index : PinIndex) (psq_bytes : list byte) (n : nat) (i : Z)
         (out : string) : printed :=
  match n with
  | O => Completed out
  | S n' =>
      match nth_error (sequence_offsets index) (Z.to_nat i),
            nth_error (sequence_offsets index) (Z.to_nat (uint32 (i + 1))) with
      | Some start, Some end_ =>
          match DecodeSequence psq_bytes start end_ with
          | inl e => Raised out e
          | inr sequence =>
              print_sequences index psq_bytes n' (uint32 (i + 1))
                (out ++ ">oid_" ++ to_string i ++ " length="
                 ++ to_string (Z.of_nat (String.length sequence)) ++ newline
                 ++ sequence ++ newline)%string
          end
      | _, _ => OutsideTable out
      end
  end.

(** What a run of [main] leaves: the text on [std::cout], the text on
    [std::cerr] and the exit status. *)
Record run : Type := mkRun {
  cout : string;
  cerr : string;
  status : Z
}.

(** [ReadFile(path)]; [file] is the content of the file, [None] when it
    cannot be opened. *)
Definition ReadFile (path : string) (file : option (list byte)) : exn + list byte :=
  match file with
  | None => inl (runtime_error ("Unable to open file: " ++ path)%string)
  | Some [] => inl (runtime_error ("File is empty: " ++ path)%string)
  | Some data => inr data
  end.

(** What [main] prints about the index before the sequences. *)
Definition metadata_report (index : PinIndex) : string :=
  ("PIN metadata" ++ newline
   ++ "  Version: " ++ to_string (version index) ++ newline
   ++ "  Database type: protein" ++ newline
   ++ "  Title: " ++ title index ++ newline
   ++ (if negb (empty (lmdb_name index))
       then "  LMDB backing file: " ++ lmdb_name index ++ newline
       else EmptyString)
   ++ "  Created: " ++ creation_date index ++ newline
   ++ "  Sequences: " ++ to_string (num_sequences index) ++ newline
   ++ "  Total residues: " ++ to_string (total_residues index) ++ newline
   ++ "  Longest sequence: " ++ to_string (max_length index) ++ " residues"
   ++ newline)%string.

(** The handler of [main]: [catch (const std::exception& ex)]. *)
Definition report_error (out : string) (e : exn) : run :=
  mkRun out ("Error: " ++ what e ++ newline)%string 1.

(** [main(argc, argv)]; [pin] and [psq] are the contents of the files named
    [pin_path] and [psq_path], [None] for a file that cannot be opened. The
    result is [None] when the program has no defined behaviour or the model
    runs out of fuel. *)
Definition main (fuel : nat) (argv : list string) (pin psq : option (list byte))
  : option run :=
  match argv with
  | _ :: input :: _ =>
      let '(pin_path, psq_path) := database_paths input in
      match ReadFile pin_path pin with
      | inl e => Some (report_error EmptyString e)
      | inr data =>
          match ParsePin fuel pin_path data with
          | Ret index _ =>
              match ReadFile psq_path psq with
              | inl e => Some (report_error EmptyString e)
              | inr psq_bytes =>
                  match print_sequences index psq_bytes
                          (Z.to_nat (num_sequences index)) 0 (metadata_report index) with
                  | Completed out => Some (mkRun out EmptyString 0)
                  | Raised out e => Some (report_error out e)
                  | OutsideTable _ => None
                  end
              end
          | Throw e _ => Some (report_error EmptyString e)
          | Undefined => None
          | OutOfFuel => None
          end
      end
  | _ =>
      Some (mkRun EmptyString
              ("Usage: psq_reader <database path without extension or .pin/.psq path>"
               ++ newline)%string 1)
  end.

End PsqReader.

(** * psq_reader.cpp: the alias-file reader *)

Module AliasReader.

(** [std::string::npos] *)
Definition npos : Z := 2 ^ 64 - 1.

Definition tab : ascii := "009"%char.
Definition line_feed : ascii := "010"%char.
Definition vertical_tab : ascii := "011"%char.
Definition form_feed : ascii := "012"%char.
Definition carriage_return : ascii := "013"%char.

(** The members of the [find] family return a position or [npos]. *)
Definition position (found : option nat) : Z :=
  match found with
  | Some i => Z.of_nat i
  | None => npos
  end.

(** The first and the last position, counted from [i] at the head of
    [text], of a character that satisfies [p]. *)
Fixpoint find_first (p : ascii -> bool) (text : string) (i : nat) : option nat :=
  match text with
  | EmptyString => None
  | String a rest => if p a then Some i else find_first p rest (S i)
  end.

Fixpoint find_last (p : ascii -> bool) (text : string) (i : nat) : option nat :=
  match text with
  | EmptyString => None
  | String a rest =>
      match find_last p rest (S i) with
      | Some j => Some j
      | None => if p a then Some i else None
      end
  end.

Definition one_of (chars : list ascii) (a : ascii) : bool :=
  existsb (Ascii.eqb a) chars.

(** [" \t\r\n"] *)
Definition blanks : list ascii := [" "%char; tab; carriage_return; line_feed].

(** [text.substr(pos, count)] *)
Definition substr (text : string) (pos count : Z) : exn + string :=
  let size := Z.of_nat (String.length text) in
  if size <? pos
  then inl (out_of_range
              ("basic_string::substr: __pos (which is " ++ to_string pos
               ++ ") > this->size() (which is " ++ to_string size ++ ")")%string)
  else inr (substring (Z.to_nat pos) (Z.to_nat (Z.min count (size - pos))) text).

Definition Trim (text : string) : exn + string :=
  let first := position (find_first (fun a => negb (one_of blanks a)) text 0) in
  if first =? npos then inr EmptyString
  else
    let last := position (find_last (fun a => negb (one_of blanks a)) text 0) in
    substr text first (uint64 (last - first + 1)).

(** [std::isspace] in the "C" locale, which the stream uses. *)
Definition isspace (a : ascii) : bool :=
  one_of [" "%char; tab; line_feed; vertical_tab; form_feed; carriage_return] a.

(** [in >> token] skips white space and then takes the characters up to the
    next white space; it fails when no character is left to take. *)
Fixpoint skip_space (input : string) : string :=
  match input with
  | EmptyString => EmptyString
  | String a rest => if isspace a then skip_space rest else input
  end.

Fixpoint take_token (input : string) : string * string :=
  match input with
  | EmptyString => (EmptyString, EmptyString)
  | String a rest =>
      if isspace a then (EmptyString, input)
      else let '(token, remainder) := take_token rest in (String a token, remainder)
  end.

Definition extract_token (input : string) : option (string * string) :=
  match skip_space input with
  | EmptyString => None
  | input' => Some (take_token input')
  end.

(** The loop of [SplitWhitespace]; [None] when the fuel runs out. *)
Fixpoint SplitWhitespace_loop (fuel : nat) (input : string) (parts : list string)
  : option (list string) :=
  match fuel with
  | O => None
  | S fuel' =>
      match extract_token input with
      | None => Some parts
      | Some (token, input') => SplitWhitespace_loop fuel' input' (parts ++ [token])
      end
  end.

Definition SplitWhitespace (fuel : nat) (text : string) : option (list string) :=
  SplitWhitespace_loop fuel text [].

(** [std::map<std::string, std::string>] as the list of its entries; the
    order of the entries is the order of insertion. *)
Record AliasInfo : Type := mkAliasInfo {
  volumes : list string;
  metadata : list (string * string)
}.

(** [info.metadata.find(key)] *)
Fixpoint metadata_find (key : string) (entries : list (string * string))
  : option string :=
  match entries with
  | [] => None
  | (k, v) :: entries' => if String.eqb k key then Some v else metadata_find key entries'
  end.

(** How a part of [ParseAliasFile] ends: with a value, with an exception, or
    with the fuel of [SplitWhitespace] used up. *)
Inductive outcome (A : Type) : Type :=
| Done (a : A)
| Raise (e : exn)
| NoFuel.

Arguments Done {A} a.
Arguments Raise {A} e.
Arguments NoFuel {A}.

Definition and_then {A B} (c : outcome A) (k : A -> outcome B) : outcome B :=
  match c with
  | Done a => k a
  | Raise e => Raise e
  | NoFuel => NoFuel
  end.

Definition may_throw {A} (r : exn + A) : outcome A :=
  match r with
  | inl e => Raise e
  | inr a => Done a
  end.

(** The body of the loop of [ParseAliasFile] from [line = Trim(line)] on;
    [continue] and the end of the body give [Done]. *)
Definition parse_entry (fuel : nat) (line_number : Z) (line : string) (info : AliasInfo)
  : outcome AliasInfo :=
  and_then (may_throw (Trim line)) (fun line =>
  if empty line then Done info
  else
    let key_end := position (find_first (one_of [" "%char; tab]) line 0) in
    if key_end =? npos
    then Raise (runtime_error
                  ("Line " ++ to_string line_number ++ " is missing a value: " ++ line)%string)
    else
      and_then (may_throw (substr line 0 key_end)) (fun key =>
      and_then (may_throw (substr line (szadd key_end 1) npos)) (fun tail =>
      and_then (may_throw (Trim tail)) (fun value =>
      if empty value
      then Raise (runtime_error
                    ("Line " ++ to_string line_number ++ " has an empty value: " ++ line)%string)
      else if String.eqb key "DBLIST"
      then
        match SplitWhitespace fuel value with
        | None => NoFuel
        | Some [] =>
            Raise (runtime_error
                     ("DBLIST on line " ++ to_string line_number
                      ++ " does not list any volumes")%string)
        | Some listed => Done (mkAliasInfo (volumes info ++ listed) (metadata info))
        end
      else
        match metadata_find key (metadata info) with
        | Some _ =>
            Raise (runtime_error
                     ("Duplicate key '" ++ key ++ "' on line "
                      ++ to_string line_number)%string)
        | None => Done (mkAliasInfo (volumes info) (metadata info ++ [(key, value)]))
        end)))).

(** The body of the loop of [ParseAliasFile] on one line, after
    [++line_number]: the comment is cut off, the rest is an entry. *)
Definition parse_line (fuel : nat) (line_number : Z) (line : string) (info : AliasInfo)
  : outcome AliasInfo :=
  let comment := position (find_first (Ascii.eqb "#"%char) line 0) in
  and_then (if negb (comment =? npos) then may_throw (substr line 0 comment)
            else Done line)
           (fun line => parse_entry fuel line_number line info).

(** The lines that the calls of [std::getline] give one after the other:
    [line] holds the characters taken since the last line feed, and
    [extracted] tells whether there are any. A call that meets the end of
    the file at once fails. *)
Fixpoint getlines (content : string) (line : string) (extracted : bool) : list string :=
  match content with
  | EmptyString => if extracted then [line] else []
  | String c rest =>
      if Ascii.eqb c line_feed then line :: getlines rest EmptyString false
      else getlines rest (line ++ String c EmptyString)%string true
  end.

(** The [while (std::getline(in, line))] loop over the lines left. *)
Fixpoint ParseAliasFile_loop (fuel : nat) (lines : list string) (line_number : Z)
         (info : AliasInfo) : outcome AliasInfo :=
  match lines with
  | [] => Done info
  | line :: lines' =>
      let line_number := szadd line_number 1 in
      and_then (parse_line fuel line_number line info)
               (ParseAliasFile_loop fuel lines' line_number)
  end.

(** [ParseAliasFile(path)]; [file] is the content of the file, [None] when
    it cannot be opened. *)
Definition ParseAliasFile (fuel : nat) (path : string) (file : option string)
  : outcome AliasInfo :=
  match file with
  | None => Raise (runtime_error ("Unable to open alias file: " ++ path)%string)
  | Some content =>
      ParseAliasFile_loop fuel (getlines content EmptyString false) 0
        (mkAliasInfo [] [])
  end.

End AliasReader.

(** * Notions used in the statements *)

Import LegacyHeaderReader.

(** A byte of a long-form tag number that announces a further byte. *)
Definition continuation (b : byte) : Prop := Z.land (u8 b) 0x80 <> 0.

(** The tag number accumulated in base 128 from the bytes [conts]. *)
Definition partial_number (conts : list byte) : Z :=
  fold_left (fun n b => uint32 (Z.lor (Z.shiftl n 7) (Z.land (u8 b) 0x7F))) conts 0.

(** The integer that four bytes denote in big-endian order. *)
Definition be_value (b0 b1 b2 b3 : byte) : Z :=
  ((u8 b0 * 256 + u8 b1) * 256 + u8 b2) * 256 + u8 b3.

(** The integer that eight bytes denote in little-endian order. *)
Definition le_value (b0 b1 b2 b3 b4 b5 b6 b7 : byte) : Z :=
  u8 b0 + 2 ^ 8 * u8 b1 + 2 ^ 16 * u8 b2 + 2 ^ 24 * u8 b3
  + 2 ^ 32 * u8 b4 + 2 ^ 40 * u8 b5 + 2 ^ 48 * u8 b6 + 2 ^ 56 * u8 b7.

(** The reading that the specification calls equivalent to the reverse
    iteration: two 32-bit words, each big-endian inside, the low-order word
    stored first. *)
Definition word_swapped_value (b0 b1 b2 b3 b4 b5 b6 b7 : byte) : Z :=
  be_value b4 b5 b6 b7 * 2 ^ 32 + be_value b0 b1 b2 b3.

(** The residue table of the specification, index to letter. *)
Definition residue_table : list ascii :=
  [ Ascii.zero; "A"; "B"; "C"; "D"; "E"; "F"; "G"; "H"; "I"; "K"; "L"; "M";
    "N"; "P"; "Q"; "R"; "S"; "T"; "V"; "W"; "Y"; "X"; "Z"; "U"; "O";
    "J"; "-" ]%char.

(** The letter the specification gives to a code that is not the terminator:
    the table entry below 28, ['?'] from 28 on. *)
Definition residue_letter (code : Z) : ascii :=
  if code <? 28 then nth (Z.to_nat code) residue_table Ascii.zero else "?"%char.

(** Decoding as the specification words it: letter by letter, up to the first
    code 0, which gives no letter. *)
Fixpoint decoded_residues (codes : list byte) : string :=
  match codes with
  | [] => EmptyString
  | code :: codes' =>
      if u8 code =? 0 then EmptyString
      else String (residue_letter (u8 code)) (decoded_residues codes')
  end.

(** A header blob on which the string scan meets an indefinite-length
    element that is not a string at the very end of its wrapper:
    [30 80] the outer sequence, [30 80] a definition line, [A0 02] a title
    wrapper of two bytes, [30 80] its content. *)
Definition stalling_blob : list byte :=
  [x30; x80; x30; x80; xa0; x02; x30; x80].

(** An indefinite-length sequence whose only child announces a length of
    [2^64 - 10] bytes, so that [offset + len.length] wraps back to the start
    of the child. *)
Definition wrapping_element : list byte :=
  [x30; x80; x04; x88; xff; xff; xff; xff; xff; xff; xff; xf6].

(** The integer that the bytes of a BER INTEGER denote for [ParseInteger]:
    big-endian, sign taken from the first byte, kept in a [std::int64_t]. *)
Definition integer_value (bs : list byte) : Z :=
  match bs with
  | [] => 0
  | b :: _ => integer_accumulate (if Z.land (u8 b) 0x80 =? 0 then 0 else -1) bs
  end.

(** The state and offset after the first [n] rounds of a loop, when each of
    them asks for a further round. *)
Fixpoint rounds {S R : Type} (n : nat) (body : S -> M (step S R)) (s : S) (o : Z)
  : option (S * Z) :=
  match n with
  | O => Some (s, o)
  | Datatypes.S n' =>
      match body s o with
      | Ret (Continue s') o' => rounds n' body s' o'
      | _ => None
      end
  end.

(** At [offset] the outer loop of [DecodeDeflineSet] is not at its end, a
    definition line (a constructed universal sequence) starts there, and the
    loop over its fields raises [ex], with [entry] holding the fields
    decoded until then and the cursor left at [offset']. *)
Definition line_raises (blob : list byte) (fuel : nat) (outer_indef : bool)
           (outer_end offset : Z) (ex : exn) (entry : BlastDefLine) (offset' : Z)
  : Prop :=
  (if outer_indef then IsEoc blob else ret false) offset = Ret false offset
  /\ negb outer_indef && (outer_end <=? offset) = false
  /\ exists def_tag off1 def_len off2,
       ReadTag blob offset = Ret def_tag off1
       /\ cls def_tag = Universal /\ number def_tag = 16
       /\ constructed def_tag = true
       /\ ReadLength blob off1 = Ret def_len off2
       /\ loop_try fuel
            (defline_field blob fuel (indefinite def_len)
               (if indefinite def_len then size blob else off2 +w length def_len))
            (mkDefLine EmptyString [] None) off2
          = Ret (inr (ex, entry)) offset'.

(** Two definition lines in an outer sequence of 18 bytes. The first holds
    the title "hi" and a taxid of length 0, which [ParseInteger] rejects;
    the second holds the title "ok". *)
Definition failing_then_good_blob : list byte :=
  [x30; x12;
   x30; x08; xa0; x04; x1a; x02; x68; x69; x82; x00;
   x30; x06; xa0; x04; x1a; x02; x6f; x6b].

(** The same two lines in the other order. *)
Definition good_then_failing_blob : list byte :=
  [x30; x12;
   x30; x06; xa0; x04; x1a; x02; x6f; x6b;
   x30; x08; xa0; x04; x1a; x02; x68; x69; x82; x00].

(** The byte groups of an index file, in the order of the layout. A word is
    four bytes (eight for the residue count); a string is its length word
    followed by its bytes. [w_volume], [w_lmdb_length] and [lmdb_bytes] are
    in the file only for version 5, [w_ambiguity_offset] only when the
    sequence-type word is not 1. The offset tables have one entry each, as
    the layout prescribes for a record count of 0. *)
Record index_layout : Type := mkLayout {
  w_version : list byte;
  w_flag : list byte;
  w_volume : list byte;
  w_title_length : list byte;
  title_bytes : list byte;
  w_lmdb_length : list byte;
  lmdb_bytes : list byte;
  w_date_length : list byte;
  date_bytes : list byte;
  w_num_records : list byte;
  w_total_residues : list byte;
  w_max_length : list byte;
  w_header_offset : list byte;
  w_sequence_offset : list byte;
  w_ambiguity_offset : list byte;
  trailing : list byte
}.

Definition layout_version (L : index_layout) : Z := be_accumulate (w_version L).

Definition layout_is_protein (L : index_layout) : bool :=
  be_accumulate (w_flag L) =? 1.

Definition index_file (L : index_layout) : list byte :=
  w_version L ++ w_flag L
  ++ (if layout_version L =? 5 then w_volume L else [])
  ++ w_title_length L ++ title_bytes L
  ++ (if layout_version L =? 5 then w_lmdb_length L ++ lmdb_bytes L else [])
  ++ w_date_length L ++ date_bytes L
  ++ w_num_records L ++ w_total_residues L ++ w_max_length L
  ++ w_header_offset L ++ w_sequence_offset L
  ++ (if layout_is_protein L then [] else w_ambiguity_offset L)
  ++ trailing L.

(** The groups have the sizes of the layout, the version is 4 or 5, the
    length words give the lengths of the strings, and the record count
    is 0. *)
Definition well_formed_empty_index (L : index_layout) : Prop :=
  size (w_version L) = 4 /\ (layout_version L = 4 \/ layout_version L = 5)
  /\ size (w_flag L) = 4 /\ size (w_volume L) = 4
  /\ size (w_title_length L) = 4
  /\ be_accumulate (w_title_length L) = size (title_bytes L)
  /\ size (w_lmdb_length L) = 4
  /\ be_accumulate (w_lmdb_length L) = size (lmdb_bytes L)
  /\ size (w_date_length L) = 4
  /\ be_accumulate (w_date_length L) = size (date_bytes L)
  /\ size (w_num_records L) = 4 /\ be_accumulate (w_num_records L) = 0
  /\ size (w_total_residues L) = 8 /\ size (w_max_length L) = 4
  /\ size (w_header_offset L) = 4 /\ size (w_sequence_offset L) = 4
  /\ size (w_ambiguity_offset L) = 4.

(** The index record that the groups denote. *)
Definition parsed_empty_index (L : index_layout) : PinIndex :=
  mkPinIndex (layout_version L) (layout_is_protein L)
    (if layout_version L =? 5 then be_accumulate (w_volume L) else 0)
    (string_of_list_byte (title_bytes L))
    (if layout_version L =? 5 then string_of_list_byte (lmdb_bytes L)
     else EmptyString)
    (string_of_list_byte (date_bytes L))
    0 (le_accumulate (w_total_residues L)) (be_accumulate (w_max_length L))
    [be_accumulate (w_header_offset L)]
    [be_accumulate (w_sequence_offset L)]
    (if layout_is_protein L then [] else [be_accumulate (w_ambiguity_offset L)]).

(** A version-4 protein index with title "a", date "b" and no record. *)
Definition empty_index_example : index_layout :=
  mkLayout [x00; x00; x00; x04] [x00; x00; x00; x01] [x00; x00; x00; x00]
    [x00; x00; x00; x01] [x61] [x00; x00; x00; x00] []
    [x00; x00; x00; x01] [x62]
    [x00; x00; x00; x00] [x00; x00; x00; x00; x00; x00; x00; x00]
    [x00; x00; x00; x00] [x00; x00; x00; x00] [x00; x00; x00; x00]
    [x00; x00; x00; x00] [].

(** [c2] returns what [c1] returns wherever [c1] does not run out of fuel. *)
Definition refines {A : Type} (c1 c2 : M A) : Prop :=
  forall o, c1 o <> OutOfFuel -> c2 o = c1 o.

(** ** Encoders, for the round-trip statements *)

(** The byte of value [n mod 256]. *)
Definition byte_of (n : Z) : byte :=
  match Byte.of_N (Z.to_N (n mod 256)) with
  | Some b => b
  | None => x00
  end.

(** A 32-bit word, most significant byte first. *)
Definition be32_bytes (n : Z) : list byte :=
  [byte_of (n / 2 ^ 24); byte_of (n / 2 ^ 16); byte_of (n / 2 ^ 8); byte_of n].

(** A 64-bit word, least significant byte first. *)
Definition le64_bytes (n : Z) : list byte :=
  [byte_of n; byte_of (n / 2 ^ 8); byte_of (n / 2 ^ 16); byte_of (n / 2 ^ 24);
   byte_of (n / 2 ^ 32); byte_of (n / 2 ^ 40); byte_of (n / 2 ^ 48);
   byte_of (n / 2 ^ 56)].

(** A string behind its 32-bit length. *)
Definition length_prefixed (s : string) : list byte :=
  be32_bytes (Z.of_nat (String.length s)) ++ list_byte_of_string s.

(** A table of 32-bit offsets. *)
Definition offset_table (offsets : list Z) : list byte :=
  flat_map be32_bytes offsets.

Definition is_uint32 (x : Z) : bool := (0 <=? x) && (x <? 2 ^ 32).

(** The bytes of the index file that holds [I], with [flag] as its
    sequence-type word. *)
Definition index_bytes (flag : Z) (I : PinIndex) : list byte :=
  be32_bytes (version I) ++ be32_bytes flag
  ++ (if version I =? 5 then be32_bytes (volume_number I) else [])
  ++ length_prefixed (title I)
  ++ (if version I =? 5 then length_prefixed (lmdb_file I) else [])
  ++ length_prefixed (date I)
  ++ be32_bytes (num_oids I) ++ le64_bytes (total_length I)
  ++ be32_bytes (max_length I)
  ++ offset_table (header_offsets I) ++ offset_table (sequence_offsets I)
  ++ offset_table (ambiguity_offsets I).

(** A table of [num_oids + 1] offsets of 32 bits. *)
Definition table_well_formed (num_oids : Z) (offsets : list Z) : bool :=
  (Z.of_nat (List.length offsets) =? num_oids + 1) && forallb is_uint32 offsets.

(** [I] is an index that a file with the sequence-type word [flag] can hold:
    every field fits its width, the fields of version 5 are at their
    defaults in version 4, the tables have [num_oids + 1] entries, and the
    ambiguity table is there exactly for a nucleotide index. *)
Definition index_well_formed (flag : Z) (I : PinIndex) : bool :=
  ((version I =? 4) || (version I =? 5))
  && is_uint32 flag && Bool.eqb (is_protein I) (flag =? 1)
  && (if version I =? 5
      then is_uint32 (volume_number I)
           && is_uint32 (Z.of_nat (String.length (lmdb_file I)))
      else (volume_number I =? 0) && empty (lmdb_file I))
  && is_uint32 (Z.of_nat (String.length (title I)))
  && is_uint32 (Z.of_nat (String.length (date I)))
  && is_uint32 (num_oids I)
  && (0 <=? total_length I) && (total_length I <? 2 ^ 64)
  && is_uint32 (max_length I)
  && table_well_formed (num_oids I) (header_offsets I)
  && table_well_formed (num_oids I) (sequence_offsets I)
  && (if is_protein I
      then match ambiguity_offsets I with [] => true | _ => false end
      else table_well_formed (num_oids I) (ambiguity_offsets I)).

(** The bytes of [buffer] from [offset] on are [bs]. *)
Definition remaining (buffer : list byte) (offset : Z) (bs : list byte) : Prop :=
  exists pre, buffer = pre ++ bs /\ offset = size pre.

(** What [ParsePinFile] makes of the bytes [data]: its own error, raised
    with the cursor inside the file, or an index whose encoding is the
    beginning of [data], the warning telling whether bytes follow it. *)
Definition index_outcome (data : list byte) (r : result (PinIndex * bool)) : Prop :=
  (exists w o, r = Throw (PinParseError w) o /\ 0 <= o <= size data)
  \/ (exists flag I trailing,
        index_well_formed flag I = true
        /\ data = index_bytes flag I ++ trailing
        /\ r = Ret (I, negb (size trailing =? 0)) (size (index_bytes flag I))).

(** The pairs of consecutive entries of an offset table: entry [i] and
    entry [i + 1] delimit the header of record [i]. *)
Fixpoint header_ranges (offsets : list Z) : list (Z * Z) :=
  match offsets with
  | [] => []
  | start :: rest =>
      match rest with
      | [] => []
      | end_ :: _ => (start, end_) :: header_ranges rest
      end
  end.

(** A range that lies in a file of [limit] bytes. *)
Definition range_valid (limit : Z) (r : Z * Z) : bool :=
  (fst r <=? snd r) && (snd r <=? limit).

(** The number of the first record, counting from [i], whose range is not
    valid. *)
Fixpoint first_invalid (limit : Z) (ranges : list (Z * Z)) (i : Z) : option Z :=
  match ranges with
  | [] => None
  | r :: ranges' =>
      if range_valid limit r then first_invalid limit ranges' (i + 1) else Some i
  end.

(** The bytes of [data] in a range. *)
Definition header_slice (data : list byte) (r : Z * Z) : list byte :=
  sub_bytes data (fst r) (snd r - fst r).

(** A version-4 protein index of two records, with header offsets 0, 3, 5,
    and a header file of five bytes. *)
Definition two_record_index : PinIndex :=
  mkPinIndex 4 true 0 "nr" "" "2024" 2 9 5 [0; 3; 5] [1; 5; 10] [].

Definition five_byte_headers : list byte := [x30; x01; x00; x30; x00].

(** A 64-bit word, most significant byte first. *)
Definition be64_bytes (n : Z) : list byte := rev (le64_bytes n).

(** The bytes of an index file up to the offset tables, as the sequence
    reader takes them: the layout of [index_bytes] with the residue count
    most significant byte first. *)
Definition psq_header_bytes (I : PsqReader.PinIndex) : list byte :=
  be32_bytes (PsqReader.version I) ++ be32_bytes (PsqReader.sequence_type I)
  ++ (if PsqReader.version I =? 5 then be32_bytes (PsqReader.volume_number I) else [])
  ++ length_prefixed (PsqReader.title I)
  ++ (if PsqReader.version I =? 5 then length_prefixed (PsqReader.lmdb_name I) else [])
  ++ length_prefixed (PsqReader.creation_date I)
  ++ be32_bytes (PsqReader.num_sequences I)
  ++ be64_bytes (PsqReader.total_residues I)
  ++ be32_bytes (PsqReader.max_length I).

(** An index that [ParsePin] is meant for: a protein index of version 4
    or 5 with at least one sequence, fewer than [2^30] of them, every field
    in its width, both tables of [num_sequences + 1] entries, and the first
    sequence offset below the last. *)
Definition psq_index_well_formed (I : PsqReader.PinIndex) (header_table : list Z)
  : bool :=
  ((PsqReader.version I =? 4) || (PsqReader.version I =? 5))
  && (PsqReader.sequence_type I =? 1)
  && (if PsqReader.version I =? 5
      then is_uint32 (PsqReader.volume_number I)
           && is_uint32 (Z.of_nat (String.length (PsqReader.lmdb_name I)))
      else (PsqReader.volume_number I =? 0) && empty (PsqReader.lmdb_name I))
  && is_uint32 (Z.of_nat (String.length (PsqReader.title I)))
  && is_uint32 (Z.of_nat (String.length (PsqReader.creation_date I)))
  && (1 <=? PsqReader.num_sequences I) && (PsqReader.num_sequences I <? 2 ^ 30)
  && (0 <=? PsqReader.total_residues I) && (PsqReader.total_residues I <? 2 ^ 64)
  && is_uint32 (PsqReader.max_length I)
  && table_well_formed (PsqReader.num_sequences I) header_table
  && table_well_formed (PsqReader.num_sequences I) (PsqReader.sequence_offsets I)
  && (hd 0 (PsqReader.sequence_offsets I) <? last (PsqReader.sequence_offsets I) 0).

(** A version-5 protein index of two sequences for the sequence reader. *)
Definition two_sequence_index : PsqReader.PinIndex :=
  PsqReader.mkPinIndex 5 1 0 "nr" "nr.lmdb" "2024" 2 9 5 [1; 5; 10].

(** One round of the loop of [ParsePin] over the sequence-offset table. *)
Abbreviation sequence_table_round buffer pos n :=
  (fun st : Z * list Z =>
     let '(i, offsets) := st in
     if i <=? n
     then
       let pos := pos +w uint32 (i * 4) in
       b0 <- byte_at buffer pos ;;
       b1 <- byte_at buffer (pos +w 1) ;;
       b2 <- byte_at buffer (pos +w 2) ;;
       b3 <- byte_at buffer (pos +w 3) ;;
       ret (Continue (uint32 (i + 1), offsets ++ [PsqReader.be32 b0 b1 b2 b3]))
     else ret (Break offsets)).

(** The unsigned integer that bytes denote, most significant byte first. *)
Definition be_unsigned (bs : list byte) : Z :=
  fold_left (fun v b => v * 256 + u8 b) bs 0.

(** The signed integer that the bytes of a BER INTEGER denote in two's
    complement, most significant byte first. *)
Definition twos_complement (bs : list byte) : Z :=
  match bs with
  | [] => 0
  | b :: _ =>
      if u8 b <? 128 then be_unsigned bs
      else be_unsigned bs - 256 ^ Z.of_nat (List.length bs)
  end.

(** [path] ends with [ext]. *)
Definition has_suffix (path ext : string) : Prop :=
  exists base, path = (base ++ ext)%string.

(** The characters that the Seq-id fallback of [ParseSeqId] collects:
    letters, digits, ['_'] and ['.']. *)
Definition run_char (b : byte) : bool :=
  isalnum (u8 b) || (u8 b =? 0x5F) || (u8 b =? 0x2E).

(** What the scan of [ParseSeqId] knows after the bytes [seen]: [current]
    is the run that ends [seen], [best] is a run inside [seen], and no run
    inside [seen] is longer than both. *)
Definition scan_invariant (seen : list byte) (st : list byte * list byte) : Prop :=
  let '(best, current) := st in
  forallb run_char best = true
  /\ forallb run_char current = true
  /\ (exists pre post, seen = pre ++ best ++ post)
  /\ (exists pre, seen = pre ++ current)
  /\ (forall pre run, seen = pre ++ run -> forallb run_char run = true ->
        (List.length run <= List.length current)%nat)
  /\ (forall pre run post, seen = pre ++ run ++ post -> forallb run_char run = true ->
        (List.length run <= Nat.max (List.length best) (List.length current))%nat).

(** The first position of a letter in a table, counting from [i]. *)
Fixpoint position (a : ascii) (table : list ascii) (i : Z) : Z :=
  match table with
  | [] => i
  | x :: table' => if Ascii.eqb x a then i else position a table' (i + 1)
  end.

(** The residue code that a letter of a decoded sequence stands for. *)
Definition residue_code (a : ascii) : Z :=
  position a PsqReader.kNcbistdaaToAscii 0.

Definition class_code (c : BerClass) : Z :=
  match c with
  | Universal => 0
  | Application => 1
  | ContextSpecific => 2
  | Private => 3
  end.

(** The identifier octets of a tag: one octet for a number below 31;
    otherwise the lead octet with all five number bits set, followed by the
    number in base 128 on five octets, all but the last with the high bit
    set. *)
Definition tag_bytes (t : BerTag) : list byte :=
  let lead := class_code (cls t) * 64 + (if constructed t then 32 else 0) in
  if number t <? 31 then [byte_of (lead + number t)]
  else [byte_of (lead + 31);
        byte_of (128 + number t / 128 ^ 4 mod 128);
        byte_of (128 + number t / 128 ^ 3 mod 128);
        byte_of (128 + number t / 128 ^ 2 mod 128);
        byte_of (128 + number t / 128 mod 128);
        byte_of (number t mod 128)].

(** ** An encoder of definition lines *)

(** The tag that [ReadTag] makes of a single identifier octet. *)
Definition short_tag (b : byte) : BerTag :=
  mkTag (BerClass_of (Z.shiftr (Z.land (u8 b) 0xC0) 6))
        (negb (Z.land (u8 b) 0x20 =? 0))
        (Z.land (u8 b) 0x1F).

(** The octets of a definite length: the length itself below 128, and
    otherwise [0x84] followed by the length on four octets. *)
Definition length_bytes (n : Z) : list byte :=
  if n <? 128 then [byte_of n] else x84 :: be32_bytes n.

(** The title field [[0]]: an explicit wrapper of indefinite length around a
    VisibleString; left out for an empty title. *)
Definition title_field (t : string) : list byte :=
  if empty t then []
  else [xa0; x80; x1a] ++ length_bytes (Z.of_nat (String.length t))
       ++ list_byte_of_string t ++ [x00; x00].

(** The taxid field [[2]]: an explicit wrapper of indefinite length around
    an INTEGER of eight content octets in two's complement. *)
Definition taxid_field (t : option Z) : list byte :=
  match t with
  | None => []
  | Some v => [xa2; x80; x02; x08] ++ be64_bytes (v mod 2 ^ 64) ++ [x00; x00]
  end.

(** ** A Seq-id with an accession and a version *)

(** The identifier octet of the choice [k] of a Seq-id: context-specific
    and constructed. *)
Definition seqid_tag (k : Z) : byte := byte_of (0xA0 + k).

(** The accession, field [[1]], as a primitive string. *)
Definition accession_field (accession : string) : list byte :=
  x81 :: length_bytes (Z.of_nat (String.length accession))
  ++ list_byte_of_string accession.

(** The version, field [[3]], as a primitive integer of eight octets. *)
Definition version_field (v : option Z) : list byte :=
  match v with
  | Some v => x83 :: x08 :: be64_bytes (v mod 2 ^ 64)
  | None => []
  end.

Definition text_seqid_body (accession : string) (v : option Z) : list byte :=
  accession_field accession ++ version_field v.

(** A Seq-id of choice [k] in the definite-length form. *)
Definition text_seqid_bytes (k : Z) (accession : string) (v : option Z) : list byte :=
  seqid_tag k :: length_bytes (size (text_seqid_body accession v))
  ++ text_seqid_body accession v.

(** The choice is one of a text Seq-id; the accession is not empty; the
    lengths fit 32 bits and the version fits a [std::int64_t]. *)
Definition text_seqid_encodable (k : Z) (accession : string) (v : option Z) : bool :=
  (0 <=? k) && (k <? 31) && negb (k =? 14)
  && negb (empty accession)
  && is_uint32 (Z.of_nat (String.length accession))
  && is_uint32 (size (text_seqid_body accession v))
  && match v with
     | None => true
     | Some v => (- 2 ^ 63 <=? v) && (v <? 2 ^ 63)
     end.

(** ** Definition lines as they are written *)

(** A Seq-id as it is written: the choice, the accession, the version. *)
Definition written_seqid : Type := (Z * string * option Z)%type.

Definition seqid_bytes (id : written_seqid) : list byte :=
  let '(k, accession, v) := id in text_seqid_bytes k accession v.

Definition seqid_encodable (id : written_seqid) : bool :=
  let '(k, accession, v) := id in text_seqid_encodable k accession v.

(** What the decoder makes of it. *)
Definition decoded_seqid (id : written_seqid) : SeqId :=
  let '(k, accession, v) := id in mkSeqId (TagNameFromNumber k) accession v.

Record written_defline : Type := mkWritten {
  written_title : string;
  written_seqids : list written_seqid;
  written_taxid : option Z
}.

Definition decoded_defline (w : written_defline) : BlastDefLine :=
  mkDefLine (written_title w) (map decoded_seqid (written_seqids w)) (written_taxid w).

(** The Seq-id field [[1]]: an explicit wrapper of indefinite length around
    a sequence of indefinite length that holds the Seq-ids. *)
Definition seqid_field (ids : list written_seqid) : list byte :=
  [xa1; x80; x30; x80] ++ flat_map seqid_bytes ids ++ [x00; x00; x00; x00].

(** A definition line: a sequence of indefinite length holding its
    fields. *)
Definition defline_bytes (w : written_defline) : list byte :=
  [x30; x80] ++ title_field (written_title w) ++ seqid_field (written_seqids w)
  ++ taxid_field (written_taxid w) ++ [x00; x00].

(** A set of definition lines: a sequence of indefinite length. *)
Definition defline_set_bytes (ws : list written_defline) : list byte :=
  [x30; x80] ++ flat_map defline_bytes ws ++ [x00; x00].

(** The definition lines that [defline_bytes] encodes in full: Seq-ids that
    can be written, a title whose length fits 32 bits, a taxid that fits a
    [std::int64_t]. *)
Definition defline_encodable (w : written_defline) : bool :=
  forallb seqid_encodable (written_seqids w)
  && is_uint32 (Z.of_nat (String.length (written_title w)))
  && match written_taxid w with
     | None => true
     | Some v => (- 2 ^ 63 <=? v) && (v <? 2 ^ 63)
     end.

(** Fuel that [DecodeDeflineSet] needs on a set: a round per line and one
    more; four rounds for the fields of a line; a round per Seq-id of a line
    and one more. *)
Definition defline_set_fuel (ws : list written_defline) : nat :=
  Nat.max (4 + List.length ws)
          (S (list_max (map (fun w => List.length (written_seqids w)) ws))).

Definition written_deflines_example : list written_defline :=
  [mkWritten "lysozyme" [(7, "P00698", Some 1); (4, "AAA48944", None)]%string (Some 9031);
   mkWritten "" [] (Some (-1))].

(** ** BER elements, as [SkipElement] sees them *)

(** An element with a tag of one octet: of definite length, with its content
    octets, which [SkipElement] does not look at; or of indefinite length,
    with the elements it holds before the end-of-contents octets. *)
#[warnings="-register-all"]
Inductive element : Type :=
| Definite (tag : byte) (content : list byte)
| Indefinite (tag : byte) (children : list element).

Fixpoint element_bytes (e : element) : list byte :=
  match e with
  | Definite tag content => tag :: length_bytes (size content) ++ content
  | Indefinite tag children =>
      tag :: x80 :: flat_map element_bytes children ++ [x00; x00]
  end.

(** The element whose octets are the end-of-contents octets [00 00]. *)
Definition is_end_of_contents (e : element) : bool :=
  match e with
  | Definite tag [] => u8 tag =? 0
  | _ => false
  end.

(** The tag takes one octet; a definite length fits 32 bits; an element of
    indefinite length is constructed, and none of the elements it holds is
    mistaken for its end. *)
Fixpoint element_well_formed (e : element) : bool :=
  match e with
  | Definite tag content =>
      negb (Z.land (u8 tag) 0x1F =? 0x1F) && (size content <? 2 ^ 32)
  | Indefinite tag children =>
      negb (Z.land (u8 tag) 0x1F =? 0x1F) && negb (Z.land (u8 tag) 0x20 =? 0)
      && forallb (fun c => element_well_formed c && negb (is_end_of_contents c))
           children
  end.

(** Fuel that [SkipElement] needs on an element: one unit per level of
    nesting, and at each level one round per element held and one for the
    end-of-contents octets. *)
Fixpoint element_fuel (e : element) : nat :=
  match e with
  | Definite _ _ => 1
  | Indefinite _ children =>
      S (Nat.max (S (List.length children)) (list_max (map element_fuel children)))
  end.

Definition nested_element_example : element :=
  Indefinite x30
    [Definite x1a [x61; x62]; Indefinite xa0 [Definite x02 [x05]]; Definite x00 [x00]].

(** ** A sequence file, for the round trip of the sequence reader *)

(** The letters that stand for a residue: the entries of the decoder's
    table but the first one. *)
Definition residue_letters : list ascii := tl PsqReader.kNcbistdaaToAscii.

Definition is_residue_letter (a : ascii) : bool :=
  existsb (Ascii.eqb a) residue_letters.

Definition is_sequence (s : string) : bool :=
  forallb is_residue_letter (list_ascii_of_string s).

(** The codes of the letters of a sequence. *)
Definition residues (s : string) : list byte :=
  map (fun a => byte_of (residue_code a)) (list_ascii_of_string s).

Definition terminated_sequences (seqs : list string) : list byte :=
  flat_map (fun s => residues s ++ [x00]) seqs.

(** A sequence file: a NUL byte, then each sequence followed by a NUL
    byte. *)
Definition sequence_file (seqs : list string) : list byte :=
  x00 :: terminated_sequences seqs.

(** The offsets of a sequence file whose first sequence is at [start]: the
    start of every sequence, then the end of the file. *)
Fixpoint sequence_starts (start : Z) (seqs : list string) : list Z :=
  match seqs with
  | [] => [start]
  | s :: rest =>
      start :: sequence_starts (start + Z.of_nat (String.length s) + 1) rest
  end.

(** What [main] prints for sequence number [i]. *)
Definition sequence_record (i : Z) (s : string) : string :=
  (">oid_" ++ to_string i ++ " length=" ++ to_string (Z.of_nat (String.length s))
   ++ PsqReader.newline ++ s ++ PsqReader.newline)%string.

Fixpoint sequence_records (i : Z) (seqs : list string) : string :=
  match seqs with
  | [] => EmptyString
  | s :: rest => (sequence_record i s ++ sequence_records (i + 1) rest)%string
  end.

(** ** A string in segments *)

(** A primitive VisibleString. *)
Definition visible_chunk (c : string) : list byte :=
  x1a :: length_bytes (Z.of_nat (String.length c)) ++ list_byte_of_string c.

(** A constructed VisibleString of indefinite length, holding its text in
    primitive segments. *)
Definition segmented_string (chunks : list string) : list byte :=
  x3a :: x80 :: flat_map visible_chunk chunks ++ [x00; x00].

Definition chunk_encodable (c : string) : bool :=
  is_uint32 (Z.of_nat (String.length c)).

(** ** Blanks at the ends of a text *)

Definition is_blank (a : ascii) : bool := AliasReader.one_of AliasReader.blanks a.

Definition all_blank (s : string) : bool :=
  forallb is_blank (list_ascii_of_string s).

Definition head_char (s : string) : option ascii :=
  match s with
  | EmptyString => None
  | String a _ => Some a
  end.

Fixpoint last_char (s : string) : option ascii :=
  match s with
  | EmptyString => None
  | String a EmptyString => Some a
  | String _ rest => last_char rest
  end.

(** A text that neither starts nor ends with a blank; the empty text is
    one. *)
Definition no_blank_at_ends (s : string) : bool :=
  match head_char s, last_char s with
  | Some a, Some b => negb (is_blank a) && negb (is_blank b)
  | _, _ => true
  end.

(** ** Words and the white space between them *)

(** A word: at least one character, none of them white space. *)
Definition is_word (t : string) : bool :=
  negb (empty t)
  && forallb (fun a => negb (AliasReader.isspace a)) (list_ascii_of_string t).

Definition all_space (w : string) : bool :=
  forallb AliasReader.isspace (list_ascii_of_string w).

(** A text as white space and words in turn: each word behind its white
    space, and the white space at the end. *)
Fixpoint spaced (pieces : list (string * string)) (trail : string) : string :=
  match pieces with
  | [] => trail
  | (w, t) :: pieces' => (w ++ t ++ spaced pieces' trail)%string
  end.

(** White space and words in turn: there is white space between any two
    words; there need be none before the first. *)
Definition well_spaced (pieces : list (string * string)) (trail : string) : bool :=
  forallb (fun p => all_space (fst p) && is_word (snd p)) pieces
  && forallb (fun p => negb (empty (fst p))) (tl pieces)
  && all_space trail.

(** ** The entries of an alias file *)

Definition has_char (c : ascii) (s : string) : bool :=
  existsb (Ascii.eqb c) (list_ascii_of_string s).

(** A key: at least one character; no blank, tab or ['#'], and no blank of
    [Trim] in front. *)
Definition is_key (key : string) : bool :=
  negb (empty key)
  && forallb (fun a => negb (AliasReader.one_of [" "%char; AliasReader.tab; "#"%char] a))
       (list_ascii_of_string key)
  && match head_char key with
     | Some a => negb (is_blank a)
     | None => true
     end.

(** A value: at least one character, no blank at its ends, no ['#']. *)
Definition is_value (value : string) : bool :=
  negb (empty value) && no_blank_at_ends value && negb (has_char "#"%char value).

(** What holds of every [AliasInfo] that [ParseAliasFile] returns. *)
Definition alias_info_invariant (info : AliasReader.AliasInfo) : Prop :=
  forallb is_word (AliasReader.volumes info) = true
  /\ NoDup (map fst (AliasReader.metadata info))
  /\ forallb (fun entry => is_key (fst entry) && negb (String.eqb (fst entry) "DBLIST")
                           && is_value (snd entry))
       (AliasReader.metadata info) = true.

(** The exceptions that [ParseAliasFile] raises on a file that it could
    open. *)
Definition alias_file_error (e : exn) : Prop :=
  exists n : Z,
    (exists line, e = runtime_error
                        ("Line " ++ to_string n ++ " is missing a value: " ++ line)%string)
    \/ e = runtime_error
             ("DBLIST on line " ++ to_string n ++ " does not list any volumes")%string
    \/ (exists key, e = runtime_error
                          ("Duplicate key '" ++ key ++ "' on line " ++ to_string n)%string).

(** How the body of the loop of [ParseAliasFile] ends on line [n]: the line
    holds no entry; it holds a key without a value; it lists volumes, or
    fails to; it holds a key and a value, the key new or not. *)
Definition line_outcome (n : Z) (info : AliasReader.AliasInfo)
           (r : AliasReader.outcome AliasReader.AliasInfo) : Prop :=
  r = AliasReader.Done info
  \/ (exists l,
         r = AliasReader.Raise
               (runtime_error ("Line " ++ to_string n ++ " is missing a value: " ++ l)%string))
  \/ (exists value words,
         is_value value = true /\ forallb is_word words = true
         /\ r = match words with
                | [] => AliasReader.Raise
                          (runtime_error
                             ("DBLIST on line " ++ to_string n
                              ++ " does not list any volumes")%string)
                | _ => AliasReader.Done
                         (AliasReader.mkAliasInfo (AliasReader.volumes info ++ words)
                            (AliasReader.metadata info))
                end)
  \/ (exists key value,
         is_key key = true /\ String.eqb key "DBLIST" = false /\ is_value value = true
         /\ r = match AliasReader.metadata_find key (AliasReader.metadata info) with
                | Some _ => AliasReader.Raise
                              (runtime_error
                                 ("Duplicate key '" ++ key ++ "' on line "
                                  ++ to_string n)%string)
                | None => AliasReader.Done
                            (AliasReader.mkAliasInfo (AliasReader.volumes info)
                               (AliasReader.metadata info ++ [(key, value)]))
                end).

(** What [ParseAliasFile] may end with on a file that it could open. *)
Definition alias_file_outcome (r : AliasReader.outcome AliasReader.AliasInfo) : Prop :=
  match r with
  | AliasReader.Done info => alias_info_invariant info
  | AliasReader.Raise e => alias_file_error e
  | AliasReader.NoFuel => False
  end.

(** ** The text of an alias file *)

(** Lines, each with a line feed behind it. *)
Fixpoint unlines (lines : list string) : string :=
  match lines with
  | [] => EmptyString
  | line :: lines' => (line ++ String AliasReader.line_feed (unlines lines'))%string
  end.

(** The line of an entry: the key, a blank, the value. *)
Definition entry_line (entry : string * string) : string :=
  (fst entry ++ " " ++ snd entry)%string.

(** The line that lists the volumes, with a blank between them. *)
Definition volumes_line (listed : list string) : string :=
  ("DBLIST " ++ String.concat " " listed)%string.

(** The volumes on one line, if there are any. *)
Definition volume_lines (listed : list string) : list string :=
  match listed with
  | [] => []
  | _ :: _ => [volumes_line listed]
  end.

(** An alias file that holds what [info] holds: the line of the volumes,
    then one line per entry. *)
Definition alias_file_text (info : AliasReader.AliasInfo) : string :=
  unlines (volume_lines (AliasReader.volumes info)
           ++ map entry_line (AliasReader.metadata info)).

(** No string comes twice. *)
Fixpoint distinct (keys : list string) : bool :=
  match keys with
  | [] => true
  | key :: keys' => negb (existsb (String.eqb key) keys') && distinct keys'
  end.

(** What an alias file can hold: what [ParseAliasFile] returns, with no
    ['#'] in the name of a volume and no line feed in a key or a value. *)
Definition alias_info_writable (info : AliasReader.AliasInfo) : bool :=
  forallb (fun v => is_word v && negb (has_char "#"%char v)) (AliasReader.volumes info)
  && forallb (fun entry =>
                is_key (fst entry) && negb (String.eqb (fst entry) "DBLIST")
                && is_value (snd entry)
                && negb (has_char AliasReader.line_feed (fst entry))
                && negb (has_char AliasReader.line_feed (snd entry)))
       (AliasReader.metadata info)
  && distinct (map fst (AliasReader.metadata info)).

Definition alias_info_example : AliasReader.AliasInfo :=
  AliasReader.mkAliasInfo ["nr.00"; "nr.01"]%string
    [("TITLE", "my db"); ("NSEQ", "2")]%string.

(** ** The summary of encoded headers *)

(** What [PrintSummary] is to print for the header [i] that holds the
    definition lines [ws]: the size of the header, the lines, no warning. *)
Definition written_block (i : Z) (ws : list written_defline) : string :=
  ("  OID " ++ to_string i ++ " -> " ++ to_string (size (defline_set_bytes ws))
   ++ " bytes" ++ newline
   ++ (match ws with
       | [] => "    (no deflines decoded)" ++ newline
       | _ => EmptyString
       end)
   ++ deflines_report 0 (map decoded_defline ws))%string.

Fixpoint written_blocks (i : Z) (wss : list (list written_defline)) : string :=
  match wss with
  | [] => EmptyString
  | ws :: wss' => (written_block i ws ++ written_blocks (i + 1) wss')%string
  end.

(** The first line of the block of the header [i]. *)
Definition block_head (i : Z) (header : list byte) : string :=
  ("  OID " ++ to_string i ++ " -> " ++ to_string (size header) ++ " bytes"
   ++ newline)%string.

Definition summary_index_example : PinIndex :=
  mkPinIndex 4 true 0 "db" "" "2024" 2 9 5 [0; 5; 5] [0; 4; 9] [].

(** Headers that [PrintSummary] is to print in full with the fuel [fuel]:
    sets of definition lines that can be written, each within the size of
    an offset and the fuel. *)
Definition headers_encodable (fuel : nat) (wss : list (list written_defline)) : bool :=
  forallb (fun ws => forallb defline_encodable ws
                     && (size (defline_set_bytes ws) <? 2 ^ 63)
                     && (defline_set_fuel ws <=? fuel)%nat) wss.

(** * Properties *)

(** ** Bytes, slices and wrap-around *)

Lemma u8_range (b : byte) : 0 <= u8 b < 256.
Proof.
  unfold u8. pose proof (Byte.to_N_bounded b). lia.
Qed.

Lemma size_nonneg (buffer : list byte) : 0 <= size buffer.
Proof. unfold size. lia. Qed.

Lemma size_app (a b : list byte) : size (a ++ b) = size a + size b.
Proof. unfold size. rewrite length_app. lia. Qed.

Lemma size_cons (b : byte) (l : list byte) : size (b :: l) = 1 + size l.
Proof. unfold size. cbn [List.length]. lia. Qed.

Lemma szadd_small (a b : Z) : 0 <= a + b < 2 ^ 64 -> a +w b = a + b.
Proof. intros H. unfold szadd, uint64. apply Z.mod_small. exact H. Qed.

Lemma sub_bytes_app (pre bs post : list byte) :
  sub_bytes (pre ++ bs ++ post) (size pre) (size bs) = bs.
Proof.
  unfold sub_bytes, size. rewrite !Nat2Z.id.
  rewrite skipn_app, skipn_all, Nat.sub_diag. cbn [skipn app].
  rewrite firstn_app, firstn_all, Nat.sub_diag. cbn [firstn].
  apply app_nil_r.
Qed.

Lemma slice_app (pre bs post : list byte) :
  slice (pre ++ bs ++ post) (size pre) (size bs) = Some bs.
Proof.
  unfold slice. rewrite sub_bytes_app.
  pose proof (size_nonneg pre). pose proof (size_nonneg bs).
  pose proof (size_nonneg post).
  replace (0 <=? size pre) with true by (symmetry; apply Z.leb_le; lia).
  replace (0 <=? size bs) with true by (symmetry; apply Z.leb_le; lia).
  replace (size pre + size bs <=? size (pre ++ bs ++ post)) with true
    by (symmetry; apply Z.leb_le; rewrite !size_app; lia).
  reflexivity.
Qed.

Lemma bytes_at_app (pre bs post : list byte) (o : Z) :
  bytes_at (pre ++ bs ++ post) (size pre) (size bs) o = Ret bs o.
Proof. unfold bytes_at. rewrite slice_app. reflexivity. Qed.

Lemma byte_at_app (pre : list byte) (b : byte) (post : list byte) (o : Z) :
  byte_at (pre ++ b :: post) (size pre) o = Ret (u8 b) o.
Proof.
  unfold byte_at.
  change (pre ++ b :: post) with (pre ++ [b] ++ post).
  change 1 with (size [b]). rewrite slice_app. reflexivity.
Qed.

(** Every position inside the buffer splits it. *)
Lemma split_at (buffer : list byte) (i : Z) :
  0 <= i < size buffer ->
  exists pre b post, buffer = pre ++ b :: post /\ size pre = i.
Proof.
  intros H. unfold size in *.
  destruct (nth_error buffer (Z.to_nat i)) as [b|] eqn:E.
  - apply nth_error_split in E. destruct E as (pre & post & -> & Hlen).
    exists pre, b, post. split; [reflexivity | lia].
  - apply nth_error_None in E. lia.
Qed.

Lemma byte_at_inside (buffer : list byte) (i o : Z) :
  0 <= i < size buffer -> exists b, byte_at buffer i o = Ret (u8 b) o.
Proof.
  intros H. destruct (split_at buffer i H) as (pre & b & post & -> & <-).
  exists b. apply byte_at_app.
Qed.

(** [(v << n) | b] is [v * 2^n + b] when [b] fits in [n] bits. *)
Lemma lor_shiftl_add (v b n : Z) :
  0 <= n -> 0 <= b < 2 ^ n -> Z.lor (Z.shiftl v n) b = v * 2 ^ n + b.
Proof.
  intros Hn Hb.
  assert (Hland : Z.land (Z.shiftl v n) b = 0).
  { apply Z.bits_inj'. intros k Hk.
    rewrite Z.land_spec, Z.bits_0.
    destruct (Z.lt_ge_cases k n) as [Hlt | Hge].
    - rewrite Z.shiftl_spec_low by lia. reflexivity.
    - destruct (Z.eq_dec b 0) as [-> | Hb0].
      + rewrite Z.bits_0. apply andb_false_r.
      + rewrite (Z.bits_above_log2 b k), andb_false_r; [reflexivity | lia |].
        apply Z.lt_le_trans with n; [| exact Hge].
        apply Z.log2_lt_pow2; lia. }
  rewrite <- Z.lxor_lor, <- Z.add_nocarry_lxor by exact Hland.
  rewrite Z.shiftl_mul_pow2 by lia. reflexivity.
Qed.

Lemma lor_shiftl_8 (v : Z) (b : byte) :
  Z.lor (Z.shiftl v 8) (u8 b) = v * 256 + u8 b.
Proof.
  pose proof (u8_range b).
  rewrite lor_shiftl_add by lia. reflexivity.
Qed.

(** ** Reading a tag *)

Lemma ReadTag_long_bounds (rest : list byte) :
  forall n o, 0 <= o -> o + size rest < 2 ^ 64 ->
  o <= snd (ReadTag_long rest n o) <= o + size rest.
Proof.
  induction rest as [| b rest IH]; intros n o Ho Hfit; cbn [ReadTag_long].
  - cbn. unfold size. cbn. lia.
  - rewrite size_cons in Hfit. pose proof (size_nonneg rest).
    rewrite szadd_small by lia.
    destruct (Z.land (u8 b) 128 =? 0).
    + cbn [snd]. rewrite size_cons. lia.
    + specialize (IH (uint32 (Z.lor (Z.shiftl n 7) (Z.land (u8 b) 127))) (o + 1)).
      rewrite size_cons. lia.
Qed.

Lemma ReadTag_long_truncated (conts : list byte) :
  Forall continuation conts ->
  forall n o, 0 <= o -> o + size conts < 2 ^ 64 ->
  ReadTag_long conts n o =
  (fold_left (fun n b => uint32 (Z.lor (Z.shiftl n 7) (Z.land (u8 b) 0x7F))) conts n,
   o + size conts).
Proof.
  induction 1 as [| b conts Hb _ IH]; intros n o Ho Hfit; cbn [ReadTag_long fold_left].
  - unfold size. cbn. f_equal. lia.
  - rewrite size_cons in *. pose proof (size_nonneg conts).
    rewrite szadd_small by lia.
    unfold continuation in Hb. apply Z.eqb_neq in Hb. rewrite Hb.
    rewrite IH by lia. f_equal. lia.
Qed.

Lemma skipn_app_cons (pre : list byte) (b : byte) (post : list byte) :
  skipn (Z.to_nat (size pre + 1)) (pre ++ b :: post) = post.
Proof.
  unfold size. replace (Z.to_nat (Z.of_nat (List.length pre) + 1))
    with (List.length pre + 1)%nat by lia.
  rewrite skipn_app, skipn_all2 by lia.
  replace (List.length pre + 1 - List.length pre)%nat with 1%nat by lia.
  reflexivity.
Qed.

(** [ReadTag] at a position inside the buffer, in terms of the byte there
    and the bytes after it. *)
Lemma ReadTag_at (pre : list byte) (first : byte) (post : list byte) :
  size (pre ++ first :: post) < 2 ^ 64 ->
  ReadTag (pre ++ first :: post) (size pre) =
  let tag_cls := BerClass_of (Z.shiftr (Z.land (u8 first) 0xC0) 6) in
  let tag_constructed := negb (Z.land (u8 first) 0x20 =? 0) in
  if Z.land (u8 first) 0x1F =? 0x1F
  then Ret (mkTag tag_cls tag_constructed (fst (ReadTag_long post 0 (size pre + 1))))
           (snd (ReadTag_long post 0 (size pre + 1)))
  else Ret (mkTag tag_cls tag_constructed (Z.land (u8 first) 0x1F)) (size pre + 1).
Proof.
  intros Hfit. rewrite size_app, size_cons in Hfit.
  pose proof (size_nonneg pre). pose proof (size_nonneg post).
  unfold ReadTag, bind, get_offset, advance, throw, set_offset, ret.
  replace (size (pre ++ first :: post) <=? size pre) with false
    by (symmetry; apply Z.leb_gt; rewrite size_app, size_cons; lia).
  rewrite byte_at_app. rewrite szadd_small by lia.
  cbv zeta.
  destruct (Z.land (u8 first) 31 =? 31).
  - rewrite skipn_app_cons.
    destruct (ReadTag_long post 0 (size pre + 1)) as [n o']. reflexivity.
  - reflexivity.
Qed.

(** C10. [ReadTag] throws exactly when no byte remains at the offset it is
    called with; with at least one byte left it returns a tag and moves the
    offset forward inside the buffer. In particular, when the first byte
    announces a long-form number and every byte up to the end of the buffer
    has its high bit set, it returns the tag with the number accumulated so
    far and leaves the offset at the end of the buffer. *)
Theorem ReadTag_fails_only_at_end_of_buffer (buffer : list byte) (offset : Z) :
  0 <= offset -> size buffer < 2 ^ 64 ->
  ((exists e o, ReadTag buffer offset = Throw e o) <-> size buffer <= offset)
  /\ (offset < size buffer ->
      exists tag o, ReadTag buffer offset = Ret tag o /\ offset < o <= size buffer)
  /\ (forall pre first conts,
        buffer = pre ++ first :: conts -> offset = size pre ->
        Z.land (u8 first) 0x1F = 0x1F -> Forall continuation conts ->
        ReadTag buffer offset =
        Ret (mkTag (BerClass_of (Z.shiftr (Z.land (u8 first) 0xC0) 6))
                   (negb (Z.land (u8 first) 0x20 =? 0))
                   (partial_number conts))
            (size buffer)).
Proof.
  intros Hoff Hfit.
  assert (Hinside : offset < size buffer ->
            exists tag o, ReadTag buffer offset = Ret tag o /\ offset < o <= size buffer).
  { intros Hlt. destruct (split_at buffer offset) as (pre & b & post & -> & <-); [lia |].
    rewrite ReadTag_at by exact Hfit. cbv zeta.
    rewrite size_app, size_cons in *. pose proof (size_nonneg post).
    destruct (Z.land (u8 b) 31 =? 31).
    - eexists _, _. split; [reflexivity |].
      pose proof (ReadTag_long_bounds post 0 (size pre + 1)). lia.
    - eexists _, _. split; [reflexivity | lia]. }
  split; [| split].
  - split.
    + intros (e & o & Hthrow).
      destruct (Z.lt_ge_cases offset (size buffer)) as [Hlt | Hge]; [| lia].
      destruct (Hinside Hlt) as (tag & o' & Hret & _). congruence.
    + intros Hge. unfold ReadTag, bind, get_offset, throw.
      replace (size buffer <=? offset) with true by (symmetry; apply Z.leb_le; lia).
      eexists _, _. reflexivity.
  - exact Hinside.
  - intros pre first conts -> -> Hlong Hconts.
    rewrite ReadTag_at by exact Hfit. cbv zeta.
    rewrite size_app, size_cons in *. pose proof (size_nonneg pre).
    rewrite Hlong. cbn [Z.eqb Pos.eqb].
    rewrite ReadTag_long_truncated by (try assumption; lia).
    cbn [fst snd]. unfold partial_number. f_equal. lia.
Qed.

(** A context-specific long-form tag cut off after two continuation bytes. *)
Lemma ReadTag_truncated_long_form_example :
  ReadTag [x9f; x81; x82] 0 = Ret (mkTag ContextSpecific false 130) 3.
Proof.
  destruct (ReadTag_fails_only_at_end_of_buffer [x9f; x81; x82] 0) as (_ & _ & H).
  - lia.
  - vm_compute. reflexivity.
  - apply (H [] x9f [x81; x82]).
    + reflexivity.
    + reflexivity.
    + reflexivity.
    + repeat constructor; unfold continuation; vm_compute; discriminate.
Defined.

(** ** The cursor primitives of the two index parsers *)

Lemma be_value_range (b0 b1 b2 b3 : byte) : 0 <= be_value b0 b1 b2 b3 < 2 ^ 32.
Proof.
  unfold be_value.
  pose proof (u8_range b0). pose proof (u8_range b1).
  pose proof (u8_range b2). pose proof (u8_range b3). lia.
Qed.

Lemma be_accumulate_value (b0 b1 b2 b3 : byte) :
  be_accumulate [b0; b1; b2; b3] = be_value b0 b1 b2 b3.
Proof.
  pose proof (u8_range b0). pose proof (u8_range b1).
  pose proof (u8_range b2). pose proof (u8_range b3).
  unfold be_accumulate, be_value. cbn [fold_left]. unfold uint32.
  rewrite (lor_shiftl_8 0 b0), (Z.mod_small (0 * 256 + u8 b0)) by lia.
  rewrite (lor_shiftl_8 _ b1), (Z.mod_small ((0 * 256 + u8 b0) * 256 + u8 b1)) by lia.
  rewrite (lor_shiftl_8 _ b2),
    (Z.mod_small (((0 * 256 + u8 b0) * 256 + u8 b1) * 256 + u8 b2)) by lia.
  rewrite (lor_shiftl_8 _ b3), Z.mod_small by lia.
  lia.
Qed.

Lemma be32_value (b0 b1 b2 b3 : byte) :
  PsqReader.be32 (u8 b0) (u8 b1) (u8 b2) (u8 b3) = be_value b0 b1 b2 b3.
Proof.
  pose proof (u8_range b0). pose proof (u8_range b1).
  pose proof (u8_range b2). pose proof (u8_range b3).
  unfold PsqReader.be32, be_value, uint32.
  rewrite !Z.shiftl_mul_pow2 by lia.
  rewrite !Z.mod_small by lia.
  rewrite <- !Z.lor_assoc.
  rewrite <- (Z.shiftl_mul_pow2 (u8 b2) 8) by lia.
  rewrite (lor_shiftl_add (u8 b2) (u8 b3) 8) by lia.
  rewrite <- (Z.shiftl_mul_pow2 (u8 b1) 16) by lia.
  rewrite (lor_shiftl_add (u8 b1) _ 16) by lia.
  rewrite <- (Z.shiftl_mul_pow2 (u8 b0) 24) by lia.
  rewrite (lor_shiftl_add (u8 b0) _ 24) by lia.
  lia.
Qed.

Lemma byte_at_split (buffer pre mid : list byte) (b : byte) (post : list byte)
      (i o : Z) :
  buffer = pre ++ mid ++ b :: post -> i = size pre + size mid ->
  byte_at buffer i o = Ret (u8 b) o.
Proof.
  intros -> ->. rewrite app_assoc, <- size_app. apply byte_at_app.
Qed.

(** A buffer with at least [n] bytes from [offset] on. *)
Lemma split_range (buffer : list byte) (offset n : Z) :
  0 <= offset -> 0 <= n -> offset + n <= size buffer ->
  exists pre bs post,
    buffer = pre ++ bs ++ post /\ size pre = offset /\ size bs = n.
Proof.
  intros Ho Hn Hfit.
  exists (firstn (Z.to_nat offset) buffer),
         (firstn (Z.to_nat n) (skipn (Z.to_nat offset) buffer)),
         (skipn (Z.to_nat n) (skipn (Z.to_nat offset) buffer)).
  rewrite !firstn_skipn. unfold size in *.
  rewrite !length_firstn, length_skipn. repeat split; lia.
Qed.

Lemma size_4 (bs : list byte) :
  size bs = 4 -> exists b0 b1 b2 b3, bs = [b0; b1; b2; b3].
Proof.
  unfold size. intros H.
  destruct bs as [| b0 [| b1 [| b2 [| b3 [| b4 bs]]]]]; cbn in H; try lia.
  eexists _, _, _, _. reflexivity.
Qed.

Lemma ReadBE32_at (pre : list byte) (b0 b1 b2 b3 : byte) (post : list byte) :
  size (pre ++ [b0; b1; b2; b3] ++ post) < 2 ^ 64 ->
  ReadBE32 (pre ++ [b0; b1; b2; b3] ++ post) (size pre) =
  Ret (be_value b0 b1 b2 b3) (size pre + 4).
Proof.
  intros Hfit. rewrite !size_app in Hfit. change (size [b0; b1; b2; b3]) with 4 in Hfit.
  pose proof (size_nonneg pre). pose proof (size_nonneg post).
  unfold ReadBE32, bind, get_offset, advance, ret.
  rewrite szadd_small by lia.
  replace (size (pre ++ [b0; b1; b2; b3] ++ post) <? size pre + 4) with false
    by (symmetry; apply Z.ltb_ge; rewrite !size_app; change (size [b0; b1; b2; b3]) with 4; lia).
  change 4 with (size [b0; b1; b2; b3]) at 1. rewrite bytes_at_app.
  rewrite be_accumulate_value, szadd_small by lia. reflexivity.
Qed.

Lemma ReadUInt32_at (pre : list byte) (b0 b1 b2 b3 : byte) (post : list byte) :
  size (pre ++ [b0; b1; b2; b3] ++ post) < 2 ^ 64 ->
  PsqReader.ReadUInt32 (pre ++ [b0; b1; b2; b3] ++ post) (size pre) =
  Ret (be_value b0 b1 b2 b3) (size pre + 4).
Proof.
  intros Hfit. rewrite !size_app in Hfit. change (size [b0; b1; b2; b3]) with 4 in Hfit.
  pose proof (size_nonneg pre). pose proof (size_nonneg post).
  unfold PsqReader.ReadUInt32, PsqReader.EnsureAvailable, bind, get_offset, advance, ret.
  rewrite !szadd_small by lia.
  replace (size (pre ++ [b0; b1; b2; b3] ++ post) <? size pre + 4) with false
    by (symmetry; apply Z.ltb_ge; rewrite !size_app; change (size [b0; b1; b2; b3]) with 4; lia).
  cbn [app]. set (buffer := pre ++ b0 :: b1 :: b2 :: b3 :: post).
  rewrite (byte_at_split buffer pre [] b0 (b1 :: b2 :: b3 :: post))
    by (try reflexivity; change (size []) with 0; lia).
  rewrite !szadd_small by lia.
  rewrite (byte_at_split buffer pre [b0] b1 (b2 :: b3 :: post)) by reflexivity.
  rewrite (byte_at_split buffer pre [b0; b1] b2 (b3 :: post)) by reflexivity.
  rewrite (byte_at_split buffer pre [b0; b1; b2] b3 post) by reflexivity.
  rewrite be32_value, ?szadd_small by lia. reflexivity.
Qed.

Lemma ltb_true (a b : Z) : a < b -> (a <? b) = true.
Proof. intros H. apply Z.ltb_lt. exact H. Qed.

Lemma ltb_false (a b : Z) : b <= a -> (a <? b) = false.
Proof. intros H. apply Z.ltb_ge. exact H. Qed.

Lemma leb_true (a b : Z) : a <= b -> (a <=? b) = true.
Proof. intros H. apply Z.leb_le. exact H. Qed.

Lemma leb_false (a b : Z) : b < a -> (a <=? b) = false.
Proof. intros H. apply Z.leb_gt. exact H. Qed.

Section Truncation.

Variable buffer : list byte.
Variable offset : Z.
Hypothesis offset_nonneg : 0 <= offset.
Hypothesis offset_small : offset < 2 ^ 63.

Lemma ReadBE32_truncated :
  size buffer < offset + 4 ->
  ReadBE32 buffer offset =
  Throw (PinParseError "Unexpected end of file while reading 32-bit value") offset.
Proof.
  intros H. unfold ReadBE32, bind, get_offset, throw.
  rewrite szadd_small, ltb_true by lia. reflexivity.
Qed.

Lemma ReadLE64_truncated :
  size buffer < offset + 8 ->
  ReadLE64 buffer offset =
  Throw (PinParseError "Unexpected end of file while reading 64-bit value") offset.
Proof.
  intros H. unfold ReadLE64, bind, get_offset, throw.
  rewrite szadd_small, ltb_true by lia. reflexivity.
Qed.

Lemma EnsureAvailable_truncated (bytes : Z) :
  0 <= bytes < 2 ^ 63 -> size buffer < offset + bytes ->
  PsqReader.EnsureAvailable buffer bytes offset =
  Throw (runtime_error "PIN file ended unexpectedly") offset.
Proof.
  intros Hb H. unfold PsqReader.EnsureAvailable, bind, get_offset, throw.
  rewrite szadd_small, ltb_true by lia. reflexivity.
Qed.

Lemma ReadUInt32_truncated :
  size buffer < offset + 4 ->
  PsqReader.ReadUInt32 buffer offset =
  Throw (runtime_error "PIN file ended unexpectedly") offset.
Proof.
  intros H. unfold PsqReader.ReadUInt32, bind.
  rewrite EnsureAvailable_truncated by lia. reflexivity.
Qed.

Lemma ReadUInt64_truncated :
  size buffer < offset + 8 ->
  PsqReader.ReadUInt64 buffer offset =
  Throw (runtime_error "PIN file ended unexpectedly") offset.
Proof.
  intros H. unfold PsqReader.ReadUInt64, bind.
  rewrite EnsureAvailable_truncated by lia. reflexivity.
Qed.

Lemma ReadPascalString_truncated_prefix :
  size buffer < offset + 4 ->
  ReadPascalString buffer offset =
  Throw (PinParseError "Unexpected end of file while reading 32-bit value") offset.
Proof.
  intros H. unfold ReadPascalString, bind.
  rewrite ReadBE32_truncated by lia. reflexivity.
Qed.

Lemma ReadString_truncated_prefix :
  size buffer < offset + 4 ->
  PsqReader.ReadString buffer offset =
  Throw (runtime_error "PIN file ended unexpectedly") offset.
Proof.
  intros H. unfold PsqReader.ReadString, bind.
  rewrite ReadUInt32_truncated by lia. reflexivity.
Qed.

(** With the length word readable, both string readers have moved past it
    when they find the body cut short. *)
Lemma string_readers_truncated_body :
  offset + 4 <= size buffer -> size buffer < 2 ^ 63 ->
  exists len,
    0 <= len < 2 ^ 32
    /\ ReadBE32 buffer offset = Ret len (offset + 4)
    /\ PsqReader.ReadUInt32 buffer offset = Ret len (offset + 4)
    /\ (size buffer < offset + 4 + len ->
        ReadPascalString buffer offset =
          Throw (PinParseError "String length exceeds file size") (offset + 4)
        /\ PsqReader.ReadString buffer offset =
          Throw (runtime_error "PIN file ended unexpectedly") (offset + 4)).
Proof.
  intros Hfit Hsize.
  destruct (split_range buffer offset 4) as (pre & w & post & Hbuf & Hpre & Hw);
    try lia.
  destruct (size_4 w Hw) as (b0 & b1 & b2 & b3 & ->).
  pose proof (be_value_range b0 b1 b2 b3) as Hrange.
  assert (H32 : ReadBE32 buffer offset = Ret (be_value b0 b1 b2 b3) (offset + 4)).
  { subst buffer offset. apply ReadBE32_at. lia. }
  assert (HU32 : PsqReader.ReadUInt32 buffer offset
                 = Ret (be_value b0 b1 b2 b3) (offset + 4)).
  { subst buffer offset. apply ReadUInt32_at. lia. }
  exists (be_value b0 b1 b2 b3). repeat split; try lia; try assumption.
  - unfold ReadPascalString, bind. rewrite H32.
    unfold get_offset, throw. rewrite szadd_small, ltb_true by lia. reflexivity.
  - unfold PsqReader.ReadString, bind. rewrite HU32.
    unfold PsqReader.EnsureAvailable, bind, get_offset, throw.
    rewrite szadd_small, ltb_true by lia. reflexivity.
Qed.

End Truncation.

(** C5, as the code has it. A read of a 32-bit or 64-bit word with too few
    bytes left throws the reader's end-of-file error and leaves the cursor
    where it was, in both programs. A length-prefixed string read does the
    same when fewer than four bytes remain; when the length word can be read
    and the string body is cut short, it throws with the cursor four bytes
    further, just after the length word. *)
Theorem truncated_reads_and_the_cursor (buffer : list byte) (offset : Z) :
  0 <= offset <= size buffer -> size buffer < 2 ^ 63 ->
  (size buffer < offset + 4 ->
     ReadBE32 buffer offset =
       Throw (PinParseError "Unexpected end of file while reading 32-bit value") offset
     /\ PsqReader.ReadUInt32 buffer offset =
       Throw (runtime_error "PIN file ended unexpectedly") offset
     /\ ReadPascalString buffer offset =
       Throw (PinParseError "Unexpected end of file while reading 32-bit value") offset
     /\ PsqReader.ReadString buffer offset =
       Throw (runtime_error "PIN file ended unexpectedly") offset)
  /\ (size buffer < offset + 8 ->
     ReadLE64 buffer offset =
       Throw (PinParseError "Unexpected end of file while reading 64-bit value") offset
     /\ PsqReader.ReadUInt64 buffer offset =
       Throw (runtime_error "PIN file ended unexpectedly") offset)
  /\ (offset + 4 <= size buffer ->
      exists len,
        0 <= len < 2 ^ 32
        /\ ReadBE32 buffer offset = Ret len (offset + 4)
        /\ PsqReader.ReadUInt32 buffer offset = Ret len (offset + 4)
        /\ (size buffer < offset + 4 + len ->
            ReadPascalString buffer offset =
              Throw (PinParseError "String length exceeds file size") (offset + 4)
            /\ PsqReader.ReadString buffer offset =
              Throw (runtime_error "PIN file ended unexpectedly") (offset + 4))).
Proof.
  intros Hoff Hsize. split; [| split].
  - intros H. repeat split.
    + apply ReadBE32_truncated; lia.
    + apply ReadUInt32_truncated; lia.
    + apply ReadPascalString_truncated_prefix; lia.
    + apply ReadString_truncated_prefix; lia.
  - intros H. split.
    + apply ReadLE64_truncated; lia.
    + apply ReadUInt64_truncated; lia.
  - intros H. apply string_readers_truncated_body; lia.
Qed.

(** Two bytes where a 64-bit word is wanted. *)
Lemma truncated_reads_example :
  ReadLE64 [x00; x01] 0 =
    Throw (PinParseError "Unexpected end of file while reading 64-bit value") 0
  /\ PsqReader.ReadUInt64 [x00; x01] 0 =
    Throw (runtime_error "PIN file ended unexpectedly") 0.
Proof.
  destruct (truncated_reads_and_the_cursor [x00; x01] 0) as (_ & H & _).
  - vm_compute. split; discriminate.
  - vm_compute. reflexivity.
  - apply H. vm_compute. reflexivity.
Defined.

(** C5 as stated fails for the string readers: the length word announces
    five bytes, one is left, and the cursor ends at 4 instead of 0. *)
Lemma string_read_failure_moves_cursor :
  size [x00; x00; x00; x05; x61] - 0 < 4 + 5
  /\ PsqReader.ReadString [x00; x00; x00; x05; x61] 0 =
       Throw (runtime_error "PIN file ended unexpectedly") 4
  /\ ReadPascalString [x00; x00; x00; x05; x61] 0 =
       Throw (PinParseError "String length exceeds file size") 4.
Proof.
  repeat split; vm_compute; reflexivity.
Qed.

(** ** The 64-bit residue count *)

Ltac accumulate_step b :=
  rewrite (lor_shiftl_8 _ b);
  match goal with
  | |- context [ (?v * 256 + u8 b) mod ?m ] =>
      rewrite (Z.mod_small (v * 256 + u8 b) m) by lia
  end.

Lemma le_accumulate_value (b0 b1 b2 b3 b4 b5 b6 b7 : byte) :
  le_accumulate [b0; b1; b2; b3; b4; b5; b6; b7] = le_value b0 b1 b2 b3 b4 b5 b6 b7.
Proof.
  pose proof (u8_range b0). pose proof (u8_range b1).
  pose proof (u8_range b2). pose proof (u8_range b3).
  pose proof (u8_range b4). pose proof (u8_range b5).
  pose proof (u8_range b6). pose proof (u8_range b7).
  unfold le_accumulate, le_value. cbn [rev app fold_left]. unfold uint64.
  accumulate_step b7. accumulate_step b6. accumulate_step b5. accumulate_step b4.
  accumulate_step b3. accumulate_step b2. accumulate_step b1. accumulate_step b0.
  lia.
Qed.

(** C2, as the code has it. [ReadLE64], which [ParsePinFile] calls for the
    residue count, folds the eight bytes from the last to the first with a
    shift by 8; the result is the plain little-endian value of the eight
    bytes, and the offset moves by 8. *)
Theorem ReadLE64_is_little_endian
        (pre : list byte) (b0 b1 b2 b3 b4 b5 b6 b7 : byte) (post : list byte) :
  let w := [b0; b1; b2; b3; b4; b5; b6; b7] in
  size (pre ++ w ++ post) < 2 ^ 64 ->
  ReadLE64 (pre ++ w ++ post) (size pre) = Ret (le_accumulate w) (size pre + 8)
  /\ le_accumulate w
     = fold_left (fun value b => uint64 (Z.lor (Z.shiftl value 8) (u8 b))) (rev w) 0
  /\ le_accumulate w = le_value b0 b1 b2 b3 b4 b5 b6 b7.
Proof.
  intros w Hfit. split; [| split].
  - rewrite !size_app in Hfit. change (size w) with 8 in Hfit.
    pose proof (size_nonneg pre). pose proof (size_nonneg post).
    unfold ReadLE64, bind, get_offset, advance, ret.
    rewrite szadd_small by lia.
    rewrite ltb_false by (rewrite !size_app; change (size w) with 8; lia).
    change 8 with (size w) at 1. rewrite bytes_at_app.
    rewrite szadd_small by lia. reflexivity.
  - unfold le_accumulate. reflexivity.
  - exact (le_accumulate_value b0 b1 b2 b3 b4 b5 b6 b7).
Qed.

(** The residue count of the one-record index of the specification. *)
Lemma ReadLE64_example :
  ReadLE64 [x01; x00; x00; x00; x00; x00; x00; x00] 0 = Ret 1 8.
Proof.
  destruct (ReadLE64_is_little_endian [] x01 x00 x00 x00 x00 x00 x00 x00 [])
    as (Hread & _ & Hvalue).
  - vm_compute. reflexivity.
  - rewrite Hvalue in Hread. exact Hread.
Defined.

(** C2 as stated fails: on the bytes [01 00 00 00 00 00 00 00] the reverse
    iteration of [ReadLE64] yields 1, the word-swapped reading of the same
    bytes yields 16777216. *)
Lemma reverse_iteration_is_not_word_swapped :
  ReadLE64 [x01; x00; x00; x00; x00; x00; x00; x00] 0 = Ret 1 8
  /\ word_swapped_value x01 x00 x00 x00 x00 x00 x00 x00 = 16777216.
Proof.
  split; vm_compute; reflexivity.
Qed.

(** [BinaryCursor::ReadUInt64] of psq_reader.cpp goes through the same bytes
    from the first to the last. *)
Lemma ReadUInt64_example :
  PsqReader.ReadUInt64 [x01; x00; x00; x00; x00; x00; x00; x00] 0
  = Ret 72057594037927936 8.
Proof. vm_compute. reflexivity. Qed.

(** ** The version check of the two index parsers *)

Lemma ReadBE32_at_start (b0 b1 b2 b3 : byte) (rest : list byte) :
  size (b0 :: b1 :: b2 :: b3 :: rest) < 2 ^ 64 ->
  ReadBE32 (b0 :: b1 :: b2 :: b3 :: rest) 0 = Ret (be_value b0 b1 b2 b3) 4.
Proof.
  intros Hfit. exact (ReadBE32_at [] b0 b1 b2 b3 rest Hfit).
Qed.

Lemma ReadUInt32_at_start (b0 b1 b2 b3 : byte) (rest : list byte) :
  size (b0 :: b1 :: b2 :: b3 :: rest) < 2 ^ 64 ->
  PsqReader.ReadUInt32 (b0 :: b1 :: b2 :: b3 :: rest) 0 = Ret (be_value b0 b1 b2 b3) 4.
Proof.
  intros Hfit. exact (ReadUInt32_at [] b0 b1 b2 b3 rest Hfit).
Qed.

Lemma int32_not_4_5 (v : Z) :
  0 <= v < 2 ^ 32 -> v <> 4 -> v <> 5 ->
  PsqReader.int32 v <> 4 /\ PsqReader.int32 v <> 5.
Proof.
  intros Hv H4 H5. unfold PsqReader.int32.
  destruct (Z.lt_ge_cases v (2 ^ 31)).
  - rewrite Z.mod_small by lia. lia.
  - replace ((v + 2 ^ 31) mod 2 ^ 32) with (v - 2 ^ 31); [lia |].
    apply Z.mod_unique with 1; lia.
Qed.

(** C3, as the code has it. When the first four bytes of the index file
    denote a version other than 4 and 5, [ParsePinFile] of the header reader
    throws its unsupported-version error with the cursor at 4, straight
    after the version word. [ParsePin] of the sequence reader reads the
    sequence-type word before it looks at the version: it throws its
    unsupported-version error with the cursor at 8 when that word is there,
    and its end-of-file error with the cursor at 4 when it is not. *)
Theorem unsupported_version_is_rejected
        (b0 b1 b2 b3 : byte) (rest : list byte) (fuel : nat) (path : string) :
  let v := be_value b0 b1 b2 b3 in
  let data := b0 :: b1 :: b2 :: b3 :: rest in
  size data < 2 ^ 64 -> v <> 4 -> v <> 5 ->
  ParsePinFile data =
    Throw (PinParseError ("Unsupported database format version: " ++ to_string v)) 4
  /\ (4 <= size rest ->
      PsqReader.ParsePin fuel path data =
        Throw (runtime_error
                 ("Unsupported PIN format version: " ++ to_string (PsqReader.int32 v))) 8)
  /\ (size rest < 4 ->
      PsqReader.ParsePin fuel path data =
        Throw (runtime_error "PIN file ended unexpectedly") 4).
Proof.
  intros v data Hfit H4 H5. subst data.
  pose proof (be_value_range b0 b1 b2 b3) as Hv. fold v in Hv.
  split; [| split].
  - unfold ParsePinFile, ParsePinFile_body, bind.
    rewrite ReadBE32_at_start by exact Hfit. fold v.
    apply Z.eqb_neq in H4, H5. rewrite H4, H5. reflexivity.
  - intros Hrest.
    destruct (split_range rest 0 4) as (pre & w & post & Hbuf & Hpre & Hw); try lia.
    destruct pre; [| rewrite size_cons in Hpre; pose proof (size_nonneg pre); lia].
    destruct (size_4 w Hw) as (t0 & t1 & t2 & t3 & ->).
    cbn [app] in Hbuf. subst rest.
    unfold PsqReader.ParsePin, PsqReader.ParsePin_body, bind.
    rewrite ReadUInt32_at_start by exact Hfit. fold v.
    pose proof (ReadUInt32_at [b0; b1; b2; b3] t0 t1 t2 t3 post Hfit) as Hnext.
    change (size [b0; b1; b2; b3]) with 4 in Hnext. cbn [app] in Hnext.
    rewrite Hnext.
    destruct (int32_not_4_5 v Hv) as [N4 N5]; try assumption.
    apply Z.eqb_neq in N4, N5. rewrite N4, N5. reflexivity.
  - intros Hrest.
    unfold PsqReader.ParsePin, PsqReader.ParsePin_body, bind.
    rewrite ReadUInt32_at_start by exact Hfit.
    rewrite ReadUInt32_truncated; [reflexivity | lia | lia |].
    rewrite !size_cons. lia.
Qed.

(** The version word of the specification's example, followed by a
    sequence-type word. *)
Lemma unsupported_version_example :
  ParsePinFile [x00; x00; x00; x03; x00; x00; x00; x01] =
    Throw (PinParseError "Unsupported database format version: 3") 4
  /\ PsqReader.ParsePin 1 "db.pin" [x00; x00; x00; x03; x00; x00; x00; x01] =
    Throw (runtime_error "Unsupported PIN format version: 3") 8.
Proof.
  destruct (unsupported_version_is_rejected x00 x00 x00 x03 [x00; x00; x00; x01]
              1%nat "db.pin") as (Hlegacy & Hpsq & _).
  - vm_compute. reflexivity.
  - vm_compute. discriminate.
  - vm_compute. discriminate.
  - split; [exact Hlegacy |]. apply Hpsq. vm_compute. discriminate.
Defined.

(** C3 as stated fails for the sequence reader: handed a file that consists
    of the version word 3 alone, it does not report the version; it fails
    on the read of the next field. *)
Lemma version_is_checked_after_the_next_word :
  be_value x00 x00 x00 x03 = 3
  /\ PsqReader.ParsePin 1 "db.pin" [x00; x00; x00; x03] =
       Throw (runtime_error "PIN file ended unexpectedly") 4.
Proof.
  split; vm_compute; reflexivity.
Qed.

(** ** The sequence decoder *)

Lemma DecodeResidue_table (code : Z) :
  0 <= code < 28 ->
  PsqReader.DecodeResidue code = nth (Z.to_nat code) residue_table Ascii.zero.
Proof.
  intros H. rewrite <- (Z2Nat.id code) at 1 by lia.
  assert (Hn : (Z.to_nat code < 28)%nat) by lia.
  generalize dependent (Z.to_nat code). clear. intros n Hn.
  do 28 (destruct n as [| n]; [reflexivity |]). lia.
Qed.

Lemma DecodeResidue_above_table (code : Z) :
  28 <= code -> PsqReader.DecodeResidue code = "?"%char.
Proof.
  intros H. unfold PsqReader.DecodeResidue.
  rewrite (proj2 (Z.eqb_neq code 0)) by lia.
  change (Z.of_nat (List.length PsqReader.kNcbistdaaToAscii)) with 28.
  rewrite ltb_false by lia. reflexivity.
Qed.

Lemma DecodeResidue_letter (code : Z) :
  0 < code ->
  PsqReader.DecodeResidue code = residue_letter code
  /\ PsqReader.DecodeResidue code <> Ascii.zero.
Proof.
  intros H. unfold residue_letter.
  destruct (Z.ltb_spec code 28) as [Hlt | Hge].
  - rewrite DecodeResidue_table by lia. split; [reflexivity |].
    assert (Hn : (0 < Z.to_nat code < 28)%nat) by lia.
    generalize dependent (Z.to_nat code). clear. intros n Hn.
    destruct n as [| n]; [lia |].
    do 27 (destruct n as [| n]; [discriminate |]). lia.
  - rewrite DecodeResidue_above_table by lia. split; [reflexivity | discriminate].
Qed.

Lemma append_snoc (acc : string) (a : ascii) (s : string) :
  ((acc ++ String a EmptyString) ++ s)%string = (acc ++ String a s)%string.
Proof.
  induction acc as [| c acc IH]; cbn; [reflexivity | rewrite IH; reflexivity].
Qed.

Lemma append_empty (s : string) : (s ++ "")%string = s.
Proof.
  induction s as [| c s IH]; cbn; [reflexivity | rewrite IH; reflexivity].
Qed.

Lemma DecodeSequence_loop_spec (codes : list byte) :
  forall decoded,
    PsqReader.DecodeSequence_loop codes decoded
    = (decoded ++ decoded_residues codes)%string.
Proof.
  induction codes as [| code codes IH]; intros decoded;
    cbn [PsqReader.DecodeSequence_loop decoded_residues].
  - symmetry. apply append_empty.
  - pose proof (u8_range code) as Hrange.
    destruct (Z.eqb_spec (u8 code) 0) as [Hzero | Hnonzero].
    + rewrite Hzero. cbn. symmetry. apply append_empty.
    + destruct (DecodeResidue_letter (u8 code)) as [Hletter Hnul]; [lia |].
      apply Ascii.eqb_neq in Hnul. rewrite Hnul, IH, Hletter.
      apply append_snoc.
Qed.

Lemma decoded_residues_length (codes : list byte) :
  (String.length (decoded_residues codes) <= List.length codes)%nat.
Proof.
  induction codes as [| code codes IH]; cbn [decoded_residues]; [cbn; lia |].
  destruct (u8 code =? 0); cbn; lia.
Qed.

(** C8. On a byte range inside the sequence file, [DecodeSequence] returns
    the letters of the codes up to the first code 0, which gives no letter;
    each letter is the entry of the 28-entry table for a code below 28 and
    ['?'] for a code from 28 on; the result is never longer than the
    range. *)
Theorem DecodeSequence_decodes_up_to_terminator
        (data : list byte) (start end_ : Z) :
  0 <= start <= end_ -> end_ <= size data ->
  PsqReader.DecodeSequence data start end_
    = inr (decoded_residues (sub_bytes data start (end_ - start)))
  /\ Z.of_nat (String.length (decoded_residues (sub_bytes data start (end_ - start))))
     <= end_ - start
  /\ (forall code, 0 <= code < 28 ->
        PsqReader.DecodeResidue code = nth (Z.to_nat code) residue_table Ascii.zero)
  /\ (forall code, 28 <= code -> PsqReader.DecodeResidue code = "?"%char)
  /\ (forall code, 0 < code ->
        PsqReader.DecodeResidue code = residue_letter code
        /\ PsqReader.DecodeResidue code <> Ascii.zero).
Proof.
  intros Hrange Hend. repeat split.
  - unfold PsqReader.DecodeSequence.
    rewrite ltb_false, ltb_false by lia. cbn [orb].
    rewrite DecodeSequence_loop_spec. reflexivity.
  - pose proof (decoded_residues_length (sub_bytes data start (end_ - start))) as Hlen.
    unfold sub_bytes in *. rewrite length_firstn in Hlen. lia.
  - apply DecodeResidue_table.
  - apply DecodeResidue_above_table.
  - apply DecodeResidue_letter. assumption.
  - apply DecodeResidue_letter. assumption.
Qed.

(** Codes 1, 2, 27, 28 and 255, then the terminator and one more code. *)
Lemma DecodeSequence_example :
  PsqReader.DecodeSequence [x01; x02; x1b; x1c; xff; x00; x03] 0 7 = inr "AB-??"%string.
Proof.
  destruct (DecodeSequence_decodes_up_to_terminator
              [x01; x02; x1b; x1c; xff; x00; x03] 0 7) as (H & _).
  - lia.
  - vm_compute. discriminate.
  - exact H.
Defined.

(** ** Running the decoder on a given buffer *)

Ltac unfold_monad :=
  cbv beta iota delta
    [bind get_offset set_offset ret throw advance when undefined out_of_fuel
     try_catch_PinParseError].

(** Replaces a scrutinee that evaluates to a value by that value. The head
    normal form is taken first: a call stuck on symbolic fuel is left alone. *)
Ltac eval_closed :=
  repeat (first
   [ progress cbv beta iota
   | match goal with
     | |- context [match ?c with
                   | Ret _ _ => _ | Throw _ _ => _
                   | Undefined => _ | OutOfFuel => _ end] =>
         lazymatch c with
         | Ret _ _ => fail | Throw _ _ => fail
         | Undefined => fail | OutOfFuel => fail
         | _ => idtac
         end;
         let r := eval hnf in c in
         lazymatch r with
         | Ret _ _ => idtac | Throw _ _ => idtac
         | Undefined => idtac | OutOfFuel => idtac
         end;
         let r' := eval vm_compute in r in
         change c with r'
     | |- context [if ?b then _ else _] =>
         lazymatch b with true => fail | false => fail | _ => idtac end;
         let r := eval hnf in b in
         lazymatch r with true => idtac | false => idtac end;
         change b with r
     end ]).

Lemma loop_S {S R : Type} (n : nat) (body : S -> M (step S R)) (s : S) (o : Z) :
  loop (Datatypes.S n) body s o =
  match body s o with
  | Ret (Continue s') o' => loop n body s' o'
  | Ret (Break r) o' => Ret r o'
  | Throw e o' => Throw e o'
  | Undefined => Undefined
  | OutOfFuel => OutOfFuel
  end.
Proof. reflexivity. Qed.

Lemma loop_try_S {S R : Type} (n : nat) (body : S -> M (step S R)) (s : S) (o : Z) :
  loop_try (Datatypes.S n) body s o =
  match body s o with
  | Ret (Continue s') o' => loop_try n body s' o'
  | Ret (Break r) o' => Ret (inl r) o'
  | Throw e o' => Ret (inr (e, s)) o'
  | Undefined => Undefined
  | OutOfFuel => OutOfFuel
  end.
Proof. reflexivity. Qed.

Lemma ExtractVisibleLike_S (buffer : list byte) (fuel : nat) (limit : Z) :
  ExtractVisibleLike buffer (S fuel) limit =
  loop fuel (ExtractVisibleLike_round buffer (ExtractVisibleLike buffer fuel) fuel limit) tt.
Proof. reflexivity. Qed.

Lemma SkipElement_S (buffer : list byte) (fuel : nat) :
  SkipElement buffer (S fuel) =
  (tag <- ReadTag buffer ;;
   len <- ReadLength buffer ;;
   if indefinite len
   then
     if negb (constructed tag)
     then throw (PinParseError "Indefinite length used with primitive element")
     else loop fuel (SkipElement_round buffer (SkipElement buffer fuel)) tt
   else
     offset <- get_offset ;;
     if size buffer <? offset +w length len
     then throw (PinParseError "BER element exceeds buffer size")
     else advance (length len))%cursor.
Proof. reflexivity. Qed.

(** ** Forward progress *)

(** A round that hands back the state and the offset it was given keeps the
    loop going for as long as there is fuel. *)
Lemma loop_without_progress {S R : Type} (body : S -> M (step S R)) (s : S) (o : Z) :
  body s o = OutOfFuel \/ body s o = Ret (Continue s) o ->
  forall n, loop n body s o = OutOfFuel.
Proof.
  intros H n. induction n as [| n IH]; cbn [loop]; [reflexivity |].
  destruct H as [-> | ->]; [reflexivity | exact IH].
Qed.

Lemma ExtractVisibleLike_at_limit (fuel : nat) :
  ExtractVisibleLike stalling_blob fuel 8 8 = OutOfFuel
  \/ ExtractVisibleLike stalling_blob fuel 8 8 = Ret None 8.
Proof.
  destruct fuel as [| [| fuel]]; [left | left | right]; vm_compute; reflexivity.
Qed.

(** The inner [while (true)] of [ExtractVisibleLike], entered at offset 8
    with limit 8 on [stalling_blob]: no end-of-contents there, the recursive
    call returns [nullopt] at once, and the round starts again. *)
Lemma inner_scan_stalls (fuel n : nat) :
  loop n (ExtractVisibleLike_inner_round stalling_blob
            (ExtractVisibleLike stalling_blob fuel) 8) tt 8
  = OutOfFuel.
Proof.
  apply loop_without_progress.
  unfold ExtractVisibleLike_inner_round. unfold_monad. eval_closed.
  destruct (ExtractVisibleLike_at_limit fuel) as [-> | ->]; [left | right]; reflexivity.
Qed.

Lemma ExtractVisibleLike_stalls (fuel : nat) :
  ExtractVisibleLike stalling_blob fuel 8 6 = OutOfFuel.
Proof.
  destruct fuel as [| [| fuel]]; [vm_compute; reflexivity | vm_compute; reflexivity |].
  rewrite ExtractVisibleLike_S, loop_S.
  unfold ExtractVisibleLike_round at 1. unfold_monad. eval_closed.
  rewrite inner_scan_stalls. reflexivity.
Qed.

Lemma ParseExplicitVisible_stalls (fuel : nat) :
  ParseExplicitVisible stalling_blob fuel (mkLength false 2) 6 = OutOfFuel.
Proof.
  unfold ParseExplicitVisible. unfold_monad. eval_closed.
  rewrite ExtractVisibleLike_stalls. reflexivity.
Qed.

Lemma defline_field_stalls (fuel : nat) (entry : BlastDefLine) :
  defline_field stalling_blob fuel true 8 entry 4 = OutOfFuel.
Proof.
  unfold defline_field. unfold_monad. eval_closed.
  rewrite ParseExplicitVisible_stalls. reflexivity.
Qed.

Lemma defline_round_stalls (fuel : nat) (st : deflines_state) :
  defline_round stalling_blob (S fuel) true 8 st 2 = OutOfFuel.
Proof.
  destruct st as [deflines error_out].
  unfold defline_round. unfold_monad. eval_closed.
  rewrite loop_try_S, defline_field_stalls. reflexivity.
Qed.

(** C6 fails on the code. On [stalling_blob] the decoder does not return,
    whatever the fuel: the title wrapper sends [ParseExplicitVisible] to the
    permissive scan, and the scan's inner [while (true)] never leaves offset
    8. The forward-progress check of [ExtractVisibleLike] stands after that
    loop and is never reached. *)
Theorem DecodeDeflineSet_does_not_terminate (fuel : nat) (error_out : option string) :
  DecodeDeflineSet fuel stalling_blob error_out = OutOfFuel.
Proof.
  destruct fuel as [| fuel]; [vm_compute; reflexivity |].
  unfold DecodeDeflineSet. unfold_monad. eval_closed.
  rewrite loop_try_S, defline_round_stalls. reflexivity.
Qed.

(** The same happens inside [SkipElement] once a length makes
    [offset + len.length] wrap: the child element at offset 2 of
    [wrapping_element] is skipped back to offset 2. *)
Lemma SkipElement_child_wraps (fuel : nat) :
  SkipElement wrapping_element fuel 2 = OutOfFuel
  \/ SkipElement wrapping_element fuel 2 = Ret tt 2.
Proof.
  destruct fuel as [| fuel]; [left | right]; vm_compute; reflexivity.
Qed.

Lemma SkipElement_does_not_terminate (fuel : nat) :
  SkipElement wrapping_element fuel 0 = OutOfFuel.
Proof.
  destruct fuel as [| fuel]; [reflexivity |].
  rewrite SkipElement_S. unfold_monad. eval_closed.
  apply loop_without_progress.
  unfold SkipElement_round. unfold_monad. eval_closed.
  destruct (SkipElement_child_wraps fuel) as [-> | ->]; [left | right]; reflexivity.
Qed.

(** [SkipElement] returning without having moved the offset. *)
Lemma SkipElement_without_progress :
  SkipElement [x04; x88; xff; xff; xff; xff; xff; xff; xff; xf6] 1 0 = Ret tt 0.
Proof. vm_compute. reflexivity. Qed.

(** ** The primitives on a buffer given by its layout *)

Lemma size_nil : size [] = 0.
Proof. reflexivity. Qed.

Ltac size_norm := repeat (rewrite size_cons || rewrite size_app || rewrite size_nil).

(** Side conditions of the layout lemmas: the buffer is this prefix, these
    bytes and this rest; the offset is the length of the prefix. *)
Ltac layout :=
  first
    [ reflexivity
    | assumption
    | lia
    | (lazymatch goal with |- ?b = _ => try unfold b end;
       cbn [app]; rewrite <- ?app_assoc; reflexivity)
    | (size_norm; lia) ].

Lemma land_128_small (b : byte) : u8 b < 128 -> Z.land (u8 b) 128 = 0.
Proof.
  destruct b; intros H; try reflexivity; vm_compute in H; discriminate.
Qed.

Lemma ReadTag_short (buffer pre : list byte) (first : byte) (post : list byte)
      (offset offset' : Z) :
  buffer = pre ++ first :: post -> offset = size pre -> offset' = offset + 1 ->
  size buffer < 2 ^ 64 ->
  (Z.land (u8 first) 0x1F =? 0x1F) = false ->
  ReadTag buffer offset =
  Ret (mkTag (BerClass_of (Z.shiftr (Z.land (u8 first) 0xC0) 6))
             (negb (Z.land (u8 first) 0x20 =? 0))
             (Z.land (u8 first) 0x1F))
      offset'.
Proof.
  intros -> -> -> Hfit Hshort. rewrite ReadTag_at by exact Hfit.
  cbv zeta. rewrite Hshort. reflexivity.
Qed.

Lemma ReadLength_short (buffer pre : list byte) (l : byte) (post : list byte)
      (offset offset' : Z) :
  buffer = pre ++ l :: post -> offset = size pre -> offset' = offset + 1 ->
  size buffer < 2 ^ 64 ->
  u8 l < 128 ->
  ReadLength buffer offset = Ret (mkLength false (u8 l)) offset'.
Proof.
  intros -> -> -> Hfit Hshort. rewrite size_app, size_cons in Hfit.
  pose proof (size_nonneg pre). pose proof (size_nonneg post).
  pose proof (u8_range l).
  unfold ReadLength. unfold_monad.
  rewrite leb_false by (rewrite size_app, size_cons; lia).
  rewrite byte_at_app. cbv beta iota.
  rewrite (proj2 (Z.eqb_neq (u8 l) 128)) by lia.
  rewrite land_128_small by exact Hshort. cbn [Z.eqb].
  rewrite szadd_small by lia. reflexivity.
Qed.

Lemma ParseString_split (buffer pre bs post : list byte) (offset len offset' : Z) :
  buffer = pre ++ bs ++ post -> offset = size pre -> len = size bs ->
  offset' = offset + len -> size buffer < 2 ^ 63 ->
  ParseString buffer len offset = Ret (string_of_list_byte bs) offset'.
Proof.
  intros -> -> -> -> Hfit. rewrite !size_app in Hfit.
  pose proof (size_nonneg pre). pose proof (size_nonneg post).
  pose proof (size_nonneg bs).
  unfold ParseString, make_string. unfold_monad.
  rewrite szadd_small by lia.
  rewrite ltb_false by (rewrite !size_app; lia).
  unfold string_max_size. rewrite ltb_false by lia.
  rewrite bytes_at_app. cbv beta iota. rewrite szadd_small by lia. reflexivity.
Qed.

Lemma ParseInteger_split (buffer pre bs post : list byte) (offset len offset' : Z) :
  buffer = pre ++ bs ++ post -> offset = size pre -> len = size bs ->
  offset' = offset + len -> bs <> [] -> size buffer < 2 ^ 63 ->
  ParseInteger buffer len offset = Ret (integer_value bs) offset'.
Proof.
  intros -> -> -> -> Hbs Hfit. destruct bs as [| b bs]; [congruence |]. clear Hbs.
  rewrite !size_app in Hfit.
  pose proof (size_nonneg pre). pose proof (size_nonneg post).
  pose proof (size_nonneg bs).
  rewrite size_cons in *.
  unfold ParseInteger. unfold_monad.
  rewrite szadd_small by lia.
  rewrite (proj2 (Z.eqb_neq (1 + size bs) 0)) by lia. cbn [orb].
  rewrite ltb_false by (rewrite !size_app, size_cons; lia).
  change ((b :: bs) ++ post) with (b :: bs ++ post) at 1.
  rewrite byte_at_app. cbv beta iota.
  rewrite <- (size_cons b bs). rewrite bytes_at_app. cbv beta iota.
  rewrite size_cons, szadd_small by lia. reflexivity.
Qed.

Lemma string_of_list_byte_nonempty (bs : list byte) :
  bs <> [] -> empty (string_of_list_byte bs) = false.
Proof. destruct bs; [congruence | reflexivity]. Qed.

(** ** The PDB sequence identifier *)

Section PdbSeqId.

(** The element [AE lb | 1A lm mol | 02 lc chain], followed by [rest]: a
    context-specific constructed tag 14 whose body holds a universal-26
    string and a universal-2 integer, all lengths in short form. *)
Variables (lb lm lc : byte) (mol chain rest : list byte).

Let buffer : list byte :=
  xae :: lb :: x1a :: lm :: mol ++ x02 :: lc :: chain ++ rest.

Hypothesis mol_nonempty : mol <> [].
Hypothesis mol_length : u8 lm = size mol.
Hypothesis chain_nonempty : chain <> [].
Hypothesis chain_length : u8 lc = size chain.
Hypothesis body_length : u8 lb = 4 + size mol + size chain.
Hypothesis body_short : u8 lb < 128.
Hypothesis buffer_fits : size buffer < 2 ^ 63.

Let id0 : SeqId := mkSeqId "pdb" EmptyString None.
Let id1 : SeqId := mkSeqId "pdb" (string_of_list_byte mol) None.
Let id2 : SeqId :=
  mkSeqId "pdb" (string_of_list_byte mol) (Some (integer_value chain)).

Lemma pdb_round_mol :
  ParseSeqId_pdb_field buffer false (2 + u8 lb) id0 2
  = Ret (Continue id1) (4 + size mol).
Proof.
  pose proof (size_nonneg mol). pose proof (size_nonneg chain).
  pose proof (size_nonneg rest).
  assert (Hfit64 : size buffer < 2 ^ 64) by lia.
  unfold ParseSeqId_pdb_field. unfold_monad.
  rewrite (ltb_true 2 (2 + u8 lb)) by lia. eval_closed.
  rewrite (ReadTag_short buffer [xae; lb] x1a
             (lm :: mol ++ x02 :: lc :: chain ++ rest) 2 3) by layout.
  eval_closed.
  rewrite (ReadLength_short buffer [xae; lb; x1a] lm
             (mol ++ x02 :: lc :: chain ++ rest) 3 4) by layout.
  eval_closed. cbn [indefinite length].
  rewrite (ParseString_split buffer [xae; lb; x1a; lm] mol
             (x02 :: lc :: chain ++ rest) 4 (u8 lm) (4 + size mol)) by layout.
  reflexivity.
Qed.

Lemma pdb_round_chain :
  ParseSeqId_pdb_field buffer false (2 + u8 lb) id1 (4 + size mol)
  = Ret (Continue id2) (2 + u8 lb).
Proof.
  pose proof (size_nonneg mol). pose proof (size_nonneg chain).
  pose proof (size_nonneg rest).
  assert (Hfit64 : size buffer < 2 ^ 64) by lia.
  unfold ParseSeqId_pdb_field. unfold_monad.
  rewrite (ltb_true (4 + size mol) (2 + u8 lb)) by lia. eval_closed.
  rewrite (ReadTag_short buffer (xae :: lb :: x1a :: lm :: mol) x02
             (lc :: chain ++ rest) (4 + size mol) (5 + size mol)) by layout.
  eval_closed.
  rewrite (ReadLength_short buffer (xae :: lb :: x1a :: lm :: mol ++ [x02]) lc
             (chain ++ rest) (5 + size mol) (6 + size mol)) by layout.
  eval_closed. cbn [indefinite length]. eval_closed.
  rewrite (ParseInteger_split buffer (xae :: lb :: x1a :: lm :: mol ++ [x02; lc])
             chain rest (6 + size mol) (u8 lc) (2 + u8 lb)) by layout.
  reflexivity.
Qed.

Lemma pdb_round_end :
  ParseSeqId_pdb_field buffer false (2 + u8 lb) id2 (2 + u8 lb)
  = Ret (Break id2) (2 + u8 lb).
Proof.
  unfold ParseSeqId_pdb_field. unfold_monad.
  rewrite (ltb_false (2 + u8 lb) (2 + u8 lb)) by lia. reflexivity.
Qed.


End PdbSeqId.



(** ** Errors inside a header blob *)

Lemma loop_try_rounds {S R : Type} (body : S -> M (step S R)) (n : nat) :
  forall s o s' o',
    rounds n body s o = Some (s', o') ->
    forall m, loop_try (n + m) body s o = loop_try m body s' o'.
Proof.
  induction n as [| n IH]; intros s o s' o' Hrounds m; cbn [rounds] in Hrounds.
  - inversion Hrounds. reflexivity.
  - cbn [Nat.add]. rewrite loop_try_S.
    destruct (body s o) as [[s1 | r] o1 | e o1 | |]; try discriminate.
    apply IH. exact Hrounds.
Qed.

Lemma loop_try_never_throws {S R : Type} (body : S -> M (step S R)) (fuel : nat) :
  forall s o e o', loop_try fuel body s o <> Throw e o'.
Proof.
  induction fuel as [| fuel IH]; intros s o e o'; [discriminate |].
  rewrite loop_try_S.
  destruct (body s o) as [[s1 | r] o1 | e1 o1 | |]; try discriminate.
  apply IH.
Qed.

(** [DecodeDeflineSet] once the outer header has been read. *)
Lemma DecodeDeflineSet_after_header
      (fuel : nat) (blob : list byte) (error_out : option string)
      (outer_len : BerLength) (off0 : Z) :
  outer_header blob 0 = Ret outer_len off0 ->
  DecodeDeflineSet fuel blob error_out =
  match loop_try fuel
          (defline_round blob fuel (indefinite outer_len)
             (if indefinite outer_len then size blob else off0 +w length outer_len))
          ([], error_out) off0
  with
  | Ret (inl st) o => Ret st o
  | Ret (inr (ex, (deflines, error_out'))) o =>
      Ret (deflines,
           match error_out' with Some _ => Some (what ex) | None => None end) o
  | Throw e o => Throw e o
  | Undefined => Undefined
  | OutOfFuel => OutOfFuel
  end.
Proof.
  intros Hheader. unfold DecodeDeflineSet. unfold_monad. rewrite Hheader.
  cbv beta iota.
  destruct (loop_try _ _ _ _) as [[st | [ex [deflines error_out']]] o | e o | |];
    reflexivity.
Qed.

(** A round that asks for a further round leaves the warning as it was and
    at most appends one line. *)
Lemma defline_round_continue
      (blob : list byte) (fuel : nat) (outer_indef : bool) (outer_end : Z)
      (deflines deflines' : list BlastDefLine) (error_out error_out' : option string)
      (o o' : Z) :
  defline_round blob fuel outer_indef outer_end (deflines, error_out) o
  = Ret (Continue (deflines', error_out')) o' ->
  error_out' = error_out /\ exists more, deflines' = deflines ++ more.
Proof.
  unfold defline_round. unfold_monad.
  repeat match goal with
         | |- context [match ?x with _ => _ end] => destruct x eqn:?
         end;
    intros Hround; inversion Hround; subst; split; try reflexivity.
  - exists []. symmetry. apply app_nil_r.
  - eexists. reflexivity.
Qed.

Lemma rounds_keep_lines
      (blob : list byte) (fuel : nat) (outer_indef : bool) (outer_end : Z) (n : nat) :
  forall deflines error_out o deflines' error_out' o',
    rounds n (defline_round blob fuel outer_indef outer_end) (deflines, error_out) o
    = Some ((deflines', error_out'), o') ->
    error_out' = error_out /\ exists more, deflines' = deflines ++ more.
Proof.
  induction n as [| n IH]; intros deflines error_out o deflines' error_out' o' H;
    cbn [rounds] in H.
  - inversion H. split; [reflexivity |]. exists []. symmetry. apply app_nil_r.
  - destruct (defline_round _ _ _ _ _ o) as [[[d1 e1] | r] o1 | e o1 | |] eqn:Hround;
      try discriminate.
    apply defline_round_continue in Hround. destruct Hround as (-> & more1 & ->).
    apply IH in H. destruct H as (-> & more2 & ->).
    split; [reflexivity |]. exists (more1 ++ more2). symmetry. apply app_assoc.
Qed.

(** The handler of the inner [try]: the partial line is kept when it holds
    something, the message goes to an empty warning string, and the round
    leaves the loop. *)
Lemma defline_round_raises
      (blob : list byte) (fuel : nat) (outer_indef : bool) (outer_end : Z)
      (deflines : list BlastDefLine) (error_out : option string)
      (offset : Z) (ex : exn) (entry : BlastDefLine) (offset' : Z) :
  line_raises blob fuel outer_indef outer_end offset ex entry offset' ->
  defline_round blob fuel outer_indef outer_end (deflines, error_out) offset
  = Ret (Break (if populated entry then deflines ++ [entry] else deflines,
                match error_out with
                | Some EmptyString => Some (what ex)
                | _ => error_out
                end)) offset'.
Proof.
  intros (Heoc & Hend & def_tag & off1 & def_len & off2
          & Htag & Hcls & Hnum & Hcons & Hlen & Hfields).
  unfold defline_round. unfold_monad.
  cbv beta iota delta [ret] in Heoc.
  rewrite Heoc. cbv beta iota. rewrite Hend, Htag. cbv beta iota.
  rewrite Hcls, Hnum, Hcons. cbn [BerClass_eqb negb orb Z.eqb Pos.eqb].
  rewrite Hlen. cbv beta iota. rewrite Hfields. reflexivity.
Qed.

(** C1, as the code has it. Let the outer header be read, let [n] rounds of
    the outer loop go through, leaving [deflines] decoded, and let the line
    that starts then raise [ex] with [entry] decoded so far. Then the
    decoder returns at once: the lines decoded before, followed by [entry]
    when its title, seqids or taxid is populated, and the message of [ex] in
    the warning string when that string was empty. Nothing beyond the
    failing line is decoded. *)
Theorem decoding_stops_at_first_failing_line
        (blob : list byte) (fuel : nat) (error_out : option string)
        (outer_len : BerLength) (off0 : Z) (n : nat)
        (deflines : list BlastDefLine) (error_out' : option string) (offset : Z)
        (ex : exn) (entry : BlastDefLine) (offset' : Z) :
  let outer_indef := indefinite outer_len in
  let outer_end := if outer_indef then size blob else off0 +w length outer_len in
  outer_header blob 0 = Ret outer_len off0 ->
  rounds n (defline_round blob fuel outer_indef outer_end) ([], error_out) off0
  = Some ((deflines, error_out'), offset) ->
  (n < fuel)%nat ->
  line_raises blob fuel outer_indef outer_end offset ex entry offset' ->
  error_out' = error_out
  /\ DecodeDeflineSet fuel blob error_out
     = Ret (if populated entry then deflines ++ [entry] else deflines,
            match error_out with
            | Some EmptyString => Some (what ex)
            | _ => error_out
            end) offset'.
Proof.
  intros outer_indef outer_end Hheader Hrounds Hfuel Hraises.
  destruct (rounds_keep_lines _ _ _ _ _ _ _ _ _ _ _ Hrounds) as (-> & _).
  split; [reflexivity |].
  rewrite (DecodeDeflineSet_after_header fuel blob error_out outer_len off0 Hheader).
  fold outer_indef outer_end.
  replace fuel with (n + S (fuel - n - 1))%nat at 1 by lia.
  rewrite (loop_try_rounds _ _ _ _ _ _ Hrounds).
  rewrite loop_try_S.
  rewrite (defline_round_raises _ _ _ _ _ _ _ _ _ _ Hraises).
  reflexivity.
Qed.

(** One good line, then the failing one: both are returned, with the
    warning. *)
Lemma decoding_good_then_failing :
  DecodeDeflineSet 3 good_then_failing_blob (Some EmptyString)
  = Ret ([mkDefLine "ok" [] None; mkDefLine "hi" [] None],
         Some "Invalid integer length"%string) 20.
Proof.
  refine (proj2 (decoding_stops_at_first_failing_line
                   good_then_failing_blob 3 (Some EmptyString)
                   (mkLength false 18) 2 1 [mkDefLine "ok" [] None]
                   (Some EmptyString) 10
                   (PinParseError "Invalid integer length")
                   (mkDefLine "hi" [] None) 20 _ _ _ _)).
  - vm_compute. reflexivity.
  - vm_compute. reflexivity.
  - lia.
  - split; [vm_compute; reflexivity |].
    split; [vm_compute; reflexivity |].
    exists (mkTag Universal true 16), 11, (mkLength false 8), 12.
    repeat split; vm_compute; reflexivity.
Defined.

(** C1 as stated fails: the failing line comes first, the decoder returns
    with the cursor at 12, where the second line starts, and the line
    titled "ok" is not among the lines returned, although the decoder reads
    that very line when it comes first. *)
Lemma decoding_does_not_continue_after_failing_line :
  DecodeDeflineSet 3 failing_then_good_blob (Some EmptyString)
  = Ret ([mkDefLine "hi" [] None], Some "Invalid integer length"%string) 12
  /\ skipn 12 failing_then_good_blob = [x30; x06; xa0; x04; x1a; x02; x6f; x6b]
  /\ DecodeDeflineSet 3 ([x30; x08] ++ skipn 12 failing_then_good_blob)
       (Some EmptyString)
     = Ret ([mkDefLine "ok" [] None], Some EmptyString) 10.
Proof.
  repeat split; vm_compute; reflexivity.
Qed.

Lemma DecodeDeflineSet_header_throws
      (fuel : nat) (blob : list byte) (error_out : option string) (e : exn) (o : Z) :
  outer_header blob 0 = Throw e o ->
  DecodeDeflineSet fuel blob error_out = Throw e o.
Proof.
  intros Hheader. unfold DecodeDeflineSet. unfold_monad. rewrite Hheader. reflexivity.
Qed.



(** An error raised by the outer loop itself: after one definition line, an
    element that is not a sequence and runs past the end of the buffer.
    [SkipElement] throws, the line decoded before is returned. *)
Lemma outer_loop_error_example :
  DecodeDeflineSet 3 [x30; x80; x30; x06; xa0; x04; x1a; x02; x6f; x6b; x04; x05]
    (Some EmptyString)
  = Ret ([mkDefLine "ok" [] None], Some "BER element exceeds buffer size"%string) 12.
Proof. vm_compute. reflexivity. Qed.

(** ** An index without records *)

Lemma ReadBE32_split (buffer pre w post : list byte) (offset offset' : Z) :
  buffer = pre ++ w ++ post -> offset = size pre -> offset' = offset + 4 ->
  size w = 4 -> size buffer < 2 ^ 64 ->
  ReadBE32 buffer offset = Ret (be_accumulate w) offset'.
Proof.
  intros -> -> -> Hw Hfit. destruct (size_4 w Hw) as (b0 & b1 & b2 & b3 & ->).
  rewrite ReadBE32_at by exact Hfit. rewrite be_accumulate_value. reflexivity.
Qed.

Lemma ReadLE64_split (buffer pre w post : list byte) (offset offset' : Z) :
  buffer = pre ++ w ++ post -> offset = size pre -> offset' = offset + 8 ->
  size w = 8 -> size buffer < 2 ^ 64 ->
  ReadLE64 buffer offset = Ret (le_accumulate w) offset'.
Proof.
  intros -> -> -> Hw Hfit. rewrite !size_app, Hw in Hfit.
  pose proof (size_nonneg pre). pose proof (size_nonneg post).
  unfold ReadLE64. unfold_monad.
  rewrite szadd_small by lia.
  rewrite ltb_false by (rewrite !size_app, Hw; lia).
  rewrite <- Hw at 1. rewrite bytes_at_app. cbv beta iota.
  rewrite szadd_small by lia. reflexivity.
Qed.

Lemma ReadPascalString_split (buffer pre w bs post : list byte) (offset offset' : Z) :
  buffer = pre ++ w ++ bs ++ post -> offset = size pre ->
  offset' = offset + 4 + size bs ->
  size w = 4 -> be_accumulate w = size bs -> size buffer < 2 ^ 63 ->
  ReadPascalString buffer offset = Ret (string_of_list_byte bs) offset'.
Proof.
  intros Hbuf -> -> Hw Hlen Hfit.
  pose proof (size_nonneg pre). pose proof (size_nonneg post).
  pose proof (size_nonneg bs).
  assert (Hsize : size buffer = size pre + 4 + size bs + size post)
    by (rewrite Hbuf, !size_app, Hw; lia).
  unfold ReadPascalString, make_string. unfold_monad.
  rewrite (ReadBE32_split buffer pre w (bs ++ post) (size pre) (size pre + 4))
    by (assumption || reflexivity || lia).
  cbv beta iota. rewrite Hlen.
  rewrite szadd_small by lia. rewrite ltb_false by lia.
  unfold string_max_size. rewrite ltb_false by lia.
  replace buffer with ((pre ++ w) ++ bs ++ post)
    by (rewrite Hbuf, <- app_assoc; reflexivity).
  replace (size pre + 4) with (size (pre ++ w)) by (rewrite size_app; lia).
  rewrite bytes_at_app. cbv beta iota.
  rewrite szadd_small by (rewrite size_app; lia). reflexivity.
Qed.

Ltac unfold_locals :=
  repeat match goal with x := _ : list byte |- _ => subst x end.

Ltac solve_side :=
  first
    [ assumption
    | reflexivity
    | lia
    | (unfold_locals; size_norm; lia)
    | (unfold_locals; rewrite <- ?app_assoc; cbn [app]; reflexivity) ].

(** Reading the group [w] that follows the prefix [pre] of [buffer]. *)
Tactic Notation "read32" constr(buffer) constr(pre) constr(w) :=
  erewrite (ReadBE32_split buffer pre w _ (size pre) (size (pre ++ w)));
  [ cbv beta iota | solve_side .. ].

Tactic Notation "read64" constr(buffer) constr(pre) constr(w) :=
  erewrite (ReadLE64_split buffer pre w _ (size pre) (size (pre ++ w)));
  [ cbv beta iota | solve_side .. ].

Tactic Notation "readstr" constr(buffer) constr(pre) constr(w) constr(bs) :=
  erewrite (ReadPascalString_split buffer pre w bs _
              (size pre) (size (pre ++ w ++ bs)));
  [ cbv beta iota | solve_side .. ].

Ltac one_entry :=
  change (Z.to_nat (0 +w 1)) with 1%nat;
  cbn [read_offset_array]; unfold_monad.

Ltac finish_index buffer :=
  unfold_locals; f_equal;
  [ f_equal;
    match goal with
    | |- negb (?a =? ?b) = negb (?c =? 0) =>
        destruct (Z.eqb_spec a b) as [E | E], (Z.eqb_spec c 0) as [E' | E'];
        try reflexivity; exfalso; revert E E'; size_norm; lia
    end
  | size_norm; lia ].




(** ** More fuel does not change a result *)

Lemma refines_refl {A : Type} (c : M A) : refines c c.
Proof. intros o _. reflexivity. Qed.

Lemma refines_bind {A B : Type} (c1 c2 : M A) (k1 k2 : A -> M B) :
  refines c1 c2 -> (forall a, refines (k1 a) (k2 a)) ->
  refines (bind c1 k1) (bind c2 k2).
Proof.
  intros Hc Hk o Hsettled. unfold bind in *.
  destruct (c1 o) as [a o1 | e o1 | |] eqn:E1.
  - rewrite (Hc o) by (rewrite E1; discriminate). rewrite E1.
    apply Hk. exact Hsettled.
  - rewrite (Hc o) by (rewrite E1; discriminate). rewrite E1. reflexivity.
  - rewrite (Hc o) by (rewrite E1; discriminate). rewrite E1. reflexivity.
  - exfalso. apply Hsettled. reflexivity.
Qed.

Lemma refines_loop {S R : Type} (b1 b2 : S -> M (step S R)) :
  (forall s, refines (b1 s) (b2 s)) ->
  forall k k', (k <= k')%nat -> forall s, refines (loop k b1 s) (loop k' b2 s).
Proof.
  intros Hb k. induction k as [| k IH]; intros k' Hle s o Hsettled.
  - exfalso. apply Hsettled. reflexivity.
  - destruct k' as [| k']; [lia |]. rewrite !loop_S. rewrite loop_S in Hsettled.
    destruct (b1 s o) as [[s1 | r] o1 | e o1 | |] eqn:E1;
      try (rewrite (Hb s o) by (rewrite E1; discriminate); rewrite E1).
    + apply IH; [lia | exact Hsettled].
    + reflexivity.
    + reflexivity.
    + reflexivity.
    + exfalso. apply Hsettled. reflexivity.
Qed.

Lemma refines_loop_try {S R : Type} (b1 b2 : S -> M (step S R)) :
  (forall s, refines (b1 s) (b2 s)) ->
  forall k k', (k <= k')%nat -> forall s, refines (loop_try k b1 s) (loop_try k' b2 s).
Proof.
  intros Hb k. induction k as [| k IH]; intros k' Hle s o Hsettled.
  - exfalso. apply Hsettled. reflexivity.
  - destruct k' as [| k']; [lia |]. rewrite !loop_try_S. rewrite loop_try_S in Hsettled.
    destruct (b1 s o) as [[s1 | r] o1 | e o1 | |] eqn:E1;
      try (rewrite (Hb s o) by (rewrite E1; discriminate); rewrite E1).
    + apply IH; [lia | exact Hsettled].
    + reflexivity.
    + reflexivity.
    + reflexivity.
    + exfalso. apply Hsettled. reflexivity.
Qed.

Ltac refines_step :=
  first
    [ match goal with |- refines ?c ?c => apply refines_refl end
    | assumption
    | solve [auto]
    | match goal with
      | |- refines (bind _ _) (bind _ _) => apply refines_bind; [| intros ?]
      | |- refines (loop _ _ _) (loop _ _ _) => apply refines_loop; [intros ? | lia]
      | |- refines (loop_try _ _ _) (loop_try _ _ _) =>
          apply refines_loop_try; [intros ? | lia]
      | |- refines (if ?b then _ else _) (if ?b then _ else _) => destruct b
      | |- refines (match ?x with _ => _ end) (match ?x with _ => _ end) => destruct x
      | |- refines (when ?b _) (when ?b _) => destruct b; cbn [when]
      end ].

Lemma SkipElement_refines (buffer : list byte) (n : nat) :
  forall m, (n <= m)%nat -> refines (SkipElement buffer n) (SkipElement buffer m).
Proof.
  induction n as [| n IH]; intros m Hle.
  - intros o H. exfalso. apply H. reflexivity.
  - destruct m as [| m]; [lia |]. rewrite !SkipElement_S.
    repeat refines_step.
    unfold SkipElement_round. repeat refines_step. apply IH. lia.
Qed.

Lemma ParseVisible_refines (buffer : list byte) (n m : nat) :
  (n <= m)%nat -> refines (ParseVisible buffer n) (ParseVisible buffer m).
Proof.
  intros Hle. pose proof (SkipElement_refines buffer n m Hle).
  unfold ParseVisible. repeat refines_step.
Qed.

Lemma ExtractVisibleLike_refines (buffer : list byte) (n : nat) :
  forall m limit, (n <= m)%nat ->
    refines (ExtractVisibleLike buffer n limit) (ExtractVisibleLike buffer m limit).
Proof.
  induction n as [| n IH]; intros m limit Hle.
  - intros o H. exfalso. apply H. reflexivity.
  - destruct m as [| m]; [lia |]. rewrite !ExtractVisibleLike_S.
    apply refines_loop; [intros [] | lia].
    unfold ExtractVisibleLike_round. repeat refines_step.
    + apply IH. lia.
    + unfold ExtractVisibleLike_inner_round. repeat refines_step. apply IH. lia.
Qed.

Lemma refines_try_catch {A : Type} (b1 b2 h1 h2 : M A) :
  refines b1 b2 -> refines h1 h2 ->
  refines (try_catch_PinParseError b1 h1) (try_catch_PinParseError b2 h2).
Proof.
  intros Hb Hh o Hsettled. unfold try_catch_PinParseError in *.
  destruct (b1 o) as [a o1 | [w | w | w | w] o1 | |] eqn:E1;
    try (rewrite (Hb o) by (rewrite E1; discriminate); rewrite E1; reflexivity).
  - rewrite (Hb o) by (rewrite E1; discriminate). rewrite E1.
    apply Hh. exact Hsettled.
  - exfalso. apply Hsettled. reflexivity.
Qed.

Ltac refines_fuel :=
  repeat first
    [ refines_step
    | apply refines_try_catch
    | progress cbv zeta ].

Section FuelMonotone.

Variable buffer : list byte.
Variables n m : nat.
Hypothesis n_le_m : (n <= m)%nat.

Lemma SkipElement_refines_le : refines (SkipElement buffer n) (SkipElement buffer m).
Proof. apply SkipElement_refines. exact n_le_m. Qed.

Lemma ParseVisible_refines_le : refines (ParseVisible buffer n) (ParseVisible buffer m).
Proof. apply ParseVisible_refines. exact n_le_m. Qed.

Lemma ExtractVisibleLike_refines_le (limit : Z) :
  refines (ExtractVisibleLike buffer n limit) (ExtractVisibleLike buffer m limit).
Proof. apply ExtractVisibleLike_refines. exact n_le_m. Qed.

#[local] Hint Resolve SkipElement_refines_le ParseVisible_refines_le
  ExtractVisibleLike_refines_le : core.

Lemma ParseExplicitInteger_refines (len : BerLength) :
  refines (ParseExplicitInteger buffer n len) (ParseExplicitInteger buffer m len).
Proof. unfold ParseExplicitInteger. refines_fuel. Qed.

Lemma ParseExplicitVisible_refines (len : BerLength) :
  refines (ParseExplicitVisible buffer n len) (ParseExplicitVisible buffer m len).
Proof. unfold ParseExplicitVisible. refines_fuel. Qed.

Lemma skip_field_refines (len : BerLength) :
  refines (skip_field buffer n len) (skip_field buffer m len).
Proof. unfold skip_field. refines_fuel. Qed.

Lemma ParseTextSeqId_refines (end_limit : option Z) :
  refines (ParseTextSeqId buffer n end_limit) (ParseTextSeqId buffer m end_limit).
Proof.
  pose proof ParseExplicitInteger_refines. pose proof ParseExplicitVisible_refines.
  pose proof skip_field_refines.
  unfold ParseTextSeqId. refines_fuel; auto.
Qed.

Lemma ParseSeqId_refines : refines (ParseSeqId buffer n) (ParseSeqId buffer m).
Proof.
  pose proof ParseTextSeqId_refines.
  unfold ParseSeqId. refines_fuel; auto.
Qed.

Lemma ParseSeqIdList_refines :
  refines (ParseSeqIdList buffer n) (ParseSeqIdList buffer m).
Proof.
  pose proof ParseSeqId_refines.
  unfold ParseSeqIdList. refines_fuel.
Qed.

Lemma ParseSeqIdField_refines :
  refines (ParseSeqIdField buffer n) (ParseSeqIdField buffer m).
Proof.
  pose proof ParseSeqIdList_refines.
  unfold ParseSeqIdField. refines_fuel.
Qed.

Lemma defline_field_refines (def_indef : bool) (def_end : Z) (entry : BlastDefLine) :
  refines (defline_field buffer n def_indef def_end entry)
          (defline_field buffer m def_indef def_end entry).
Proof.
  pose proof ParseSeqIdField_refines.
  pose proof ParseExplicitInteger_refines. pose proof ParseExplicitVisible_refines.
  unfold defline_field. refines_fuel; auto.
Qed.

Lemma defline_round_refines (outer_indef : bool) (outer_end : Z) (st : deflines_state) :
  refines (defline_round buffer n outer_indef outer_end st)
          (defline_round buffer m outer_indef outer_end st).
Proof.
  pose proof defline_field_refines.
  unfold defline_round. destruct st as [deflines error_out]. refines_fuel; auto.
Qed.

(** A result that [DecodeDeflineSet] reaches with fuel [n] is the result it
    reaches with any larger fuel. *)
Lemma DecodeDeflineSet_fuel_monotone (error_out : option string) :
  DecodeDeflineSet n buffer error_out <> OutOfFuel ->
  DecodeDeflineSet m buffer error_out = DecodeDeflineSet n buffer error_out.
Proof.
  pose proof defline_round_refines.
  unfold DecodeDeflineSet.
  match goal with
  | |- ?c1 0 <> _ -> ?c2 0 = _ => enough (Hr : refines c1 c2) by (apply Hr)
  end.
  refines_fuel; auto.
Qed.

End FuelMonotone.

Lemma ParsePin_fuel_monotone (n m : nat) (path : string) (data : list byte) :
  (n <= m)%nat ->
  PsqReader.ParsePin n path data <> OutOfFuel ->
  PsqReader.ParsePin m path data = PsqReader.ParsePin n path data.
Proof.
  intros Hle. unfold PsqReader.ParsePin. destruct data as [| b data]; [reflexivity |].
  match goal with
  | |- ?c1 0 <> _ -> ?c2 0 = _ => enough (Hr : refines c1 c2) by (apply Hr)
  end.
  unfold PsqReader.ParsePin_body. refines_fuel.
Qed.

(** The runs on the example buffers above, for every sufficient fuel. *)

Lemma failing_then_good_blob_any_fuel (fuel : nat) :
  (3 <= fuel)%nat ->
  DecodeDeflineSet fuel failing_then_good_blob (Some EmptyString)
  = Ret ([mkDefLine "hi" [] None], Some "Invalid integer length"%string) 12.
Proof.
  intros Hle.
  rewrite (DecodeDeflineSet_fuel_monotone failing_then_good_blob 3 fuel Hle)
    by (intros Hfuel; vm_compute in Hfuel; discriminate Hfuel).
  vm_compute. reflexivity.
Qed.

Lemma pdb_inside_sequence_any_fuel (fuel : nat) :
  (3 <= fuel)%nat ->
  ParseSeqId [xae; x0b; x30; x09; x1a; x04; x32; x48; x42; x53; x02; x01; x05] fuel 0
  = Ret (mkSeqId "pdb" "2HBS" None) 13.
Proof.
  intros Hle.
  rewrite (ParseSeqId_refines _ 3 fuel Hle 0) by (intros Hfuel; vm_compute in Hfuel; discriminate Hfuel).
  vm_compute. reflexivity.
Qed.

Lemma empty_index_rejected_any_fuel (fuel : nat) :
  (2 <= fuel)%nat ->
  PsqReader.ParsePin fuel "db.pin" (index_file empty_index_example)
  = Throw (runtime_error "PIN sequence offsets appear to be corrupt") 34.
Proof.
  intros Hle.
  rewrite (ParsePin_fuel_monotone 2 fuel _ _ Hle) by (intros Hfuel; vm_compute in Hfuel; discriminate Hfuel).
  vm_compute. reflexivity.
Qed.

(** * Further properties of the code *)

(** ** Encoders and the primitive readers *)

Lemma u8_byte_of (n : Z) : u8 (byte_of n) = n mod 256.
Proof.
  unfold byte_of, u8.
  pose proof (Z.mod_pos_bound n 256 ltac:(lia)) as Hm.
  destruct (Byte.of_N (Z.to_N (n mod 256))) as [b |] eqn:E.
  - apply Byte.to_of_N in E. rewrite E. lia.
  - apply Byte.of_N_None_iff in E. lia.
Qed.

Lemma byte_of_u8 (b : byte) : byte_of (u8 b) = b.
Proof.
  unfold byte_of. pose proof (u8_range b) as Hb.
  rewrite Z.mod_small by lia. unfold u8. rewrite N2Z.id.
  rewrite Byte.of_to_N. reflexivity.
Qed.

Lemma size_be32_bytes (n : Z) : size (be32_bytes n) = 4.
Proof. reflexivity. Qed.

Lemma size_le64_bytes (n : Z) : size (le64_bytes n) = 8.
Proof. reflexivity. Qed.

Lemma be_accumulate_be32_bytes (n : Z) :
  0 <= n < 2 ^ 32 -> be_accumulate (be32_bytes n) = n.
Proof.
  intros Hn. unfold be32_bytes. rewrite be_accumulate_value.
  unfold be_value. rewrite !u8_byte_of.
  change (2 ^ 24) with (256 * 256 * 256). change (2 ^ 16) with (256 * 256).
  change (2 ^ 8) with 256.
  rewrite <- !Z.div_div by lia.
  rewrite (Z.mod_small (n / 256 / 256 / 256))
    by (split; [repeat apply Z.div_pos; lia |
                repeat (apply Z.div_lt_upper_bound; [lia |]); lia]).
  pose proof (Z.div_mod n 256 ltac:(lia)).
  pose proof (Z.div_mod (n / 256) 256 ltac:(lia)).
  pose proof (Z.div_mod (n / 256 / 256) 256 ltac:(lia)).
  lia.
Qed.

Lemma byte_of_low (a : Z) (b : byte) : byte_of (a * 256 + u8 b) = b.
Proof.
  transitivity (byte_of (u8 b)); [| apply byte_of_u8].
  unfold byte_of. rewrite Z.add_comm, Z.mod_add by lia. reflexivity.
Qed.

Lemma div_256_low (a : Z) (b : byte) : (a * 256 + u8 b) / 256 = a.
Proof.
  pose proof (u8_range b). rewrite Z.div_add_l by lia.
  rewrite (Z.div_small (u8 b)) by lia. lia.
Qed.

Lemma be32_bytes_be_accumulate (w : list byte) :
  size w = 4 -> be32_bytes (be_accumulate w) = w.
Proof.
  intros Hw. destruct (size_4 w Hw) as (b0 & b1 & b2 & b3 & ->).
  rewrite be_accumulate_value. unfold be_value, be32_bytes.
  change (2 ^ 24) with (256 * 256 * 256). change (2 ^ 16) with (256 * 256).
  change (2 ^ 8) with 256.
  rewrite <- !Z.div_div by lia.
  rewrite !div_256_low, !byte_of_low, byte_of_u8. reflexivity.
Qed.

Lemma size_8 (bs : list byte) :
  size bs = 8 -> exists b0 b1 b2 b3 b4 b5 b6 b7, bs = [b0; b1; b2; b3; b4; b5; b6; b7].
Proof.
  unfold size. intros H.
  do 8 (destruct bs as [| ? bs]; [cbn in H; lia |]).
  destruct bs; [| cbn in H; lia]. repeat eexists.
Qed.

Lemma le_accumulate_le64_bytes (n : Z) :
  0 <= n < 2 ^ 64 -> le_accumulate (le64_bytes n) = n.
Proof.
  intros Hn. unfold le64_bytes. rewrite le_accumulate_value.
  unfold le_value. rewrite !u8_byte_of.
  change (2 ^ 56) with (256 * 256 * 256 * 256 * 256 * 256 * 256).
  change (2 ^ 48) with (256 * 256 * 256 * 256 * 256 * 256).
  change (2 ^ 40) with (256 * 256 * 256 * 256 * 256).
  change (2 ^ 32) with (256 * 256 * 256 * 256).
  change (2 ^ 24) with (256 * 256 * 256). change (2 ^ 16) with (256 * 256).
  change (2 ^ 8) with 256.
  rewrite <- !Z.div_div by lia.
  set (n1 := n / 256). set (n2 := n1 / 256). set (n3 := n2 / 256).
  set (n4 := n3 / 256). set (n5 := n4 / 256). set (n6 := n5 / 256).
  set (n7 := n6 / 256).
  pose proof (Z.div_mod n 256 ltac:(lia)).
  pose proof (Z.div_mod n1 256 ltac:(lia)).
  pose proof (Z.div_mod n2 256 ltac:(lia)).
  pose proof (Z.div_mod n3 256 ltac:(lia)).
  pose proof (Z.div_mod n4 256 ltac:(lia)).
  pose proof (Z.div_mod n5 256 ltac:(lia)).
  pose proof (Z.div_mod n6 256 ltac:(lia)).
  assert (0 <= n7 < 256).
  { subst n7 n6 n5 n4 n3 n2 n1.
    split; [repeat apply Z.div_pos; lia |
            repeat (apply Z.div_lt_upper_bound; [lia |]); lia]. }
  rewrite (Z.mod_small n7) by lia.
  fold n1 in H. fold n2 in H0. fold n3 in H1. fold n4 in H2. fold n5 in H3.
  fold n6 in H4. fold n7 in H5.
  lia.
Qed.

Lemma le64_bytes_le_accumulate (w : list byte) :
  size w = 8 -> le64_bytes (le_accumulate w) = w.
Proof.
  intros Hw.
  destruct (size_8 w Hw) as (b0 & b1 & b2 & b3 & b4 & b5 & b6 & b7 & ->).
  rewrite le_accumulate_value.
  replace (le_value b0 b1 b2 b3 b4 b5 b6 b7)
    with (((((((u8 b7 * 256 + u8 b6) * 256 + u8 b5) * 256 + u8 b4) * 256
              + u8 b3) * 256 + u8 b2) * 256 + u8 b1) * 256 + u8 b0)
    by (unfold le_value; lia).
  unfold le64_bytes.
  change (2 ^ 56) with (256 * 256 * 256 * 256 * 256 * 256 * 256).
  change (2 ^ 48) with (256 * 256 * 256 * 256 * 256 * 256).
  change (2 ^ 40) with (256 * 256 * 256 * 256 * 256).
  change (2 ^ 32) with (256 * 256 * 256 * 256).
  change (2 ^ 24) with (256 * 256 * 256). change (2 ^ 16) with (256 * 256).
  change (2 ^ 8) with 256.
  rewrite <- !Z.div_div by lia.
  rewrite !div_256_low, !byte_of_low, byte_of_u8. reflexivity.
Qed.

Lemma be_accumulate_range (w : list byte) : size w = 4 -> 0 <= be_accumulate w < 2 ^ 32.
Proof.
  intros Hw. destruct (size_4 w Hw) as (b0 & b1 & b2 & b3 & ->).
  rewrite be_accumulate_value. apply be_value_range.
Qed.

Lemma le_accumulate_range (w : list byte) : size w = 8 -> 0 <= le_accumulate w < 2 ^ 64.
Proof.
  intros Hw.
  destruct (size_8 w Hw) as (b0 & b1 & b2 & b3 & b4 & b5 & b6 & b7 & ->).
  rewrite le_accumulate_value. unfold le_value.
  pose proof (u8_range b0). pose proof (u8_range b1). pose proof (u8_range b2).
  pose proof (u8_range b3). pose proof (u8_range b4). pose proof (u8_range b5).
  pose proof (u8_range b6). pose proof (u8_range b7). lia.
Qed.

(** ** Reading what an encoder wrote *)

Lemma bind_Ret {A B : Type} (c : M A) (k : A -> M B) (o : Z) (a : A) (o' : Z) :
  c o = Ret a o' -> bind c k o = k a o'.
Proof. intros H. unfold bind. rewrite H. reflexivity. Qed.

Lemma bind_Throw {A B : Type} (c : M A) (k : A -> M B) (o : Z) (e : exn) (o' : Z) :
  c o = Throw e o' -> bind c k o = Throw e o'.
Proof. intros H. unfold bind. rewrite H. reflexivity. Qed.

Lemma remaining_start (buffer : list byte) : remaining buffer 0 buffer.
Proof. exists []. split; reflexivity. Qed.

Lemma remaining_size (buffer : list byte) (o : Z) (bs : list byte) :
  remaining buffer o bs -> 0 <= o /\ size buffer = o + size bs.
Proof.
  intros (pre & -> & ->). pose proof (size_nonneg pre). rewrite size_app. lia.
Qed.

Lemma remaining_app (buffer : list byte) (o : Z) (w rest : list byte) :
  remaining buffer o (w ++ rest) -> remaining buffer (o + size w) rest.
Proof.
  intros (pre & -> & ->). exists (pre ++ w).
  rewrite <- app_assoc, size_app. split; reflexivity.
Qed.

Lemma remaining_inj (buffer : list byte) (o : Z) (bs bs' : list byte) :
  remaining buffer o bs -> remaining buffer o bs' -> bs = bs'.
Proof.
  intros (pre & -> & ->) (pre' & E & Hsize).
  assert (Hlen : List.length pre = List.length pre') by (unfold size in Hsize; lia).
  clear Hsize. revert pre' E Hlen.
  induction pre as [| b pre IH]; intros [| b' pre'] E Hlen; cbn in *; try lia.
  - exact E.
  - injection E as _ E. apply (IH pre'); [exact E | lia].
Qed.

(** The first [n] bytes of what remains. *)
Lemma take_bytes (bs : list byte) (n : Z) :
  0 <= n <= size bs -> exists w rest, bs = w ++ rest /\ size w = n.
Proof.
  intros Hn. exists (firstn (Z.to_nat n) bs), (skipn (Z.to_nat n) bs).
  rewrite firstn_skipn. unfold size in *. rewrite length_firstn. split; [reflexivity | lia].
Qed.

Lemma is_uint32_range (x : Z) : is_uint32 x = true <-> 0 <= x < 2 ^ 32.
Proof. unfold is_uint32. rewrite andb_true_iff, Z.leb_le, Z.ltb_lt. reflexivity. Qed.

Lemma ReadBE32_encoded (buffer : list byte) (o v : Z) (rest : list byte) :
  remaining buffer o (be32_bytes v ++ rest) -> is_uint32 v = true ->
  size buffer < 2 ^ 64 ->
  ReadBE32 buffer o = Ret v (o + 4).
Proof.
  intros (pre & Hbuf & ->) Hv Hfit. apply is_uint32_range in Hv.
  rewrite (ReadBE32_split buffer pre (be32_bytes v) rest (size pre) (size pre + 4))
    by (assumption || reflexivity).
  rewrite be_accumulate_be32_bytes by exact Hv. reflexivity.
Qed.

Lemma ReadBE32_cases (buffer : list byte) (o : Z) (bs : list byte) :
  remaining buffer o bs -> size buffer < 2 ^ 63 ->
  (exists w o', ReadBE32 buffer o = Throw (PinParseError w) o'
                /\ o <= o' <= size buffer)
  \/ (exists v rest,
        is_uint32 v = true /\ bs = be32_bytes v ++ rest
        /\ ReadBE32 buffer o = Ret v (o + size (be32_bytes v))).
Proof.
  intros Hrem Hfit. destruct (remaining_size _ _ _ Hrem) as [Ho Hsize].
  pose proof (size_nonneg bs).
  destruct (Z.lt_ge_cases (size bs) 4) as [Hshort | Hlong].
  - left. eexists _, o. split; [apply ReadBE32_truncated; lia | lia].
  - right. destruct (take_bytes bs 4) as (w & rest & -> & Hw); [lia |].
    exists (be_accumulate w), rest.
    rewrite be32_bytes_be_accumulate by exact Hw.
    repeat split.
    + apply is_uint32_range. apply be_accumulate_range. exact Hw.
    + destruct Hrem as (pre & Hbuf & ->).
      apply (ReadBE32_split buffer pre w rest); (assumption || reflexivity || lia).
Qed.

Lemma is_uint64_range (x : Z) :
  (0 <=? x) && (x <? 2 ^ 64) = true <-> 0 <= x < 2 ^ 64.
Proof. rewrite andb_true_iff, Z.leb_le, Z.ltb_lt. reflexivity. Qed.

Lemma ReadLE64_encoded (buffer : list byte) (o v : Z) (rest : list byte) :
  remaining buffer o (le64_bytes v ++ rest) -> 0 <= v < 2 ^ 64 ->
  size buffer < 2 ^ 64 ->
  ReadLE64 buffer o = Ret v (o + 8).
Proof.
  intros (pre & Hbuf & ->) Hv Hfit.
  rewrite (ReadLE64_split buffer pre (le64_bytes v) rest (size pre) (size pre + 8))
    by (assumption || reflexivity).
  rewrite le_accumulate_le64_bytes by exact Hv. reflexivity.
Qed.

Lemma ReadLE64_cases (buffer : list byte) (o : Z) (bs : list byte) :
  remaining buffer o bs -> size buffer < 2 ^ 63 ->
  (exists w o', ReadLE64 buffer o = Throw (PinParseError w) o'
                /\ o <= o' <= size buffer)
  \/ (exists v rest,
        0 <= v < 2 ^ 64 /\ bs = le64_bytes v ++ rest
        /\ ReadLE64 buffer o = Ret v (o + size (le64_bytes v))).
Proof.
  intros Hrem Hfit. destruct (remaining_size _ _ _ Hrem) as [Ho Hsize].
  pose proof (size_nonneg bs).
  destruct (Z.lt_ge_cases (size bs) 8) as [Hshort | Hlong].
  - left. eexists _, o. split; [apply ReadLE64_truncated; lia | lia].
  - right. destruct (take_bytes bs 8) as (w & rest & -> & Hw); [lia |].
    exists (le_accumulate w), rest.
    rewrite le64_bytes_le_accumulate by exact Hw.
    repeat split; try (apply le_accumulate_range; exact Hw).
    destruct Hrem as (pre & Hbuf & ->).
    apply (ReadLE64_split buffer pre w rest); (assumption || reflexivity || lia).
Qed.

Lemma size_list_byte_of_string (s : string) :
  size (list_byte_of_string s) = Z.of_nat (String.length s).
Proof.
  unfold size, list_byte_of_string. rewrite length_map. f_equal.
  induction s as [| c s IH]; cbn; [reflexivity | now rewrite IH].
Qed.

Lemma length_string_of_list_byte (bs : list byte) :
  Z.of_nat (String.length (string_of_list_byte bs)) = size bs.
Proof.
  rewrite <- size_list_byte_of_string, list_byte_of_string_of_list_byte. reflexivity.
Qed.

Lemma ReadPascalString_encoded (buffer : list byte) (o : Z) (s : string)
      (rest : list byte) :
  remaining buffer o (length_prefixed s ++ rest) ->
  is_uint32 (Z.of_nat (String.length s)) = true -> size buffer < 2 ^ 63 ->
  ReadPascalString buffer o = Ret s (o + 4 + Z.of_nat (String.length s)).
Proof.
  intros (pre & Hbuf & ->) Hs Hfit. apply is_uint32_range in Hs.
  unfold length_prefixed in Hbuf. rewrite <- app_assoc in Hbuf.
  rewrite (ReadPascalString_split buffer pre
             (be32_bytes (Z.of_nat (String.length s))) (list_byte_of_string s) rest
             (size pre) (size pre + 4 + Z.of_nat (String.length s))).
  - rewrite string_of_list_byte_of_string. reflexivity.
  - exact Hbuf.
  - reflexivity.
  - rewrite size_list_byte_of_string. reflexivity.
  - reflexivity.
  - rewrite be_accumulate_be32_bytes, size_list_byte_of_string by exact Hs. reflexivity.
  - exact Hfit.
Qed.

Lemma size_length_prefixed (s : string) :
  size (length_prefixed s) = 4 + Z.of_nat (String.length s).
Proof.
  unfold length_prefixed.
  rewrite size_app, size_be32_bytes, size_list_byte_of_string. reflexivity.
Qed.

Lemma ReadPascalString_cases (buffer : list byte) (o : Z) (bs : list byte) :
  remaining buffer o bs -> size buffer < 2 ^ 63 ->
  (exists w o', ReadPascalString buffer o = Throw (PinParseError w) o'
                /\ o <= o' <= size buffer)
  \/ (exists s rest,
        is_uint32 (Z.of_nat (String.length s)) = true
        /\ bs = length_prefixed s ++ rest
        /\ ReadPascalString buffer o = Ret s (o + size (length_prefixed s))).
Proof.
  intros Hrem Hfit. destruct (remaining_size _ _ _ Hrem) as [Ho Hsize].
  pose proof (size_nonneg bs).
  destruct (ReadBE32_cases buffer o bs Hrem Hfit)
    as [(w & o' & Hthrow & Ho') | (len & rest & Hlen & -> & Hread)].
  - left. exists w, o'. split; [| lia].
    unfold ReadPascalString. apply bind_Throw. exact Hthrow.
  - rewrite size_app, size_be32_bytes in Hsize. pose proof (size_nonneg rest).
    rewrite size_be32_bytes in Hread.
    pose proof (proj1 (is_uint32_range len) Hlen) as Hrange.
    destruct (Z.lt_ge_cases (size rest) len) as [Hcut | Hbody].
    + left. eexists _, (o + 4). split; [| lia].
      unfold ReadPascalString, bind. rewrite Hread.
      unfold get_offset, throw. rewrite szadd_small, ltb_true by lia. reflexivity.
    + right. destruct (take_bytes rest len) as (body & rest' & -> & Hbody'); [lia |].
      exists (string_of_list_byte body), rest'.
      rewrite size_length_prefixed.
      rewrite length_string_of_list_byte, Hbody'.
      unfold length_prefixed.
      rewrite length_string_of_list_byte, Hbody', list_byte_of_string_of_list_byte.
      rewrite <- app_assoc.
      repeat split; [exact Hlen |].
      destruct Hrem as (pre & Hbuf & ->).
      apply (ReadPascalString_split buffer pre (be32_bytes len) body rest');
        try (assumption || reflexivity || lia).
      rewrite be_accumulate_be32_bytes by exact Hrange. lia.
Qed.

Lemma size_offset_table (vs : list Z) :
  size (offset_table vs) = 4 * Z.of_nat (List.length vs).
Proof.
  induction vs as [| v vs IH]; [reflexivity |].
  unfold offset_table in *. cbn [flat_map List.length].
  rewrite size_app, size_be32_bytes, IH. lia.
Qed.

Lemma read_offset_array_encoded (buffer : list byte) (vs : list Z) :
  forall (o : Z) (rest : list byte),
    remaining buffer o (offset_table vs ++ rest) ->
    forallb is_uint32 vs = true -> size buffer < 2 ^ 63 ->
    read_offset_array buffer (List.length vs) o
    = Ret vs (o + 4 * Z.of_nat (List.length vs)).
Proof.
  induction vs as [| v vs IH]; intros o rest Hrem Hvs Hfit.
  - cbn. unfold ret. f_equal. lia.
  - cbn [forallb] in Hvs. apply andb_true_iff in Hvs. destruct Hvs as [Hv Hvs].
    unfold offset_table in Hrem. cbn [flat_map] in Hrem. rewrite <- app_assoc in Hrem.
    cbn [List.length read_offset_array].
    rewrite (bind_Ret _ _ _ _ _ (ReadBE32_encoded buffer o v _ Hrem Hv ltac:(lia))).
    apply remaining_app in Hrem. rewrite size_be32_bytes in Hrem.
    rewrite (bind_Ret _ _ _ _ _ (IH (o + 4) rest Hrem Hvs Hfit)).
    unfold ret. f_equal. lia.
Qed.

Lemma read_offset_array_cases (count : nat) (buffer : list byte) :
  forall (o : Z) (bs : list byte),
    remaining buffer o bs -> size buffer < 2 ^ 63 ->
    (exists w o', read_offset_array buffer count o = Throw (PinParseError w) o'
                  /\ o <= o' <= size buffer)
    \/ (exists vs rest,
          (List.length vs = count /\ forallb is_uint32 vs = true)
          /\ bs = offset_table vs ++ rest
          /\ read_offset_array buffer count o = Ret vs (o + size (offset_table vs))).
Proof.
  induction count as [| count IH]; intros o bs Hrem Hfit.
  - right. exists [], bs. repeat split. cbn. unfold ret. f_equal.
    change (size (offset_table [])) with 0. lia.
  - destruct (remaining_size _ _ _ Hrem) as [Ho Hsize]. pose proof (size_nonneg bs).
    cbn [read_offset_array].
    destruct (ReadBE32_cases buffer o bs Hrem Hfit)
      as [(w & o' & Hthrow & Ho') | (v & rest & Hv & -> & Hread)].
    + left. exists w, o'. rewrite (bind_Throw _ _ _ _ _ Hthrow). split; [reflexivity | lia].
    + rewrite (bind_Ret _ _ _ _ _ Hread).
      apply remaining_app in Hrem.
      destruct (IH _ rest Hrem Hfit)
        as [(w & o' & Hthrow & Ho') | (vs & rest' & [Hlen Hvs] & -> & Hreads)].
      * left. exists w, o'. rewrite (bind_Throw _ _ _ _ _ Hthrow).
        rewrite size_be32_bytes in Ho'. split; [reflexivity | lia].
      * right. exists (v :: vs), rest'. rewrite (bind_Ret _ _ _ _ _ Hreads).
        cbn [List.length forallb]. rewrite Hlen, Hv, Hvs.
        unfold offset_table. cbn [flat_map]. rewrite <- app_assoc.
        repeat split. unfold ret. f_equal. rewrite size_app. lia.
Qed.

Lemma bind_ret {A B : Type} (a : A) (k : A -> M B) (o : Z) : bind (ret a) k o = k a o.
Proof. reflexivity. Qed.

(** One read of what the encoder wrote at the head of the remaining bytes. *)
Ltac encoded_read Hrem :=
  lazymatch type of Hrem with
  | remaining ?buf ?o (be32_bytes ?v ++ ?rest) =>
      rewrite (bind_Ret _ _ o v (o + 4)
                 (ReadBE32_encoded buf o v rest Hrem
                    ltac:(first [assumption | reflexivity]) ltac:(lia)));
      apply remaining_app in Hrem; rewrite size_be32_bytes in Hrem
  | remaining ?buf ?o (le64_bytes ?v ++ ?rest) =>
      rewrite (bind_Ret _ _ o v (o + 8)
                 (ReadLE64_encoded buf o v rest Hrem ltac:(lia) ltac:(lia)));
      apply remaining_app in Hrem; rewrite size_le64_bytes in Hrem
  | remaining ?buf ?o (length_prefixed ?s ++ ?rest) =>
      rewrite (bind_Ret _ _ o s (o + 4 + Z.of_nat (String.length s))
                 (ReadPascalString_encoded buf o s rest Hrem
                    ltac:(first [assumption | reflexivity]) ltac:(lia)));
      apply remaining_app in Hrem;
      replace (size (length_prefixed s)) with (4 + Z.of_nat (String.length s)) in Hrem
        by (unfold length_prefixed;
            rewrite size_app, size_be32_bytes, size_list_byte_of_string; reflexivity);
      rewrite Z.add_assoc in Hrem
  | remaining ?buf ?o (offset_table ?vs ++ ?rest) =>
      lazymatch goal with
      | |- context [bind (read_offset_array buf ?count) _ o] =>
          replace count with (List.length vs) at 1 by (symmetry; assumption)
      end;
      rewrite (bind_Ret _ _ o vs (o + 4 * Z.of_nat (List.length vs))
                 (read_offset_array_encoded buf vs o rest Hrem
                    ltac:(assumption) ltac:(lia)));
      apply remaining_app in Hrem; rewrite size_offset_table in Hrem
  end; cbv beta.

Ltac finish_encoded Hrem Hsize :=
  apply remaining_size in Hrem; destruct Hrem as [_ Hrem];
  unfold bind, get_offset, ret; f_equal;
  [ f_equal;
    match goal with
    | |- negb (?a =? ?b) = negb (?c =? 0) =>
        destruct (Z.eqb_spec a b), (Z.eqb_spec c 0); try reflexivity; exfalso; lia
    end
  | lia ].

Lemma table_well_formed_spec (n : Z) (vs : list Z) :
  table_well_formed n vs = true ->
  Z.of_nat (List.length vs) = n + 1 /\ forallb is_uint32 vs = true.
Proof.
  unfold table_well_formed. rewrite andb_true_iff, Z.eqb_eq. tauto.
Qed.

(** One read of [ParsePinFile], whatever the bytes are: the error leaves the
    parser, the value read is the head of the remaining bytes. *)
Ltac decode_read lem Hrem Hfit a Hok :=
  let w := fresh "w" in
  let o' := fresh "o'" in
  let Hthrow := fresh "Hthrow" in
  let Hbound := fresh "Hbound" in
  let rest := fresh "rest" in
  let Hread := fresh "Hread" in
  lazymatch type of Hrem with
  | remaining ?buf ?o ?bs =>
      destruct (lem buf o bs Hrem Hfit)
        as [(w & o' & Hthrow & Hbound) | (a & rest & Hok & -> & Hread)];
      [ apply remaining_size in Hrem; left; exists w, o';
        rewrite (bind_Throw _ _ _ _ _ Hthrow); split; [reflexivity | lia]
      | rewrite (bind_Ret _ _ _ _ _ Hread); cbv beta; apply remaining_app in Hrem ]
  end.

Lemma table_well_formed_intro (n : Z) (vs : list Z) :
  is_uint32 n = true ->
  List.length vs = Z.to_nat (n +w 1) /\ forallb is_uint32 vs = true ->
  table_well_formed n vs = true.
Proof.
  intros Hn [Hlen Hvs]. apply is_uint32_range in Hn.
  rewrite szadd_small in Hlen by lia.
  unfold table_well_formed. rewrite Hvs, andb_true_r. apply Z.eqb_eq. lia.
Qed.

(** The end of [ParsePinFile]: the fields read make a well-formed index, its
    encoding is what was read, and the cursor is behind it. *)
Ltac finish_decode Hrem Hdata Eflag :=
  split; [| split];
  [ unfold index_well_formed;
    cbn [version is_protein volume_number title lmdb_file date num_oids
         total_length max_length header_offsets sequence_offsets
         ambiguity_offsets Z.eqb Pos.eqb orb empty];
    rewrite Eflag, !andb_true_iff; repeat split;
    first [ assumption | reflexivity | apply Z.leb_le; lia | apply Z.ltb_lt; lia
          | apply table_well_formed_intro; assumption ]
  | rewrite Hdata at 1; unfold index_bytes;
    cbn [version is_protein volume_number title lmdb_file date num_oids
         total_length max_length header_offsets sequence_offsets
         ambiguity_offsets Z.eqb Pos.eqb offset_table flat_map app];
    rewrite <- ?app_assoc; reflexivity
  | apply remaining_size in Hrem; destruct Hrem as [_ Hrem];
    unfold bind, get_offset, ret; f_equal;
    [ f_equal;
      match goal with
      | |- negb (?a =? ?b) = negb (?c =? 0) =>
          destruct (Z.eqb_spec a b), (Z.eqb_spec c 0); try reflexivity; exfalso; lia
      end
    | unfold index_bytes;
      cbn [version is_protein volume_number title lmdb_file date num_oids
           total_length max_length header_offsets sequence_offsets
           ambiguity_offsets Z.eqb Pos.eqb];
      rewrite !size_app; change (size (offset_table [])) with 0;
      change (size []) with 0; lia ] ].

Lemma ParsePinFile_cases (data : list byte) :
  size data < 2 ^ 63 -> index_outcome data (ParsePinFile data).
Proof.
  intros Hfit.
  assert (Hinit : exists bs, data = bs /\ remaining data 0 bs)
    by (exists data; split; [reflexivity | apply remaining_start]).
  destruct Hinit as (bs & Hdata & Hrem).
  unfold index_outcome, ParsePinFile, ParsePinFile_body.
  decode_read ReadBE32_cases Hrem Hfit v Hv.
  destruct (Z.eqb_spec v 4) as [-> | Hv4]; [| destruct (Z.eqb_spec v 5) as [-> | Hv5]];
    cbn [negb andb].
  3: { left. eexists _, _. split; [reflexivity |].
       apply remaining_size in Hrem. pose proof (size_nonneg rest). lia. }
  - decode_read ReadBE32_cases Hrem Hfit flag Hflag.
    cbn [Z.eqb Pos.eqb]. rewrite bind_ret.
    decode_read ReadPascalString_cases Hrem Hfit t Ht.
    rewrite bind_ret.
    decode_read ReadPascalString_cases Hrem Hfit d Hd.
    decode_read ReadBE32_cases Hrem Hfit n Hn.
    decode_read ReadLE64_cases Hrem Hfit tot Htot.
    decode_read ReadBE32_cases Hrem Hfit mx Hmx.
    decode_read (read_offset_array_cases (Z.to_nat (n +w 1))) Hrem Hfit hs Hhs.
    decode_read (read_offset_array_cases (Z.to_nat (n +w 1))) Hrem Hfit ss Hss.
    destruct (flag =? 1) eqn:Eflag; cbn [negb].
    + rewrite bind_ret. right.
      exists flag, (mkPinIndex 4 true 0 t EmptyString d n tot mx hs ss []). eexists.
      finish_decode Hrem Hdata Eflag.
    + decode_read (read_offset_array_cases (Z.to_nat (n +w 1))) Hrem Hfit ambs Hambs.
      right.
      exists flag, (mkPinIndex 4 false 0 t EmptyString d n tot mx hs ss ambs). eexists.
      finish_decode Hrem Hdata Eflag.
  - decode_read ReadBE32_cases Hrem Hfit flag Hflag.
    cbn [Z.eqb Pos.eqb].
    decode_read ReadBE32_cases Hrem Hfit vol Hvol.
    decode_read ReadPascalString_cases Hrem Hfit t Ht.
    decode_read ReadPascalString_cases Hrem Hfit lm Hlm.
    decode_read ReadPascalString_cases Hrem Hfit d Hd.
    decode_read ReadBE32_cases Hrem Hfit n Hn.
    decode_read ReadLE64_cases Hrem Hfit tot Htot.
    decode_read ReadBE32_cases Hrem Hfit mx Hmx.
    decode_read (read_offset_array_cases (Z.to_nat (n +w 1))) Hrem Hfit hs Hhs.
    decode_read (read_offset_array_cases (Z.to_nat (n +w 1))) Hrem Hfit ss Hss.
    destruct (flag =? 1) eqn:Eflag; cbn [negb].
    + rewrite bind_ret. right.
      exists flag, (mkPinIndex 5 true vol t lm d n tot mx hs ss []). eexists.
      finish_decode Hrem Hdata Eflag.
    + decode_read (read_offset_array_cases (Z.to_nat (n +w 1))) Hrem Hfit ambs Hambs.
      right.
      exists flag, (mkPinIndex 5 false vol t lm d n tot mx hs ss ambs). eexists.
      finish_decode Hrem Hdata Eflag.
Qed.

(** ** Extracting the header blobs *)

Lemma at_app (pre : list Z) (x : Z) (post : list Z) :
  at_ (pre ++ x :: post) (Z.of_nat (List.length pre)) = inr x.
Proof.
  unfold at_. rewrite leb_true by lia. rewrite Nat2Z.id.
  rewrite nth_error_app2, Nat.sub_diag by lia. reflexivity.
Qed.

Lemma ExtractHeaders_loop_spec (index : PinIndex) (data : list byte) :
  forall (n : nat) (pre suffix : list Z),
    header_offsets index = pre ++ suffix -> List.length suffix = S n ->
    ExtractHeaders_loop index data n (Z.of_nat (List.length pre))
    = match first_invalid (size data) (header_ranges suffix)
              (Z.of_nat (List.length pre)) with
      | Some i =>
          inl (runtime_error ("Header offsets for OID " ++ to_string i ++ " are invalid"))
      | None => inr (map (header_slice data) (header_ranges suffix))
      end.
Proof.
  induction n as [| n IH]; intros pre suffix Hoffs Hlen.
  - destruct suffix as [| s [| e suffix]]; try discriminate Hlen. reflexivity.
  - destruct suffix as [| s [| e suffix]]; try discriminate Hlen.
    cbn [ExtractHeaders_loop]. rewrite Hoffs, at_app.
    replace (Z.of_nat (List.length pre) + 1) with (Z.of_nat (List.length (pre ++ [s])))
      by (rewrite length_app; cbn; lia).
    replace (pre ++ s :: e :: suffix) with ((pre ++ [s]) ++ e :: suffix)
      by (rewrite <- app_assoc; reflexivity).
    rewrite at_app.
    change (header_ranges (s :: e :: suffix))
      with ((s, e) :: header_ranges (e :: suffix)).
    cbn [first_invalid map]. unfold range_valid at 1. cbn [fst snd].
    destruct (Z.leb_spec s e) as [Hse | Hse];
      [rewrite ltb_false by lia | rewrite ltb_true by lia; reflexivity].
    destruct (Z.leb_spec e (size data)) as [He | He];
      [rewrite ltb_false by lia | rewrite ltb_true by lia; reflexivity].
    cbn [orb andb].
    rewrite (IH (pre ++ [s]) (e :: suffix));
      [| rewrite Hoffs, <- app_assoc; reflexivity | cbn in Hlen |- *; lia].
    replace (Z.of_nat (List.length (pre ++ [s]))) with (Z.of_nat (List.length pre) + 1)
      by (rewrite length_app; cbn; lia).
    destruct (first_invalid (size data) (header_ranges (e :: suffix))
                (Z.of_nat (List.length pre) + 1)); reflexivity.
Qed.

Lemma ExtractHeaders_spec (index : PinIndex) (data : list byte) :
  0 <= num_oids index ->
  Z.of_nat (List.length (header_offsets index)) = num_oids index + 1 ->
  ExtractHeaders index data
  = match first_invalid (size data) (header_ranges (header_offsets index)) 0 with
    | Some i =>
        inl (runtime_error ("Header offsets for OID " ++ to_string i ++ " are invalid"))
    | None => inr (map (header_slice data) (header_ranges (header_offsets index)))
    end.
Proof.
  intros Hnum Hlen. unfold ExtractHeaders.
  apply (ExtractHeaders_loop_spec index data (Z.to_nat (num_oids index)) []).
  - reflexivity.
  - lia.
Qed.

Lemma length_header_ranges (offsets : list Z) :
  List.length (header_ranges offsets) = (List.length offsets - 1)%nat.
Proof.
  induction offsets as [| s [| e rest] IH]; try reflexivity.
  change (header_ranges (s :: e :: rest)) with ((s, e) :: header_ranges (e :: rest)).
  cbn [List.length] in *. rewrite IH. lia.
Qed.

Lemma first_invalid_None (limit : Z) (ranges : list (Z * Z)) :
  forall i, first_invalid limit ranges i = None <-> forallb (range_valid limit) ranges = true.
Proof.
  induction ranges as [| r ranges IH]; intros i; cbn [first_invalid forallb].
  - tauto.
  - destruct (range_valid limit r); cbn [andb]; [apply IH | split; discriminate].
Qed.

Lemma first_invalid_Some (limit : Z) (ranges : list (Z * Z)) :
  forall i k, first_invalid limit ranges i = Some k ->
    i <= k < i + Z.of_nat (List.length ranges)
    /\ range_valid limit (nth (Z.to_nat (k - i)) ranges (0, 0)) = false
    /\ forallb (range_valid limit) (firstn (Z.to_nat (k - i)) ranges) = true.
Proof.
  induction ranges as [| r ranges IH]; intros i k; cbn [first_invalid].
  - discriminate.
  - destruct (range_valid limit r) eqn:Hr.
    + intros Hk. apply IH in Hk. destruct Hk as (Hbound & Hbad & Hgood).
      cbn [List.length].
      replace (Z.to_nat (k - i)) with (S (Z.to_nat (k - (i + 1)))) by lia.
      cbn [nth firstn forallb]. rewrite Hr. repeat split; try assumption; lia.
    + intros [= <-]. rewrite Z.sub_diag. cbn [Z.to_nat nth firstn forallb List.length].
      repeat split; try assumption; lia.
Qed.

Lemma firstn_plus (a b : nat) (l : list byte) :
  firstn (a + b) l = firstn a l ++ firstn b (skipn a l).
Proof.
  revert l. induction a as [| a IH]; intros l; [reflexivity |].
  destruct l as [| x l]; cbn [Nat.add firstn skipn app].
  - rewrite firstn_nil. reflexivity.
  - rewrite IH. reflexivity.
Qed.

Lemma sub_bytes_adjacent (data : list byte) (s e l : Z) :
  0 <= s <= e -> e <= l ->
  sub_bytes data s (e - s) ++ sub_bytes data e (l - e) = sub_bytes data s (l - s).
Proof.
  intros Hse Hel. unfold sub_bytes.
  replace (Z.to_nat e) with (Z.to_nat (e - s) + Z.to_nat s)%nat by lia.
  rewrite <- skipn_skipn.
  replace (Z.to_nat (l - s)) with (Z.to_nat (e - s) + Z.to_nat (l - e))%nat by lia.
  set (rest := skipn (Z.to_nat s) data).
  rewrite firstn_plus. reflexivity.
Qed.

Lemma header_slices_tile (data : list byte) (offsets : list Z) :
  forall s, 0 <= s ->
    forallb (range_valid (size data)) (header_ranges (s :: offsets)) = true ->
    List.concat (map (header_slice data) (header_ranges (s :: offsets)))
    = sub_bytes data s (last (s :: offsets) 0 - s)
    /\ s <= last (s :: offsets) 0.
Proof.
  induction offsets as [| e offsets IH]; intros s Hs Hvalid.
  - cbn. rewrite Z.sub_diag. unfold sub_bytes. cbn. split; [reflexivity | lia].
  - change (header_ranges (s :: e :: offsets))
      with ((s, e) :: header_ranges (e :: offsets)) in *.
    cbn [forallb map List.concat] in *. apply andb_true_iff in Hvalid.
    destruct Hvalid as [Hr Hvalid]. unfold range_valid in Hr. cbn [fst snd] in Hr.
    apply andb_true_iff in Hr. rewrite !Z.leb_le in Hr.
    destruct (IH e ltac:(lia) Hvalid) as [Htile Hlast].
    rewrite Htile. unfold header_slice. cbn [fst snd].
    change (last (s :: e :: offsets) 0) with (last (e :: offsets) 0).
    split; [apply sub_bytes_adjacent; lia | lia].
Qed.

(** ** The index file: what [ParsePinFile] accepts *)

(** X1. Parsing inverts encoding: on the bytes of a well-formed index,
    followed by any trailing bytes, [ParsePinFile] returns that index, with
    the cursor just behind its encoding and the trailing-bytes warning
    raised exactly when trailing bytes are there. *)
Theorem ParsePinFile_round_trip (flag : Z) (I : PinIndex) (trailing : list byte) :
  index_well_formed flag I = true ->
  size (index_bytes flag I ++ trailing) < 2 ^ 63 ->
  ParsePinFile (index_bytes flag I ++ trailing)
  = Ret (I, negb (size trailing =? 0)) (size (index_bytes flag I)).
Proof.
  intros Hwf Hfit. unfold ParsePinFile.
  set (buffer := index_bytes flag I ++ trailing) in *.
  assert (Hrem : remaining buffer 0 (index_bytes flag I ++ trailing))
    by apply remaining_start.
  clearbody buffer.
  pose proof (remaining_size _ _ _ Hrem) as [_ Hsize]. rewrite size_app in Hsize.
  revert Hrem Hwf Hsize.
  generalize (size (index_bytes flag I)) as total.
  destruct I as [v p vol t lm d n tot mx H S A].
  unfold index_well_formed, index_bytes.
  cbn [version is_protein volume_number title lmdb_file date num_oids
       total_length max_length header_offsets sequence_offsets ambiguity_offsets].
  intros total Hrem Hwf Hsize.
  rewrite !andb_true_iff in Hwf.
  destruct Hwf as ((((((((((((Hver & Hflag) & Hprot) & Hv5) & Ht) & Hd) & Hn)
                         & Htot0) & Htot1) & Hmx) & HH) & HS) & HA).
  apply table_well_formed_spec in HH, HS. destruct HH as [HHn HH], HS as [HSn HS].
  apply Z.leb_le in Htot0. apply Z.ltb_lt in Htot1.
  apply Bool.eqb_prop in Hprot.
  pose proof (proj1 (is_uint32_range n) Hn) as Hnr.
  assert (Hcount : Z.to_nat (n +w 1) = List.length H /\ Z.to_nat (n +w 1) = List.length S).
  { rewrite szadd_small by lia. split; lia. }
  destruct Hcount as [HcH HcS].
  rewrite <- !app_assoc in Hrem.
  unfold ParsePinFile_body.
  assert (Hv : v = 4 \/ v = 5)
    by (apply orb_true_iff in Hver; rewrite !Z.eqb_eq in Hver; exact Hver).
  destruct Hv as [-> | ->]; cbn [Z.eqb Pos.eqb app] in Hrem, Hv5;
    apply andb_true_iff in Hv5; destruct Hv5 as [Hvol Hlm].
  - apply Z.eqb_eq in Hvol. subst vol. destruct lm; [| discriminate Hlm].
    encoded_read Hrem. cbn [Z.eqb Pos.eqb negb andb].
    encoded_read Hrem. rewrite bind_ret.
    encoded_read Hrem. rewrite bind_ret.
    do 4 encoded_read Hrem.
    do 2 encoded_read Hrem.
    subst p. destruct (flag =? 1); cbn [negb].
    + destruct A; [| discriminate HA]. rewrite bind_ret. cbn [offset_table flat_map app] in Hrem.
      finish_encoded Hrem Hsize.
    + apply table_well_formed_spec in HA. destruct HA as [HAn HA].
      assert (HcA : Z.to_nat (n +w 1) = List.length A) by lia.
      encoded_read Hrem. finish_encoded Hrem Hsize.
  - encoded_read Hrem. cbn [Z.eqb Pos.eqb negb andb]. do 8 encoded_read Hrem.
    do 2 encoded_read Hrem.
    subst p. destruct (flag =? 1); cbn [negb].
    + destruct A; [| discriminate HA]. rewrite bind_ret. cbn [offset_table flat_map app] in Hrem.
      finish_encoded Hrem Hsize.
    + apply table_well_formed_spec in HA. destruct HA as [HAn HA].
      assert (HcA : Z.to_nat (n +w 1) = List.length A) by lia.
      encoded_read Hrem. finish_encoded Hrem Hsize.
Qed.

Lemma ParsePinFile_round_trip_example :
  ParsePinFile (index_bytes 1 two_record_index ++ [xff])
  = Ret (two_record_index, true) 62.
Proof.
  apply (ParsePinFile_round_trip 1 two_record_index [xff]).
  - reflexivity.
  - vm_compute. reflexivity.
Defined.

(** X2. Whatever [ParsePinFile] returns is what the file holds: the bytes
    up to the final cursor are the encoding of the returned index, which is
    well formed (version 4 or 5, every table of [num_oids + 1] entries, no
    ambiguity table for a protein index), and the warning tells whether
    bytes follow. *)
Theorem ParsePinFile_returns_what_the_file_encodes
        (data : list byte) (I : PinIndex) (warned : bool) (o : Z) :
  size data < 2 ^ 63 ->
  ParsePinFile data = Ret (I, warned) o ->
  (exists flag trailing,
     index_well_formed flag I = true
     /\ data = index_bytes flag I ++ trailing
     /\ o = size (index_bytes flag I)
     /\ warned = negb (size trailing =? 0))
  /\ (version I = 4 \/ version I = 5)
  /\ Z.of_nat (List.length (header_offsets I)) = num_oids I + 1
  /\ Z.of_nat (List.length (sequence_offsets I)) = num_oids I + 1
  /\ Z.of_nat (List.length (ambiguity_offsets I))
     = (if is_protein I then 0 else num_oids I + 1).
Proof.
  intros Hfit Hparse.
  destruct (ParsePinFile_cases data Hfit)
    as [(w & o' & Hthrow & _) | (flag & I' & trailing & Hwf & Hdata & Hret)].
  { rewrite Hparse in Hthrow. discriminate Hthrow. }
  rewrite Hparse in Hret. injection Hret as -> -> ->.
  split; [exists flag, trailing; repeat split; assumption |].
  unfold index_well_formed in Hwf. rewrite !andb_true_iff in Hwf.
  destruct Hwf as ((((((((((((Hver & _) & _) & _) & _) & _) & _) & _) & _) & _)
                     & HH) & HS) & HA).
  apply table_well_formed_spec in HH, HS.
  apply orb_true_iff in Hver. rewrite !Z.eqb_eq in Hver.
  repeat split; try tauto.
  destruct (is_protein I').
  - destruct (ambiguity_offsets I'); [reflexivity | discriminate HA].
  - apply table_well_formed_spec in HA. tauto.
Qed.

Lemma ParsePinFile_returns_what_the_file_encodes_example :
  (exists flag trailing,
     index_well_formed flag two_record_index = true
     /\ index_bytes 1 two_record_index ++ [xff]
        = index_bytes flag two_record_index ++ trailing
     /\ 62 = size (index_bytes flag two_record_index)
     /\ true = negb (size trailing =? 0))
  /\ (version two_record_index = 4 \/ version two_record_index = 5)
  /\ Z.of_nat (List.length (header_offsets two_record_index))
     = num_oids two_record_index + 1
  /\ Z.of_nat (List.length (sequence_offsets two_record_index))
     = num_oids two_record_index + 1
  /\ Z.of_nat (List.length (ambiguity_offsets two_record_index))
     = (if is_protein two_record_index then 0 else num_oids two_record_index + 1).
Proof.
  apply (ParsePinFile_returns_what_the_file_encodes
           (index_bytes 1 two_record_index ++ [xff]) two_record_index true 62).
  - vm_compute. reflexivity.
  - vm_compute. reflexivity.
Defined.



Lemma nth_header_ranges (offsets : list Z) :
  forall i, (S i < List.length offsets)%nat ->
    nth i (header_ranges offsets) (0, 0) = (nth i offsets 0, nth (S i) offsets 0).
Proof.
  induction offsets as [| s [| e rest] IH]; intros i Hi; cbn [List.length] in Hi; try lia.
  change (header_ranges (s :: e :: rest)) with ((s, e) :: header_ranges (e :: rest)).
  destruct i as [| i]; [reflexivity |].
  cbn [nth]. rewrite IH by (cbn [List.length]; lia). reflexivity.
Qed.

Lemma forallb_nth (limit : Z) (ranges : list (Z * Z)) (i : nat) :
  forallb (range_valid limit) ranges = true -> (i < List.length ranges)%nat ->
  range_valid limit (nth i ranges (0, 0)) = true.
Proof.
  intros Hall Hi. rewrite forallb_forall in Hall. apply Hall. apply nth_In. exact Hi.
Qed.

(** X4. When [ExtractHeaders] succeeds on an index whose header table has
    [num_oids + 1] entries, it returns [num_oids] blobs; blob [i] is the
    range of the header file between entries [i] and [i + 1] of the table,
    which lies in the file; and the blobs laid end to end are the part of
    the file between the first and the last entry. *)
Theorem ExtractHeaders_cuts_consecutive_ranges
        (index : PinIndex) (data : list byte) (headers : list (list byte)) :
  0 <= num_oids index ->
  Z.of_nat (List.length (header_offsets index)) = num_oids index + 1 ->
  0 <= hd 0 (header_offsets index) ->
  ExtractHeaders index data = inr headers ->
  Z.of_nat (List.length headers) = num_oids index
  /\ (forall i, (i < List.length headers)%nat ->
        let start := nth i (header_offsets index) 0 in
        let end_ := nth (S i) (header_offsets index) 0 in
        start <= end_ <= size data
        /\ nth i headers [] = sub_bytes data start (end_ - start))
  /\ List.concat headers
     = sub_bytes data (hd 0 (header_offsets index))
         (last (header_offsets index) 0 - hd 0 (header_offsets index)).
Proof.
  intros Hnum Hlen Hfirst Hextract.
  rewrite ExtractHeaders_spec in Hextract by assumption.
  destruct (first_invalid (size data) (header_ranges (header_offsets index)) 0)
    eqn:Hvalid; [discriminate Hextract |].
  injection Hextract as <-. apply first_invalid_None in Hvalid.
  assert (Hcount : List.length (map (header_slice data)
                                  (header_ranges (header_offsets index)))
                   = (List.length (header_offsets index) - 1)%nat)
    by (rewrite length_map; apply length_header_ranges).
  split; [lia |]. split.
  - intros i Hi start end_. rewrite Hcount in Hi.
    pose proof (forallb_nth _ _ i Hvalid) as Hr.
    rewrite length_header_ranges in Hr. specialize (Hr Hi).
    rewrite nth_header_ranges in Hr by lia.
    unfold range_valid in Hr. cbn [fst snd] in Hr.
    apply andb_true_iff in Hr. rewrite !Z.leb_le in Hr.
    split; [exact Hr |].
    change [] with (header_slice data (0, 0)).
    rewrite map_nth, nth_header_ranges by lia. reflexivity.
  - destruct (header_offsets index) as [| s offsets]; [cbn in Hlen; lia |].
    cbn [hd] in *. apply header_slices_tile; assumption.
Qed.

Lemma ExtractHeaders_cuts_consecutive_ranges_example :
  Z.of_nat (List.length [[x30; x01; x00]; [x30; x00]]) = num_oids two_record_index
  /\ (forall i, (i < List.length [[x30; x01; x00]; [x30; x00]])%nat ->
        let start := nth i (header_offsets two_record_index) 0 in
        let end_ := nth (S i) (header_offsets two_record_index) 0 in
        start <= end_ <= size five_byte_headers
        /\ nth i [[x30; x01; x00]; [x30; x00]] []
           = sub_bytes five_byte_headers start (end_ - start))
  /\ List.concat [[x30; x01; x00]; [x30; x00]]
     = sub_bytes five_byte_headers (hd 0 (header_offsets two_record_index))
         (last (header_offsets two_record_index) 0
          - hd 0 (header_offsets two_record_index)).
Proof.
  apply (ExtractHeaders_cuts_consecutive_ranges two_record_index five_byte_headers).
  - vm_compute. discriminate.
  - reflexivity.
  - vm_compute. discriminate.
  - reflexivity.
Defined.

(** X5. On an index whose header table has [num_oids + 1] entries,
    [ExtractHeaders] succeeds exactly when every pair of consecutive entries
    is a range of the header file; otherwise it throws the
    invalid-offsets error that names the first record whose range is not
    one, and never the range error of [std::vector::at]. *)
Theorem ExtractHeaders_fails_at_first_invalid_range
        (index : PinIndex) (data : list byte) :
  0 <= num_oids index ->
  Z.of_nat (List.length (header_offsets index)) = num_oids index + 1 ->
  ((exists headers, ExtractHeaders index data = inr headers)
   <-> forallb (range_valid (size data)) (header_ranges (header_offsets index)) = true)
  /\ (forall e, ExtractHeaders index data = inl e ->
      exists i,
        0 <= i < num_oids index
        /\ e = runtime_error ("Header offsets for OID " ++ to_string i ++ " are invalid")
        /\ range_valid (size data)
             (nth (Z.to_nat i) (header_offsets index) 0,
              nth (S (Z.to_nat i)) (header_offsets index) 0) = false
        /\ forallb (range_valid (size data))
             (firstn (Z.to_nat i) (header_ranges (header_offsets index))) = true).
Proof.
  intros Hnum Hlen. rewrite ExtractHeaders_spec by assumption.
  destruct (first_invalid (size data) (header_ranges (header_offsets index)) 0)
    as [k |] eqn:Hvalid.
  - split.
    + split; [intros [headers H]; discriminate H |].
      intros Hall. apply (first_invalid_None _ _ 0) in Hall.
      rewrite Hall in Hvalid. discriminate Hvalid.
    + intros e [= <-]. apply first_invalid_Some in Hvalid.
      destruct Hvalid as (Hk & Hbad & Hgood).
      rewrite length_header_ranges in Hk. rewrite Z.sub_0_r in Hbad, Hgood.
      exists k. rewrite nth_header_ranges in Hbad by lia.
      repeat split; try assumption; lia.
  - split; [| intros e H; discriminate H].
    split; [intros _; apply (first_invalid_None _ _ 0); exact Hvalid |].
    intros _. eexists. reflexivity.
Qed.

Lemma ExtractHeaders_fails_at_first_invalid_range_example :
  ((exists headers, ExtractHeaders two_record_index [x30; x01; x00; x30] = inr headers)
   <-> forallb (range_valid (size [x30; x01; x00; x30]))
         (header_ranges (header_offsets two_record_index)) = true)
  /\ (forall e, ExtractHeaders two_record_index [x30; x01; x00; x30] = inl e ->
      exists i,
        0 <= i < num_oids two_record_index
        /\ e = runtime_error ("Header offsets for OID " ++ to_string i ++ " are invalid")
        /\ range_valid (size [x30; x01; x00; x30])
             (nth (Z.to_nat i) (header_offsets two_record_index) 0,
              nth (S (Z.to_nat i)) (header_offsets two_record_index) 0) = false
        /\ forallb (range_valid (size [x30; x01; x00; x30]))
             (firstn (Z.to_nat i) (header_ranges (header_offsets two_record_index)))
           = true).
Proof.
  apply (ExtractHeaders_fails_at_first_invalid_range two_record_index
           [x30; x01; x00; x30]).
  - vm_compute. discriminate.
  - reflexivity.
Defined.

(** X6. The two steps of the program fit: on an index that [ParsePinFile]
    returned, [ExtractHeaders] never runs off the header table; it returns
    one blob per record or throws the invalid-offsets error for one of the
    records. *)
Theorem ExtractHeaders_of_a_parsed_index
        (pin phr : list byte) (I : PinIndex) (warned : bool) (o : Z) :
  size pin < 2 ^ 63 ->
  ParsePinFile pin = Ret (I, warned) o ->
  (exists headers,
     ExtractHeaders I phr = inr headers
     /\ Z.of_nat (List.length headers) = num_oids I)
  \/ (exists i,
        0 <= i < num_oids I
        /\ ExtractHeaders I phr
           = inl (runtime_error
                    ("Header offsets for OID " ++ to_string i ++ " are invalid"))).
Proof.
  intros Hfit Hparse.
  destruct (ParsePinFile_cases pin Hfit)
    as [(w & o' & Hthrow & _) | (flag & I' & trailing & Hwf & Hdata & Hret)].
  { rewrite Hparse in Hthrow. discriminate Hthrow. }
  rewrite Hparse in Hret. injection Hret as -> -> ->.
  unfold index_well_formed in Hwf. rewrite !andb_true_iff in Hwf.
  destruct Hwf as ((((((((((((_ & _) & _) & _) & _) & _) & Hn) & _) & _) & _)
                     & HH) & _) & _).
  apply table_well_formed_spec in HH. apply is_uint32_range in Hn.
  destruct HH as [Hlen _].
  rewrite ExtractHeaders_spec by (assumption || lia).
  destruct (first_invalid (size phr) (header_ranges (header_offsets I')) 0)
    as [k |] eqn:Hvalid.
  - right. exists k. apply first_invalid_Some in Hvalid.
    rewrite length_header_ranges in Hvalid. split; [lia | reflexivity].
  - left. eexists. split; [reflexivity |].
    rewrite length_map, length_header_ranges. lia.
Qed.

Lemma ExtractHeaders_of_a_parsed_index_example :
  (exists headers,
     ExtractHeaders two_record_index five_byte_headers = inr headers
     /\ Z.of_nat (List.length headers) = num_oids two_record_index)
  \/ (exists i,
        0 <= i < num_oids two_record_index
        /\ ExtractHeaders two_record_index five_byte_headers
           = inl (runtime_error
                    ("Header offsets for OID " ++ to_string i ++ " are invalid"))).
Proof.
  apply (ExtractHeaders_of_a_parsed_index (index_bytes 1 two_record_index)
           five_byte_headers two_record_index false 62).
  - vm_compute. reflexivity.
  - vm_compute. reflexivity.
Defined.

(** ** The index parser of the sequence reader *)

Lemma ReadUInt32_encoded (buffer : list byte) (o v : Z) (rest : list byte) :
  remaining buffer o (be32_bytes v ++ rest) -> is_uint32 v = true ->
  size buffer < 2 ^ 64 ->
  PsqReader.ReadUInt32 buffer o = Ret v (o + 4).
Proof.
  intros (pre & Hbuf & ->) Hv Hfit. apply is_uint32_range in Hv.
  subst buffer. unfold be32_bytes in Hfit |- *.
  rewrite ReadUInt32_at by exact Hfit.
  rewrite <- be_accumulate_value. fold (be32_bytes v).
  rewrite be_accumulate_be32_bytes by exact Hv. reflexivity.
Qed.

Lemma ReadUInt64_encoded (buffer : list byte) (o v : Z) (rest : list byte) :
  remaining buffer o (be64_bytes v ++ rest) -> 0 <= v < 2 ^ 64 ->
  size buffer < 2 ^ 64 ->
  PsqReader.ReadUInt64 buffer o = Ret v (o + 8).
Proof.
  intros (pre & Hbuf & ->) Hv Hfit. subst buffer.
  pose proof (size_nonneg pre). pose proof (size_nonneg rest).
  assert (Hw : size (be64_bytes v) = 8) by reflexivity.
  rewrite !size_app, Hw in Hfit.
  unfold PsqReader.ReadUInt64, PsqReader.EnsureAvailable. unfold_monad.
  rewrite szadd_small by lia.
  rewrite ltb_false by (rewrite !size_app, Hw; lia).
  rewrite <- Hw at 1. rewrite bytes_at_app. cbv beta iota.
  rewrite szadd_small by lia. f_equal.
  rewrite <- (le_accumulate_le64_bytes v Hv) at 2.
  unfold le_accumulate, be64_bytes. reflexivity.
Qed.

Lemma ReadString_encoded (buffer : list byte) (o : Z) (s : string) (rest : list byte) :
  remaining buffer o (length_prefixed s ++ rest) ->
  is_uint32 (Z.of_nat (String.length s)) = true -> size buffer < 2 ^ 63 ->
  PsqReader.ReadString buffer o = Ret s (o + 4 + Z.of_nat (String.length s)).
Proof.
  intros Hrem Hs Hfit.
  pose proof (remaining_size _ _ _ Hrem) as [Ho Hsize].
  rewrite size_app, size_length_prefixed in Hsize. pose proof (size_nonneg rest).
  unfold length_prefixed in Hrem. rewrite <- app_assoc in Hrem.
  unfold PsqReader.ReadString.
  rewrite (bind_Ret _ _ _ _ _ (ReadUInt32_encoded buffer o _ _ Hrem Hs ltac:(lia))).
  apply remaining_app in Hrem. rewrite size_be32_bytes in Hrem.
  destruct Hrem as (pre & Hbuf & Hpre).
  unfold PsqReader.EnsureAvailable. unfold_monad.
  rewrite szadd_small by lia. rewrite ltb_false by lia.
  rewrite Hbuf, Hpre, <- size_list_byte_of_string.
  rewrite bytes_at_app. cbv beta iota.
  rewrite szadd_small by (rewrite size_list_byte_of_string; lia).
  rewrite string_of_list_byte_of_string. reflexivity.
Qed.

Lemma offset_table_app (a b : list Z) :
  offset_table (a ++ b) = offset_table a ++ offset_table b.
Proof. unfold offset_table. apply flat_map_app. Qed.

(** The loop of [ParsePin] over the sequence-offset table, on a table that
    the encoder wrote at [pos]. *)
Lemma sequence_table_loop (buffer pre rest : list byte) (pos n o : Z) (vs : list Z) :
  buffer = pre ++ offset_table vs ++ rest -> pos = size pre ->
  table_well_formed n vs = true -> 0 <= n < 2 ^ 30 -> size buffer < 2 ^ 63 ->
  forall (todo done : list Z) (fuel : nat),
    vs = done ++ todo -> (List.length todo < fuel)%nat ->
    loop fuel
      (fun st : Z * list Z =>
         let '(i, offsets) := st in
         if i <=? n
         then
           let pos := pos +w uint32 (i * 4) in
           b0 <- byte_at buffer pos ;;
           b1 <- byte_at buffer (pos +w 1) ;;
           b2 <- byte_at buffer (pos +w 2) ;;
           b3 <- byte_at buffer (pos +w 3) ;;
           ret (Continue (uint32 (i + 1), offsets ++ [PsqReader.be32 b0 b1 b2 b3]))
         else ret (Break offsets))
      (Z.of_nat (List.length done), done) o
    = Ret vs o.
Proof.
  intros Hbuf Hpos Hvs Hn Hfit.
  apply table_well_formed_spec in Hvs. destruct Hvs as [Hlen Hvs].
  induction todo as [| v todo IH]; intros done fuel Hsplit Hfuel;
    (destruct fuel as [| fuel]; [cbn in Hfuel; lia |]).
  - rewrite app_nil_r in Hsplit. subst done. rewrite loop_S.
    rewrite leb_false by lia. reflexivity.
  - assert (Hi : Z.of_nat (List.length done) <= n).
    { rewrite Hsplit, length_app in Hlen. cbn [List.length] in Hlen. lia. }
    assert (Hv : 0 <= v < 2 ^ 32).
    { apply is_uint32_range. rewrite forallb_forall in Hvs. apply Hvs.
      rewrite Hsplit. apply in_or_app. right. left. reflexivity. }
    pose proof (size_nonneg pre). pose proof (size_nonneg rest).
    assert (Hsize : size buffer = size pre + 4 * (n + 1) + size rest).
    { rewrite Hbuf, !size_app, size_offset_table. lia. }
    set (i := Z.of_nat (List.length done)) in *.
    assert (Hi0 : 0 <= i) by (unfold i; lia).
    assert (Hlayout : buffer
                      = (pre ++ offset_table done) ++ be32_bytes v
                          ++ offset_table todo ++ rest).
    { rewrite Hbuf, Hsplit, offset_table_app. unfold offset_table at 2.
      cbn [flat_map]. rewrite <- !app_assoc. reflexivity. }
    assert (Hat : size (pre ++ offset_table done) = pos + i * 4).
    { rewrite size_app, size_offset_table. unfold i. lia. }
    unfold be32_bytes in Hlayout.
    match goal with
    | |- loop _ ?body _ _ = _ =>
        assert (Hbody : body (i, done) o = Ret (Continue (i + 1, done ++ [v])) o)
    end.
    { cbv beta iota zeta. rewrite leb_true by exact Hi.
      assert (E4 : uint32 (i * 4) = i * 4) by (apply Z.mod_small; lia).
      assert (E1 : uint32 (i + 1) = i + 1) by (apply Z.mod_small; lia).
      rewrite E4, E1.
      rewrite !szadd_small by lia.
      rewrite (bind_Ret _ _ _ _ _
                 (byte_at_split buffer (pre ++ offset_table done) [] _ _
                    (pos + i * 4) o Hlayout
                    ltac:(change (size []) with 0; lia))).
      rewrite (bind_Ret _ _ _ _ _
                 (byte_at_split buffer (pre ++ offset_table done) [_] _ _
                    (pos + i * 4 + 1) o Hlayout
                    ltac:(change (size [_]) with 1; lia))).
      rewrite (bind_Ret _ _ _ _ _
                 (byte_at_split buffer (pre ++ offset_table done) [_; _] _ _
                    (pos + i * 4 + 2) o Hlayout
                    ltac:(change (size [_; _]) with 2; lia))).
      rewrite (bind_Ret _ _ _ _ _
                 (byte_at_split buffer (pre ++ offset_table done) [_; _; _] _ _
                    (pos + i * 4 + 3) o Hlayout
                    ltac:(change (size [_; _; _]) with 3; lia))).
      rewrite be32_value, <- be_accumulate_value. fold (be32_bytes v).
      rewrite be_accumulate_be32_bytes by exact Hv. reflexivity. }
    rewrite loop_S, Hbody.
    replace (i + 1) with (Z.of_nat (List.length (done ++ [v])))
      by (rewrite length_app; cbn [List.length]; lia).
    apply IH; [rewrite Hsplit, <- app_assoc; reflexivity | cbn in Hfuel; lia].
Qed.

Ltac psq_read Hrem :=
  lazymatch type of Hrem with
  | remaining ?buf ?o (be32_bytes ?v ++ ?rest) =>
      rewrite (bind_Ret _ _ o v (o + 4)
                 (ReadUInt32_encoded buf o v rest Hrem
                    ltac:(first [assumption | reflexivity]) ltac:(lia)));
      apply remaining_app in Hrem; rewrite size_be32_bytes in Hrem
  | remaining ?buf ?o (be64_bytes ?v ++ ?rest) =>
      rewrite (bind_Ret _ _ o v (o + 8)
                 (ReadUInt64_encoded buf o v rest Hrem ltac:(lia) ltac:(lia)));
      apply remaining_app in Hrem; change (size (be64_bytes v)) with 8 in Hrem
  | remaining ?buf ?o (length_prefixed ?s ++ ?rest) =>
      rewrite (bind_Ret _ _ o s (o + 4 + Z.of_nat (String.length s))
                 (ReadString_encoded buf o s rest Hrem
                    ltac:(first [assumption | reflexivity]) ltac:(lia)));
      apply remaining_app in Hrem; rewrite size_length_prefixed, Z.add_assoc in Hrem
  end; cbv beta.

Lemma bind_get_offset {B : Type} (k : Z -> M B) (o : Z) : bind get_offset k o = k o o.
Proof. reflexivity. Qed.

(** The statements of [ParsePin] from the offset tables on, with the cursor
    behind the fixed fields of a well-formed index. *)
Ltac psq_tables Hrem Hfit Hn HH HS Hfuel Hhd :=
  lazymatch type of Hrem with
  | remaining ?buf ?o (offset_table ?hs ++ offset_table ?ss ++ ?rest) =>
      let Hsize := fresh "Hsize" in
      let pre := fresh "pre" in
      let Hbuf := fresh "Hbuf" in
      let Hpre := fresh "Hpre" in
      let E := fresh "E" in
      pose proof (remaining_size _ _ _ Hrem) as [_ Hsize];
      rewrite !size_app, !size_offset_table in Hsize;
      pose proof (size_nonneg rest);
      pose proof (proj1 (table_well_formed_spec _ _ HH));
      pose proof (proj1 (table_well_formed_spec _ _ HS));
      cbv zeta; rewrite bind_get_offset;
      lazymatch goal with
      | |- context [uint64 (uint32 (?n + 1) * 4)] =>
          assert (E : uint64 (uint32 (n + 1) * 4) = 4 * (n + 1))
            by (replace (uint32 (n + 1)) with (n + 1)
                  by (symmetry; apply Z.mod_small; lia);
                unfold uint64; rewrite Z.mod_small; lia);
          rewrite !E;
          rewrite !(szadd_small o (4 * (n + 1))) by lia;
          rewrite (szadd_small (o + 4 * (n + 1)) (4 * (n + 1))) by lia;
          rewrite ltb_false by lia;
          apply remaining_app in Hrem; rewrite size_offset_table in Hrem;
          destruct Hrem as (pre & Hbuf & Hpre);
          rewrite (bind_Ret _ _ _ _ _
                     (sequence_table_loop buf pre rest (o + 4 * (n + 1)) n o ss Hbuf
                        ltac:(lia) HS Hn Hfit ss [] _ eq_refl Hfuel));
          replace (List.length ss <? 2)%nat with false
            by (symmetry; apply Nat.ltb_ge; lia);
          rewrite (leb_false _ _ Hhd)
      end
  end.

(** [ParsePin] on the bytes of an index that it is meant for. *)
Lemma ParsePin_of_encoding
        (I : PsqReader.PinIndex) (header_table : list Z) (trailing : list byte)
        (fuel : nat) (path : string) :
  let data := psq_header_bytes I ++ offset_table header_table
              ++ offset_table (PsqReader.sequence_offsets I) ++ trailing in
  psq_index_well_formed I header_table = true ->
  size data < 2 ^ 63 ->
  (Z.to_nat (PsqReader.num_sequences I) + 1 < fuel)%nat ->
  PsqReader.ParsePin fuel path data = Ret I (size (psq_header_bytes I)).
Proof.
  intros data Hwf Hfit Hfuel.
  assert (Hrem : remaining data 0
                   (psq_header_bytes I ++ offset_table header_table
                    ++ offset_table (PsqReader.sequence_offsets I) ++ trailing))
    by apply remaining_start.
  assert (Hdata : PsqReader.ParsePin fuel path data = PsqReader.ParsePin_body data fuel 0).
  { unfold PsqReader.ParsePin. destruct data eqn:E; [| reflexivity].
    apply (f_equal (@List.length byte)) in E. revert E.
    unfold data, psq_header_bytes, be32_bytes. cbn. discriminate. }
  rewrite Hdata. clear Hdata. clearbody data.
  pose proof (remaining_size _ _ _ Hrem) as [_ Htotal].
  rewrite !size_app, !size_offset_table in Htotal.
  revert Hrem Hwf Hfuel Htotal.
  generalize (size (psq_header_bytes I)) as total.
  destruct I as [v ty vol t lm d n tot mx S].
  unfold psq_index_well_formed, psq_header_bytes.
  cbn [PsqReader.version PsqReader.sequence_type PsqReader.volume_number
       PsqReader.title PsqReader.lmdb_name PsqReader.creation_date
       PsqReader.num_sequences PsqReader.total_residues PsqReader.max_length
       PsqReader.sequence_offsets].
  intros total Hrem Hwf Hfuel Htotal.
  rewrite !andb_true_iff in Hwf.
  destruct Hwf as ((((((((((((Hver & Hty) & Hv5) & Ht) & Hd) & Hn1) & Hn2)
                         & Htot0) & Htot1) & Hmx) & HH) & HS) & Hhd).
  apply Z.leb_le in Hn1, Htot0. apply Z.ltb_lt in Hn2, Htot1, Hhd.
  apply Z.eqb_eq in Hty. subst ty.
  assert (Hn : is_uint32 n = true) by (apply is_uint32_range; lia).
  assert (Hn30 : 0 <= n < 2 ^ 30) by lia.
  assert (Hfuel' : (List.length S < fuel)%nat).
  { apply table_well_formed_spec in HS. lia. }
  rewrite <- !app_assoc in Hrem.
  unfold PsqReader.ParsePin_body.
  assert (Hv : v = 4 \/ v = 5)
    by (apply orb_true_iff in Hver; rewrite !Z.eqb_eq in Hver; exact Hver).
  destruct Hv as [-> | ->]; cbn [Z.eqb Pos.eqb app] in Hrem, Hv5;
    apply andb_true_iff in Hv5; destruct Hv5 as [Hvol Hlm].
  - apply Z.eqb_eq in Hvol. subst vol. destruct lm; [| discriminate Hlm].
    do 2 psq_read Hrem.
    change (PsqReader.int32 4) with 4. change (PsqReader.int32 1) with 1.
    cbn [Z.eqb Pos.eqb negb andb]. rewrite bind_ret.
    psq_read Hrem. rewrite bind_ret. do 4 psq_read Hrem.
    psq_tables Hrem Hfit Hn30 HH HS Hfuel' Hhd.
    cbn [orb]. unfold ret. f_equal. lia.
  - do 2 psq_read Hrem.
    change (PsqReader.int32 5) with 5. change (PsqReader.int32 1) with 1.
    cbn [Z.eqb Pos.eqb negb andb].
    do 7 psq_read Hrem.
    psq_tables Hrem Hfit Hn30 HH HS Hfuel' Hhd.
    cbn [orb]. unfold ret. f_equal. lia.
Qed.

(** X7. The index parser of the sequence reader inverts encoding on the
    indexes it is meant for: on the bytes of a protein index of version 4
    or 5 with at least one and fewer than [2^30] sequences, followed by its
    two offset tables and any trailing bytes, [ParsePin] returns that index,
    its sequence offsets read from the second table; the cursor stays
    behind the fixed fields, because the tables are read by position. *)
Theorem ParsePin_round_trip
        (I : PsqReader.PinIndex) (header_table : list Z) (trailing : list byte)
        (fuel : nat) (path : string) :
  let data := psq_header_bytes I ++ offset_table header_table
              ++ offset_table (PsqReader.sequence_offsets I) ++ trailing in
  psq_index_well_formed I header_table = true ->
  size data < 2 ^ 63 ->
  (Z.to_nat (PsqReader.num_sequences I) + 1 < fuel)%nat ->
  PsqReader.ParsePin fuel path data = Ret I (size (psq_header_bytes I)).
Proof.
  intros data Hwf Hfit Hfuel.
  apply (ParsePin_of_encoding I header_table trailing fuel path); assumption.
Qed.

Lemma ParsePin_round_trip_example :
  PsqReader.ParsePin 4 "db.pin"
    (psq_header_bytes two_sequence_index ++ offset_table [0; 3; 5]
     ++ offset_table (PsqReader.sequence_offsets two_sequence_index) ++ [xff])
  = Ret two_sequence_index (size (psq_header_bytes two_sequence_index)).
Proof.
  apply (ParsePin_round_trip two_sequence_index [0; 3; 5] [xff] 4 "db.pin").
  - reflexivity.
  - vm_compute. reflexivity.
  - vm_compute. lia.
Defined.

Lemma bind_Ret_inv {A B : Type} (c : M A) (k : A -> M B) (o : Z) (r : B) (o' : Z) :
  bind c k o = Ret r o' -> exists a o1, c o = Ret a o1 /\ k a o1 = Ret r o'.
Proof.
  unfold bind. destruct (c o) as [a o1 | | |]; try discriminate.
  intros H. exists a, o1. split; [reflexivity | exact H].
Qed.

Lemma byte_at_Ret_inv (buffer : list byte) (i o x o' : Z) :
  byte_at buffer i o = Ret x o' -> exists b, x = u8 b /\ o' = o.
Proof.
  unfold byte_at. destruct (slice buffer i 1) as [[| b bs] |]; try discriminate.
  intros [= <- <-]. exists b. split; reflexivity.
Qed.

Lemma ReadUInt32_range (buffer : list byte) (o v o' : Z) :
  PsqReader.ReadUInt32 buffer o = Ret v o' -> 0 <= v < 2 ^ 32.
Proof.
  unfold PsqReader.ReadUInt32. intros H.
  apply bind_Ret_inv in H. destruct H as (? & o0 & _ & H).
  apply bind_Ret_inv in H. destruct H as (p & o1 & _ & H).
  apply bind_Ret_inv in H. destruct H as (x0 & o2 & H0 & H).
  apply bind_Ret_inv in H. destruct H as (x1 & o3 & H1 & H).
  apply bind_Ret_inv in H. destruct H as (x2 & o4 & H2 & H).
  apply bind_Ret_inv in H. destruct H as (x3 & o5 & H3 & H).
  apply bind_Ret_inv in H. destruct H as (? & o6 & _ & H).
  injection H as <- _.
  apply byte_at_Ret_inv in H0, H1, H2, H3.
  destruct H0 as (b0 & -> & _), H1 as (b1 & -> & _), H2 as (b2 & -> & _),
           H3 as (b3 & -> & _).
  rewrite be32_value. apply be_value_range.
Qed.

Lemma sequence_table_round_cases (buffer : list byte) (pos n i : Z) (acc : list Z)
      (o : Z) :
  (n < i /\ sequence_table_round buffer pos n (i, acc) o = Ret (Break acc) o)
  \/ (i <= n /\ exists v, 0 <= v < 2 ^ 32
        /\ sequence_table_round buffer pos n (i, acc) o
           = Ret (Continue (uint32 (i + 1), acc ++ [v])) o)
  \/ (i <= n /\ sequence_table_round buffer pos n (i, acc) o = Undefined).
Proof.
  cbv beta iota zeta. destruct (Z.leb_spec i n) as [Hi | Hi].
  2: { left. split; [lia | reflexivity]. }
  right. unfold bind.
  destruct (byte_at buffer (pos +w uint32 (i * 4)) o) as [x0 o0 | | |] eqn:E0;
    try (unfold byte_at in E0; destruct (slice _ _ _) as [[| ? ?] |]; discriminate E0);
    [| right; split; [exact Hi | reflexivity]].
  apply byte_at_Ret_inv in E0. destruct E0 as (b0 & -> & ->).
  destruct (byte_at buffer (pos +w uint32 (i * 4) +w 1) o) as [x1 o1 | | |] eqn:E1;
    try (unfold byte_at in E1; destruct (slice _ _ _) as [[| ? ?] |]; discriminate E1);
    [| right; split; [exact Hi | reflexivity]].
  apply byte_at_Ret_inv in E1. destruct E1 as (b1 & -> & ->).
  destruct (byte_at buffer (pos +w uint32 (i * 4) +w 2) o) as [x2 o2 | | |] eqn:E2;
    try (unfold byte_at in E2; destruct (slice _ _ _) as [[| ? ?] |]; discriminate E2);
    [| right; split; [exact Hi | reflexivity]].
  apply byte_at_Ret_inv in E2. destruct E2 as (b2 & -> & ->).
  destruct (byte_at buffer (pos +w uint32 (i * 4) +w 3) o) as [x3 o3 | | |] eqn:E3;
    try (unfold byte_at in E3; destruct (slice _ _ _) as [[| ? ?] |]; discriminate E3);
    [| right; split; [exact Hi | reflexivity]].
  apply byte_at_Ret_inv in E3. destruct E3 as (b3 & -> & ->).
  left. split; [exact Hi |]. exists (be_value b0 b1 b2 b3).
  split; [apply be_value_range |]. rewrite be32_value. reflexivity.
Qed.

(** With a count of [0xFFFFFFFF] the loop condition [i <= num_sequences]
    holds for every [uint32_t i]: the loop does not end by itself. *)
Lemma sequence_table_loop_without_end (buffer : list byte) (pos : Z) (fuel : nat) :
  forall i acc o offsets o',
    0 <= i < 2 ^ 32 ->
    loop fuel (sequence_table_round buffer pos (2 ^ 32 - 1)) (i, acc) o
    <> Ret offsets o'.
Proof.
  induction fuel as [| fuel IH]; intros i acc o offsets o' Hi; [discriminate |].
  rewrite loop_S.
  destruct (sequence_table_round_cases buffer pos (2 ^ 32 - 1) i acc o)
    as [[Hlt _] | [(_ & v & _ & ->) | [_ ->]]]; [lia | | discriminate].
  apply IH. unfold uint32. apply Z.mod_pos_bound. lia.
Qed.

Lemma sequence_table_loop_inv (buffer : list byte) (pos n : Z) (fuel : nat) :
  0 <= n < 2 ^ 32 ->
  forall i acc o offsets o',
    0 <= i <= n + 1 -> i < 2 ^ 32 -> Z.of_nat (List.length acc) = i ->
    Forall (fun x => 0 <= x < 2 ^ 32) acc ->
    loop fuel (sequence_table_round buffer pos n) (i, acc) o = Ret offsets o' ->
    n + 1 < 2 ^ 32
    /\ Z.of_nat (List.length offsets) = n + 1
    /\ Forall (fun x => 0 <= x < 2 ^ 32) offsets.
Proof.
  intros Hn. destruct (Z.eq_dec n (2 ^ 32 - 1)) as [-> | Hmax].
  { intros i acc o offsets o' Hi Hi32 _ _ Hloop. exfalso.
    apply (sequence_table_loop_without_end buffer pos fuel i acc o offsets o');
      [lia | exact Hloop]. }
  induction fuel as [| fuel IH]; intros i acc o offsets o' Hi Hi32 Hlen Hacc Hloop;
    [discriminate Hloop |].
  rewrite loop_S in Hloop.
  destruct (sequence_table_round_cases buffer pos n i acc o)
    as [[Hgt E] | [(Hle & v & Hv & E) | [_ E]]]; rewrite E in Hloop.
  - injection Hloop as <- _. repeat split; (lia || assumption).
  - unfold uint32 in Hloop. rewrite Z.mod_small in Hloop by lia.
    apply IH in Hloop; [exact Hloop | lia | lia | rewrite length_app; cbn; lia |].
    apply Forall_app. split; [exact Hacc | constructor; [exact Hv | constructor]].
  - discriminate Hloop.
Qed.

(** X8. Whatever the file holds, an index that [ParsePin] returns has
    version 4 or 5 and sequence type 1, a count of at least one sequence
    that is not [0xFFFFFFFF], and a sequence-offset table of exactly
    [num_sequences + 1] entries of 32 bits whose first entry is below the
    last: the reads [sequence_offsets[i]] and [sequence_offsets[i + 1]] of
    [main], for [i < num_sequences], are inside the table. *)
Theorem ParsePin_result_invariants
        (fuel : nat) (path : string) (data : list byte)
        (I : PsqReader.PinIndex) (o : Z) :
  PsqReader.ParsePin fuel path data = Ret I o ->
  (PsqReader.version I = 4 \/ PsqReader.version I = 5)
  /\ PsqReader.sequence_type I = 1
  /\ 1 <= PsqReader.num_sequences I < 2 ^ 32 - 1
  /\ Z.of_nat (List.length (PsqReader.sequence_offsets I))
     = PsqReader.num_sequences I + 1
  /\ hd 0 (PsqReader.sequence_offsets I) < last (PsqReader.sequence_offsets I) 0
  /\ Forall (fun x => 0 <= x < 2 ^ 32) (PsqReader.sequence_offsets I).
Proof.
  unfold PsqReader.ParsePin. destruct data as [| b0 data]; [discriminate |].
  set (buffer := b0 :: data). clearbody buffer.
  unfold PsqReader.ParsePin_body. intros H.
  apply bind_Ret_inv in H. destruct H as (v & o1 & _ & H).
  apply bind_Ret_inv in H. destruct H as (ty & o2 & _ & H).
  cbv zeta in H.
  destruct (negb (PsqReader.int32 v =? 4) && negb (PsqReader.int32 v =? 5)) eqn:Ever;
    [discriminate H |].
  apply bind_Ret_inv in H. destruct H as (vol & o3 & _ & H).
  apply bind_Ret_inv in H. destruct H as (t & o4 & _ & H).
  apply bind_Ret_inv in H. destruct H as (lm & o5 & _ & H).
  apply bind_Ret_inv in H. destruct H as (d & o6 & _ & H).
  apply bind_Ret_inv in H. destruct H as (n & o7 & Hn & H).
  apply bind_Ret_inv in H. destruct H as (tot & o8 & _ & H).
  apply bind_Ret_inv in H. destruct H as (mx & o9 & _ & H).
  rewrite bind_get_offset in H.
  destruct (size buffer <? _) in H; [discriminate H |].
  apply bind_Ret_inv in H. destruct H as (offsets & o10 & Hloop & H).
  destruct ((List.length offsets <? 2)%nat || (last offsets 0 <=? hd 0 offsets))
    eqn:Echeck; [discriminate H |].
  destruct (negb (PsqReader.int32 ty =? 1)) eqn:Ety; [discriminate H |].
  injection H as <- _.
  cbn [PsqReader.version PsqReader.sequence_type PsqReader.num_sequences
       PsqReader.sequence_offsets].
  apply ReadUInt32_range in Hn.
  apply sequence_table_loop_inv in Hloop;
    [| exact Hn | lia | lia | reflexivity | constructor].
  destruct Hloop as (Hmax & Hlen & Hrange).
  apply orb_false_iff in Echeck. destruct Echeck as [Hlen2 Hfirst].
  apply Nat.ltb_ge in Hlen2. apply Z.leb_gt in Hfirst.
  apply negb_false_iff, Z.eqb_eq in Ety.
  apply andb_false_iff in Ever.
  repeat split; (assumption || lia).
Qed.

Lemma ParsePin_result_invariants_example :
  (PsqReader.version two_sequence_index = 4 \/ PsqReader.version two_sequence_index = 5)
  /\ PsqReader.sequence_type two_sequence_index = 1
  /\ 1 <= PsqReader.num_sequences two_sequence_index < 2 ^ 32 - 1
  /\ Z.of_nat (List.length (PsqReader.sequence_offsets two_sequence_index))
     = PsqReader.num_sequences two_sequence_index + 1
  /\ hd 0 (PsqReader.sequence_offsets two_sequence_index)
     < last (PsqReader.sequence_offsets two_sequence_index) 0
  /\ Forall (fun x => 0 <= x < 2 ^ 32) (PsqReader.sequence_offsets two_sequence_index).
Proof.
  apply (ParsePin_result_invariants 4 "db.pin"
           (psq_header_bytes two_sequence_index ++ offset_table [0; 3; 5]
            ++ offset_table (PsqReader.sequence_offsets two_sequence_index))
           two_sequence_index 53).
  vm_compute. reflexivity.
Defined.

(** ** Lengths and integers *)

Lemma length_octet_masks (b : byte) :
  Z.land (u8 b) 0x80 = (if u8 b <? 128 then 0 else 128)
  /\ Z.land (u8 b) 0x7F = (if u8 b <? 128 then u8 b else u8 b - 128).
Proof. destruct b; vm_compute; split; reflexivity. Qed.

Lemma fold_be_unsigned (bs : list byte) :
  forall v, fold_left (fun v b => v * 256 + u8 b) bs v
            = v * 256 ^ Z.of_nat (List.length bs) + be_unsigned bs.
Proof.
  unfold be_unsigned.
  induction bs as [| b bs IH]; intros v; cbn [fold_left List.length].
  - cbn. lia.
  - rewrite IH, (IH (0 * 256 + u8 b)). rewrite Nat2Z.inj_succ, Z.pow_succ_r by lia. lia.
Qed.

Lemma be_unsigned_range (bs : list byte) :
  0 <= be_unsigned bs < 256 ^ Z.of_nat (List.length bs).
Proof.
  induction bs as [| b bs IH] using rev_ind.
  - cbn. lia.
  - unfold be_unsigned in *. rewrite fold_left_app. cbn [fold_left].
    rewrite length_app. cbn [List.length].
    replace (Z.of_nat (List.length bs + 1)) with (Z.succ (Z.of_nat (List.length bs)))
      by lia.
    rewrite Z.pow_succ_r by lia. pose proof (u8_range b). lia.
Qed.

Lemma pow_256_le (n : Z) : 0 <= n <= 8 -> 256 ^ n <= 2 ^ 64.
Proof.
  intros Hn. change 256 with (2 ^ 8). rewrite <- Z.pow_mul_r by lia.
  apply Z.pow_le_mono_r; lia.
Qed.

Lemma be_unsigned_cons (b : byte) (bs : list byte) :
  be_unsigned (b :: bs) = u8 b * 256 ^ Z.of_nat (List.length bs) + be_unsigned bs.
Proof.
  unfold be_unsigned at 1. cbn [fold_left]. rewrite fold_be_unsigned. lia.
Qed.

(** The accumulation of [ReadLength] in a [std::size_t] does not wrap on at
    most eight bytes. *)
Lemma length_accumulate (bs : list byte) :
  forall v k, 0 <= k -> 0 <= v < 256 ^ k -> k + Z.of_nat (List.length bs) <= 8 ->
    fold_left (fun v b => uint64 (Z.lor (Z.shiftl v 8) (u8 b))) bs v
    = v * 256 ^ Z.of_nat (List.length bs) + be_unsigned bs.
Proof.
  induction bs as [| b bs IH]; intros v k Hk Hv Hlen; cbn [fold_left List.length] in *.
  - unfold be_unsigned. cbn [fold_left]. lia.
  - pose proof (u8_range b). pose proof (pow_256_le (k + 1) ltac:(lia)).
    assert (Hnext : 0 <= v * 256 + u8 b < 256 ^ (k + 1))
      by (rewrite Z.pow_add_r by lia; lia).
    rewrite lor_shiftl_8. unfold uint64. rewrite Z.mod_small by lia.
    rewrite (IH _ (k + 1)) by lia.
    rewrite be_unsigned_cons, Nat2Z.inj_succ, Z.pow_succ_r by lia. lia.
Qed.

Lemma int64_small (x : Z) : - 2 ^ 63 <= x < 2 ^ 63 -> int64 x = x.
Proof. intros H. unfold int64. rewrite Z.mod_small by lia. lia. Qed.

Lemma int64_wrap (y c z : Z) : int64 (int64 y * c + z) = int64 (y * c + z).
Proof.
  unfold int64.
  pose proof (Z.div_mod (y + 2 ^ 63) (2 ^ 64) ltac:(lia)) as Hy.
  set (q := (y + 2 ^ 63) / 2 ^ 64) in *.
  replace ((y + 2 ^ 63) mod 2 ^ 64 - 2 ^ 63) with (y - 2 ^ 64 * q) by lia.
  replace ((y - 2 ^ 64 * q) * c + z + 2 ^ 63)
    with (y * c + z + 2 ^ 63 + (- (q * c)) * 2 ^ 64) by lia.
  rewrite Z.mod_add by lia. reflexivity.
Qed.

(** The accumulation of [ParseInteger] in a [std::int64_t]. *)
Lemma integer_accumulate_value (bs : list byte) :
  forall init, integer_accumulate init bs
               = match bs with
                 | [] => init
                 | _ => int64 (init * 256 ^ Z.of_nat (List.length bs) + be_unsigned bs)
                 end.
Proof.
  unfold integer_accumulate.
  induction bs as [| b bs IH]; intros init; [reflexivity |].
  cbn [fold_left]. rewrite IH, lor_shiftl_8.
  rewrite be_unsigned_cons. cbn [List.length].
  rewrite Nat2Z.inj_succ, Z.pow_succ_r by lia.
  destruct bs as [| b' bs].
  - cbn [List.length]. unfold be_unsigned. cbn [fold_left]. f_equal. lia.
  - rewrite int64_wrap. f_equal. lia.
Qed.

Lemma ReadLength_body_reads (body : list byte) :
  forall (buffer pre rest : list byte) (len : Z),
    buffer = pre ++ body ++ rest -> size buffer < 2 ^ 64 ->
    ReadLength_body buffer (List.length body) len (size pre)
    = Ret (fold_left (fun v b => uint64 (Z.lor (Z.shiftl v 8) (u8 b))) body len)
          (size pre + size body).
Proof.
  induction body as [| b body IH]; intros buffer pre rest len Hbuf Hfit.
  - cbn. unfold ret. f_equal. change (size []) with 0. lia.
  - pose proof (size_nonneg pre). pose proof (size_nonneg body).
    pose proof (size_nonneg rest).
    assert (Hsize : size buffer = size pre + (1 + size body) + size rest)
      by (rewrite Hbuf, !size_app, size_cons; lia).
    cbn [List.length ReadLength_body fold_left]. unfold_monad.
    rewrite leb_false by lia.
    rewrite (byte_at_split buffer pre [] b (body ++ rest))
      by (assumption || (change (size []) with 0; lia)).
    cbv beta iota. rewrite szadd_small by lia.
    replace (size pre + 1) with (size (pre ++ [b])) by (rewrite size_app; reflexivity).
    rewrite (IH buffer (pre ++ [b]) rest)
      by (try assumption; rewrite Hbuf, <- app_assoc; reflexivity).
    f_equal. size_norm. lia.
Qed.

Lemma ReadLength_body_truncated (tail : list byte) :
  forall (buffer pre : list byte) (n : nat) (len : Z),
    buffer = pre ++ tail -> size buffer < 2 ^ 64 -> size tail < Z.of_nat n ->
    ReadLength_body buffer n len (size pre)
    = Throw (PinParseError "Unexpected end of buffer while reading BER length body")
            (size buffer).
Proof.
  induction tail as [| b tail IH]; intros buffer pre n len Hbuf Hfit Hshort;
    (destruct n as [| n]; [unfold size in Hshort; cbn in Hshort; lia |]);
    cbn [ReadLength_body]; unfold_monad.
  - rewrite app_nil_r in Hbuf. subst buffer. rewrite leb_true by lia. reflexivity.
  - pose proof (size_nonneg pre). pose proof (size_nonneg tail).
    assert (Hsize : size buffer = size pre + (1 + size tail))
      by (rewrite Hbuf, !size_app, size_cons; lia).
    rewrite leb_false by lia.
    rewrite (byte_at_split buffer pre [] b tail)
      by (assumption || (change (size []) with 0; lia)).
    cbv beta iota. rewrite szadd_small by lia.
    replace (size pre + 1) with (size (pre ++ [b])) by (rewrite size_app; reflexivity).
    apply IH; [rewrite Hbuf, <- app_assoc; reflexivity | exact Hfit |].
    rewrite size_cons in Hshort. lia.
Qed.

(** X9. What [ReadLength] makes of the first length octet: below [0x80] it
    is the length itself; [0x80] announces an indefinite length; [0x81] to
    [0x88] announce that many further octets, which give the length most
    significant byte first, and running out of buffer among them throws
    with the offset at the end of the buffer; [0x89] and above are refused.
    With no byte left at the offset the function throws at once. *)
Theorem ReadLength_decodes_every_form (pre : list byte) (first : byte) (post : list byte) :
  let buffer := pre ++ first :: post in
  let offset := size pre in
  size buffer < 2 ^ 64 ->
  (u8 first < 128 ->
   ReadLength buffer offset = Ret (mkLength false (u8 first)) (offset + 1))
  /\ (u8 first = 128 ->
      ReadLength buffer offset = Ret (mkLength true 0) (offset + 1))
  /\ (136 < u8 first ->
      ReadLength buffer offset
      = Throw (PinParseError "Unsupported BER length size") (offset + 1))
  /\ (128 < u8 first <= 136 ->
      (forall body rest,
         post = body ++ rest -> size body = u8 first - 128 ->
         ReadLength buffer offset
         = Ret (mkLength false (be_unsigned body)) (offset + 1 + size body)
         /\ 0 <= be_unsigned body < 2 ^ 64)
      /\ (size post < u8 first - 128 ->
          ReadLength buffer offset
          = Throw (PinParseError "Unexpected end of buffer while reading BER length body")
                  (size buffer)))
  /\ (forall o, size buffer <= o ->
      ReadLength buffer o
      = Throw (PinParseError "Unexpected end of buffer while reading BER length") o).
Proof.
  intros buffer offset Hfit.
  pose proof (size_nonneg pre). pose proof (size_nonneg post).
  pose proof (u8_range first) as Hfirst.
  assert (Hsize : size buffer = size pre + (1 + size post))
    by (unfold buffer; rewrite size_app, size_cons; lia).
  destruct (length_octet_masks first) as [Hhigh Hlow].
  assert (Hstart : ReadLength buffer offset
                   = (if u8 first =? 128 then ret (mkLength true 0)
                      else if Z.land (u8 first) 128 =? 0
                           then ret (mkLength false (u8 first))
                           else
                             let num_bytes := Z.land (u8 first) 127 in
                             if (num_bytes =? 0) || (8 <? num_bytes)
                             then throw (PinParseError "Unsupported BER length size")
                             else
                               len <- ReadLength_body buffer (Z.to_nat num_bytes) 0 ;;
                               ret (mkLength false len)) (offset + 1)).
  { unfold ReadLength. unfold_monad. rewrite leb_false by (unfold offset; lia).
    unfold buffer, offset. rewrite byte_at_app. cbv beta iota.
    rewrite szadd_small by lia. reflexivity. }
  rewrite Hstart. clear Hstart. rewrite Hhigh, Hlow.
  split; [| split; [| split; [| split]]].
  - intros Hshort. rewrite (proj2 (Z.eqb_neq _ _)) by lia.
    rewrite ltb_true by lia. reflexivity.
  - intros ->. reflexivity.
  - intros Hbig. rewrite (proj2 (Z.eqb_neq _ _)) by lia.
    rewrite ltb_false by lia. cbn [Z.eqb]. cbv zeta.
    rewrite (ltb_true 8) by lia. rewrite orb_true_r. reflexivity.
  - intros Hlong. rewrite (proj2 (Z.eqb_neq _ _)) by lia.
    rewrite ltb_false by lia. cbn [Z.eqb]. cbv zeta.
    rewrite (proj2 (Z.eqb_neq (u8 first - 128) 0)) by lia.
    rewrite (ltb_false 8) by lia. cbn [orb].
    replace (offset + 1) with (size (pre ++ [first]))
      by (rewrite size_app; reflexivity).
    split.
    + intros body rest Hpost Hbody.
      assert (Hcount : Z.of_nat (List.length body) = u8 first - 128) by exact Hbody.
      pose proof (be_unsigned_range body).
      pose proof (pow_256_le (Z.of_nat (List.length body)) ltac:(lia)).
      split; [| lia].
      replace (Z.to_nat (u8 first - 128)) with (List.length body) by lia.
      rewrite (bind_Ret _ _ _ _ _
                 (ReadLength_body_reads body buffer (pre ++ [first]) rest 0
                    ltac:(unfold buffer; rewrite Hpost, <- app_assoc; reflexivity)
                    Hfit)).
      rewrite (length_accumulate body 0 0) by lia.
      unfold ret. rewrite size_app. change (size [first]) with 1.
      rewrite Z.mul_0_l, Z.add_0_l. unfold offset. f_equal; lia.
    + intros Htrunc. apply bind_Throw.
      apply (ReadLength_body_truncated post buffer (pre ++ [first]));
        [unfold buffer; rewrite <- app_assoc; reflexivity | exact Hfit | lia].
  - intros o Ho. unfold ReadLength. unfold_monad. rewrite leb_true by exact Ho.
    reflexivity.
Qed.

Lemma ReadLength_long_form_example :
  (forall body rest,
     [x01; x02; xff] = body ++ rest -> size body = u8 x82 - 128 ->
     ReadLength ([x30] ++ x82 :: [x01; x02; xff]) (size [x30])
     = Ret (mkLength false (be_unsigned body)) (size [x30] + 1 + size body)
     /\ 0 <= be_unsigned body < 2 ^ 64)
  /\ (size [x01; x02; xff] < u8 x82 - 128 ->
      ReadLength ([x30] ++ x82 :: [x01; x02; xff]) (size [x30])
      = Throw (PinParseError "Unexpected end of buffer while reading BER length body")
              (size ([x30] ++ x82 :: [x01; x02; xff]))).
Proof.
  apply (ReadLength_decodes_every_form [x30] x82 [x01; x02; xff]).
  - vm_compute. reflexivity.
  - vm_compute. split; [reflexivity | discriminate].
Defined.

Lemma integer_value_twos_complement (bs : list byte) :
  bs <> [] -> integer_value bs = int64 (twos_complement bs).
Proof.
  destruct bs as [| b bs]; [congruence |]. intros _.
  unfold integer_value, twos_complement.
  rewrite integer_accumulate_value.
  destruct (length_octet_masks b) as [-> _].
  destruct (u8 b <? 128); cbn [Z.eqb]; f_equal; lia.
Qed.

Lemma twos_complement_range (bs : list byte) :
  size bs <= 8 -> - 2 ^ 63 <= twos_complement bs < 2 ^ 63.
Proof.
  destruct bs as [| b bs]; [cbn; lia |]. intros Hlen.
  rewrite size_cons in Hlen. unfold size in Hlen.
  unfold twos_complement. rewrite be_unsigned_cons. cbn [List.length].
  rewrite Nat2Z.inj_succ, Z.pow_succ_r by lia.
  pose proof (be_unsigned_range bs) as Hbs. pose proof (u8_range b) as Hb.
  set (n := Z.of_nat (List.length bs)) in *.
  assert (Hp : 0 < 256 ^ n) by (apply Z.pow_pos_nonneg; lia).
  assert (Hmax : 256 ^ n <= 2 ^ 56).
  { change 256 with (2 ^ 8). rewrite <- Z.pow_mul_r by lia.
    apply Z.pow_le_mono_r; lia. }
  destruct (Z.ltb_spec (u8 b) 128); nia.
Qed.



(** ** File names of the sequence reader *)

Lemma string_length_append (a b : string) :
  String.length (a ++ b) = (String.length a + String.length b)%nat.
Proof. induction a as [| c a IH]; cbn; [reflexivity | now rewrite IH]. Qed.

Lemma substring_whole (s : string) : substring 0 (String.length s) s = s.
Proof. induction s as [| c s IH]; cbn; [reflexivity | now rewrite IH]. Qed.

Lemma substring_after (a b : string) (m : nat) :
  substring (String.length a) m (a ++ b) = substring 0 m b.
Proof. induction a as [| c a IH]; cbn; [reflexivity | exact IH]. Qed.

Lemma substring_before (a b : string) :
  substring 0 (String.length a) (a ++ b) = a.
Proof. induction a as [| c a IH]; cbn; [destruct b; reflexivity | now rewrite IH]. Qed.

Lemma substring_split (s : string) (n : nat) :
  (n <= String.length s)%nat ->
  (substring 0 n s ++ substring n (String.length s - n) s)%string = s.
Proof.
  revert n. induction s as [| c s IH]; intros n Hn.
  - destruct n; [reflexivity | cbn in Hn; lia].
  - destruct n as [| n].
    + cbn [substring String.length Nat.sub append]. rewrite substring_whole. reflexivity.
    + cbn [substring String.length Nat.sub append]. rewrite IH by (cbn in Hn; lia).
      reflexivity.
Qed.

Lemma substring_tail (s : string) (m : nat) :
  (m <= String.length s)%nat ->
  (substring 0 (String.length s - m) s ++ substring (String.length s - m) m s)%string
  = s.
Proof.
  intros Hm.
  pose proof (substring_split s (String.length s - m) ltac:(lia)) as H.
  replace (String.length s - (String.length s - m))%nat with m in H by lia.
  exact H.
Qed.

Lemma StripExtension_of_suffix (base ext : string) :
  PsqReader.StripExtension (base ++ ext) ext = base.
Proof.
  unfold PsqReader.StripExtension. rewrite string_length_append.
  replace (String.length base + String.length ext - String.length ext)%nat
    with (String.length base) by lia.
  rewrite substring_after, substring_whole, String.eqb_refl, substring_before.
  replace (String.length ext <=? String.length base + String.length ext)%nat with true
    by (symmetry; apply Nat.leb_le; lia).
  reflexivity.
Qed.

Lemma StripExtension_without_suffix (path ext : string) :
  ~ has_suffix path ext -> PsqReader.StripExtension path ext = path.
Proof.
  intros Hno. unfold PsqReader.StripExtension.
  destruct (String.length ext <=? String.length path)%nat eqn:Hlen; [| reflexivity].
  destruct (String.eqb_spec
              (substring (String.length path - String.length ext) (String.length ext) path)
              ext) as [Heq | Hne]; [| reflexivity].
  exfalso. apply Hno.
  exists (substring 0 (String.length path - String.length ext) path).
  apply Nat.leb_le in Hlen.
  rewrite <- (substring_tail path (String.length ext) Hlen) at 1.
  rewrite Heq. reflexivity.
Qed.

(** X11. [StripExtension] removes the extension when the path ends with it
    and leaves every other path as it is; its result followed by the
    extension is the path again exactly when something was removed. *)
Theorem StripExtension_removes_only_a_suffix (path ext : string) :
  (forall base, path = (base ++ ext)%string -> PsqReader.StripExtension path ext = base)
  /\ (~ has_suffix path ext -> PsqReader.StripExtension path ext = path)
  /\ (exists rest, path = (PsqReader.StripExtension path ext ++ rest)%string
                   /\ (rest = ext \/ rest = EmptyString)).
Proof.
  split; [| split].
  - intros base ->. apply StripExtension_of_suffix.
  - apply StripExtension_without_suffix.
  - unfold PsqReader.StripExtension.
    destruct (String.length ext <=? String.length path)%nat eqn:Hlen; cbn [andb].
    + destruct (String.eqb_spec
                  (substring (String.length path - String.length ext)
                     (String.length ext) path) ext) as [Heq | Hne].
      * exists ext. split; [| left; reflexivity].
        apply Nat.leb_le in Hlen.
        rewrite <- (substring_tail path (String.length ext) Hlen) at 1.
        rewrite Heq. reflexivity.
      * exists EmptyString. rewrite append_empty. split; [| right]; reflexivity.
    + exists EmptyString. rewrite append_empty. split; [| right]; reflexivity.
Qed.

Lemma suffix_differs (base a b : string) :
  String.length a = String.length b -> a <> b ->
  ~ has_suffix (base ++ a) b.
Proof.
  intros Hlen Hne [base' Heq].
  assert (Hbase : String.length base = String.length base').
  { apply (f_equal String.length) in Heq. rewrite !string_length_append in Heq. lia. }
  apply Hne.
  apply (f_equal (substring (String.length base) (String.length a))) in Heq.
  rewrite substring_after, substring_whole in Heq.
  rewrite Hbase, substring_after, Hlen, substring_whole in Heq. exact Heq.
Qed.

(** X12. The three spellings of a database name that the usage message
    offers lead to the same pair of files: for a name that ends in neither
    extension, the name itself, the name of its index file and the name of
    its sequence file all give the index file and the sequence file of
    that name. *)
Theorem database_paths_accept_three_spellings (base : string) :
  ~ has_suffix base ".pin" -> ~ has_suffix base ".psq" ->
  PsqReader.database_paths base = ((base ++ ".pin")%string, (base ++ ".psq")%string)
  /\ PsqReader.database_paths (base ++ ".pin")
     = ((base ++ ".pin")%string, (base ++ ".psq")%string)
  /\ PsqReader.database_paths (base ++ ".psq")
     = ((base ++ ".pin")%string, (base ++ ".psq")%string).
Proof.
  intros Hpin Hpsq. unfold PsqReader.database_paths. cbv zeta.
  repeat split.
  - rewrite (StripExtension_without_suffix base ".pin") by exact Hpin.
    rewrite (StripExtension_without_suffix base ".psq") by exact Hpsq. reflexivity.
  - rewrite StripExtension_of_suffix.
    rewrite (StripExtension_without_suffix base ".psq") by exact Hpsq. reflexivity.
  - rewrite (StripExtension_without_suffix (base ++ ".psq") ".pin")
      by (apply suffix_differs; [reflexivity | discriminate]).
    rewrite StripExtension_of_suffix. reflexivity.
Qed.

Lemma shorter_has_no_suffix (path ext : string) :
  (String.length path < String.length ext)%nat -> ~ has_suffix path ext.
Proof.
  intros Hlen [base Heq]. apply (f_equal String.length) in Heq.
  rewrite string_length_append in Heq. lia.
Qed.

Lemma database_paths_example :
  PsqReader.database_paths "nr" = ("nr.pin"%string, "nr.psq"%string)
  /\ PsqReader.database_paths "nr.pin" = ("nr.pin"%string, "nr.psq"%string)
  /\ PsqReader.database_paths "nr.psq" = ("nr.pin"%string, "nr.psq"%string).
Proof.
  apply (database_paths_accept_three_spellings "nr");
    apply shorter_has_no_suffix; vm_compute; lia.
Defined.

(** ** The hexadecimal preview of a header blob *)

Lemma length_TruncateForDisplay_loop (shown : list byte) :
  Z.of_nat (String.length (TruncateForDisplay_loop shown))
  = if size shown =? 0 then 0 else 3 * size shown - 1.
Proof.
  induction shown as [| b shown IH]; [reflexivity |].
  rewrite size_cons. pose proof (size_nonneg shown) as Hpos.
  rewrite (proj2 (Z.eqb_neq (1 + size shown) 0)) by lia.
  destruct shown as [| b' shown]; [reflexivity |].
  change (TruncateForDisplay_loop (b :: b' :: shown))
    with (hex_byte (u8 b) ++ " " ++ TruncateForDisplay_loop (b' :: shown))%string.
  rewrite !string_length_append. change (String.length (hex_byte (u8 b))) with 2%nat.
  change (String.length " ") with 1%nat.
  rewrite !Nat2Z.inj_add, IH.
  rewrite (proj2 (Z.eqb_neq (size (b' :: shown)) 0))
    by (rewrite size_cons; pose proof (size_nonneg shown); lia).
  lia.
Qed.



(** ** The fallback value of a Seq-id *)

Lemma snoc_split (seen : list byte) (b : byte) (pre tail : list byte) :
  seen ++ [b] = pre ++ tail ->
  (tail = [] /\ pre = seen ++ [b])
  \/ (exists tail', tail = tail' ++ [b] /\ seen = pre ++ tail').
Proof.
  destruct tail as [| x tail] using rev_ind.
  - rewrite app_nil_r. intros <-. left. split; reflexivity.
  - clear IHtail. rewrite app_assoc. intros H. apply app_inj_tail in H.
    destruct H as [-> ->]. right. exists tail. split; reflexivity.
Qed.

Lemma scan_invariant_step (seen : list byte) (st : list byte * list byte) (b : byte) :
  scan_invariant seen st -> scan_invariant (seen ++ [b]) (longest_run_step st b).
Proof.
  destruct st as [best current].
  intros (Hbest & Hcur & (p & q & Hin) & (p' & Hend) & Hsuffix & Hall).
  unfold longest_run_step. fold (run_char b).
  destruct (run_char b) eqn:Hb.
  - (* the run goes on *)
    split; [| split; [| split; [| split; [| split]]]].
    + exact Hbest.
    + rewrite forallb_app, Hcur. cbn. rewrite Hb. reflexivity.
    + exists p, (q ++ [b]). rewrite Hin, <- !app_assoc. reflexivity.
    + exists p'. rewrite Hend, <- app_assoc. reflexivity.
    + intros pre run Hsplit Hrun.
      destruct (snoc_split _ _ _ _ Hsplit) as [[-> _] | (run' & -> & Hseen)];
        [cbn; lia |].
      rewrite forallb_app in Hrun. apply andb_true_iff in Hrun.
      specialize (Hsuffix pre run' Hseen (proj1 Hrun)).
      rewrite !length_app. cbn. lia.
    + intros pre run post Hsplit Hrun.
      rewrite app_assoc in Hsplit.
      destruct (snoc_split _ _ _ _ Hsplit) as [[-> Hpre] | (post' & -> & Hseen)].
      * destruct (snoc_split _ _ _ _ (eq_sym Hpre)) as [[-> _] | (run' & -> & Hseen)];
          [cbn; lia |].
        rewrite forallb_app in Hrun. apply andb_true_iff in Hrun.
        specialize (Hsuffix pre run' Hseen (proj1 Hrun)).
        rewrite !length_app. cbn. lia.
      * rewrite <- app_assoc in Hseen. specialize (Hall pre run post' Hseen Hrun).
        rewrite length_app. cbn. lia.
  - (* the run ends *)
    assert (Hno : forall pre run, seen ++ [b] = pre ++ run ->
                    forallb run_char run = true -> run = []).
    { intros pre run Hsplit Hrun.
      destruct (snoc_split _ _ _ _ Hsplit) as [[-> _] | (run' & -> & _)];
        [reflexivity |].
      rewrite forallb_app in Hrun. apply andb_true_iff in Hrun.
      cbn in Hrun. rewrite Hb in Hrun. destruct Hrun as [_ Hrun]. discriminate Hrun. }
    assert (Hinside : forall pre run post, seen ++ [b] = pre ++ run ++ post ->
                        forallb run_char run = true ->
                        (List.length run
                         <= Nat.max (List.length best) (List.length current))%nat).
    { intros pre run post Hsplit Hrun. rewrite app_assoc in Hsplit.
      destruct (snoc_split _ _ _ _ Hsplit) as [[-> Hpre] | (post' & -> & Hseen)].
      - rewrite (Hno pre run (eq_sym Hpre) Hrun). cbn. lia.
      - rewrite <- app_assoc in Hseen. exact (Hall pre run post' Hseen Hrun). }
    destruct (List.length best <? List.length current)%nat eqn:Hlonger.
    + apply Nat.ltb_lt in Hlonger. split; [| split; [| split; [| split; [| split]]]].
      * exact Hcur.
      * reflexivity.
      * exists p', [b]. rewrite Hend, <- app_assoc. reflexivity.
      * exists (seen ++ [b]). rewrite app_nil_r. reflexivity.
      * intros pre run Hsplit Hrun. rewrite (Hno pre run Hsplit Hrun). cbn. lia.
      * intros pre run post Hsplit Hrun.
        specialize (Hinside pre run post Hsplit Hrun). cbn [List.length]. lia.
    + apply Nat.ltb_ge in Hlonger. split; [| split; [| split; [| split; [| split]]]].
      * exact Hbest.
      * reflexivity.
      * exists p, (q ++ [b]). rewrite Hin, <- !app_assoc. reflexivity.
      * exists (seen ++ [b]). rewrite app_nil_r. reflexivity.
      * intros pre run Hsplit Hrun. rewrite (Hno pre run Hsplit Hrun). cbn. lia.
      * intros pre run post Hsplit Hrun.
        specialize (Hinside pre run post Hsplit Hrun). cbn [List.length]. lia.
Qed.

Lemma scan_invariant_fold (todo : list byte) :
  forall seen st,
    scan_invariant seen st ->
    scan_invariant (seen ++ todo) (fold_left longest_run_step todo st).
Proof.
  induction todo as [| b todo IH]; intros seen st Hinv; cbn [fold_left].
  - rewrite app_nil_r. exact Hinv.
  - replace (seen ++ b :: todo) with ((seen ++ [b]) ++ todo)
      by (rewrite <- app_assoc; reflexivity).
    apply IH. apply scan_invariant_step. exact Hinv.
Qed.

(** X14. The value that [ParseSeqId] falls back on is a longest run of
    letters, digits, ['_'] and ['.'] in the bytes of the Seq-id: it consists
    of such characters only, it is a contiguous part of those bytes, and no
    contiguous part made of such characters is longer. *)
Theorem longest_run_is_a_longest_run (raw : list byte) :
  let best := list_byte_of_string (longest_run raw) in
  forallb run_char best = true
  /\ (exists pre post, raw = pre ++ best ++ post)
  /\ (forall pre run post,
        raw = pre ++ run ++ post -> forallb run_char run = true ->
        (List.length run <= List.length best)%nat).
Proof.
  assert (Hstart : scan_invariant [] ([], [])).
  { repeat split; try reflexivity.
    - exists [], []. reflexivity.
    - exists []. reflexivity.
    - intros pre run Hsplit _. symmetry in Hsplit. apply app_eq_nil in Hsplit.
      destruct Hsplit as [_ ->]. cbn. lia.
    - intros pre run post Hsplit _. symmetry in Hsplit. apply app_eq_nil in Hsplit.
      destruct Hsplit as [_ Hsplit]. apply app_eq_nil in Hsplit.
      destruct Hsplit as [-> _]. cbn. lia. }
  pose proof (scan_invariant_fold raw [] ([], []) Hstart) as Hinv.
  cbn [app] in Hinv. unfold longest_run.
  destruct (fold_left longest_run_step raw ([], [])) as [best current].
  destruct Hinv as (Hbest & Hcur & Hin & (p' & Hend) & _ & Hall).
  cbv zeta. rewrite list_byte_of_string_of_list_byte.
  destruct (List.length best <? List.length current)%nat eqn:Hlonger.
  - apply Nat.ltb_lt in Hlonger. repeat split.
    + exact Hcur.
    + exists p', []. rewrite app_nil_r. exact Hend.
    + intros pre run post Hsplit Hrun. specialize (Hall pre run post Hsplit Hrun). lia.
  - apply Nat.ltb_ge in Hlonger. repeat split.
    + exact Hbest.
    + exact Hin.
    + intros pre run post Hsplit Hrun. specialize (Hall pre run post Hsplit Hrun). lia.
Qed.

(** ** Decoded sequences keep their residues *)

Lemma residue_code_DecodeResidue (code : Z) :
  1 <= code <= 27 -> residue_code (PsqReader.DecodeResidue code) = code.
Proof.
  intros H. assert (Hn : code = Z.of_nat (Z.to_nat code)) by lia.
  assert (Hb : (1 <= Z.to_nat code <= 27)%nat) by lia.
  revert Hn Hb. generalize (Z.to_nat code) as n. intros n -> Hb. clear H.
  destruct n as [| n]; [lia |].
  do 27 (destruct n as [| n]; [vm_compute; reflexivity |]). lia.
Qed.

Lemma decoded_residues_valid (codes : list byte) :
  Forall (fun b => 1 <= u8 b <= 27) codes ->
  String.length (decoded_residues codes) = List.length codes
  /\ map residue_code (list_ascii_of_string (decoded_residues codes)) = map u8 codes.
Proof.
  induction 1 as [| b codes Hb _ IH]; [split; reflexivity |].
  cbn [decoded_residues]. rewrite (proj2 (Z.eqb_neq (u8 b) 0)) by lia.
  destruct IH as [IHlen IHcodes].
  cbn [String.length list_ascii_of_string map List.length].
  rewrite IHlen, IHcodes. split; [reflexivity |]. f_equal.
  destruct (DecodeResidue_letter (u8 b)) as [<- _]; [lia |].
  apply residue_code_DecodeResidue. exact Hb.
Qed.

(** X15. Decoding loses nothing on valid residues: on a range of the
    sequence file that holds only the codes 1 to 27, [DecodeSequence]
    returns one letter per byte, and the position of each letter in the
    decoder's table is the code it came from. *)
Theorem DecodeSequence_keeps_valid_codes (data : list byte) (start end_ : Z) :
  0 <= start <= end_ -> end_ <= size data ->
  Forall (fun b => 1 <= u8 b <= 27) (sub_bytes data start (end_ - start)) ->
  exists letters,
    PsqReader.DecodeSequence data start end_ = inr letters
    /\ Z.of_nat (String.length letters) = end_ - start
    /\ map residue_code (list_ascii_of_string letters)
       = map u8 (sub_bytes data start (end_ - start)).
Proof.
  intros Hstart Hend Hvalid.
  exists (decoded_residues (sub_bytes data start (end_ - start))).
  destruct (decoded_residues_valid _ Hvalid) as [Hlen Hcodes].
  split; [| split].
  - unfold PsqReader.DecodeSequence.
    rewrite ltb_false, ltb_false by lia. cbn [orb].
    rewrite DecodeSequence_loop_spec. reflexivity.
  - rewrite Hlen. unfold sub_bytes, size in *.
    rewrite length_firstn, length_skipn. lia.
  - exact Hcodes.
Qed.

Lemma DecodeSequence_keeps_valid_codes_example :
  exists letters,
    PsqReader.DecodeSequence [x0c; x0a; x1b; x00] 0 3 = inr letters
    /\ Z.of_nat (String.length letters) = 3 - 0
    /\ map residue_code (list_ascii_of_string letters)
       = map u8 (sub_bytes [x0c; x0a; x1b; x00] 0 (3 - 0)).
Proof.
  apply (DecodeSequence_keeps_valid_codes [x0c; x0a; x1b; x00] 0 3).
  - lia.
  - vm_compute. discriminate.
  - vm_compute. repeat constructor; discriminate.
Defined.

(** ** Reading what a tag encoder wrote *)

Lemma lead_octet_fields (c : BerClass) (p : bool) (n : Z) :
  0 <= n <= 31 ->
  let b := byte_of (class_code c * 64 + (if p then 32 else 0) + n) in
  BerClass_of (Z.shiftr (Z.land (u8 b) 0xC0) 6) = c
  /\ negb (Z.land (u8 b) 0x20 =? 0) = p
  /\ Z.land (u8 b) 0x1F = n.
Proof.
  intros H. assert (Hn : n = Z.of_nat (Z.to_nat n)) by lia.
  assert (Hb : (Z.to_nat n <= 31)%nat) by lia.
  revert Hn Hb. generalize (Z.to_nat n) as k. intros k -> Hb. clear H.
  do 32 (destruct k as [| k];
         [destruct c, p; vm_compute; repeat split; reflexivity |]).
  lia.
Qed.

Lemma base128_octet (d : Z) :
  0 <= d < 128 ->
  Z.land (u8 (byte_of (128 + d))) 0x80 = 128
  /\ Z.land (u8 (byte_of (128 + d))) 0x7F = d
  /\ Z.land (u8 (byte_of d)) 0x80 = 0
  /\ Z.land (u8 (byte_of d)) 0x7F = d.
Proof.
  intros Hd.
  assert (E1 : u8 (byte_of (128 + d)) = 128 + d)
    by (rewrite u8_byte_of; apply Z.mod_small; lia).
  assert (E2 : u8 (byte_of d) = d) by (rewrite u8_byte_of; apply Z.mod_small; lia).
  destruct (length_octet_masks (byte_of (128 + d))) as [Hh Hl].
  destruct (length_octet_masks (byte_of d)) as [Hh' Hl'].
  rewrite Hh, Hl, Hh', Hl', E1, E2.
  rewrite (ltb_false (128 + d)), (ltb_true d) by lia. repeat split; lia.
Qed.

Lemma base128_step (acc d : Z) :
  0 <= d < 128 -> 0 <= acc * 128 + d < 2 ^ 32 ->
  uint32 (Z.lor (Z.shiftl acc 7) d) = acc * 128 + d.
Proof.
  intros Hd Hacc. rewrite lor_shiftl_add by lia.
  change (2 ^ 7) with 128. apply Z.mod_small. exact Hacc.
Qed.

(** Offsets that do not wrap, innermost first. *)
Ltac unwrap_offsets :=
  repeat match goal with
         | |- context [?a +w ?b] => rewrite (szadd_small a b) by lia
         end.

(** X16. [ReadTag] inverts the encoding of a tag: on the identifier octets
    of a tag with a number of 32 bits it returns the class, the constructed
    bit and the number, in the short form for numbers below 31 and in the
    long form otherwise, and moves the offset behind the octets. *)
Theorem ReadTag_round_trip (t : BerTag) (pre post : list byte) :
  0 <= number t < 2 ^ 32 ->
  size (pre ++ tag_bytes t ++ post) < 2 ^ 64 ->
  ReadTag (pre ++ tag_bytes t ++ post) (size pre)
  = Ret t (size pre + size (tag_bytes t)).
Proof.
  destruct t as [c p n]. unfold tag_bytes. cbn [cls constructed number].
  intros Hn Hfit. cbv zeta in *.
  pose proof (size_nonneg pre). pose proof (size_nonneg post).
  destruct (Z.ltb_spec n 31) as [Hshort | Hlong].
  - destruct (lead_octet_fields c p n ltac:(lia)) as (Hc & Hp & Hnum).
    cbv zeta in Hc, Hp, Hnum.
    rewrite (ReadTag_short _ pre (byte_of (class_code c * 64 + (if p then 32 else 0) + n))
               post (size pre) (size pre + 1));
      try (reflexivity || assumption).
    + rewrite Hc, Hp, Hnum. reflexivity.
    + rewrite Hnum. apply Z.eqb_neq. lia.
  - destruct (lead_octet_fields c p 31 ltac:(lia)) as (Hc & Hp & Hnum).
    cbv zeta in Hc, Hp, Hnum.
    cbn [app] in Hfit |- *. rewrite ReadTag_at by exact Hfit. cbv zeta.
    rewrite Hc, Hp, Hnum. cbn [Z.eqb Pos.eqb].
    rewrite !size_app, !size_cons in Hfit.
    change (128 ^ 4) with (128 * 128 * 128 * 128).
    change (128 ^ 3) with (128 * 128 * 128). change (128 ^ 2) with (128 * 128).
    rewrite <- !Z.div_div by lia.
    set (q1 := n / 128). set (q2 := q1 / 128). set (q3 := q2 / 128).
    set (q4 := q3 / 128).
    pose proof (Z.div_mod n 128 ltac:(lia)) as E0. fold q1 in E0.
    pose proof (Z.div_mod q1 128 ltac:(lia)) as E1. fold q2 in E1.
    pose proof (Z.div_mod q2 128 ltac:(lia)) as E2. fold q3 in E2.
    pose proof (Z.div_mod q3 128 ltac:(lia)) as E3. fold q4 in E3.
    pose proof (Z.mod_pos_bound n 128 ltac:(lia)) as B0.
    pose proof (Z.mod_pos_bound q1 128 ltac:(lia)) as B1.
    pose proof (Z.mod_pos_bound q2 128 ltac:(lia)) as B2.
    pose proof (Z.mod_pos_bound q3 128 ltac:(lia)) as B3.
    pose proof (Z.mod_pos_bound q4 128 ltac:(lia)) as B4.
    assert (Hq4 : 0 <= q4 < 16).
    { unfold q4, q3, q2, q1.
      split; [repeat apply Z.div_pos; lia |
              repeat (apply Z.div_lt_upper_bound; [lia |]); lia]. }
    assert (E4 : q4 mod 128 = q4) by (apply Z.mod_small; lia).
    destruct (base128_octet (q4 mod 128) B4) as (H4h & H4l & _ & _).
    destruct (base128_octet (q3 mod 128) B3) as (H3h & H3l & _ & _).
    destruct (base128_octet (q2 mod 128) B2) as (H2h & H2l & _ & _).
    destruct (base128_octet (q1 mod 128) B1) as (H1h & H1l & _ & _).
    destruct (base128_octet (n mod 128) B0) as (_ & _ & H0h & H0l).
    cbn [ReadTag_long fst snd].
    rewrite H4h, H4l, H3h, H3l, H2h, H2l, H1h, H1l, H0h, H0l.
    cbn [Z.eqb].
    rewrite (base128_step 0 (q4 mod 128)) by lia.
    rewrite (base128_step _ (q3 mod 128)) by lia.
    rewrite (base128_step _ (q2 mod 128)) by lia.
    rewrite (base128_step _ (q1 mod 128)) by lia.
    rewrite (base128_step _ (n mod 128)) by lia.
    unwrap_offsets. cbn [fst snd]. f_equal.
    + f_equal. lia.
    + size_norm. lia.
Qed.

Lemma ReadTag_round_trip_example :
  ReadTag ([x30] ++ tag_bytes (mkTag ContextSpecific true 300) ++ [x00]) (size [x30])
  = Ret (mkTag ContextSpecific true 300)
        (size [x30] + size (tag_bytes (mkTag ContextSpecific true 300))).
Proof.
  apply (ReadTag_round_trip (mkTag ContextSpecific true 300) [x30] [x00]).
  - vm_compute. split; [discriminate | reflexivity].
  - vm_compute. reflexivity.
Defined.

(** ** Decoding what the definition-line encoder wrote *)

Lemma remaining_cons (buffer : list byte) (o : Z) (b : byte) (rest : list byte) :
  remaining buffer o (b :: rest) -> remaining buffer (o + 1) rest.
Proof. intros H. apply (remaining_app buffer o [b] rest). exact H. Qed.

Lemma remaining_inside (buffer : list byte) (o : Z) (b : byte) (rest : list byte) :
  remaining buffer o (b :: rest) ->
  0 <= o /\ o + 1 + size rest = size buffer
  /\ forall o', byte_at buffer o o' = Ret (u8 b) o'.
Proof.
  intros Hrem. destruct (remaining_size _ _ _ Hrem) as [Ho Hsize].
  rewrite size_cons in Hsize. repeat split; try lia.
  intros o'. destruct Hrem as (pre & -> & ->). apply byte_at_app.
Qed.

Lemma IsEoc_true (buffer : list byte) (o : Z) (rest : list byte) :
  remaining buffer o (x00 :: x00 :: rest) -> size buffer < 2 ^ 63 ->
  IsEoc buffer o = Ret true o.
Proof.
  intros Hrem Hfit.
  destruct (remaining_inside _ _ _ _ Hrem) as (Ho & Hsize & Hb0).
  destruct (remaining_inside _ _ _ _ (remaining_cons _ _ _ _ Hrem)) as (_ & _ & Hb1).
  rewrite size_cons in Hsize. pose proof (size_nonneg rest).
  unfold IsEoc. unfold_monad. rewrite !szadd_small by lia.
  rewrite ltb_true by lia. rewrite Hb0. cbv beta iota.
  change (u8 x00 =? 0) with true. cbv beta iota. rewrite Hb1. reflexivity.
Qed.

Lemma IsEoc_false (buffer : list byte) (o : Z) (b : byte) (rest : list byte) :
  remaining buffer o (b :: rest) -> u8 b <> 0 -> size buffer < 2 ^ 63 ->
  IsEoc buffer o = Ret false o.
Proof.
  intros Hrem Hb Hfit.
  destruct (remaining_inside _ _ _ _ Hrem) as (Ho & Hsize & Hb0).
  pose proof (size_nonneg rest).
  unfold IsEoc. unfold_monad. rewrite !szadd_small by lia.
  destruct (o + 1 <? size buffer); [| reflexivity].
  rewrite Hb0. cbv beta iota. rewrite (proj2 (Z.eqb_neq _ _) Hb). reflexivity.
Qed.

Lemma ReadTag_octet (buffer : list byte) (o : Z) (b : byte) (rest : list byte) :
  remaining buffer o (b :: rest) -> (Z.land (u8 b) 0x1F =? 0x1F) = false ->
  size buffer < 2 ^ 63 ->
  ReadTag buffer o = Ret (short_tag b) (o + 1).
Proof.
  intros (pre & Hbuf & ->) Hshort Hfit.
  apply (ReadTag_short buffer pre b rest); (assumption || reflexivity || lia).
Qed.

Lemma ReadLength_first_octet (buffer : list byte) (o : Z) (b : byte) (rest : list byte) :
  remaining buffer o (b :: rest) -> size buffer < 2 ^ 63 ->
  ReadLength buffer o
  = (if u8 b =? 0x80 then ret (mkLength true 0)
     else if Z.land (u8 b) 0x80 =? 0 then ret (mkLength false (u8 b))
     else
       let num_bytes := Z.land (u8 b) 0x7F in
       if (num_bytes =? 0) || (8 <? num_bytes)
       then throw (PinParseError "Unsupported BER length size")
       else
         len <- ReadLength_body buffer (Z.to_nat num_bytes) 0 ;;
         ret (mkLength false len)) (o + 1).
Proof.
  intros Hrem Hfit.
  destruct (remaining_inside _ _ _ _ Hrem) as (Ho & Hsize & Hb0).
  pose proof (size_nonneg rest).
  unfold ReadLength. unfold_monad. rewrite leb_false by lia.
  rewrite Hb0. cbv beta iota. rewrite szadd_small by lia. reflexivity.
Qed.

Lemma ReadLength_indefinite (buffer : list byte) (o : Z) (rest : list byte) :
  remaining buffer o (x80 :: rest) -> size buffer < 2 ^ 63 ->
  ReadLength buffer o = Ret (mkLength true 0) (o + 1).
Proof.
  intros Hrem Hfit. rewrite (ReadLength_first_octet _ _ _ _ Hrem Hfit). reflexivity.
Qed.

Lemma be_unsigned_be32_bytes (n : Z) :
  0 <= n < 2 ^ 32 -> be_unsigned (be32_bytes n) = n.
Proof.
  intros Hn. rewrite <- (be_accumulate_be32_bytes n Hn) at 2.
  unfold be32_bytes. rewrite be_accumulate_value.
  unfold be_unsigned, be_value. cbn [fold_left]. lia.
Qed.

Lemma ReadLength_definite (buffer : list byte) (o n : Z) (rest : list byte) :
  remaining buffer o (length_bytes n ++ rest) -> 0 <= n < 2 ^ 32 ->
  size buffer < 2 ^ 63 ->
  ReadLength buffer o = Ret (mkLength false n) (o + size (length_bytes n)).
Proof.
  intros Hrem Hn Hfit. unfold length_bytes in *.
  destruct (Z.ltb_spec n 128) as [Hshort | Hlong]; cbn [app] in Hrem.
  - rewrite (ReadLength_first_octet _ _ _ _ Hrem Hfit).
    rewrite u8_byte_of, Z.mod_small by lia.
    destruct (length_octet_masks (byte_of n)) as [Hhigh _].
    rewrite u8_byte_of, Z.mod_small in Hhigh by lia.
    rewrite (proj2 (Z.eqb_neq n 128)) by lia.
    rewrite Hhigh, ltb_true by lia. reflexivity.
  - rewrite (ReadLength_first_octet _ _ _ _ Hrem Hfit).
    change (u8 x84 =? 128) with false. change (Z.land (u8 x84) 128 =? 0) with false.
    change (Z.land (u8 x84) 127) with 4. cbv iota zeta.
    change ((4 =? 0) || (8 <? 4)) with false. cbv iota.
    apply remaining_cons in Hrem. destruct Hrem as (pre & Hbuf & Hpre).
    rewrite Hpre.
    rewrite (bind_Ret _ _ _ _ _
               (ReadLength_body_reads (be32_bytes n) buffer pre rest 0 Hbuf
                  ltac:(lia))).
    rewrite (length_accumulate (be32_bytes n) 0 0) by (cbn; lia).
    rewrite be_unsigned_be32_bytes by exact Hn.
    unfold ret. rewrite size_cons, size_be32_bytes, Z.mul_0_l, Z.add_0_l.
    f_equal; lia.
Qed.

Lemma ParseString_remaining (buffer : list byte) (o : Z) (bs rest : list byte) :
  remaining buffer o (bs ++ rest) -> size buffer < 2 ^ 63 ->
  ParseString buffer (size bs) o = Ret (string_of_list_byte bs) (o + size bs).
Proof.
  intros (pre & Hbuf & ->) Hfit.
  apply (ParseString_split buffer pre bs rest); (assumption || reflexivity).
Qed.

Lemma ParseInteger_remaining (buffer : list byte) (o : Z) (bs rest : list byte) :
  remaining buffer o (bs ++ rest) -> bs <> [] -> size buffer < 2 ^ 63 ->
  ParseInteger buffer (size bs) o = Ret (int64 (twos_complement bs)) (o + size bs).
Proof.
  intros (pre & Hbuf & ->) Hbs Hfit.
  rewrite <- integer_value_twos_complement by exact Hbs.
  apply (ParseInteger_split buffer pre bs rest); (assumption || reflexivity).
Qed.

Lemma try_catch_Ret {A : Type} (body handler : M A) (o : Z) (a : A) (o' : Z) :
  body o = Ret a o' -> try_catch_PinParseError body handler o = Ret a o'.
Proof. intros H. unfold try_catch_PinParseError. rewrite H. reflexivity. Qed.

(** One statement that returns: [run H] replaces it by its result. *)
Ltac run H := rewrite (bind_Ret _ _ _ _ _ H); cbv beta.

Lemma ParseVisible_primitive (buffer : list byte) (fuel : nat) (o : Z) (t : string)
      (rest : list byte) :
  remaining buffer o
    (x1a :: length_bytes (Z.of_nat (String.length t)) ++ list_byte_of_string t ++ rest) ->
  is_uint32 (Z.of_nat (String.length t)) = true -> size buffer < 2 ^ 63 ->
  ParseVisible buffer fuel o
  = Ret t (o + 1 + size (length_bytes (Z.of_nat (String.length t)))
           + Z.of_nat (String.length t)).
Proof.
  intros Hrem Ht Hfit. apply is_uint32_range in Ht.
  unfold ParseVisible.
  run (ReadTag_octet _ _ _ _ Hrem eq_refl Hfit).
  apply remaining_cons in Hrem.
  run (ReadLength_definite _ _ _ _ Hrem Ht Hfit).
  apply remaining_app in Hrem.
  change (short_tag x1a) with (mkTag Universal false 26).
  cbn [IsVisibleLikeTag cls number constructed BerClass_eqb negb indefinite length
       Z.eqb Pos.eqb orb].
  rewrite <- size_list_byte_of_string at 1.
  rewrite (ParseString_remaining _ _ _ _ Hrem Hfit).
  rewrite string_of_list_byte_of_string, size_list_byte_of_string. reflexivity.
Qed.

Lemma ParseExplicitVisible_indefinite (buffer : list byte) (fuel : nat) (o : Z)
      (t : string) (rest : list byte) :
  remaining buffer o
    (x1a :: length_bytes (Z.of_nat (String.length t)) ++ list_byte_of_string t
     ++ x00 :: x00 :: rest) ->
  is_uint32 (Z.of_nat (String.length t)) = true -> size buffer < 2 ^ 63 ->
  ParseExplicitVisible buffer (S fuel) (mkLength true 0) o
  = Ret t (o + 1 + size (length_bytes (Z.of_nat (String.length t)))
           + Z.of_nat (String.length t) + 2).
Proof.
  intros Hrem Ht Hfit. unfold ParseExplicitVisible.
  rewrite bind_get_offset. cbn [indefinite].
  erewrite bind_Ret;
    [| apply try_catch_Ret, (ParseVisible_primitive _ (S fuel) _ _ _ Hrem Ht Hfit)].
  apply remaining_cons, remaining_app in Hrem.
  apply remaining_app in Hrem. rewrite size_list_byte_of_string in Hrem.
  destruct (remaining_inside _ _ _ _ Hrem) as (Ho & Hsize & _).
  pose proof (size_nonneg rest) as Hrest. rewrite size_cons in Hsize.
  erewrite bind_Ret.
  2:{ erewrite bind_Ret.
      2:{ rewrite loop_S, bind_get_offset.
          replace (_ <? size buffer) with true by (symmetry; apply Z.ltb_lt; lia).
          run (IsEoc_true _ _ _ Hrem Hfit). cbn [negb]. reflexivity. }
      cbv beta iota.
      run (IsEoc_true _ _ _ Hrem Hfit). unfold when, advance. reflexivity. }
  unfold ret. rewrite szadd_small by lia. reflexivity.
Qed.

Lemma ParseExplicitInteger_indefinite (buffer : list byte) (fuel : nat) (o : Z)
      (bs rest : list byte) :
  remaining buffer o (x02 :: length_bytes (size bs) ++ bs ++ x00 :: x00 :: rest) ->
  bs <> [] -> size bs < 2 ^ 32 -> size buffer < 2 ^ 63 ->
  ParseExplicitInteger buffer (S fuel) (mkLength true 0) o
  = Ret (int64 (twos_complement bs))
        (o + 1 + size (length_bytes (size bs)) + size bs + 2).
Proof.
  intros Hrem Hbs Hlen Hfit. unfold ParseExplicitInteger.
  pose proof (size_nonneg bs) as Hbs0.
  rewrite bind_get_offset.
  run (ReadTag_octet _ _ _ _ Hrem eq_refl Hfit).
  apply remaining_cons in Hrem.
  run (ReadLength_definite _ _ _ _ Hrem (conj Hbs0 Hlen) Hfit).
  apply remaining_app in Hrem.
  change (short_tag x02) with (mkTag Universal false 2).
  cbn [cls number BerClass_eqb negb indefinite length Z.eqb Pos.eqb orb].
  run (ParseInteger_remaining _ _ _ _ Hrem Hbs Hfit).
  apply remaining_app in Hrem.
  destruct (remaining_inside _ _ _ _ Hrem) as (Ho & Hsize & _).
  pose proof (size_nonneg rest) as Hrest. rewrite size_cons in Hsize.
  erewrite bind_Ret.
  2:{ erewrite bind_Ret.
      2:{ rewrite loop_S.
          run (IsEoc_true _ _ _ Hrem Hfit). cbn [negb]. reflexivity. }
      cbv beta iota. unfold advance. reflexivity. }
  unfold ret. rewrite szadd_small by lia. reflexivity.
Qed.

Lemma be_unsigned_be64_bytes (n : Z) :
  0 <= n < 2 ^ 64 -> be_unsigned (be64_bytes n) = n.
Proof.
  intros Hn. rewrite <- (le_accumulate_le64_bytes n Hn) at 2.
  unfold be64_bytes, le64_bytes. rewrite le_accumulate_value.
  unfold be_unsigned, le_value. cbn [rev app fold_left]. lia.
Qed.

(** Eight octets hold every [std::int64_t] in two's complement. *)
Lemma twos_complement_be64_bytes (v : Z) :
  - 2 ^ 63 <= v < 2 ^ 63 -> twos_complement (be64_bytes (v mod 2 ^ 64)) = v.
Proof.
  intros Hv.
  pose proof (Z.mod_pos_bound v (2 ^ 64) ltac:(lia)) as Hm.
  pose proof (be_unsigned_be64_bytes _ Hm) as Hu.
  set (n := v mod 2 ^ 64) in *.
  assert (Hhigh : u8 (byte_of (n / 2 ^ 56)) = n / 2 ^ 56).
  { rewrite u8_byte_of. apply Z.mod_small. split.
    - apply Z.div_pos; lia.
    - apply Z.div_lt_upper_bound; lia. }
  assert (E : twos_complement (be64_bytes n)
              = if u8 (byte_of (n / 2 ^ 56)) <? 128 then be_unsigned (be64_bytes n)
                else be_unsigned (be64_bytes n) - 2 ^ 64) by reflexivity.
  rewrite E, Hhigh, Hu. clear E.
  destruct (Z.ltb_spec (n / 2 ^ 56) 128) as [Hlow | Hneg].
  - assert (n < 2 ^ 63).
    { apply Z.nle_gt. intros Hc.
      assert (128 <= n / 2 ^ 56) by (apply Z.div_le_lower_bound; lia). lia. }
    destruct (Z.le_gt_cases 0 v) as [Hpos | Hnegv].
    + unfold n. apply Z.mod_small. lia.
    + exfalso. unfold n in *.
      rewrite <- (Z.mod_add v 1) in H by lia.
      rewrite Z.mod_small in H by lia. lia.
  - assert (2 ^ 63 <= n).
    { apply Z.nlt_ge. intros Hc.
      assert (n / 2 ^ 56 < 128) by (apply Z.div_lt_upper_bound; lia). lia. }
    destruct (Z.le_gt_cases 0 v) as [Hpos | Hnegv].
    + exfalso. unfold n in *. rewrite Z.mod_small in H by lia. lia.
    + unfold n. rewrite <- (Z.mod_add v 1) by lia.
      rewrite Z.mod_small by lia. lia.
Qed.


(** ** Reading a Seq-id with an accession and a version *)

Lemma seqid_tag_fields (k : Z) :
  0 <= k < 31 ->
  short_tag (seqid_tag k) = mkTag ContextSpecific true k
  /\ (Z.land (u8 (seqid_tag k)) 0x1F =? 0x1F) = false.
Proof.
  intros Hk. destruct (lead_octet_fields ContextSpecific true k ltac:(lia)) as (Hc & Hp & Hn).
  cbv zeta in Hc, Hp, Hn. cbn [class_code] in Hc, Hp, Hn.
  replace (2 * 64 + 32 + k) with (0xA0 + k) in Hc, Hp, Hn by lia.
  unfold short_tag, seqid_tag. rewrite Hc, Hp, Hn. split; [reflexivity |].
  apply Z.eqb_neq. lia.
Qed.

Lemma ParseTextSeqId_definite (buffer : list byte) (fuel : nat) (o : Z)
      (accession : string) (v : option Z) (rest : list byte) :
  remaining buffer o
    (length_bytes (size (text_seqid_body accession v))
     ++ text_seqid_body accession v ++ rest) ->
  is_uint32 (Z.of_nat (String.length accession)) = true ->
  is_uint32 (size (text_seqid_body accession v)) = true ->
  match v with None => True | Some v => - 2 ^ 63 <= v < 2 ^ 63 end ->
  size buffer < 2 ^ 63 ->
  ParseTextSeqId buffer (S (S (S fuel))) None o
  = Ret (mkSeqId EmptyString accession v)
        (o + size (length_bytes (size (text_seqid_body accession v)))
         + size (text_seqid_body accession v)).
Proof.
  intros Hrem Hacc Hbody Hv Hfit.
  apply is_uint32_range in Hacc. apply is_uint32_range in Hbody.
  unfold ParseTextSeqId.
  run (ReadLength_definite _ _ _ _ Hrem Hbody Hfit).
  apply remaining_app in Hrem.
  rewrite bind_get_offset. cbv zeta. cbn [indefinite length].
  set (o1 := o + size (length_bytes (size (text_seqid_body accession v)))) in *.
  destruct (remaining_size _ _ _ Hrem) as (Ho1 & Hsize).
  pose proof (size_nonneg rest) as Hrest. rewrite size_app in Hsize.
  rewrite (szadd_small o1) by lia.
  match goal with |- context [loop _ ?f _] => set (body := f) end.
  assert (Hend : forall id, body id (o1 + size (text_seqid_body accession v))
                            = Ret (Break id) (o1 + size (text_seqid_body accession v))).
  { intros id. unfold body. unfold bind at 1. unfold ret at 1. cbv beta iota.
    rewrite bind_get_offset. cbn [negb andb]. rewrite Z.leb_refl. reflexivity. }
  unfold text_seqid_body, accession_field in Hrem.
  cbn [app] in Hrem. rewrite <- !app_assoc in Hrem.
  assert (Hfirst : body (mkSeqId EmptyString EmptyString None) o1
                   = Ret (Continue (mkSeqId EmptyString accession None))
                         (o1 + size (accession_field accession))).
  { unfold body. unfold bind at 1. unfold ret at 1. cbv beta iota.
    rewrite bind_get_offset. cbn [negb andb].
    replace (_ <=? o1) with false.
    2:{ symmetry. apply Z.leb_gt. unfold text_seqid_body, accession_field.
        size_norm. pose proof (size_nonneg (version_field v)).
        pose proof (size_nonneg (list_byte_of_string accession)).
        pose proof (size_nonneg (length_bytes (Z.of_nat (String.length accession)))).
        lia. }
    run (ReadTag_octet _ _ _ _ Hrem eq_refl Hfit).
    pose proof (remaining_cons _ _ _ _ Hrem) as Hrem1.
    run (ReadLength_definite _ _ _ _ Hrem1 Hacc Hfit).
    apply remaining_app in Hrem1.
    change (short_tag x81) with (mkTag ContextSpecific false 1).
    cbn [number constructed indefinite length orb Z.eqb Pos.eqb].
    rewrite <- size_list_byte_of_string at 1.
    run (ParseString_remaining _ _ _ _ Hrem1 Hfit).
    rewrite string_of_list_byte_of_string. unfold ret, set_value.
    cbn [type id_version]. f_equal. unfold accession_field. size_norm. lia. }
  apply remaining_cons, remaining_app, remaining_app in Hrem.
  replace (o1 + 1 + size (length_bytes (Z.of_nat (String.length accession)))
           + size (list_byte_of_string accession))
    with (o1 + size (accession_field accession)) in Hrem
    by (unfold accession_field; size_norm; lia).
  erewrite bind_Ret.
  2:{ rewrite loop_S, Hfirst. destruct v as [v |].
      - assert (Hsecond : body (mkSeqId EmptyString accession None)
                            (o1 + size (accession_field accession))
                          = Ret (Continue (mkSeqId EmptyString accession (Some v)))
                                (o1 + size (text_seqid_body accession (Some v)))).
        { unfold body. unfold bind at 1. unfold ret at 1. cbv beta iota.
          rewrite bind_get_offset. cbn [negb andb].
          replace (_ <=? _) with false.
          2:{ symmetry. apply Z.leb_gt. unfold text_seqid_body. size_norm.
              cbn [version_field]. size_norm. change (size (be64_bytes _)) with 8. lia. }
          cbn [version_field app] in Hrem.
          run (ReadTag_octet _ _ _ _ Hrem eq_refl Hfit).
          pose proof (remaining_cons _ _ _ _ Hrem) as Hrem1.
          assert (H8 : 0 <= 8 < 2 ^ 32) by lia.
          run (ReadLength_definite _ _ 8 _ Hrem1 H8 Hfit).
          apply (remaining_app _ _ (length_bytes 8)) in Hrem1.
          change (short_tag x83) with (mkTag ContextSpecific false 3).
          cbn [number constructed indefinite length orb Z.eqb Pos.eqb].
          assert (Hbs : be64_bytes (v mod 2 ^ 64) <> []) by discriminate.
          change 8 with (size (be64_bytes (v mod 2 ^ 64))) at 1.
          run (ParseInteger_remaining _ _ _ _ Hrem1 Hbs Hfit).
          rewrite (twos_complement_be64_bytes v Hv), int64_small by exact Hv.
          unfold ret, set_version. cbn [type value]. f_equal.
          unfold text_seqid_body. cbn [version_field]. size_norm.
          change (size (be64_bytes (v mod 2 ^ 64))) with 8.
          change (size (length_bytes 8)) with 1. lia. }
        rewrite loop_S, Hsecond, loop_S, Hend. reflexivity.
      - replace (o1 + size (accession_field accession))
          with (o1 + size (text_seqid_body accession None))
          by (unfold text_seqid_body; cbn [version_field]; size_norm; lia).
        rewrite loop_S, Hend. reflexivity. }
  cbv beta. reflexivity.
Qed.

Lemma ParseSeqId_text (buffer : list byte) (fuel : nat) (o : Z) (id : written_seqid)
      (rest : list byte) :
  remaining buffer o (seqid_bytes id ++ rest) ->
  seqid_encodable id = true -> size buffer < 2 ^ 63 ->
  ParseSeqId buffer (S (S (S fuel))) o
  = Ret (decoded_seqid id) (o + size (seqid_bytes id)).
Proof.
  destruct id as [[k accession] v]. cbn [seqid_bytes seqid_encodable decoded_seqid].
  intros Hrem Hok Hfit.
  unfold text_seqid_encodable in Hok. rewrite !andb_true_iff in Hok.
  destruct Hok as ((((((Hk0 & Hk31) & Hk14) & Hne) & Hacc) & Hbody) & Hv).
  apply Z.leb_le in Hk0. apply Z.ltb_lt in Hk31.
  apply negb_true_iff in Hk14. apply negb_true_iff in Hne.
  assert (Hv' : match v with None => True | Some v => - 2 ^ 63 <= v < 2 ^ 63 end).
  { destruct v as [v |]; [| exact I].
    apply andb_true_iff in Hv. destruct Hv. lia. }
  unfold text_seqid_bytes in Hrem. cbn [app] in Hrem. rewrite <- !app_assoc in Hrem.
  destruct (seqid_tag_fields k ltac:(lia)) as (Htag & Hshort).
  unfold ParseSeqId. rewrite bind_get_offset.
  run (ReadTag_octet _ _ _ _ Hrem Hshort Hfit).
  apply remaining_cons in Hrem. rewrite Htag.
  cbn [cls number constructed BerClass_eqb negb]. rewrite Hk14.
  erewrite bind_Ret.
  2:{ run (ParseTextSeqId_definite _ fuel _ _ _ _ Hrem Hacc Hbody Hv' Hfit).
      reflexivity. }
  cbv beta. rewrite bind_get_offset. unfold set_type. cbn [value id_version].
  rewrite Hne. unfold ret. f_equal. unfold text_seqid_bytes. size_norm. lia.
Qed.

(** *** The Seq-ids of a definition line *)

Lemma seqid_is_not_eoc (buffer : list byte) (o : Z) (id : written_seqid)
      (rest : list byte) :
  remaining buffer o (seqid_bytes id ++ rest) ->
  seqid_encodable id = true -> size buffer < 2 ^ 63 ->
  IsEoc buffer o = Ret false o.
Proof.
  destruct id as [[k accession] v]. cbn [seqid_bytes seqid_encodable].
  intros Hrem Hok Hfit.
  unfold text_seqid_encodable in Hok. rewrite !andb_true_iff in Hok.
  destruct Hok as ((((((Hk0 & Hk31) & _) & _) & _) & _) & _).
  apply Z.leb_le in Hk0. apply Z.ltb_lt in Hk31.
  unfold text_seqid_bytes in Hrem. cbn [app] in Hrem.
  apply (IsEoc_false _ _ _ _ Hrem); [| exact Hfit].
  unfold seqid_tag. rewrite u8_byte_of, Z.mod_small by lia. lia.
Qed.

Lemma ParseSeqIdList_loop (buffer : list byte) (fuel : nat) (rest : list byte)
      (ids : list written_seqid) :
  size buffer < 2 ^ 63 ->
  forall (k : nat) (o : Z) (found : list SeqId),
    remaining buffer o (flat_map seqid_bytes ids ++ x00 :: x00 :: rest) ->
    forallb seqid_encodable ids = true ->
    (List.length ids < k)%nat ->
    loop k
      (fun found : list SeqId =>
         eoc <- (if true then IsEoc buffer else ret false) ;;
         if eoc then advance 2 ;; ret (Break found)
         else
           offset <- get_offset ;;
           if negb true && (size buffer <=? offset) then ret (Break found)
           else
             id <- ParseSeqId buffer (S (S (S fuel))) ;;
             ret (Continue (found ++ [id])))
      found o
    = Ret (found ++ map decoded_seqid ids)
          (o + size (flat_map seqid_bytes ids) + 2).
Proof.
  intros Hfit. induction ids as [| id ids IH]; intros k o found Hrem Hok Hk;
    (destruct k as [| k]; [cbn [List.length] in Hk; lia |]).
  - cbn [flat_map app map] in *. rewrite loop_S.
    run (IsEoc_true _ _ _ Hrem Hfit).
    destruct (remaining_inside _ _ _ _ Hrem) as (Ho & Hsize & _).
    pose proof (size_nonneg rest) as Hrest. rewrite size_cons in Hsize.
    unfold advance, bind, ret. rewrite szadd_small by lia.
    rewrite app_nil_r. f_equal. change (size []) with 0. lia.
  - cbn [flat_map forallb List.length map] in *.
    apply andb_true_iff in Hok. destruct Hok as [Hid Hok].
    rewrite <- app_assoc in Hrem.
    rewrite loop_S.
    run (seqid_is_not_eoc _ _ _ _ Hrem Hid Hfit).
    rewrite bind_get_offset. cbn [negb andb].
    run (ParseSeqId_text _ fuel _ _ _ Hrem Hid Hfit).
    apply remaining_app in Hrem.
    unfold ret. cbv beta iota.
    rewrite (IH k _ _ Hrem Hok) by lia.
    rewrite <- app_assoc. cbn [app]. f_equal. size_norm. lia.
Qed.

Lemma ParseSeqIdField_ids (buffer : list byte) (fuel : nat) (o : Z)
      (ids : list written_seqid) (rest : list byte) :
  remaining buffer o
    (x80 :: x30 :: x80 :: flat_map seqid_bytes ids
     ++ x00 :: x00 :: x00 :: x00 :: rest) ->
  forallb seqid_encodable ids = true ->
  (List.length ids < S (S (S fuel)))%nat ->
  size buffer < 2 ^ 63 ->
  ParseSeqIdField buffer (S (S (S fuel))) o
  = Ret (map decoded_seqid ids) (o + 3 + size (flat_map seqid_bytes ids) + 4).
Proof.
  intros Hrem Hok Hlen Hfit. unfold ParseSeqIdField.
  run (ReadLength_indefinite _ _ _ Hrem Hfit).
  apply remaining_cons in Hrem.
  rewrite bind_get_offset.
  erewrite bind_Ret.
  2:{ unfold ParseSeqIdList.
      run (ReadTag_octet _ _ _ _ Hrem eq_refl Hfit).
      apply remaining_cons in Hrem.
      change (short_tag x30) with (mkTag Universal true 16).
      cbn [cls number constructed BerClass_eqb negb Z.eqb Pos.eqb orb].
      run (ReadLength_indefinite _ _ _ Hrem Hfit).
      apply remaining_cons in Hrem.
      rewrite bind_get_offset. cbv zeta. cbn [indefinite].
      apply (ParseSeqIdList_loop buffer fuel (x00 :: x00 :: rest) ids Hfit
               (S (S (S fuel))) _ [] Hrem Hok Hlen). }
  cbv beta. cbn [indefinite app].
  do 2 apply remaining_cons in Hrem. apply remaining_app in Hrem.
  do 2 apply remaining_cons in Hrem.
  destruct (remaining_inside _ _ _ _ Hrem) as (Ho & Hsize & _).
  pose proof (size_nonneg rest) as Hrest. rewrite size_cons in Hsize.
  replace (o + 1 + 1 + 1 + size (flat_map seqid_bytes ids) + 2)
    with (o + 1 + 1 + 1 + size (flat_map seqid_bytes ids) + 1 + 1) by lia.
  erewrite bind_Ret.
  2:{ erewrite bind_Ret.
      2:{ rewrite loop_S.
          run (IsEoc_true _ _ _ Hrem Hfit). cbn [negb]. reflexivity. }
      cbv beta iota. unfold advance. reflexivity. }
  unfold ret. rewrite szadd_small by lia. f_equal. lia.
Qed.

(** *** The fields of a definition line *)

Lemma defline_field_title (buffer : list byte) (fuel : nat) (o : Z) (t : string)
      (rest : list byte) (entry : BlastDefLine) :
  remaining buffer o (title_field t ++ rest) -> empty t = false ->
  is_uint32 (Z.of_nat (String.length t)) = true -> size buffer < 2 ^ 63 ->
  defline_field buffer (S fuel) true (size buffer) entry o
  = Ret (Continue (set_title entry t)) (o + size (title_field t)).
Proof.
  intros Hrem Hne Ht Hfit. unfold title_field in *. rewrite Hne in *.
  cbn [app] in Hrem. rewrite <- !app_assoc in Hrem. cbn [app] in Hrem.
  unfold defline_field.
  assert (Hxa0 : u8 xa0 <> 0) by (vm_compute; discriminate).
  run (IsEoc_false _ _ _ _ Hrem Hxa0 Hfit).
  rewrite bind_get_offset. cbn [negb andb].
  run (ReadTag_octet _ _ _ _ Hrem eq_refl Hfit).
  change (short_tag xa0) with (mkTag ContextSpecific true 0).
  cbn [cls number constructed BerClass_eqb negb Z.eqb orb].
  apply remaining_cons in Hrem.
  run (ReadLength_indefinite _ _ _ Hrem Hfit).
  apply remaining_cons in Hrem.
  run (ParseExplicitVisible_indefinite _ fuel _ _ _ Hrem Ht Hfit).
  unfold ret. f_equal. size_norm. rewrite size_list_byte_of_string. lia.
Qed.

Lemma defline_field_seqids (buffer : list byte) (fuel : nat) (o : Z)
      (ids : list written_seqid) (rest : list byte) (entry : BlastDefLine) :
  remaining buffer o (seqid_field ids ++ rest) ->
  forallb seqid_encodable ids = true ->
  (List.length ids < S (S (S fuel)))%nat ->
  size buffer < 2 ^ 63 ->
  defline_field buffer (S (S (S fuel))) true (size buffer) entry o
  = Ret (Continue (set_seqids entry (map decoded_seqid ids)))
        (o + size (seqid_field ids)).
Proof.
  intros Hrem Hok Hlen Hfit. unfold seqid_field in *.
  cbn [app] in Hrem. rewrite <- !app_assoc in Hrem. cbn [app] in Hrem.
  unfold defline_field.
  assert (Hxa1 : u8 xa1 <> 0) by (vm_compute; discriminate).
  run (IsEoc_false _ _ _ _ Hrem Hxa1 Hfit).
  rewrite bind_get_offset. cbn [negb andb].
  run (ReadTag_octet _ _ _ _ Hrem eq_refl Hfit).
  change (short_tag xa1) with (mkTag ContextSpecific true 1).
  cbn [cls number constructed BerClass_eqb negb Z.eqb Pos.eqb orb].
  apply remaining_cons in Hrem.
  run (ParseSeqIdField_ids _ fuel _ _ _ Hrem Hok Hlen Hfit).
  unfold ret. f_equal. size_norm. lia.
Qed.

Lemma defline_field_taxid (buffer : list byte) (fuel : nat) (o v : Z)
      (rest : list byte) (entry : BlastDefLine) :
  remaining buffer o (taxid_field (Some v) ++ rest) -> - 2 ^ 63 <= v < 2 ^ 63 ->
  size buffer < 2 ^ 63 ->
  defline_field buffer (S fuel) true (size buffer) entry o
  = Ret (Continue (set_taxid entry v)) (o + size (taxid_field (Some v))).
Proof.
  intros Hrem Hv Hfit. unfold taxid_field in *.
  cbn [app] in Hrem. rewrite <- !app_assoc in Hrem. cbn [app] in Hrem.
  unfold defline_field.
  assert (Hxa2 : u8 xa2 <> 0) by (vm_compute; discriminate).
  run (IsEoc_false _ _ _ _ Hrem Hxa2 Hfit).
  rewrite bind_get_offset. cbn [negb andb].
  run (ReadTag_octet _ _ _ _ Hrem eq_refl Hfit).
  change (short_tag xa2) with (mkTag ContextSpecific true 2).
  cbn [cls number constructed BerClass_eqb negb Z.eqb Pos.eqb orb].
  apply remaining_cons in Hrem.
  run (ReadLength_indefinite _ _ _ Hrem Hfit).
  apply remaining_cons in Hrem.
  assert (Hbs : be64_bytes (v mod 2 ^ 64) <> []) by discriminate.
  assert (Hlen : size (be64_bytes (v mod 2 ^ 64)) < 2 ^ 32) by (change (size _) with 8; lia).
  run (ParseExplicitInteger_indefinite _ fuel _ (be64_bytes (v mod 2 ^ 64)) rest
         Hrem Hbs Hlen Hfit).
  rewrite (twos_complement_be64_bytes v Hv), int64_small by exact Hv.
  unfold ret. f_equal. size_norm.
  change (size (be64_bytes (v mod 2 ^ 64))) with 8.
  change (size (length_bytes 8)) with 1. lia.
Qed.

Lemma defline_field_end (buffer : list byte) (fuel : nat) (o : Z)
      (rest : list byte) (entry : BlastDefLine) :
  remaining buffer o (x00 :: x00 :: rest) -> size buffer < 2 ^ 63 ->
  defline_field buffer fuel true (size buffer) entry o = Ret (Break entry) (o + 2).
Proof.
  intros Hrem Hfit. unfold defline_field.
  run (IsEoc_true _ _ _ Hrem Hfit).
  destruct (remaining_inside _ _ _ _ Hrem) as (Ho & Hsize & _).
  pose proof (size_nonneg rest) as Hrest. rewrite size_cons in Hsize.
  unfold advance, bind, ret. rewrite szadd_small by lia. reflexivity.
Qed.

Lemma defline_fields_tail (buffer : list byte) (m fuel : nat) (o : Z)
      (ids : list written_seqid) (tx : option Z) (rest : list byte)
      (entry : BlastDefLine) :
  remaining buffer o (seqid_field ids ++ taxid_field tx ++ x00 :: x00 :: rest) ->
  forallb seqid_encodable ids = true ->
  (List.length ids < S (S (S fuel)))%nat ->
  match tx with Some v => - 2 ^ 63 <= v < 2 ^ 63 | None => True end ->
  seqids entry = [] -> taxid entry = None -> size buffer < 2 ^ 63 ->
  loop_try (3 + m) (defline_field buffer (S (S (S fuel))) true (size buffer)) entry o
  = Ret (inl (mkDefLine (def_title entry) (map decoded_seqid ids) tx))
        (o + size (seqid_field ids) + size (taxid_field tx) + 2).
Proof.
  intros Hrem Hok Hlen Htx Hids Hnone Hfit.
  change (3 + m)%nat with (S (S (S m))).
  rewrite loop_try_S, (defline_field_seqids _ fuel _ ids _ entry Hrem Hok Hlen Hfit).
  apply remaining_app in Hrem.
  destruct entry as [t ids0 tx0]. cbn [seqids taxid def_title] in *. subst ids0 tx0.
  unfold set_seqids. cbn [seqids taxid def_title].
  destruct tx as [v |].
  - rewrite loop_try_S, (defline_field_taxid _ (S (S fuel)) _ v _ _ Hrem Htx Hfit).
    apply remaining_app in Hrem.
    rewrite loop_try_S, (defline_field_end _ _ _ _ _ Hrem Hfit).
    reflexivity.
  - cbn [taxid_field app] in *.
    rewrite loop_try_S, (defline_field_end _ _ _ _ _ Hrem Hfit).
    f_equal. change (size []) with 0. lia.
Qed.

Lemma defline_encodable_spec (w : written_defline) :
  defline_encodable w = true ->
  forallb seqid_encodable (written_seqids w) = true
  /\ is_uint32 (Z.of_nat (String.length (written_title w))) = true
  /\ match written_taxid w with Some v => - 2 ^ 63 <= v < 2 ^ 63 | None => True end.
Proof.
  unfold defline_encodable. rewrite !andb_true_iff. intros ((Hids & Ht) & Htx).
  split; [exact Hids | split; [exact Ht |]].
  destruct (written_taxid w); [| exact I].
  apply andb_true_iff in Htx. destruct Htx. lia.
Qed.

Lemma defline_fields_loop (buffer : list byte) (n fuel : nat) (o : Z)
      (w : written_defline) (rest : list byte) :
  remaining buffer o
    (title_field (written_title w) ++ seqid_field (written_seqids w)
     ++ taxid_field (written_taxid w) ++ x00 :: x00 :: rest) ->
  defline_encodable w = true ->
  (List.length (written_seqids w) < S (S (S fuel)))%nat ->
  size buffer < 2 ^ 63 ->
  loop_try (4 + n) (defline_field buffer (S (S (S fuel))) true (size buffer))
    (mkDefLine EmptyString [] None) o
  = Ret (inl (decoded_defline w))
        (o + size (title_field (written_title w)) + size (seqid_field (written_seqids w))
         + size (taxid_field (written_taxid w)) + 2).
Proof.
  intros Hrem Hw Hlen Hfit.
  destruct (defline_encodable_spec w Hw) as (Hids & Ht & Htx).
  destruct w as [t ids tx]. unfold decoded_defline.
  cbn [written_title written_seqids written_taxid] in *.
  destruct (empty t) eqn:Hempty.
  - destruct t; [| discriminate]. cbn [title_field empty app] in *.
    change (4 + n)%nat with (3 + S n)%nat.
    rewrite (defline_fields_tail _ (S n) fuel _ ids tx rest (mkDefLine EmptyString [] None)
               Hrem Hids Hlen Htx eq_refl eq_refl Hfit).
    f_equal. change (size []) with 0. lia.
  - change (4 + n)%nat with (S (3 + n)).
    rewrite loop_try_S, (defline_field_title _ (S (S fuel)) _ t _ _ Hrem Hempty Ht Hfit).
    apply remaining_app in Hrem.
    rewrite (defline_fields_tail _ n fuel _ ids tx rest
               (set_title (mkDefLine EmptyString [] None) t)
               Hrem Hids Hlen Htx eq_refl eq_refl Hfit).
    reflexivity.
Qed.

(** *** One definition line, and the lines of a set *)

Lemma defline_round_line (buffer : list byte) (n : nat) (o : Z) (w : written_defline)
      (rest : list byte) (deflines : list BlastDefLine) (error_out : option string) :
  remaining buffer o (defline_bytes w ++ rest) ->
  defline_encodable w = true ->
  (List.length (written_seqids w) < 4 + n)%nat ->
  size buffer < 2 ^ 63 ->
  defline_round buffer (4 + n) true (size buffer) (deflines, error_out) o
  = Ret (Continue (deflines ++ [decoded_defline w], error_out))
        (o + size (defline_bytes w)).
Proof.
  intros Hrem Hw Hlen Hfit. unfold defline_bytes in *.
  rewrite <- !app_assoc in Hrem. cbn [app] in Hrem.
  unfold defline_round.
  assert (Hx30 : u8 x30 <> 0) by (vm_compute; discriminate).
  run (IsEoc_false _ _ _ _ Hrem Hx30 Hfit).
  rewrite bind_get_offset. cbn [negb andb].
  run (ReadTag_octet _ _ _ _ Hrem eq_refl Hfit).
  change (short_tag x30) with (mkTag Universal true 16).
  cbn [cls number constructed BerClass_eqb negb Z.eqb Pos.eqb orb].
  apply remaining_cons in Hrem.
  run (ReadLength_indefinite _ _ _ Hrem Hfit).
  apply remaining_cons in Hrem.
  rewrite bind_get_offset. cbn [indefinite].
  change (4 + n)%nat with (S (S (S (S n)))) at 2.
  run (defline_fields_loop _ n (S n) _ w rest Hrem Hw Hlen Hfit).
  unfold ret. size_norm.
  match goal with |- Ret _ ?a = Ret _ ?b => replace b with a by lia end.
  reflexivity.
Qed.

Lemma defline_round_end (buffer : list byte) (fuel : nat) (o : Z)
      (rest : list byte) (st : deflines_state) :
  remaining buffer o (x00 :: x00 :: rest) -> size buffer < 2 ^ 63 ->
  defline_round buffer fuel true (size buffer) st o = Ret (Break st) (o + 2).
Proof.
  intros Hrem Hfit. unfold defline_round. destruct st as [deflines error_out].
  run (IsEoc_true _ _ _ Hrem Hfit).
  destruct (remaining_inside _ _ _ _ Hrem) as (Ho & Hsize & _).
  pose proof (size_nonneg rest) as Hrest. rewrite size_cons in Hsize.
  unfold advance, bind, ret. rewrite szadd_small by lia. reflexivity.
Qed.

Lemma defline_rounds (buffer : list byte) (k n : nat) (rest : list byte)
      (error_out : option string) (ws : list written_defline) :
  forall (o : Z) (deflines : list BlastDefLine),
    remaining buffer o (flat_map defline_bytes ws ++ x00 :: x00 :: rest) ->
    forallb defline_encodable ws = true ->
    Forall (fun w => (List.length (written_seqids w) < 4 + n)%nat) ws ->
    size buffer < 2 ^ 63 ->
    loop_try (List.length ws + S k)
      (defline_round buffer (4 + n) true (size buffer)) (deflines, error_out) o
    = Ret (inl (deflines ++ map decoded_defline ws, error_out))
          (o + size (flat_map defline_bytes ws) + 2).
Proof.
  induction ws as [| w ws IH]; intros o deflines Hrem Hws Hlens Hfit.
  - cbn [flat_map app map] in *.
    change (List.length [] + S k)%nat with (S k).
    rewrite loop_try_S, (defline_round_end _ _ _ _ _ Hrem Hfit), app_nil_r.
    f_equal. change (size []) with 0. lia.
  - cbn [flat_map forallb map] in *.
    change (List.length (w :: ws) + S k)%nat with (S (List.length ws + S k)).
    apply andb_true_iff in Hws. destruct Hws as [Hw Hws].
    inversion Hlens as [| ? ? Hlen Hlens']; subst.
    rewrite <- app_assoc in Hrem.
    rewrite loop_try_S,
      (defline_round_line _ n _ w _ deflines error_out Hrem Hw Hlen Hfit).
    apply remaining_app in Hrem.
    rewrite (IH _ _ Hrem Hws Hlens' Hfit), <- app_assoc. cbn [app].
    f_equal. size_norm. lia.
Qed.

Lemma defline_rounds_fuel (buffer : list byte) (f1 f2 : nat) (rest : list byte)
      (error_out : option string) (ws : list written_defline) (o : Z) :
  remaining buffer o (flat_map defline_bytes ws ++ x00 :: x00 :: rest) ->
  forallb defline_encodable ws = true -> size buffer < 2 ^ 63 ->
  (List.length ws + 1 <= f1)%nat -> (4 <= f2)%nat ->
  Forall (fun w => (List.length (written_seqids w) < f2)%nat) ws ->
  loop_try f1 (defline_round buffer f2 true (size buffer)) ([], error_out) o
  = Ret (inl (map decoded_defline ws, error_out))
        (o + size (flat_map defline_bytes ws) + 2).
Proof.
  intros Hrem Hws Hfit Hf1 Hf2 Hlens.
  replace f1 with (List.length ws + S (f1 - List.length ws - 1))%nat by lia.
  replace f2 with (4 + (f2 - 4))%nat in * by lia.
  apply (defline_rounds buffer _ _ rest error_out ws o [] Hrem Hws Hlens Hfit).
Qed.

(** [DecodeDeflineSet] on the encoding of a set of definition lines. *)
Lemma DecodeDeflineSet_of_encoding (fuel : nat) (ws : list written_defline)
        (trailing : list byte) (error_out : option string) :
  forallb defline_encodable ws = true ->
  size (defline_set_bytes ws ++ trailing) < 2 ^ 63 ->
  (defline_set_fuel ws <= fuel)%nat ->
  DecodeDeflineSet fuel (defline_set_bytes ws ++ trailing) error_out
  = Ret (map decoded_defline ws, error_out) (size (defline_set_bytes ws)).
Proof.
  intros Hws Hfit Hfuel. unfold defline_set_fuel in Hfuel.
  assert (Hlens : Forall (fun w => (List.length (written_seqids w) < fuel)%nat) ws).
  { apply Forall_forall. intros w Hin.
    pose proof (list_max_le (map (fun w => List.length (written_seqids w)) ws)
                  (list_max (map (fun w => List.length (written_seqids w)) ws)))
      as [Hle _].
    specialize (Hle (Nat.le_refl _)). rewrite Forall_forall in Hle.
    specialize (Hle _ (in_map (fun w => List.length (written_seqids w)) ws w Hin)).
    cbn beta in Hle. lia. }
  set (blob := defline_set_bytes ws ++ trailing) in *.
  assert (Hrem : remaining blob 0
                   (x30 :: x80 :: flat_map defline_bytes ws ++ x00 :: x00 :: trailing)).
  { replace (x30 :: x80 :: flat_map defline_bytes ws ++ x00 :: x00 :: trailing)
      with blob; [apply remaining_start |].
    unfold blob, defline_set_bytes. rewrite <- !app_assoc. reflexivity. }
  unfold DecodeDeflineSet, outer_header.
  erewrite bind_Ret.
  2:{ run (ReadTag_octet _ _ _ _ Hrem eq_refl Hfit).
      change (short_tag x30) with (mkTag Universal true 16).
      cbn [cls number BerClass_eqb negb Z.eqb Pos.eqb orb].
      apply remaining_cons in Hrem.
      apply (ReadLength_indefinite _ _ _ Hrem Hfit). }
  cbv beta. do 2 apply remaining_cons in Hrem.
  rewrite bind_get_offset. cbn [indefinite].
  run (defline_rounds_fuel blob fuel fuel trailing error_out ws _ Hrem Hws Hfit
         ltac:(lia) ltac:(lia) Hlens).
  unfold ret, defline_set_bytes. size_norm. f_equal. lia.
Qed.

(** X17. [DecodeDeflineSet] inverts the encoding of a set of definition
    lines in the indefinite-length form: for lines with a title, Seq-ids
    with an accession and a version, and a taxid, it returns exactly the
    lines that were encoded, in order, stops behind the closing
    end-of-contents octets, ignores whatever follows them, and leaves
    [*error_out] as it was. *)
Theorem DecodeDeflineSet_round_trip (fuel : nat) (ws : list written_defline)
        (trailing : list byte) (error_out : option string) :
  forallb defline_encodable ws = true ->
  size (defline_set_bytes ws ++ trailing) < 2 ^ 63 ->
  (defline_set_fuel ws <= fuel)%nat ->
  DecodeDeflineSet fuel (defline_set_bytes ws ++ trailing) error_out
  = Ret (map decoded_defline ws, error_out) (size (defline_set_bytes ws)).
Proof.
  intros Hws Hfit Hfuel.
  apply (DecodeDeflineSet_of_encoding fuel ws trailing error_out); assumption.
Qed.

Lemma DecodeDeflineSet_round_trip_example :
  DecodeDeflineSet 6 (defline_set_bytes written_deflines_example ++ [xff])
    (Some EmptyString)
  = Ret (map decoded_defline written_deflines_example, Some EmptyString)
        (size (defline_set_bytes written_deflines_example)).
Proof.
  apply (DecodeDeflineSet_round_trip 6 written_deflines_example [xff] (Some EmptyString)).
  - reflexivity.
  - vm_compute. reflexivity.
  - vm_compute. lia.
Defined.

(** X26. [ParseSeqId] reads a Seq-id with an accession and a version: on
    the definite-length encoding of a choice other than [pdb] that holds
    the accession as field [[1]] and the version, if any, as field [[3]],
    it returns the name of the choice, the accession and the version, and
    stops behind the element; the scan for a fallback value is not run. *)
Theorem ParseSeqId_reads_accession_and_version (fuel : nat) (k : Z)
        (accession : string) (v : option Z) (pre post : list byte) :
  text_seqid_encodable k accession v = true ->
  size (pre ++ text_seqid_bytes k accession v ++ post) < 2 ^ 63 ->
  (3 <= fuel)%nat ->
  ParseSeqId (pre ++ text_seqid_bytes k accession v ++ post) fuel (size pre)
  = Ret (mkSeqId (TagNameFromNumber k) accession v)
        (size pre + size (text_seqid_bytes k accession v)).
Proof.
  intros Hok Hfit Hfuel.
  destruct fuel as [| [| [| fuel]]]; try lia.
  apply (ParseSeqId_text _ fuel (size pre) (k, accession, v) post); [| exact Hok | exact Hfit].
  exists pre. split; reflexivity.
Qed.

Lemma ParseSeqId_reads_accession_and_version_example :
  ParseSeqId ([x30; x80] ++ text_seqid_bytes 4 "P01013" (Some 2) ++ [x00; x00]) 3
    (size [x30; x80])
  = Ret (mkSeqId (TagNameFromNumber 4) "P01013" (Some 2))
        (size [x30; x80] + size (text_seqid_bytes 4 "P01013" (Some 2))).
Proof.
  apply (ParseSeqId_reads_accession_and_version 3 4 "P01013" (Some 2) [x30; x80] [x00; x00]).
  - reflexivity.
  - vm_compute. reflexivity.
  - lia.
Defined.

(** ** Skipping an element *)

Lemma element_induction (P : element -> Prop) :
  (forall tag content, P (Definite tag content)) ->
  (forall tag children, Forall P children -> P (Indefinite tag children)) ->
  forall e, P e.
Proof.
  intros Hd Hi.
  fix IH 1. intros [tag content | tag children].
  - apply Hd.
  - apply Hi. induction children as [| c cs IHcs]; constructor.
    + apply IH.
    + exact IHcs.
Qed.

Lemma IsEoc_false_second (buffer : list byte) (o : Z) (b0 b1 : byte) (rest : list byte) :
  remaining buffer o (b0 :: b1 :: rest) -> u8 b1 <> 0 -> size buffer < 2 ^ 63 ->
  IsEoc buffer o = Ret false o.
Proof.
  intros Hrem Hb1 Hfit.
  destruct (remaining_inside _ _ _ _ Hrem) as (Ho & Hsize & Hb0').
  destruct (remaining_inside _ _ _ _ (remaining_cons _ _ _ _ Hrem)) as (_ & _ & Hb1').
  pose proof (size_nonneg rest) as Hrest. rewrite size_cons in Hsize.
  unfold IsEoc. rewrite bind_get_offset.
  rewrite !szadd_small by lia.
  replace (o + 1 <? size buffer) with true by (symmetry; apply Z.ltb_lt; lia).
  cbv beta iota.
  rewrite (bind_Ret _ _ _ _ _ (Hb0' o)). cbv beta.
  destruct (u8 b0 =? 0); [| reflexivity].
  rewrite (bind_Ret _ _ _ _ _ (Hb1' o)). cbv beta.
  unfold ret. apply Z.eqb_neq in Hb1. rewrite Hb1. reflexivity.
Qed.

(** No well-formed element other than the end-of-contents marker starts
    with the octets [00 00]. *)
Lemma element_is_not_eoc (buffer : list byte) (o : Z) (e : element) (rest : list byte) :
  remaining buffer o (element_bytes e ++ rest) ->
  element_well_formed e = true -> is_end_of_contents e = false ->
  size buffer < 2 ^ 63 ->
  IsEoc buffer o = Ret false o.
Proof.
  intros Hrem Hwf Hne Hfit.
  destruct e as [tag content | tag children]; cbn [element_bytes app] in Hrem.
  - cbn [element_well_formed] in Hwf. apply andb_true_iff in Hwf.
    destruct Hwf as [_ Hlen]. apply Z.ltb_lt in Hlen.
    destruct (Z.eqb_spec (u8 tag) 0) as [Htag | Htag].
    + destruct content as [| c content].
      * cbn [is_end_of_contents] in Hne. apply Z.eqb_neq in Hne. contradiction.
      * unfold length_bytes in Hrem.
        pose proof (size_nonneg content) as Hc. rewrite size_cons in *.
        destruct (Z.ltb_spec (1 + size content) 128) as [Hshort | Hlong];
          cbn [app] in Hrem.
        -- apply (IsEoc_false_second _ _ _ _ _ Hrem); [| exact Hfit].
           rewrite u8_byte_of, Z.mod_small by lia. lia.
        -- apply (IsEoc_false_second _ _ _ _ _ Hrem); [| exact Hfit].
           vm_compute. discriminate.
    + apply (IsEoc_false _ _ _ _ Hrem Htag Hfit).
  - cbn [element_well_formed] in Hwf. rewrite !andb_true_iff in Hwf.
    destruct Hwf as ((_ & Hcons) & _).
    apply (IsEoc_false _ _ _ _ Hrem); [| exact Hfit].
    intros Htag. rewrite Htag in Hcons. discriminate.
Qed.

Lemma SkipElement_definite (buffer : list byte) (fuel : nat) (o : Z) (tag : byte)
      (content rest : list byte) :
  remaining buffer o (element_bytes (Definite tag content) ++ rest) ->
  element_well_formed (Definite tag content) = true -> size buffer < 2 ^ 63 ->
  SkipElement buffer (S fuel) o
  = Ret tt (o + size (element_bytes (Definite tag content))).
Proof.
  intros Hrem Hwf Hfit. cbn [element_bytes element_well_formed app] in *.
  apply andb_true_iff in Hwf. destruct Hwf as [Htag Hlen].
  apply negb_true_iff in Htag. apply Z.ltb_lt in Hlen.
  pose proof (size_nonneg content) as Hc.
  rewrite <- app_assoc in Hrem.
  rewrite SkipElement_S.
  run (ReadTag_octet _ _ _ _ Hrem Htag Hfit).
  apply remaining_cons in Hrem.
  run (ReadLength_definite _ _ _ _ Hrem (conj Hc Hlen) Hfit).
  apply remaining_app in Hrem.
  cbn [indefinite length]. rewrite bind_get_offset.
  destruct (remaining_size _ _ _ Hrem) as (Ho & Hsize).
  pose proof (size_nonneg rest) as Hrest. rewrite size_app in Hsize.
  rewrite szadd_small by lia.
  replace (size buffer <? _) with false by (symmetry; apply Z.ltb_ge; lia).
  unfold advance. rewrite szadd_small by lia.
  f_equal. size_norm. lia.
Qed.

(** The loop of [SkipElement] over the elements held, given that the
    recursive call skips each of them. *)
Lemma SkipElement_children (buffer : list byte) (fuel : nat) (rest : list byte)
      (children : list element) :
  size buffer < 2 ^ 63 ->
  Forall (fun c =>
            element_well_formed c = true /\ is_end_of_contents c = false
            /\ forall o rest',
                remaining buffer o (element_bytes c ++ rest') ->
                SkipElement buffer fuel o = Ret tt (o + size (element_bytes c)))
         children ->
  forall (k : nat) (o : Z),
    remaining buffer o (flat_map element_bytes children ++ x00 :: x00 :: rest) ->
    (List.length children < k)%nat ->
    loop k (SkipElement_round buffer (SkipElement buffer fuel)) tt o
    = Ret tt (o + size (flat_map element_bytes children) + 2).
Proof.
  intros Hfit Hall. induction Hall as [| c cs (Hwf & Hne & Hskip) _ IH];
    intros k o Hrem Hk; (destruct k as [| k]; [cbn [List.length] in Hk; lia |]).
  - cbn [flat_map app] in *. rewrite loop_S. unfold SkipElement_round.
    run (IsEoc_true _ _ _ Hrem Hfit).
    destruct (remaining_inside _ _ _ _ Hrem) as (Ho & Hsize & _).
    pose proof (size_nonneg rest) as Hrest. rewrite size_cons in Hsize.
    unfold advance, bind, ret. rewrite szadd_small by lia.
    f_equal. change (size []) with 0. lia.
  - cbn [flat_map List.length] in *. rewrite <- app_assoc in Hrem.
    assert (Hbody : SkipElement_round buffer (SkipElement buffer fuel) tt o
                    = Ret (Continue tt) (o + size (element_bytes c))).
    { unfold SkipElement_round.
      run (element_is_not_eoc _ _ _ _ Hrem Hwf Hne Hfit).
      run (Hskip _ _ Hrem). reflexivity. }
    rewrite loop_S, Hbody.
    apply remaining_app in Hrem.
    rewrite (IH k _ Hrem) by lia.
    f_equal. size_norm. lia.
Qed.

Lemma SkipElement_element (buffer : list byte) (e : element) :
  size buffer < 2 ^ 63 ->
  element_well_formed e = true ->
  forall (fuel : nat) (o : Z) (rest : list byte),
    remaining buffer o (element_bytes e ++ rest) ->
    (element_fuel e <= fuel)%nat ->
    SkipElement buffer fuel o = Ret tt (o + size (element_bytes e)).
Proof.
  intros Hfit. induction e as [tag content | tag children IH] using element_induction;
    intros Hwf fuel o rest Hrem Hfuel;
    (destruct fuel as [| fuel]; [cbn [element_fuel] in Hfuel; lia |]).
  - apply (SkipElement_definite _ _ _ _ _ _ Hrem Hwf Hfit).
  - cbn [element_bytes element_well_formed element_fuel app] in *.
    rewrite !andb_true_iff in Hwf. destruct Hwf as ((Htag & Hcons) & Hcs).
    apply negb_true_iff in Htag.
    rewrite <- app_assoc in Hrem. cbn [app] in Hrem.
    rewrite SkipElement_S.
    run (ReadTag_octet _ _ _ _ Hrem Htag Hfit).
    apply remaining_cons in Hrem.
    run (ReadLength_indefinite _ _ _ Hrem Hfit).
    apply remaining_cons in Hrem.
    cbn [indefinite constructed short_tag]. rewrite Hcons. cbn [negb].
    rewrite (SkipElement_children buffer fuel rest children Hfit).
    + f_equal. size_norm. lia.
    + rewrite Forall_forall in IH |- *. intros c Hin.
      rewrite forallb_forall in Hcs. specialize (Hcs c Hin).
      apply andb_true_iff in Hcs. destruct Hcs as [Hwf Hne].
      apply negb_true_iff in Hne.
      split; [exact Hwf | split; [exact Hne |]].
      intros o' rest' Hrem'. apply (IH c Hin Hwf fuel o' rest' Hrem').
      assert (element_fuel c <= list_max (map element_fuel children))%nat.
      { pose proof (list_max_le (map element_fuel children)
                      (list_max (map element_fuel children))) as [Hle _].
        specialize (Hle (Nat.le_refl _)).
        rewrite Forall_forall in Hle. apply Hle. apply in_map. exact Hin. }
      lia.
    + exact Hrem.
    + lia.
Qed.

(** X18. [SkipElement] skips exactly one element: on the octets of a
    well-formed element, of definite length or of indefinite length with any
    nesting of elements inside, it returns with the offset moved from the
    first octet of the element to the octet behind its last one, whatever
    precedes and follows the element in the buffer. *)
Theorem SkipElement_skips_one_element (fuel : nat) (e : element)
        (pre post : list byte) :
  element_well_formed e = true ->
  size (pre ++ element_bytes e ++ post) < 2 ^ 63 ->
  (element_fuel e <= fuel)%nat ->
  SkipElement (pre ++ element_bytes e ++ post) fuel (size pre)
  = Ret tt (size pre + size (element_bytes e)).
Proof.
  intros Hwf Hfit Hfuel.
  apply (SkipElement_element _ e Hfit Hwf fuel (size pre) post); [| exact Hfuel].
  exists pre. split; reflexivity.
Qed.

Lemma SkipElement_skips_one_element_example :
  SkipElement ([xff] ++ element_bytes nested_element_example ++ [x01]) 5 (size [xff])
  = Ret tt (size [xff] + size (element_bytes nested_element_example)).
Proof.
  apply (SkipElement_skips_one_element 5 nested_element_example [xff] [x01]).
  - reflexivity.
  - vm_compute. reflexivity.
  - vm_compute. lia.
Defined.

(** ** Printing the sequences of a sequence file *)

Lemma residue_letter_code (a : ascii) :
  is_residue_letter a = true ->
  u8 (byte_of (residue_code a)) <> 0
  /\ residue_letter (u8 (byte_of (residue_code a))) = a.
Proof.
  unfold is_residue_letter, residue_letters.
  cbn [tl PsqReader.kNcbistdaaToAscii existsb].
  rewrite !orb_true_iff. intros H.
  repeat (destruct H as [H | H];
          [apply Ascii.eqb_eq in H; subst a; split; [vm_compute; discriminate | reflexivity] |]).
  discriminate H.
Qed.

Lemma decoded_residues_residues (s : string) (rest : list byte) :
  is_sequence s = true ->
  decoded_residues (residues s ++ x00 :: rest) = s.
Proof.
  unfold is_sequence, residues. induction s as [| a s IH]; intros Hs.
  - reflexivity.
  - cbn [list_ascii_of_string forallb map app decoded_residues] in *.
    apply andb_true_iff in Hs. destruct Hs as [Ha Hs].
    destruct (residue_letter_code a Ha) as [Hne Hletter].
    apply Z.eqb_neq in Hne. rewrite Hne, Hletter, (IH Hs). reflexivity.
Qed.

Lemma size_residues (s : string) : size (residues s) = Z.of_nat (String.length s).
Proof.
  unfold residues, size. rewrite length_map.
  induction s as [| a s IH]; cbn [list_ascii_of_string List.length String.length];
    [reflexivity | lia].
Qed.

Lemma size_terminated_sequences_app (xs ys : list string) :
  size (terminated_sequences (xs ++ ys))
  = size (terminated_sequences xs) + size (terminated_sequences ys).
Proof.
  unfold terminated_sequences. rewrite flat_map_app, size_app. reflexivity.
Qed.

(** The table of a sequence file holds, at the number of a sequence, the
    number of bytes before it. *)
Lemma nth_sequence_starts (done rest : list string) :
  forall start,
    nth_error (sequence_starts start (done ++ rest)) (List.length done)
    = hd_error (sequence_starts (start + size (terminated_sequences done)) rest).
Proof.
  induction done as [| s done IH]; intros start.
  - cbn [app List.length nth_error]. change (size (terminated_sequences [])) with 0.
    rewrite Z.add_0_r. destruct rest; reflexivity.
  - cbn [app List.length sequence_starts nth_error]. rewrite IH.
    f_equal. f_equal.
    change (s :: done) with ([s] ++ done).
    rewrite size_terminated_sequences_app.
    unfold terminated_sequences at 2. cbn [flat_map]. size_norm.
    rewrite size_residues. lia.
Qed.

(** Decoding the bytes between two neighbouring offsets gives the sequence
    back. *)
Lemma DecodeSequence_of_sequence_file (done : list string) (s : string)
      (rest : list string) :
  is_sequence s = true ->
  PsqReader.DecodeSequence (sequence_file (done ++ s :: rest))
    (1 + size (terminated_sequences done))
    (1 + size (terminated_sequences (done ++ [s])))
  = inr s.
Proof.
  intros Hs. unfold PsqReader.DecodeSequence.
  rewrite size_terminated_sequences_app.
  assert (Hone : size (terminated_sequences [s]) = Z.of_nat (String.length s) + 1).
  { unfold terminated_sequences. cbn [flat_map]. size_norm.
    rewrite size_residues. lia. }
  assert (Hfile : sequence_file (done ++ s :: rest)
                  = (x00 :: terminated_sequences done)
                      ++ (residues s ++ [x00]) ++ terminated_sequences rest).
  { unfold sequence_file, terminated_sequences.
    rewrite flat_map_app. cbn [flat_map app]. reflexivity. }
  pose proof (size_nonneg (terminated_sequences done)) as Hdone.
  pose proof (size_nonneg (terminated_sequences rest)) as Hrest.
  rewrite Hone.
  replace (_ <? _) with false by (symmetry; apply Z.ltb_ge; lia).
  replace (_ <? _) with false.
  2:{ symmetry. apply Z.ltb_ge. rewrite Hfile. size_norm. rewrite size_residues. lia. }
  cbn [orb]. f_equal.
  rewrite DecodeSequence_loop_spec. cbn [append].
  replace (1 + size (terminated_sequences done))
    with (size (x00 :: terminated_sequences done)) by (size_norm; lia).
  replace (_ - _) with (size (residues s ++ [x00]))
    by (size_norm; rewrite size_residues; lia).
  rewrite Hfile, sub_bytes_app.
  apply decoded_residues_residues. exact Hs.
Qed.

Lemma string_append_assoc (a b c : string) :
  ((a ++ b) ++ c)%string = (a ++ (b ++ c))%string.
Proof.
  induction a as [| x a IH]; cbn [append]; [reflexivity | rewrite IH; reflexivity].
Qed.

Lemma sequences_are_terminated (seqs : list string) :
  Z.of_nat (List.length seqs) <= size (terminated_sequences seqs).
Proof.
  induction seqs as [| s seqs IH]; [cbn; lia |].
  change (s :: seqs) with ([s] ++ seqs) at 2.
  rewrite size_terminated_sequences_app.
  unfold terminated_sequences at 1. cbn [flat_map List.length]. size_norm.
  pose proof (size_nonneg (residues s)). lia.
Qed.

Lemma print_sequences_of_sequence_file (index : PsqReader.PinIndex)
      (rest : list string) :
  forall (done : list string) (out : string),
    forallb is_sequence rest = true ->
    size (sequence_file (done ++ rest)) < 2 ^ 32 ->
    PsqReader.sequence_offsets index = sequence_starts 1 (done ++ rest) ->
    PsqReader.print_sequences index (sequence_file (done ++ rest))
      (List.length rest) (Z.of_nat (List.length done)) out
    = PsqReader.Completed
        (out ++ sequence_records (Z.of_nat (List.length done)) rest)%string.
Proof.
  induction rest as [| s rest IH]; intros done out Hrest Hsize Htable.
  - cbn [PsqReader.print_sequences List.length sequence_records].
    rewrite append_empty. reflexivity.
  - cbn [forallb] in Hrest. apply andb_true_iff in Hrest. destruct Hrest as [Hs Hrest].
    assert (Hcount : Z.of_nat (List.length done) + 1 < 2 ^ 32).
    { unfold sequence_file in Hsize. rewrite size_cons in Hsize.
      rewrite size_terminated_sequences_app in Hsize.
      pose proof (sequences_are_terminated done).
      pose proof (sequences_are_terminated (s :: rest)).
      cbn [List.length] in *. lia. }
    assert (Hnext : uint32 (Z.of_nat (List.length done) + 1)
                    = Z.of_nat (List.length (done ++ [s]))).
    { unfold uint32. rewrite Z.mod_small by lia.
      rewrite length_app. cbn [List.length]. lia. }
    cbn [PsqReader.print_sequences List.length].
    rewrite Hnext, Htable, Nat2Z.id, Nat2Z.id.
    rewrite (nth_sequence_starts done (s :: rest) 1).
    replace (done ++ s :: rest) with ((done ++ [s]) ++ rest)
      by (rewrite <- app_assoc; reflexivity).
    rewrite (nth_sequence_starts (done ++ [s]) rest 1).
    replace (hd_error (sequence_starts (1 + size (terminated_sequences (done ++ [s]))) rest))
      with (Some (1 + size (terminated_sequences (done ++ [s]))))
      by (destruct rest; reflexivity).
    cbn [sequence_starts hd_error].
    replace ((done ++ [s]) ++ rest) with (done ++ s :: rest)
      by (rewrite <- app_assoc; reflexivity).
    rewrite (DecodeSequence_of_sequence_file done s rest Hs).
    replace (done ++ s :: rest) with ((done ++ [s]) ++ rest) in *
      by (rewrite <- app_assoc; reflexivity).
    rewrite (IH (done ++ [s]) _ Hrest Hsize Htable).
    rewrite <- Hnext. unfold uint32. rewrite Z.mod_small by lia.
    cbn [sequence_records]. unfold sequence_record.
    f_equal. rewrite !string_append_assoc. reflexivity.
Qed.

(** X19. The loop of [main] prints a sequence file back: for a file made of
    a NUL byte and of sequences of residue letters, each followed by a NUL
    byte, and an index whose table holds the start of every sequence and the
    end of the file, it writes one record per sequence, in order, each with
    the number of the sequence, its length and its letters, and ends without
    an exception and without reading outside the table. *)
Theorem print_sequences_round_trip (index : PsqReader.PinIndex) (seqs : list string)
        (out : string) :
  forallb is_sequence seqs = true ->
  size (sequence_file seqs) < 2 ^ 32 ->
  PsqReader.num_sequences index = Z.of_nat (List.length seqs) ->
  PsqReader.sequence_offsets index = sequence_starts 1 seqs ->
  PsqReader.print_sequences index (sequence_file seqs)
    (Z.to_nat (PsqReader.num_sequences index)) 0 out
  = PsqReader.Completed (out ++ sequence_records 0 seqs)%string.
Proof.
  intros Hseqs Hsize Hcount Htable. rewrite Hcount, Nat2Z.id.
  apply (print_sequences_of_sequence_file index seqs [] out Hseqs Hsize Htable).
Qed.

Lemma print_sequences_round_trip_example :
  PsqReader.print_sequences
    (PsqReader.mkPinIndex 4 1 0 "db" "" "2024" 2 6 4 [1; 6; 9])
    (sequence_file ["MKVL"; "AC"]%string)
    (Z.to_nat (PsqReader.num_sequences
                 (PsqReader.mkPinIndex 4 1 0 "db" "" "2024" 2 6 4 [1; 6; 9])))
    0 EmptyString
  = PsqReader.Completed (EmptyString ++ sequence_records 0 ["MKVL"; "AC"]%string)%string.
Proof.
  apply (print_sequences_round_trip
           (PsqReader.mkPinIndex 4 1 0 "db" "" "2024" 2 6 4 [1; 6; 9])
           ["MKVL"; "AC"]%string EmptyString); reflexivity.
Defined.

(** ** Strings in segments *)

Lemma ParseVisible_chunks (buffer : list byte) (fuel : nat) (rest : list byte)
      (chunks : list string) :
  size buffer < 2 ^ 63 ->
  forallb chunk_encodable chunks = true ->
  forall (k : nat) (o : Z) (combined : string),
    remaining buffer o (flat_map visible_chunk chunks ++ x00 :: x00 :: rest) ->
    (List.length chunks < k)%nat ->
    loop k
      (fun combined : string =>
         eoc <- (if true then IsEoc buffer else ret false) ;;
         if eoc then advance 2 ;; ret (Break combined)
         else
           offset <- get_offset ;;
           if negb true && (size buffer <=? offset) then ret (Break combined)
           else
             chunk_tag <- ReadTag buffer ;;
             chunk_len <- ReadLength buffer ;;
             if IsVisibleLikeTag chunk_tag && negb (constructed chunk_tag)
                && negb (indefinite chunk_len)
             then
               chunk <- ParseString buffer (length chunk_len) ;;
               ret (Continue (combined ++ chunk)%string)
             else SkipElement buffer fuel ;; ret (Continue combined))
      combined o
    = Ret (combined ++ String.concat EmptyString chunks)%string
          (o + size (flat_map visible_chunk chunks) + 2).
Proof.
  intros Hfit. induction chunks as [| c chunks IH];
    intros Hall k o combined Hrem Hk;
    (destruct k as [| k]; [cbn [List.length] in Hk; lia |]).
  - cbn [flat_map app String.concat] in *. rewrite loop_S.
    run (IsEoc_true _ _ _ Hrem Hfit).
    destruct (remaining_inside _ _ _ _ Hrem) as (Ho & Hsize & _).
    pose proof (size_nonneg rest) as Hrest. rewrite size_cons in Hsize.
    unfold advance, bind, ret. rewrite szadd_small by lia.
    rewrite append_empty. f_equal. change (size []) with 0. lia.
  - cbn [flat_map forallb List.length] in *.
    apply andb_true_iff in Hall. destruct Hall as [Hc Hall].
    apply is_uint32_range in Hc.
    unfold visible_chunk in Hrem at 1.
    rewrite <- !app_assoc in Hrem. cbn [app] in Hrem. rewrite <- !app_assoc in Hrem.
    rewrite loop_S.
    assert (Hx1a : u8 x1a <> 0) by (vm_compute; discriminate).
    run (IsEoc_false _ _ _ _ Hrem Hx1a Hfit).
    rewrite bind_get_offset. cbn [negb andb].
    run (ReadTag_octet _ _ _ _ Hrem eq_refl Hfit).
    apply remaining_cons in Hrem.
    run (ReadLength_definite _ _ _ _ Hrem Hc Hfit).
    apply remaining_app in Hrem.
    change (short_tag x1a) with (mkTag Universal false 26).
    cbn [IsVisibleLikeTag cls number constructed BerClass_eqb negb indefinite length
         Z.eqb Pos.eqb orb andb].
    rewrite <- size_list_byte_of_string at 1.
    run (ParseString_remaining _ _ _ _ Hrem Hfit).
    apply remaining_app in Hrem.
    unfold ret. cbv beta iota. rewrite string_of_list_byte_of_string.
    rewrite (IH Hall k _ _ Hrem) by lia.
    f_equal.
    + destruct chunks as [| c' chunks']; cbn [String.concat].
      * rewrite !append_empty. reflexivity.
      * rewrite string_append_assoc. reflexivity.
    + unfold visible_chunk. size_norm. lia.
Qed.

(** X20. [ParseVisible] puts a string in segments together: on a
    constructed string of indefinite length that holds its text in
    primitive segments it returns the texts of the segments joined in
    order, and stops behind the end-of-contents octets of the string. *)
Theorem ParseVisible_joins_segments (fuel : nat) (chunks : list string)
        (pre post : list byte) :
  forallb chunk_encodable chunks = true ->
  size (pre ++ segmented_string chunks ++ post) < 2 ^ 63 ->
  (List.length chunks < fuel)%nat ->
  ParseVisible (pre ++ segmented_string chunks ++ post) fuel (size pre)
  = Ret (String.concat EmptyString chunks) (size pre + size (segmented_string chunks)).
Proof.
  intros Hall Hfit Hfuel.
  set (buffer := pre ++ segmented_string chunks ++ post) in *.
  assert (Hrem : remaining buffer (size pre)
                   (x3a :: x80 :: flat_map visible_chunk chunks ++ x00 :: x00 :: post)).
  { exists pre. split; [| reflexivity].
    unfold buffer, segmented_string. cbn [app]. rewrite <- !app_assoc. reflexivity. }
  unfold ParseVisible.
  run (ReadTag_octet _ _ _ _ Hrem eq_refl Hfit).
  apply remaining_cons in Hrem.
  run (ReadLength_indefinite _ _ _ Hrem Hfit).
  apply remaining_cons in Hrem.
  change (short_tag x3a) with (mkTag Universal true 26).
  cbn [IsVisibleLikeTag cls number constructed BerClass_eqb negb indefinite
       Z.eqb Pos.eqb orb].
  rewrite bind_get_offset. cbv zeta. cbn [indefinite].
  erewrite bind_Ret;
    [| apply (ParseVisible_chunks buffer fuel post chunks Hfit Hall fuel _ EmptyString
                Hrem Hfuel)].
  rewrite bind_get_offset. cbn [negb andb when]. unfold bind, ret.
  f_equal. unfold segmented_string. size_norm. lia.
Qed.

Lemma ParseVisible_joins_segments_example :
  ParseVisible ([xa0; x80] ++ segmented_string ["lyso"; "zyme"]%string ++ [x00; x00]) 3
    (size [xa0; x80])
  = Ret (String.concat EmptyString ["lyso"; "zyme"]%string)
        (size [xa0; x80] + size (segmented_string ["lyso"; "zyme"]%string)).
Proof.
  apply (ParseVisible_joins_segments 3 ["lyso"; "zyme"]%string [xa0; x80] [x00; x00]).
  - reflexivity.
  - vm_compute. reflexivity.
  - cbn [List.length]. lia.
Defined.

(** ** Trimming a line of an alias file *)

Lemma decompose_at_blanks (text : string) :
  exists lead core trail,
    text = (lead ++ core ++ trail)%string
    /\ all_blank lead = true /\ all_blank trail = true
    /\ no_blank_at_ends core = true.
Proof.
  induction text as [| a s (lead & core & trail & Hs & Hlead & Htrail & Hcore)].
  - exists EmptyString, EmptyString, EmptyString. repeat split; reflexivity.
  - destruct (is_blank a) eqn:Ha.
    + exists (String a lead), core, trail. rewrite Hs. repeat split; try assumption.
      unfold all_blank. cbn [list_ascii_of_string forallb]. rewrite Ha. exact Hlead.
    + destruct core as [| c core].
      * exists EmptyString, (String a EmptyString), (lead ++ trail)%string.
        rewrite Hs. repeat split.
        -- unfold all_blank in *. clear Hs Hcore.
           induction lead as [| x lead IH]; cbn [append list_ascii_of_string forallb] in *.
           ++ exact Htrail.
           ++ apply andb_true_iff in Hlead. destruct Hlead as [Hx Hlead].
              rewrite Hx. apply IH. exact Hlead.
        -- unfold no_blank_at_ends. cbn [head_char last_char]. rewrite Ha. reflexivity.
      * exists EmptyString, (String a (lead ++ String c core))%string, trail.
        rewrite Hs. cbn [append]. repeat split; [| exact Htrail |].
        -- f_equal. rewrite string_append_assoc. reflexivity.
        -- unfold no_blank_at_ends in *. cbn [head_char] in *.
           assert (Hlast : last_char (String a (lead ++ String c core))
                           = last_char (String c core)).
           { clear. generalize a. induction lead as [| x lead IH]; intros a0.
             - reflexivity.
             - cbn [append]. change (last_char (String a0 (String x (lead ++ String c core))))
                 with (last_char (String x (lead ++ String c core))).
               apply IH. }
           rewrite Hlast. destruct (last_char (String c core)) as [b |]; [| reflexivity].
           rewrite Ha. apply andb_true_iff in Hcore. destruct Hcore as [_ Hb].
           rewrite Hb. reflexivity.
Qed.

Lemma find_first_none (p : ascii -> bool) (s : string) (k : nat) :
  Forall (fun a => p a = false) (list_ascii_of_string s) ->
  AliasReader.find_first p s k = None.
Proof.
  revert k. induction s as [| a s IH]; intros k H; [reflexivity |].
  cbn [list_ascii_of_string AliasReader.find_first] in *.
  inversion H as [| ? ? Ha Hs]; subst. rewrite Ha. apply IH. exact Hs.
Qed.

Lemma find_first_skip (p : ascii -> bool) (lead s : string) (k : nat) :
  Forall (fun a => p a = false) (list_ascii_of_string lead) ->
  AliasReader.find_first p (lead ++ s) k
  = AliasReader.find_first p s (k + String.length lead).
Proof.
  revert k. induction lead as [| a lead IH]; intros k H.
  - cbn [append String.length]. rewrite Nat.add_0_r. reflexivity.
  - cbn [append list_ascii_of_string AliasReader.find_first String.length] in *.
    inversion H as [| ? ? Ha Hs]; subst. rewrite Ha, IH by exact Hs.
    f_equal. lia.
Qed.

Lemma find_last_none (p : ascii -> bool) (s : string) (k : nat) :
  Forall (fun a => p a = false) (list_ascii_of_string s) ->
  AliasReader.find_last p s k = None.
Proof.
  revert k. induction s as [| a s IH]; intros k H; [reflexivity |].
  cbn [list_ascii_of_string AliasReader.find_last] in *.
  inversion H as [| ? ? Ha Hs]; subst. rewrite IH by exact Hs. rewrite Ha. reflexivity.
Qed.

Lemma find_last_before (p : ascii -> bool) (s trail : string) (k : nat) :
  Forall (fun a => p a = false) (list_ascii_of_string trail) ->
  AliasReader.find_last p (s ++ trail) k = AliasReader.find_last p s k.
Proof.
  intros H. revert k. induction s as [| a s IH]; intros k.
  - cbn [append]. rewrite find_last_none by exact H. reflexivity.
  - cbn [append AliasReader.find_last]. rewrite IH. reflexivity.
Qed.

Lemma find_last_snoc (p : ascii -> bool) (init : string) (b : ascii) (k : nat) :
  p b = true ->
  AliasReader.find_last p (init ++ String b EmptyString) k
  = Some (k + String.length init)%nat.
Proof.
  intros Hb. revert k. induction init as [| a init IH]; intros k.
  - cbn [append AliasReader.find_last String.length]. rewrite Hb, Nat.add_0_r. reflexivity.
  - cbn [append AliasReader.find_last String.length]. rewrite IH. f_equal. lia.
Qed.

Lemma find_last_skip (p : ascii -> bool) (lead s : string) (k j : nat) :
  AliasReader.find_last p s (k + String.length lead) = Some j ->
  AliasReader.find_last p (lead ++ s) k = Some j.
Proof.
  revert k. induction lead as [| a lead IH]; intros k H.
  - cbn [append String.length] in *. rewrite Nat.add_0_r in H. exact H.
  - cbn [append AliasReader.find_last String.length] in *.
    rewrite (IH (S k)); [reflexivity |].
    rewrite <- H. f_equal. lia.
Qed.

Lemma last_char_snoc (s : string) (b : ascii) :
  last_char s = Some b -> exists init, s = (init ++ String b EmptyString)%string.
Proof.
  induction s as [| a s IH]; [discriminate |].
  destruct s as [| a' s].
  - cbn [last_char]. intros [= ->]. exists EmptyString. reflexivity.
  - change (last_char (String a (String a' s))) with (last_char (String a' s)).
    intros H. destruct (IH H) as (init & Hinit). exists (String a init).
    cbn [append]. rewrite <- Hinit. reflexivity.
Qed.

Lemma last_char_some (s : string) (a : ascii) : last_char (String a s) <> None.
Proof.
  revert a. induction s as [| a' s IH]; intros a; [discriminate |].
  change (last_char (String a (String a' s))) with (last_char (String a' s)).
  apply IH.
Qed.

Lemma all_blank_Forall (s : string) :
  all_blank s = true ->
  Forall (fun a => negb (AliasReader.one_of AliasReader.blanks a) = false)
         (list_ascii_of_string s).
Proof.
  unfold all_blank. rewrite forallb_forall, Forall_forall.
  intros H a Hin. specialize (H a Hin). unfold is_blank in H. rewrite H. reflexivity.
Qed.

(** [Trim] returns the middle of a text that is cut at its blanks. *)
Lemma Trim_of_decomposition (lead core trail : string) :
  all_blank lead = true -> all_blank trail = true -> no_blank_at_ends core = true ->
  Z.of_nat (String.length (lead ++ core ++ trail)) <= string_max_size ->
  AliasReader.Trim (lead ++ core ++ trail) = inr core.
Proof.
  intros Hlead Htrail Hcore Hsize.
  apply all_blank_Forall in Hlead. apply all_blank_Forall in Htrail.
  unfold AliasReader.Trim. cbv zeta.
  rewrite find_first_skip by exact Hlead. cbn [Nat.add].
  destruct core as [| a core'].
  - cbn [append]. rewrite find_first_none by exact Htrail. reflexivity.
  - unfold no_blank_at_ends in Hcore. cbn [head_char] in Hcore.
    destruct (last_char (String a core')) as [b |] eqn:Hlast;
      [| exfalso; exact (last_char_some _ _ Hlast)].
    apply andb_true_iff in Hcore. destruct Hcore as [Ha Hb].
    destruct (last_char_snoc _ _ Hlast) as (init & Hinit).
    unfold is_blank in Ha, Hb.
    cbn [append AliasReader.find_first]. rewrite Ha.
    rewrite !string_length_append in Hsize. unfold string_max_size in Hsize.
    assert (Hcorelen : String.length (String a core') = S (String.length init)).
    { rewrite Hinit, string_length_append. cbn [String.length]. lia. }
    unfold AliasReader.position at 1. unfold AliasReader.npos.
    replace (Z.of_nat (String.length lead) =? 2 ^ 64 - 1) with false
      by (symmetry; apply Z.eqb_neq; lia).
    rewrite (find_last_skip _ lead (String a core' ++ trail) 0
               (String.length lead + String.length init)).
    2:{ rewrite find_last_before by exact Htrail.
        rewrite Hinit. apply find_last_snoc. exact Hb. }
    unfold AliasReader.position, AliasReader.substr. cbv zeta.
    change (String a (core' ++ trail)) with (String a core' ++ trail)%string.
    rewrite !string_length_append, Hcorelen.
    replace (_ <? _) with false by (symmetry; apply Z.ltb_ge; lia).
    f_equal.
    replace (uint64 _) with (Z.of_nat (S (String.length init)))
      by (unfold uint64; rewrite Z.mod_small by lia; lia).
    rewrite Z.min_l by lia. rewrite !Nat2Z.id.
    rewrite substring_after. rewrite <- Hcorelen. apply substring_before.
Qed.

(** X21. [Trim] removes the blanks at both ends and nothing else: every
    text is a run of blanks, a middle that neither starts nor ends with a
    blank, and a run of blanks; [Trim] returns that middle, whichever way
    the text is cut like this, and [substr] never throws in it. *)
Theorem Trim_removes_blanks_at_both_ends (text : string) :
  Z.of_nat (String.length text) <= string_max_size ->
  (exists lead core trail,
      text = (lead ++ core ++ trail)%string
      /\ all_blank lead = true /\ all_blank trail = true
      /\ no_blank_at_ends core = true
      /\ AliasReader.Trim text = inr core)
  /\ (forall lead core trail,
         text = (lead ++ core ++ trail)%string ->
         all_blank lead = true -> all_blank trail = true ->
         no_blank_at_ends core = true ->
         AliasReader.Trim text = inr core).
Proof.
  intros Hsize. split.
  - destruct (decompose_at_blanks text) as (lead & core & trail & Ht & Hl & Htr & Hc).
    exists lead, core, trail. repeat split; try assumption.
    subst text. apply Trim_of_decomposition; assumption.
  - intros lead core trail -> Hl Htr Hc. apply Trim_of_decomposition; assumption.
Qed.

Lemma Trim_removes_blanks_at_both_ends_example :
  AliasReader.Trim
    (String AliasReader.tab "  " ++ "TITLE my db" ++ String AliasReader.carriage_return " ")
  = inr "TITLE my db"%string.
Proof.
  refine (proj2 (Trim_removes_blanks_at_both_ends
                   (String AliasReader.tab "  " ++ "TITLE my db"
                    ++ String AliasReader.carriage_return " ") _)
                (String AliasReader.tab "  ") "TITLE my db"%string
                (String AliasReader.carriage_return " ")
                eq_refl eq_refl eq_refl eq_refl).
  vm_compute. discriminate.
Defined.

(** ** Splitting at white space *)

Lemma skip_space_spec (input : string) :
  exists w,
    input = (w ++ AliasReader.skip_space input)%string /\ all_space w = true
    /\ match AliasReader.skip_space input with
       | EmptyString => True
       | String a _ => AliasReader.isspace a = false
       end.
Proof.
  induction input as [| a s (w & Hs & Hw & Hhead)].
  - exists EmptyString. repeat split.
  - cbn [AliasReader.skip_space]. destruct (AliasReader.isspace a) eqn:Ha.
    + exists (String a w). cbn [append]. rewrite <- Hs. repeat split; [| exact Hhead].
      unfold all_space. cbn [list_ascii_of_string forallb]. rewrite Ha. exact Hw.
    + exists EmptyString. repeat split. exact Ha.
Qed.

Lemma take_token_spec (input : string) :
  input = (fst (AliasReader.take_token input) ++ snd (AliasReader.take_token input))%string
  /\ forallb (fun a => negb (AliasReader.isspace a))
       (list_ascii_of_string (fst (AliasReader.take_token input))) = true
  /\ match snd (AliasReader.take_token input) with
     | EmptyString => True
     | String a _ => AliasReader.isspace a = true
     end.
Proof.
  induction input as [| a s (Hs & Hword & Hrest)].
  - repeat split.
  - cbn [AliasReader.take_token]. destruct (AliasReader.isspace a) eqn:Ha.
    + cbn [fst snd append list_ascii_of_string forallb]. repeat split. exact Ha.
    + destruct (AliasReader.take_token s) as [t r]. cbn [fst snd] in *.
      cbn [append list_ascii_of_string forallb]. rewrite Ha, <- Hs.
      repeat split; assumption.
Qed.

Lemma extract_token_spec (input token rest : string) :
  AliasReader.extract_token input = Some (token, rest) ->
  is_word token = true
  /\ (String.length rest < String.length input)%nat
  /\ exists w, input = (w ++ token ++ rest)%string /\ all_space w = true.
Proof.
  unfold AliasReader.extract_token.
  destruct (skip_space_spec input) as (w & Hinput & Hw & Hhead).
  destruct (AliasReader.skip_space input) as [| a s] eqn:Hskip; [discriminate |].
  intros H.
  assert (Htake : AliasReader.take_token (String a s) = (token, rest)) by congruence.
  clear H.
  destruct (take_token_spec (String a s)) as (Hs & Hword & _).
  rewrite Htake in Hs, Hword. cbn [fst snd] in Hs, Hword.
  assert (Hne : token <> EmptyString).
  { intros ->. cbn [AliasReader.take_token] in Htake. rewrite Hhead in Htake.
    destruct (AliasReader.take_token s). discriminate. }
  split; [| split].
  - unfold is_word. rewrite Hword. destruct token; [contradiction | reflexivity].
  - rewrite Hinput, Hs, !string_length_append.
    destruct token; [contradiction | cbn [String.length]; lia].
  - exists w. rewrite Hinput at 1. rewrite Hs. split; [reflexivity | exact Hw].
Qed.

Lemma extract_token_none (input : string) :
  AliasReader.extract_token input = None -> all_space input = true.
Proof.
  unfold AliasReader.extract_token.
  destruct (skip_space_spec input) as (w & Hinput & Hw & _).
  destruct (AliasReader.skip_space input); [| discriminate].
  intros _. rewrite Hinput, append_empty. exact Hw.
Qed.

(** With fuel above the length of the text the loop ends, and it has
    taken words only. *)
Lemma SplitWhitespace_loop_ends (fuel : nat) :
  forall (input : string) (parts : list string),
    (String.length input < fuel)%nat ->
    exists words,
      AliasReader.SplitWhitespace_loop fuel input parts = Some (parts ++ words)
      /\ forallb is_word words = true.
Proof.
  induction fuel as [| fuel IH]; intros input parts Hfuel; [lia |].
  cbn [AliasReader.SplitWhitespace_loop].
  destruct (AliasReader.extract_token input) as [[token rest] |] eqn:Hex.
  - destruct (extract_token_spec _ _ _ Hex) as (Hword & Hlen & _).
    destruct (IH rest (parts ++ [token]) ltac:(lia)) as (words & Hloop & Hwords).
    exists (token :: words). rewrite Hloop, <- app_assoc. cbn [app forallb].
    rewrite Hword, Hwords. split; reflexivity.
  - exists []. rewrite app_nil_r. split; reflexivity.
Qed.

Lemma skip_space_app (w s : string) :
  all_space w = true -> AliasReader.skip_space (w ++ s) = AliasReader.skip_space s.
Proof.
  unfold all_space. induction w as [| a w IH]; intros Hw; [reflexivity |].
  cbn [list_ascii_of_string forallb append AliasReader.skip_space] in *.
  apply andb_true_iff in Hw. destruct Hw as [Ha Hw]. rewrite Ha. apply IH. exact Hw.
Qed.

Lemma take_token_word (t rest : string) :
  forallb (fun a => negb (AliasReader.isspace a)) (list_ascii_of_string t) = true ->
  match rest with
  | EmptyString => True
  | String a _ => AliasReader.isspace a = true
  end ->
  AliasReader.take_token (t ++ rest) = (t, rest).
Proof.
  intros Ht Hrest. induction t as [| a t IH].
  - cbn [append]. destruct rest as [| b rest]; [reflexivity |].
    cbn [AliasReader.take_token]. rewrite Hrest. reflexivity.
  - cbn [list_ascii_of_string forallb append AliasReader.take_token] in *.
    apply andb_true_iff in Ht. destruct Ht as [Ha Ht].
    apply negb_true_iff in Ha. rewrite Ha, (IH Ht). reflexivity.
Qed.

Lemma extract_token_piece (w t rest : string) :
  all_space w = true -> is_word t = true ->
  match rest with
  | EmptyString => True
  | String a _ => AliasReader.isspace a = true
  end ->
  AliasReader.extract_token (w ++ t ++ rest) = Some (t, rest).
Proof.
  intros Hw Ht Hrest. unfold AliasReader.extract_token.
  rewrite skip_space_app by exact Hw.
  unfold is_word in Ht. apply andb_true_iff in Ht. destruct Ht as [Hne Ht].
  destruct t as [| a t]; [discriminate |].
  cbn [list_ascii_of_string forallb] in Ht.
  pose proof Ht as Hat. apply andb_true_iff in Hat. destruct Hat as [Ha _].
  apply negb_true_iff in Ha.
  cbn [append AliasReader.skip_space]. rewrite Ha.
  change (String a (t ++ rest)) with (String a t ++ rest)%string.
  rewrite take_token_word by assumption. reflexivity.
Qed.

Lemma spaced_starts_with_space (pieces : list (string * string)) (trail : string) :
  forallb (fun p => all_space (fst p) && is_word (snd p)) pieces = true ->
  forallb (fun p => negb (empty (fst p))) pieces = true ->
  all_space trail = true ->
  match spaced pieces trail with
  | EmptyString => True
  | String a _ => AliasReader.isspace a = true
  end.
Proof.
  intros Hpieces Hsep Htrail. destruct pieces as [| [w t] pieces].
  - cbn [spaced]. unfold all_space in Htrail. destruct trail as [| a trail]; [exact I |].
    cbn [list_ascii_of_string forallb] in Htrail.
    apply andb_true_iff in Htrail. apply Htrail.
  - cbn [spaced forallb fst snd] in *.
    apply andb_true_iff in Hsep. destruct Hsep as [Hw _].
    apply andb_true_iff in Hpieces. destruct Hpieces as [Hp _].
    apply andb_true_iff in Hp. destruct Hp as [Hspace _].
    destruct w as [| a w]; [discriminate |].
    unfold all_space in Hspace. cbn [list_ascii_of_string forallb append] in *.
    apply andb_true_iff in Hspace. apply Hspace.
Qed.

Lemma SplitWhitespace_loop_spaced (trail : string) (pieces : list (string * string)) :
  forall (fuel : nat) (parts : list string),
    forallb (fun p => all_space (fst p) && is_word (snd p)) pieces = true ->
    forallb (fun p => negb (empty (fst p))) (tl pieces) = true ->
    all_space trail = true ->
    (List.length pieces < fuel)%nat ->
    AliasReader.SplitWhitespace_loop fuel (spaced pieces trail) parts
    = Some (parts ++ map snd pieces).
Proof.
  induction pieces as [| [w t] pieces IH]; intros fuel parts Hpieces Hsep Htrail Hfuel;
    (destruct fuel as [| fuel]; [cbn [List.length] in Hfuel; lia |]);
    cbn [AliasReader.SplitWhitespace_loop spaced].
  - destruct (AliasReader.extract_token trail) as [[token rest] |] eqn:Hex.
    + exfalso. destruct (extract_token_spec _ _ _ Hex) as (Hword & _ & w & Ht & Hw).
      unfold is_word in Hword. apply andb_true_iff in Hword. destruct Hword as [Hne Hword].
      destruct token as [| a token]; [discriminate |].
      cbn [list_ascii_of_string forallb] in Hword.
      apply andb_true_iff in Hword. destruct Hword as [Ha _].
      apply negb_true_iff in Ha.
      unfold all_space in Htrail. rewrite forallb_forall in Htrail.
      assert (Hin : In a (list_ascii_of_string trail)).
      { rewrite Ht. clear. induction w as [| x w IH]; cbn; [left; reflexivity | right; exact IH]. }
      rewrite (Htrail a Hin) in Ha. discriminate.
    + rewrite app_nil_r. reflexivity.
  - cbn [forallb fst snd tl List.length] in *.
    apply andb_true_iff in Hpieces. destruct Hpieces as [Hp Hpieces].
    apply andb_true_iff in Hp. destruct Hp as [Hw Ht].
    rewrite (extract_token_piece w t _ Hw Ht
               (spaced_starts_with_space pieces trail Hpieces Hsep Htrail)).
    rewrite IH; try assumption; try lia.
    + rewrite <- app_assoc. reflexivity.
    + destruct pieces as [| p pieces]; [reflexivity |].
      cbn [tl forallb] in *. apply andb_true_iff in Hsep. apply Hsep.
Qed.

Lemma length_spaced (pieces : list (string * string)) (trail : string) :
  forallb (fun p => all_space (fst p) && is_word (snd p)) pieces = true ->
  (List.length pieces <= String.length (spaced pieces trail))%nat.
Proof.
  induction pieces as [| [w t] pieces IH]; intros H; cbn [List.length spaced]; [lia |].
  cbn [forallb fst snd] in H. apply andb_true_iff in H. destruct H as [Hp H].
  apply andb_true_iff in Hp. destruct Hp as [_ Ht].
  unfold is_word in Ht. apply andb_true_iff in Ht. destruct Ht as [Hne _].
  specialize (IH H). rewrite !string_length_append.
  destruct t; [discriminate | cbn [String.length]; lia].
Qed.

(** X22. [SplitWhitespace] returns the words of a text: with fuel above the
    length of the text it ends, and what it returns are words, each with at
    least one character and without white space; for a text that is white
    space and words in turn, it returns exactly these words, in order. *)
Theorem SplitWhitespace_returns_the_words (fuel : nat) (text : string) :
  (String.length text < fuel)%nat ->
  (exists words,
      AliasReader.SplitWhitespace fuel text = Some words
      /\ forallb is_word words = true)
  /\ (forall pieces trail,
         text = spaced pieces trail -> well_spaced pieces trail = true ->
         AliasReader.SplitWhitespace fuel text = Some (map snd pieces)).
Proof.
  intros Hfuel. split.
  - destruct (SplitWhitespace_loop_ends fuel text [] Hfuel) as (words & Hloop & Hwords).
    exists words. split; [exact Hloop | exact Hwords].
  - intros pieces trail -> Hwell. unfold well_spaced in Hwell.
    rewrite !andb_true_iff in Hwell. destruct Hwell as ((Hpieces & Hsep) & Htrail).
    pose proof (length_spaced pieces trail Hpieces) as Hlen.
    unfold AliasReader.SplitWhitespace.
    rewrite SplitWhitespace_loop_spaced; try assumption; [reflexivity | lia].
Qed.

Lemma SplitWhitespace_returns_the_words_example :
  AliasReader.SplitWhitespace 16
    (spaced [(" ", "nr.00"); (String AliasReader.tab " ", "nr.01")]%string " ")
  = Some (map snd [(" ", "nr.00"); (String AliasReader.tab " ", "nr.01")]%string).
Proof.
  refine (proj2 (SplitWhitespace_returns_the_words 16
                   (spaced [(" ", "nr.00"); (String AliasReader.tab " ", "nr.01")]%string " ")
                   _)
                [(" ", "nr.00"); (String AliasReader.tab " ", "nr.01")]%string " "%string
                eq_refl eq_refl).
  vm_compute. lia.
Defined.

(** ** The lines of an alias file *)

Lemma chars_append (a b : string) :
  list_ascii_of_string (a ++ b) = list_ascii_of_string a ++ list_ascii_of_string b.
Proof.
  induction a as [| c a IH]; cbn [append list_ascii_of_string app];
    [reflexivity | rewrite IH; reflexivity].
Qed.

Lemma find_first_some (p : ascii -> bool) (text : string) :
  forall (k i : nat),
    AliasReader.find_first p text k = Some i ->
    exists pre a post,
      text = (pre ++ String a post)%string /\ i = (k + String.length pre)%nat
      /\ Forall (fun c => p c = false) (list_ascii_of_string pre) /\ p a = true.
Proof.
  induction text as [| c text IH]; intros k i H; [discriminate |].
  cbn [AliasReader.find_first] in H. destruct (p c) eqn:Hc.
  - injection H as <-. exists EmptyString, c, text.
    cbn [append String.length list_ascii_of_string]. repeat split; [lia | constructor | exact Hc].
  - destruct (IH _ _ H) as (pre & a & post & -> & -> & Hpre & Ha).
    exists (String c pre), a, post.
    cbn [append String.length list_ascii_of_string]. repeat split; [lia | | exact Ha].
    constructor; assumption.
Qed.

Lemma find_first_none_inv (p : ascii -> bool) (text : string) (k : nat) :
  AliasReader.find_first p text k = None ->
  Forall (fun c => p c = false) (list_ascii_of_string text).
Proof.
  revert k. induction text as [| c text IH]; intros k H; [constructor |].
  cbn [AliasReader.find_first list_ascii_of_string] in *.
  destruct (p c) eqn:Hc; [discriminate |].
  constructor; [exact Hc | apply (IH _ H)].
Qed.

Lemma substr_prefix (pre post : string) :
  AliasReader.substr (pre ++ post) 0 (Z.of_nat (String.length pre)) = inr pre.
Proof.
  unfold AliasReader.substr. cbv zeta. rewrite string_length_append.
  replace (_ <? 0) with false by (symmetry; apply Z.ltb_ge; lia).
  rewrite Z.min_l by lia. rewrite Nat2Z.id. change (Z.to_nat 0) with 0%nat.
  rewrite substring_before. reflexivity.
Qed.

Lemma substr_rest (pre post : string) :
  Z.of_nat (String.length (pre ++ post)) <= string_max_size ->
  AliasReader.substr (pre ++ post) (Z.of_nat (String.length pre)) AliasReader.npos
  = inr post.
Proof.
  intros Hsize. unfold AliasReader.substr, AliasReader.npos, string_max_size in *.
  cbv zeta. rewrite string_length_append in *.
  replace (_ <? _) with false by (symmetry; apply Z.ltb_ge; lia).
  rewrite Z.min_r by lia. rewrite Nat2Z.id.
  replace (Z.to_nat _) with (String.length post) by lia.
  rewrite substring_after, substring_whole. reflexivity.
Qed.

Lemma Trim_total (text : string) :
  Z.of_nat (String.length text) <= string_max_size ->
  exists lead core trail,
    text = (lead ++ core ++ trail)%string
    /\ all_blank lead = true /\ all_blank trail = true
    /\ no_blank_at_ends core = true
    /\ AliasReader.Trim text = inr core.
Proof.
  intros Hsize.
  destruct (decompose_at_blanks text) as (lead & core & trail & Ht & Hl & Htr & Hc).
  exists lead, core, trail. repeat split; try assumption.
  subst text. apply Trim_of_decomposition; assumption.
Qed.

Lemma last_char_append (a : string) (c : ascii) (b : string) :
  last_char (a ++ String c b) = last_char (String c b).
Proof.
  induction a as [| x a IH]; [reflexivity |].
  cbn [append]. destruct (a ++ String c b)%string eqn:E.
  - destruct a; discriminate E.
  - rewrite <- E in *. rewrite <- IH.
    destruct (a ++ String c b)%string eqn:E'; [discriminate E | reflexivity].
Qed.

Lemma last_char_blank (s : string) (b : ascii) :
  all_blank s = true -> last_char s = Some b -> is_blank b = true.
Proof.
  intros Hs Hlast. destruct (last_char_snoc _ _ Hlast) as (init & ->).
  unfold all_blank in Hs. rewrite chars_append, forallb_app in Hs.
  apply andb_true_iff in Hs. destruct Hs as [_ Hb].
  cbn [list_ascii_of_string forallb] in Hb. apply andb_true_iff in Hb. apply Hb.
Qed.

Lemma has_char_append (c : ascii) (a b : string) :
  has_char c (a ++ b) = has_char c a || has_char c b.
Proof. unfold has_char. rewrite chars_append. apply existsb_app. Qed.

Lemma separator_is_blank (a : ascii) :
  AliasReader.one_of [" "%char; AliasReader.tab] a = true -> is_blank a = true.
Proof.
  unfold is_blank, AliasReader.one_of, AliasReader.blanks. cbn [existsb].
  rewrite !orb_true_iff. intros [H | [H | H]]; [auto | auto | discriminate H].
Qed.

Lemma is_key_intro (key : string) :
  key <> EmptyString ->
  Forall (fun c => AliasReader.one_of [" "%char; AliasReader.tab] c = false)
         (list_ascii_of_string key) ->
  has_char "#"%char key = false ->
  match head_char key with Some a => negb (is_blank a) | None => true end = true ->
  is_key key = true.
Proof.
  intros Hne Hsep Hhash Hhead. unfold is_key. rewrite Hhead, andb_true_r.
  apply andb_true_iff. split; [destruct key; [contradiction | reflexivity] |].
  apply forallb_forall. intros a Hin.
  rewrite Forall_forall in Hsep. specialize (Hsep a Hin).
  unfold has_char in Hhash.
  assert (Ha : Ascii.eqb "#"%char a = false).
  { destruct (Ascii.eqb "#"%char a) eqn:E; [| reflexivity].
    rewrite <- Hhash. symmetry. apply existsb_exists. exists a. split; assumption. }
  unfold AliasReader.one_of in *. cbn [existsb] in *.
  rewrite !orb_false_iff in Hsep. destruct Hsep as (H1 & H2 & _).
  rewrite H1, H2, Ascii.eqb_sym, Ha. reflexivity.
Qed.

Lemma parse_entry_cases (fuel : nat) (n : Z) (line : string)
      (info : AliasReader.AliasInfo) :
  Z.of_nat (String.length line) <= string_max_size ->
  (String.length line < fuel)%nat ->
  has_char "#"%char line = false ->
  line_outcome n info (AliasReader.parse_entry fuel n line info).
Proof.
  intros Hsize Hfuel Hhash. unfold line_outcome. unfold string_max_size in Hsize.
  destruct (Trim_total line Hsize) as (lead & core & trail & Hline & _ & _ & Hcore & HTrim).
  remember (AliasReader.parse_entry fuel n line info) as r eqn:Hr.
  unfold AliasReader.parse_entry in Hr. rewrite HTrim in Hr.
  cbn [AliasReader.may_throw AliasReader.and_then] in Hr.
  destruct core as [| c0 core']; [left; exact Hr |].
  cbn [empty] in Hr. cbv zeta in Hr.
  set (core := String c0 core') in *.
  assert (Hlen : (String.length core <= String.length line)%nat).
  { rewrite Hline, !string_length_append. lia. }
  assert (Hcorehash : has_char "#"%char core = false).
  { rewrite Hline, !has_char_append, !orb_false_iff in Hhash. apply Hhash. }
  assert (Hends : exists b, last_char core = Some b
                            /\ is_blank c0 = false /\ is_blank b = false).
  { unfold no_blank_at_ends in Hcore. cbn [head_char core] in Hcore.
    destruct (last_char core) as [b |] eqn:Hlast;
      [| exfalso; exact (last_char_some _ _ Hlast)].
    apply andb_true_iff in Hcore. destruct Hcore as [H0 Hb].
    exists b. rewrite <- !negb_true_iff. repeat split; assumption. }
  destruct Hends as (b & Hlast & Hc0 & Hb).
  destruct (AliasReader.find_first (AliasReader.one_of [" "%char; AliasReader.tab]) core 0)
    as [i |] eqn:Hsep.
  2:{ right. left. exists core. exact Hr. }
  destruct (find_first_some _ _ _ _ Hsep) as (key & sep & tail0 & Hsplit & Hi & Hkey & Hsepc).
  cbn [Nat.add] in Hi. subst i.
  assert (Hsplit' : core = ((key ++ String sep EmptyString) ++ tail0)%string).
  { rewrite Hsplit, string_append_assoc. reflexivity. }
  assert (Hcorelen : String.length core
                     = (String.length key + 1 + String.length tail0)%nat).
  { rewrite Hsplit, string_length_append. cbn [String.length]. lia. }
  assert (Hkeysub : AliasReader.substr core 0 (Z.of_nat (String.length key)) = inr key).
  { rewrite Hsplit. apply substr_prefix. }
  assert (Htailsub : AliasReader.substr core (szadd (Z.of_nat (String.length key)) 1)
                       AliasReader.npos = inr tail0).
  { rewrite szadd_small by lia.
    replace (Z.of_nat (String.length key) + 1)
      with (Z.of_nat (String.length (key ++ String sep EmptyString)))
      by (rewrite string_length_append; cbn [String.length]; lia).
    rewrite Hsplit'. apply substr_rest.
    rewrite <- Hsplit'. unfold string_max_size. lia. }
  unfold AliasReader.position in Hr.
  replace (Z.of_nat (String.length key) =? AliasReader.npos) with false in Hr
    by (symmetry; apply Z.eqb_neq; unfold AliasReader.npos; lia).
  rewrite Hkeysub, Htailsub in Hr.
  cbn [AliasReader.may_throw AliasReader.and_then] in Hr.
  destruct (Trim_total tail0 ltac:(unfold string_max_size; lia))
    as (lead' & value & trail' & Htail & Hl' & Htr' & Hvalue & HTrim').
  rewrite HTrim' in Hr. cbn [AliasReader.may_throw AliasReader.and_then] in Hr.
  assert (Hsepblank : is_blank sep = true) by (apply separator_is_blank; exact Hsepc).
  assert (Hvne : value <> EmptyString).
  { intros ->. cbn [append] in Htail.
    assert (Hall : all_blank (String sep tail0) = true).
    { unfold all_blank in *. cbn [list_ascii_of_string forallb].
      rewrite Hsepblank, Htail, chars_append, forallb_app, Hl', Htr'. reflexivity. }
    rewrite Hsplit, last_char_append in Hlast.
    rewrite (last_char_blank _ _ Hall Hlast) in Hb. discriminate. }
  assert (Hkeyhash : has_char "#"%char key = false /\ has_char "#"%char value = false).
  { rewrite Hsplit, has_char_append in Hcorehash.
    apply orb_false_iff in Hcorehash. destruct Hcorehash as [Hk Hrest].
    split; [exact Hk |].
    unfold has_char in Hrest. cbn [list_ascii_of_string existsb] in Hrest.
    apply orb_false_iff in Hrest. destruct Hrest as [_ Hrest].
    fold (has_char "#"%char tail0) in Hrest.
    rewrite Htail, !has_char_append, !orb_false_iff in Hrest. apply Hrest. }
  destruct Hkeyhash as [Hkeyhash Hvaluehash].
  assert (Hisvalue : is_value value = true).
  { unfold is_value. rewrite Hvalue, Hvaluehash.
    destruct value; [contradiction | reflexivity]. }
  assert (Hvlen : (String.length value < fuel)%nat).
  { rewrite Htail, !string_length_append in Hcorelen. lia. }
  destruct value as [| v0 value']; [contradiction |]. cbn [empty] in Hr.
  set (value := String v0 value') in *.
  destruct (String.eqb key "DBLIST") eqn:Hdb.
  - right. right. left.
    destruct (SplitWhitespace_loop_ends fuel value [] Hvlen) as (words & Hloop & Hwords).
    exists value, words. split; [exact Hisvalue | split; [exact Hwords |]].
    unfold AliasReader.SplitWhitespace in Hr. rewrite Hloop in Hr. cbn [app] in Hr.
    rewrite Hr. destruct words; reflexivity.
  - right. right. right. exists key, value.
    split; [| split; [exact Hdb | split; [exact Hisvalue | exact Hr]]].
    apply is_key_intro; try assumption.
    + intros ->. cbn [append] in Hsplit. unfold core in Hsplit.
      injection Hsplit as -> _. rewrite Hsepblank in Hc0. discriminate.
    + destruct key as [| k0 key']; [reflexivity |].
      cbn [head_char]. cbn [append] in Hsplit. unfold core in Hsplit.
      injection Hsplit as <- _. rewrite Hc0. reflexivity.
Qed.

Lemma parse_line_cases (fuel : nat) (n : Z) (line : string)
      (info : AliasReader.AliasInfo) :
  Z.of_nat (String.length line) <= string_max_size ->
  (String.length line < fuel)%nat ->
  line_outcome n info (AliasReader.parse_line fuel n line info).
Proof.
  intros Hsize Hfuel. unfold AliasReader.parse_line. cbv zeta.
  destruct (AliasReader.find_first (Ascii.eqb "#"%char) line 0) as [i |] eqn:Hhash.
  - destruct (find_first_some _ _ _ _ Hhash) as (pre & a & post & Hline & Hi & Hpre & _).
    cbn [Nat.add] in Hi. subst i.
    assert (Hlen : (String.length pre <= String.length line)%nat)
      by (rewrite Hline, string_length_append; lia).
    unfold AliasReader.position.
    replace (Z.of_nat (String.length pre) =? AliasReader.npos) with false
      by (symmetry; apply Z.eqb_neq; unfold AliasReader.npos, string_max_size in *; lia).
    cbn [negb]. rewrite Hline at 1. rewrite substr_prefix.
    cbn [AliasReader.may_throw AliasReader.and_then].
    apply parse_entry_cases; [lia | lia |].
    unfold has_char. destruct (existsb _ _) eqn:E; [| reflexivity].
    apply existsb_exists in E. destruct E as (c & Hin & Hc).
    rewrite Forall_forall in Hpre. rewrite (Hpre c Hin) in Hc. discriminate.
  - cbn [AliasReader.position]. rewrite Z.eqb_refl. cbn [negb AliasReader.and_then].
    apply parse_entry_cases; [assumption | assumption |].
    pose proof (find_first_none_inv _ _ _ Hhash) as Hnone.
    unfold has_char. destruct (existsb _ _) eqn:E; [| reflexivity].
    apply existsb_exists in E. destruct E as (c & Hin & Hc).
    rewrite Forall_forall in Hnone. rewrite (Hnone c Hin) in Hc. discriminate.
Qed.

Lemma metadata_find_none (key : string) (entries : list (string * string)) :
  AliasReader.metadata_find key entries = None -> ~ In key (map fst entries).
Proof.
  induction entries as [| [k v] entries IH]; intros H Hin; [exact Hin |].
  cbn [AliasReader.metadata_find map fst In] in *.
  destruct (String.eqb_spec k key) as [-> | Hne]; [discriminate |].
  destruct Hin as [Heq | Hin]; [contradiction | exact (IH H Hin)].
Qed.

Lemma ParseAliasFile_loop_cases (fuel : nat) (lines : list string) :
  forall (n : Z) (info : AliasReader.AliasInfo),
    Forall (fun line => Z.of_nat (String.length line) <= string_max_size
                        /\ (String.length line < fuel)%nat) lines ->
    alias_info_invariant info ->
    alias_file_outcome (AliasReader.ParseAliasFile_loop fuel lines n info).
Proof.
  induction lines as [| line lines IH]; intros n info Hlines Hinfo.
  - exact Hinfo.
  - inversion Hlines as [| ? ? (Hsize & Hfuel) Hrest]; subst.
    cbn [AliasReader.ParseAliasFile_loop]. cbv zeta.
    destruct Hinfo as (Hvols & Hnodup & Hmeta).
    destruct (parse_line_cases fuel (n +w 1) line info Hsize Hfuel)
      as [-> | [(l & ->) | [(value & words & Hvalue & Hwords & ->)
                           | (key & value & Hkey & Hdb & Hvalue & ->)]]];
      cbn [AliasReader.and_then].
    + apply IH; [exact Hrest | repeat split; assumption].
    + exists (n +w 1). left. exists l. reflexivity.
    + destruct words as [| w words]; cbn [AliasReader.and_then].
      * exists (n +w 1). right. left. reflexivity.
      * apply IH; [exact Hrest |]. repeat split; cbn [AliasReader.volumes AliasReader.metadata];
          try assumption.
        rewrite forallb_app, Hvols, Hwords. reflexivity.
    + destruct (AliasReader.metadata_find key (AliasReader.metadata info)) eqn:Hfind;
        cbn [AliasReader.and_then].
      * exists (n +w 1). right. right. exists key. reflexivity.
      * apply IH; [exact Hrest |]. repeat split; cbn [AliasReader.volumes AliasReader.metadata];
          try assumption.
        -- rewrite map_app. cbn [map fst].
           apply NoDup_app; [exact Hnodup | constructor; [intros [] | constructor] |].
           intros k Hin [<- | []]. exact (metadata_find_none _ _ Hfind Hin).
        -- rewrite forallb_app, Hmeta. cbn [forallb fst snd].
           rewrite Hkey, Hdb, Hvalue. reflexivity.
Qed.

Lemma getlines_lengths (content : string) :
  forall (line : string) (extracted : bool),
    Forall (fun l => (String.length l <= String.length line + String.length content)%nat)
           (AliasReader.getlines content line extracted).
Proof.
  induction content as [| c content IH]; intros line extracted;
    cbn [AliasReader.getlines String.length].
  - destruct extracted; repeat constructor. lia.
  - destruct (Ascii.eqb c AliasReader.line_feed).
    + constructor; [lia |].
      eapply Forall_impl; [| apply (IH EmptyString false)].
      cbn [String.length]. intros l Hl. lia.
    + eapply Forall_impl; [| apply (IH (line ++ String c EmptyString)%string true)].
      intros l Hl. rewrite string_length_append in Hl. cbn [String.length] in Hl. lia.
Qed.

Lemma ParseAliasFile_cases (fuel : nat) (path content : string) :
  Z.of_nat (String.length content) <= string_max_size ->
  (String.length content < fuel)%nat ->
  alias_file_outcome (AliasReader.ParseAliasFile fuel path (Some content)).
Proof.
  intros Hsize Hfuel. unfold AliasReader.ParseAliasFile.
  apply ParseAliasFile_loop_cases.
  - eapply Forall_impl; [| apply (getlines_lengths content EmptyString false)].
    cbn [String.length Nat.add]. intros l Hl. split; lia.
  - repeat split; cbn [AliasReader.volumes AliasReader.metadata map]; constructor.
Qed.

(** X23. On a file that it could open, [ParseAliasFile] ends, and in one of
    four ways: it returns, or it raises one of three errors, about a key
    without a value, a list of volumes without a volume, or a key that
    comes twice. It never raises the error about an empty value, and
    [substr] never throws in it. *)
Theorem ParseAliasFile_raises_one_of_three_errors (fuel : nat) (path content : string) :
  Z.of_nat (String.length content) <= string_max_size ->
  (String.length content < fuel)%nat ->
  (exists info, AliasReader.ParseAliasFile fuel path (Some content) = AliasReader.Done info)
  \/ (exists e,
         AliasReader.ParseAliasFile fuel path (Some content) = AliasReader.Raise e
         /\ alias_file_error e).
Proof.
  intros Hsize Hfuel. pose proof (ParseAliasFile_cases fuel path content Hsize Hfuel) as H.
  destruct (AliasReader.ParseAliasFile fuel path (Some content)) as [info | e |].
  - left. exists info. reflexivity.
  - right. exists e. split; [reflexivity | exact H].
  - contradiction.
Qed.

Lemma ParseAliasFile_raises_one_of_three_errors_example :
  (exists info,
      AliasReader.ParseAliasFile 32 "nr.pal" (Some (unlines ["TITLE my db"; "NSEQ"]%string))
      = AliasReader.Done info)
  \/ (exists e,
         AliasReader.ParseAliasFile 32 "nr.pal"
           (Some (unlines ["TITLE my db"; "NSEQ"]%string))
         = AliasReader.Raise e
         /\ alias_file_error e).
Proof.
  apply (ParseAliasFile_raises_one_of_three_errors 32 "nr.pal"
           (unlines ["TITLE my db"; "NSEQ"]%string)).
  - vm_compute. discriminate.
  - vm_compute. lia.
Defined.

(** X24. What [ParseAliasFile] returns is well formed: every volume is a
    word without white space; no key comes twice, none is [DBLIST], and
    each has at least one character and no blank, tab or ['#']; every value
    has at least one character, no blank at its ends and no ['#']. *)
Theorem ParseAliasFile_result_is_well_formed (fuel : nat) (path content : string)
        (info : AliasReader.AliasInfo) :
  Z.of_nat (String.length content) <= string_max_size ->
  (String.length content < fuel)%nat ->
  AliasReader.ParseAliasFile fuel path (Some content) = AliasReader.Done info ->
  alias_info_invariant info.
Proof.
  intros Hsize Hfuel Hdone.
  pose proof (ParseAliasFile_cases fuel path content Hsize Hfuel) as H.
  rewrite Hdone in H. exact H.
Qed.

Lemma ParseAliasFile_result_is_well_formed_example :
  alias_info_invariant alias_info_example.
Proof.
  apply (ParseAliasFile_result_is_well_formed 64 "nr.pal"
           (unlines ["# volumes"; "DBLIST nr.00  nr.01 # two"; "TITLE  my db ";
                     ""; "NSEQ 2"]%string)
           alias_info_example).
  - vm_compute. discriminate.
  - vm_compute. lia.
  - vm_compute. reflexivity.
Defined.

(** ** Reading an alias file that was written from its content *)

Lemma has_char_false (c : ascii) (s : string) :
  has_char c s = false ->
  Forall (fun a => Ascii.eqb c a = false) (list_ascii_of_string s).
Proof.
  unfold has_char. intros H. apply Forall_forall. intros a Hin.
  destruct (Ascii.eqb c a) eqn:E; [| reflexivity].
  rewrite <- H. symmetry. apply existsb_exists. exists a. split; assumption.
Qed.

Lemma is_value_spec (value : string) :
  is_value value = true ->
  exists v0 value' b,
    value = String v0 value' /\ last_char value = Some b
    /\ is_blank v0 = false /\ is_blank b = false
    /\ no_blank_at_ends value = true /\ has_char "#"%char value = false.
Proof.
  unfold is_value. rewrite !andb_true_iff, !negb_true_iff. intros ((Hne & Hends) & Hhash).
  destruct value as [| v0 value']; [discriminate |].
  pose proof Hends as Hends'. unfold no_blank_at_ends in Hends'. cbn [head_char] in Hends'.
  destruct (last_char (String v0 value')) as [b |] eqn:Hlast;
    [| exfalso; exact (last_char_some _ _ Hlast)].
  apply andb_true_iff in Hends'. destruct Hends' as [H0 Hb].
  apply negb_true_iff in H0. apply negb_true_iff in Hb.
  exists v0, value', b. repeat split; (reflexivity || assumption).
Qed.

Lemma is_key_spec (key : string) :
  is_key key = true ->
  exists k0 key',
    key = String k0 key' /\ is_blank k0 = false
    /\ Forall (fun c => AliasReader.one_of [" "%char; AliasReader.tab] c = false)
         (list_ascii_of_string key)
    /\ has_char "#"%char key = false.
Proof.
  unfold is_key. rewrite !andb_true_iff. intros ((Hne & Hchars) & Hhead).
  destruct key as [| k0 key']; [discriminate |].
  cbn [head_char] in Hhead. apply negb_true_iff in Hhead.
  exists k0, key'. split; [reflexivity | split; [exact Hhead |]].
  rewrite forallb_forall in Hchars. split.
  - apply Forall_forall. intros a Hin. specialize (Hchars a Hin).
    apply negb_true_iff in Hchars.
    unfold AliasReader.one_of in *. cbn [existsb] in *.
    rewrite !orb_false_iff in Hchars. destruct Hchars as (H1 & H2 & _).
    rewrite H1, H2. reflexivity.
  - unfold has_char. destruct (existsb _ _) eqn:E; [| reflexivity].
    apply existsb_exists in E. destruct E as (a & Hin & Ha).
    specialize (Hchars a Hin). apply negb_true_iff in Hchars.
    unfold AliasReader.one_of in Hchars. cbn [existsb] in Hchars.
    rewrite !orb_false_iff in Hchars. destruct Hchars as (_ & _ & H3 & _).
    rewrite Ascii.eqb_sym, Ha in H3. discriminate.
Qed.

(** A line that is a key, a blank and a value is read as this key and this
    value. *)
Lemma parse_line_key_value (fuel : nat) (n : Z) (key value : string)
      (info : AliasReader.AliasInfo) :
  is_key key = true -> is_value value = true ->
  Z.of_nat (String.length (key ++ " " ++ value)) <= string_max_size ->
  AliasReader.parse_line fuel n (key ++ " " ++ value) info
  = if String.eqb key "DBLIST"
    then
      match AliasReader.SplitWhitespace fuel value with
      | None => AliasReader.NoFuel
      | Some [] =>
          AliasReader.Raise
            (runtime_error
               ("DBLIST on line " ++ to_string n ++ " does not list any volumes")%string)
      | Some listed =>
          AliasReader.Done
            (AliasReader.mkAliasInfo (AliasReader.volumes info ++ listed)
               (AliasReader.metadata info))
      end
    else
      match AliasReader.metadata_find key (AliasReader.metadata info) with
      | Some _ =>
          AliasReader.Raise
            (runtime_error ("Duplicate key '" ++ key ++ "' on line " ++ to_string n)%string)
      | None =>
          AliasReader.Done
            (AliasReader.mkAliasInfo (AliasReader.volumes info)
               (AliasReader.metadata info ++ [(key, value)]))
      end.
Proof.
  intros Hkey Hvalue Hsize.
  destruct (is_key_spec key Hkey) as (k0 & key' & Ekey & Hk0 & Hkeysep & Hkeyhash).
  destruct (is_value_spec value Hvalue)
    as (v0 & value' & b & Evalue & Hlast & Hv0 & Hb & Hends & Hvaluehash).
  set (line := (key ++ " " ++ value)%string) in *.
  assert (Hlinelen : String.length line
                     = (String.length key + 1 + String.length value)%nat).
  { unfold line. rewrite !string_length_append. cbn [String.length]. lia. }
  unfold string_max_size in Hsize.
  assert (Hhash : AliasReader.find_first (Ascii.eqb "#"%char) line 0 = None).
  { apply find_first_none. unfold line. rewrite !chars_append.
    apply Forall_app. split; [apply has_char_false; exact Hkeyhash |].
    apply Forall_app. split; [repeat constructor | apply has_char_false; exact Hvaluehash]. }
  assert (Hlineends : no_blank_at_ends line = true).
  { unfold no_blank_at_ends, line.
    rewrite Ekey at 1. cbn [append head_char].
    rewrite last_char_append.
    replace (last_char (String " " value)) with (Some b)
      by (rewrite Evalue in *; exact (eq_sym Hlast)).
    rewrite Hk0, Hb. reflexivity. }
  assert (HTrim : AliasReader.Trim line = inr line).
  { pose proof (Trim_of_decomposition EmptyString line EmptyString eq_refl eq_refl
                  Hlineends) as H.
    cbn [append] in H. rewrite append_empty in H. apply H. unfold string_max_size. lia. }
  assert (HTrimv : AliasReader.Trim value = inr value).
  { pose proof (Trim_of_decomposition EmptyString value EmptyString eq_refl eq_refl
                  Hends) as H.
    cbn [append] in H. rewrite append_empty in H. apply H. unfold string_max_size. lia. }
  assert (Hsep : AliasReader.find_first (AliasReader.one_of [" "%char; AliasReader.tab])
                   line 0 = Some (String.length key)).
  { unfold line. rewrite find_first_skip by exact Hkeysep. reflexivity. }
  assert (Hkeysub : AliasReader.substr line 0 (Z.of_nat (String.length key)) = inr key).
  { unfold line. apply substr_prefix. }
  assert (Htailsub : AliasReader.substr line (szadd (Z.of_nat (String.length key)) 1)
                       AliasReader.npos = inr value).
  { rewrite szadd_small by lia.
    replace (Z.of_nat (String.length key) + 1)
      with (Z.of_nat (String.length (key ++ " ")))
      by (rewrite string_length_append; cbn [String.length]; lia).
    replace line with ((key ++ " ") ++ value)%string
      by (unfold line; rewrite string_append_assoc; reflexivity).
    apply substr_rest. rewrite string_append_assoc. fold line.
    unfold string_max_size. lia. }
  unfold AliasReader.parse_line. cbv zeta. rewrite Hhash.
  cbn [AliasReader.position]. rewrite Z.eqb_refl. cbn [negb AliasReader.and_then].
  unfold AliasReader.parse_entry. rewrite HTrim.
  cbn [AliasReader.may_throw AliasReader.and_then].
  replace (empty line) with false by (unfold line; rewrite Ekey; reflexivity).
  cbv zeta. rewrite Hsep. unfold AliasReader.position.
  replace (Z.of_nat (String.length key) =? AliasReader.npos) with false
    by (symmetry; apply Z.eqb_neq; unfold AliasReader.npos; lia).
  rewrite Hkeysub, Htailsub. cbn [AliasReader.may_throw AliasReader.and_then].
  rewrite HTrimv. cbn [AliasReader.may_throw AliasReader.and_then].
  replace (empty value) with false by (rewrite Evalue; reflexivity).
  reflexivity.
Qed.

Lemma getlines_line (l rest acc : string) (extracted : bool) :
  has_char AliasReader.line_feed l = false ->
  AliasReader.getlines (l ++ String AliasReader.line_feed rest) acc extracted
  = (acc ++ l)%string :: AliasReader.getlines rest EmptyString false.
Proof.
  revert acc extracted. induction l as [| c l IH]; intros acc extracted Hl.
  - cbn [append AliasReader.getlines]. rewrite Ascii.eqb_refl, append_empty. reflexivity.
  - unfold has_char in Hl. cbn [list_ascii_of_string existsb] in Hl.
    apply orb_false_iff in Hl. destruct Hl as [Hc Hl].
    cbn [append AliasReader.getlines]. rewrite Ascii.eqb_sym, Hc.
    rewrite IH by exact Hl. rewrite append_snoc. reflexivity.
Qed.

Lemma getlines_unlines (lines : list string) :
  forallb (fun l => negb (has_char AliasReader.line_feed l)) lines = true ->
  AliasReader.getlines (unlines lines) EmptyString false = lines.
Proof.
  induction lines as [| l lines IH]; intros H; [reflexivity |].
  cbn [forallb unlines] in *. apply andb_true_iff in H. destruct H as [Hl H].
  apply negb_true_iff in Hl.
  rewrite getlines_line by exact Hl. cbn [append]. rewrite IH by exact H. reflexivity.
Qed.

Lemma concat_spaced (v : string) (vs : list string) :
  String.concat " " (v :: vs)
  = spaced (("", v) :: map (fun t => (" ", t)) vs)%string EmptyString.
Proof.
  revert v. induction vs as [| v' vs IH]; intros v.
  - cbn [String.concat map spaced append]. rewrite append_empty. reflexivity.
  - change (String.concat " " (v :: v' :: vs))
      with (v ++ " " ++ String.concat " " (v' :: vs))%string.
    rewrite IH. cbn [map spaced append]. reflexivity.
Qed.

Lemma blank_is_space (a : ascii) : is_blank a = true -> AliasReader.isspace a = true.
Proof.
  unfold is_blank, AliasReader.isspace, AliasReader.one_of, AliasReader.blanks.
  cbn [existsb]. rewrite !orb_true_iff.
  intros [H | [H | [H | [H | H]]]]; [auto 10 | auto 10 | auto 10 | auto 10 | discriminate H].
Qed.

Lemma word_spec (v : string) :
  is_word v = true ->
  exists a v' b,
    v = String a v' /\ last_char v = Some b
    /\ is_blank a = false /\ is_blank b = false.
Proof.
  unfold is_word. rewrite andb_true_iff. intros [Hne Hchars].
  destruct v as [| a v']; [discriminate |].
  destruct (last_char (String a v')) as [b |] eqn:Hlast;
    [| exfalso; exact (last_char_some _ _ Hlast)].
  exists a, v', b. rewrite forallb_forall in Hchars.
  assert (Hnb : forall c, In c (list_ascii_of_string (String a v')) -> is_blank c = false).
  { intros c Hin. specialize (Hchars c Hin). apply negb_true_iff in Hchars.
    destruct (is_blank c) eqn:E; [| reflexivity].
    rewrite (blank_is_space c E) in Hchars. discriminate. }
  repeat split.
  - apply Hnb. left. reflexivity.
  - apply Hnb. destruct (last_char_snoc _ _ Hlast) as (init & ->).
    rewrite chars_append. apply in_or_app. right. left. reflexivity.
Qed.

(** The volumes on a line, with a blank between them, make a value. *)
Lemma is_value_concat (vs : list string) :
  forall v,
    forallb (fun v => is_word v && negb (has_char "#"%char v)) (v :: vs) = true ->
    is_value (String.concat " " (v :: vs)) = true.
Proof.
  induction vs as [| v' vs IH]; intros v H.
  - cbn [forallb] in H. rewrite andb_true_r in H.
    apply andb_true_iff in H. destruct H as [Hword Hhash].
    destruct (word_spec v Hword) as (a & w & b & -> & Hlast & Ha & Hb).
    cbn [String.concat]. unfold is_value, no_blank_at_ends.
    rewrite Hlast, Hhash. cbn [empty head_char negb]. rewrite Ha, Hb. reflexivity.
  - cbn [forallb] in H. apply andb_true_iff in H. destruct H as [Hv H].
    specialize (IH v' H).
    apply andb_true_iff in Hv. destruct Hv as [Hword Hhash].
    apply negb_true_iff in Hhash.
    destruct (word_spec v Hword) as (a & w & b & -> & _ & Ha & _).
    destruct (is_value_spec _ IH) as (r0 & r' & rb & Er & Hrlast & _ & Hrb & _ & Hrhash).
    change (String.concat " " (String a w :: v' :: vs))
      with (String a w ++ " " ++ String.concat " " (v' :: vs))%string.
    unfold is_value, no_blank_at_ends.
    rewrite !has_char_append, Hhash, Hrhash.
    cbn [append empty head_char negb].
    change (String a (w ++ String " " (String.concat " " (v' :: vs))))
      with (String a w ++ String " " (String.concat " " (v' :: vs)))%string.
    rewrite last_char_append.
    replace (last_char (String " " (String.concat " " (v' :: vs)))) with (Some rb)
      by (rewrite Er in *; exact (eq_sym Hrlast)).
    rewrite Ha, Hrb. reflexivity.
Qed.

Lemma parse_line_volumes (fuel : nat) (n : Z) (v : string) (vs : list string)
      (info : AliasReader.AliasInfo) :
  forallb (fun v => is_word v && negb (has_char "#"%char v)) (v :: vs) = true ->
  Z.of_nat (String.length (volumes_line (v :: vs))) <= string_max_size ->
  (List.length (v :: vs) < fuel)%nat ->
  AliasReader.parse_line fuel n (volumes_line (v :: vs)) info
  = AliasReader.Done
      (AliasReader.mkAliasInfo (AliasReader.volumes info ++ v :: vs)
         (AliasReader.metadata info)).
Proof.
  intros Hvs Hsize Hfuel.
  change (volumes_line (v :: vs))
    with ("DBLIST" ++ " " ++ String.concat " " (v :: vs))%string in *.
  rewrite (parse_line_key_value fuel n "DBLIST" _ info eq_refl (is_value_concat vs v Hvs) Hsize).
  change (String.eqb "DBLIST" "DBLIST") with true. cbv iota.
  unfold AliasReader.SplitWhitespace. rewrite concat_spaced.
  rewrite SplitWhitespace_loop_spaced.
  - cbn [app map snd]. rewrite map_map. cbn [snd]. rewrite map_id. reflexivity.
  - rewrite forallb_forall in Hvs. apply forallb_forall. intros p [<- | Hin].
    + cbn [fst snd]. specialize (Hvs v (or_introl eq_refl)).
      apply andb_true_iff in Hvs. destruct Hvs as [Hw _]. rewrite Hw. reflexivity.
    + apply in_map_iff in Hin. destruct Hin as (t & <- & Ht). cbn [fst snd].
      specialize (Hvs t (or_intror Ht)).
      apply andb_true_iff in Hvs. destruct Hvs as [Hw _]. rewrite Hw. reflexivity.
  - cbn [tl]. apply forallb_forall. intros p Hin.
    apply in_map_iff in Hin. destruct Hin as (t & <- & _). reflexivity.
  - reflexivity.
  - cbn [List.length] in *. rewrite length_map. lia.
Qed.

Lemma metadata_find_not_in (key : string) (entries : list (string * string)) :
  ~ In key (map fst entries) -> AliasReader.metadata_find key entries = None.
Proof.
  induction entries as [| [k v] entries IH]; intros H; [reflexivity |].
  cbn [AliasReader.metadata_find map fst In] in *.
  destruct (String.eqb_spec k key) as [-> | Hne]; [exfalso; apply H; left; reflexivity |].
  apply IH. intros Hin. apply H. right. exact Hin.
Qed.

Lemma distinct_NoDup (keys : list string) : distinct keys = true -> NoDup keys.
Proof.
  induction keys as [| k keys IH]; intros H; constructor;
    cbn [distinct] in H; apply andb_true_iff in H; destruct H as [Hk H].
  - intros Hin.
    assert (E : existsb (String.eqb k) keys = true)
      by (apply existsb_exists; exists k; split; [exact Hin | apply String.eqb_refl]).
    rewrite E in Hk. discriminate.
  - apply IH. exact H.
Qed.

Lemma ParseAliasFile_loop_entries (fuel : nat) (entries : list (string * string)) :
  forall (n : Z) (info : AliasReader.AliasInfo),
    forallb (fun entry =>
               is_key (fst entry) && negb (String.eqb (fst entry) "DBLIST")
               && is_value (snd entry)) entries = true ->
    NoDup (map fst (AliasReader.metadata info ++ entries)) ->
    Forall (fun entry => Z.of_nat (String.length (entry_line entry)) <= string_max_size)
           entries ->
    AliasReader.ParseAliasFile_loop fuel (map entry_line entries) n info
    = AliasReader.Done
        (AliasReader.mkAliasInfo (AliasReader.volumes info)
           (AliasReader.metadata info ++ entries)).
Proof.
  induction entries as [| [key value] entries IH]; intros n info Hok Hnodup Hsizes.
  - cbn [map AliasReader.ParseAliasFile_loop]. rewrite app_nil_r. destruct info; reflexivity.
  - cbn [forallb fst snd] in Hok. rewrite !andb_true_iff in Hok.
    destruct Hok as (((Hkey & Hdb) & Hvalue) & Hok). apply negb_true_iff in Hdb.
    inversion Hsizes as [| ? ? Hsize Hrest]; subst.
    cbn [map AliasReader.ParseAliasFile_loop]. cbv zeta.
    unfold entry_line at 1. cbn [fst snd].
    rewrite (parse_line_key_value fuel _ key value info Hkey Hvalue Hsize), Hdb.
    rewrite metadata_find_not_in.
    + cbn [AliasReader.and_then].
      rewrite IH; cbn [AliasReader.volumes AliasReader.metadata].
      * rewrite <- app_assoc. reflexivity.
      * exact Hok.
      * rewrite <- app_assoc. exact Hnodup.
      * exact Hrest.
    + rewrite map_app in Hnodup. cbn [map fst] in Hnodup.
      apply NoDup_remove_2 in Hnodup. intros Hin. apply Hnodup.
      apply in_or_app. left. exact Hin.
Qed.

Lemma length_unlines (lines : list string) :
  Forall (fun l => (String.length l < String.length (unlines lines))%nat) lines.
Proof.
  induction lines as [| l lines IH]; constructor; cbn [unlines];
    rewrite string_length_append; cbn [String.length]; [lia |].
  eapply Forall_impl; [| exact IH]. cbn beta. intros x Hx. lia.
Qed.

Lemma word_has_no_line_feed (v : string) :
  is_word v = true -> has_char AliasReader.line_feed v = false.
Proof.
  unfold is_word, has_char. rewrite andb_true_iff. intros [_ H].
  rewrite forallb_forall in H.
  destruct (existsb _ _) eqn:E; [| reflexivity].
  apply existsb_exists in E. destruct E as (a & Hin & Ha).
  apply Ascii.eqb_eq in Ha. subst a. specialize (H _ Hin). discriminate H.
Qed.

Lemma concat_has_no_line_feed (vs : list string) :
  forall v,
    forallb (fun v => is_word v && negb (has_char "#"%char v)) (v :: vs) = true ->
    has_char AliasReader.line_feed (String.concat " " (v :: vs)) = false.
Proof.
  induction vs as [| v' vs IH]; intros v H; cbn [forallb] in H;
    apply andb_true_iff in H; destruct H as [Hv H];
    apply andb_true_iff in Hv; destruct Hv as [Hword _].
  - cbn [String.concat]. apply word_has_no_line_feed. exact Hword.
  - change (String.concat " " (v :: v' :: vs))
      with (v ++ " " ++ String.concat " " (v' :: vs))%string.
    rewrite !has_char_append, (word_has_no_line_feed v Hword), (IH v' H). reflexivity.
Qed.

Lemma length_concat (vs : list string) (v : string) :
  forallb (fun v => is_word v && negb (has_char "#"%char v)) (v :: vs) = true ->
  (List.length (v :: vs) <= String.length (String.concat " " (v :: vs)))%nat.
Proof.
  intros Hvs. rewrite concat_spaced.
  replace (List.length (v :: vs))
    with (List.length (("", v) :: map (fun t => (" ", t)) vs)%string)
    by (cbn [List.length]; rewrite length_map; reflexivity).
  apply length_spaced.
  rewrite forallb_forall in Hvs. apply forallb_forall. intros p [<- | Hin].
  - cbn [fst snd]. specialize (Hvs v (or_introl eq_refl)).
    apply andb_true_iff in Hvs. destruct Hvs as [Hw _]. rewrite Hw. reflexivity.
  - apply in_map_iff in Hin. destruct Hin as (t & <- & Ht). cbn [fst snd].
    specialize (Hvs t (or_intror Ht)).
    apply andb_true_iff in Hvs. destruct Hvs as [Hw _]. rewrite Hw. reflexivity.
Qed.



(** ** A run of the sequence reader *)

Lemma ReadFile_not_empty (path : string) (b : byte) (data : list byte) :
  PsqReader.ReadFile path (Some (b :: data)) = inr (b :: data).
Proof. reflexivity. Qed.

(** X27. The sequence reader prints a database back: when the index file
    that [main] opens is the encoding of a protein index and the sequence
    file holds the sequences at the offsets of that index, [main] writes
    the metadata of the index and then one record per sequence with its
    number, length and letters, writes nothing to [std::cerr] and
    returns 0. *)
Theorem main_prints_the_database (fuel : nat) (program name : string)
        (I : PsqReader.PinIndex) (header_table : list Z) (trailing : list byte)
        (seqs : list string) :
  psq_index_well_formed I header_table = true ->
  forallb is_sequence seqs = true ->
  PsqReader.num_sequences I = Z.of_nat (List.length seqs) ->
  PsqReader.sequence_offsets I = sequence_starts 1 seqs ->
  size (sequence_file seqs) < 2 ^ 32 ->
  size (psq_header_bytes I ++ offset_table header_table
        ++ offset_table (PsqReader.sequence_offsets I) ++ trailing) < 2 ^ 63 ->
  (List.length seqs + 1 < fuel)%nat ->
  PsqReader.main fuel [program; name]
    (Some (psq_header_bytes I ++ offset_table header_table
           ++ offset_table (PsqReader.sequence_offsets I) ++ trailing))
    (Some (sequence_file seqs))
  = Some (PsqReader.mkRun
            (PsqReader.metadata_report I ++ sequence_records 0 seqs)%string
            EmptyString 0).
Proof.
  intros Hwf Hseqs Hcount Htable Hsize Hfit Hfuel.
  unfold PsqReader.main.
  destruct (PsqReader.database_paths name) as [pin_path psq_path].
  set (data := psq_header_bytes I ++ offset_table header_table
               ++ offset_table (PsqReader.sequence_offsets I) ++ trailing) in *.
  assert (Hdata : exists b rest, data = b :: rest).
  { unfold data, psq_header_bytes, be32_bytes. cbn [app]. eexists. eexists. reflexivity. }
  destruct Hdata as (b & rest & Hdata).
  rewrite Hdata at 1. rewrite ReadFile_not_empty, <- Hdata.
  unfold data.
  rewrite (ParsePin_of_encoding I header_table trailing fuel pin_path Hwf Hfit)
    by (rewrite Hcount, Nat2Z.id; exact Hfuel).
  unfold sequence_file at 1. rewrite ReadFile_not_empty.
  fold (sequence_file seqs). rewrite Hcount, Nat2Z.id.
  rewrite (print_sequences_of_sequence_file I seqs [] _ Hseqs Hsize Htable).
  reflexivity.
Qed.

Lemma main_prints_the_database_example :
  PsqReader.main 4 ["psq_reader"; "nr.psq"]%string
    (Some (psq_header_bytes two_sequence_index ++ offset_table [0; 3; 5]
           ++ offset_table (PsqReader.sequence_offsets two_sequence_index) ++ []))
    (Some (sequence_file ["MKV"; "ACDE"]%string))
  = Some (PsqReader.mkRun
            (PsqReader.metadata_report two_sequence_index
             ++ sequence_records 0 ["MKV"; "ACDE"]%string)%string
            EmptyString 0).
Proof.
  apply (main_prints_the_database 4 "psq_reader" "nr.psq" two_sequence_index
           [0; 3; 5] [] ["MKV"; "ACDE"]%string).
  - reflexivity.
  - reflexivity.
  - reflexivity.
  - reflexivity.
  - reflexivity.
  - vm_compute. reflexivity.
  - cbn [List.length]. lia.
Defined.

Lemma print_sequences_appends (index : PsqReader.PinIndex) (psq_bytes : list byte)
      (n : nat) :
  forall (i : Z) (out : string),
    match PsqReader.print_sequences index psq_bytes n i out with
    | PsqReader.Completed out' => exists records, out' = (out ++ records)%string
    | PsqReader.Raised out' e =>
        (exists records, out' = (out ++ records)%string)
        /\ e = runtime_error "Sequence offsets exceed PSQ file length"
    | PsqReader.OutsideTable _ => True
    end.
Proof.
  induction n as [| n IH]; intros i out; cbn [PsqReader.print_sequences].
  - exists EmptyString. rewrite append_empty. reflexivity.
  - destruct (nth_error (PsqReader.sequence_offsets index) (Z.to_nat i)) as [start |];
      [| exact I].
    destruct (nth_error (PsqReader.sequence_offsets index) (Z.to_nat (uint32 (i + 1))))
      as [end_ |]; [| exact I].
    unfold PsqReader.DecodeSequence.
    destruct ((end_ <? start) || (size psq_bytes <? end_)).
    + split; [exists EmptyString; rewrite append_empty; reflexivity | reflexivity].
    + match goal with
      | |- context [PsqReader.print_sequences index psq_bytes n ?j ?o] =>
          specialize (IH j o); destruct (PsqReader.print_sequences index psq_bytes n j o)
            as [out' | out' e |]
      end.
      * destruct IH as (records & ->). eexists. rewrite string_append_assoc. reflexivity.
      * destruct IH as ((records & ->) & ->). split; [| reflexivity].
        eexists. rewrite string_append_assoc. reflexivity.
      * exact I.
Qed.

(** X28. What a run of [main] can leave. A run that fails before the index
    is parsed and the sequence file is read has written nothing to
    [std::cout]. Every other run has written the metadata of the index
    first, and it either returns 0 with nothing on [std::cerr], or returns
    1 with the message of a sequence range that does not fit the sequence
    file. *)
Theorem main_fails_early_or_on_a_range (fuel : nat) (argv : list string)
        (pin psq : option (list byte)) (r : PsqReader.run) :
  PsqReader.main fuel argv pin psq = Some r ->
  (PsqReader.status r = 1 /\ PsqReader.cout r = EmptyString
   /\ PsqReader.cerr r <> EmptyString)
  \/ (exists index rest,
         PsqReader.cout r = (PsqReader.metadata_report index ++ rest)%string
         /\ ((PsqReader.status r = 0 /\ PsqReader.cerr r = EmptyString)
             \/ (PsqReader.status r = 1
                 /\ PsqReader.cerr r
                    = ("Error: Sequence offsets exceed PSQ file length"
                       ++ PsqReader.newline)%string))).
Proof.
  unfold PsqReader.main. intros H.
  assert (Herr : forall e, PsqReader.status (PsqReader.report_error EmptyString e) = 1
                           /\ PsqReader.cout (PsqReader.report_error EmptyString e)
                              = EmptyString
                           /\ PsqReader.cerr (PsqReader.report_error EmptyString e)
                              <> EmptyString)
    by (intros e; repeat split; discriminate).
  destruct argv as [| program [| input argv]];
    [injection H as <-; left; repeat split; discriminate
    | injection H as <-; left; repeat split; discriminate |].
  destruct (PsqReader.database_paths input) as [pin_path psq_path].
  destruct (PsqReader.ReadFile pin_path pin) as [e | data];
    [injection H as <-; left; apply Herr |].
  destruct (PsqReader.ParsePin fuel pin_path data) as [index o | e o | |];
    [| injection H as <-; left; apply Herr | discriminate | discriminate].
  destruct (PsqReader.ReadFile psq_path psq) as [e | psq_bytes];
    [injection H as <-; left; apply Herr |].
  pose proof (print_sequences_appends index psq_bytes
                (Z.to_nat (PsqReader.num_sequences index)) 0
                (PsqReader.metadata_report index)) as Hout.
  destruct (PsqReader.print_sequences index psq_bytes
              (Z.to_nat (PsqReader.num_sequences index)) 0
              (PsqReader.metadata_report index)) as [out | out e |];
    [| | discriminate]; injection H as <-; right.
  - destruct Hout as (records & ->). exists index, records.
    split; [reflexivity | left; split; reflexivity].
  - destruct Hout as ((records & ->) & ->). exists index, records.
    split; [reflexivity | right; split; reflexivity].
Qed.

Lemma main_fails_early_or_on_a_range_example :
  (PsqReader.status (PsqReader.report_error EmptyString
                       (runtime_error "Unable to open file: nr.pin")) = 1
   /\ PsqReader.cout (PsqReader.report_error EmptyString
                        (runtime_error "Unable to open file: nr.pin")) = EmptyString
   /\ PsqReader.cerr (PsqReader.report_error EmptyString
                        (runtime_error "Unable to open file: nr.pin")) <> EmptyString)
  \/ (exists index rest,
         PsqReader.cout (PsqReader.report_error EmptyString
                           (runtime_error "Unable to open file: nr.pin"))
         = (PsqReader.metadata_report index ++ rest)%string
         /\ ((PsqReader.status (PsqReader.report_error EmptyString
                                  (runtime_error "Unable to open file: nr.pin")) = 0
              /\ PsqReader.cerr (PsqReader.report_error EmptyString
                                   (runtime_error "Unable to open file: nr.pin"))
                 = EmptyString)
             \/ (PsqReader.status (PsqReader.report_error EmptyString
                                     (runtime_error "Unable to open file: nr.pin")) = 1
                 /\ PsqReader.cerr (PsqReader.report_error EmptyString
                                      (runtime_error "Unable to open file: nr.pin"))
                    = ("Error: Sequence offsets exceed PSQ file length"
                       ++ PsqReader.newline)%string))).
Proof.
  apply (main_fails_early_or_on_a_range 1 ["psq_reader"; "nr"]%string None None
           (PsqReader.report_error EmptyString
              (runtime_error "Unable to open file: nr.pin"))).
  reflexivity.
Defined.

(** ** The summary of the header reader *)

Lemma PrintSummary_loop_app (fuel : nat) (pre rest : list (list byte)) :
  forall (i : Z) (out : string),
    PrintSummary_loop fuel (pre ++ rest) i out
    = match PrintSummary_loop fuel pre i out with
      | Printed out' => PrintSummary_loop fuel rest (i + Z.of_nat (List.length pre)) out'
      | ended => ended
      end.
Proof.
  induction pre as [| h pre IH]; intros i out.
  - cbn [app PrintSummary_loop List.length]. rewrite Z.add_0_r. reflexivity.
  - cbn [app PrintSummary_loop List.length].
    destruct (header_report fuel i h out) as [out' | out' e |]; try reflexivity.
    rewrite IH. replace (i + 1 + Z.of_nat (List.length pre))
      with (i + Z.of_nat (S (List.length pre))) by lia.
    reflexivity.
Qed.

(** X29. One header that cannot be decoded ends the summary: when
    [DecodeDeflineSet] throws on a header, as it does on an empty one,
    [PrintSummary] is left by that exception after the first line of the
    block of this header, and nothing is printed for the headers behind
    it. *)
Theorem PrintSummary_stops_at_a_header_that_throws (fuel : nat) (index : PinIndex)
        (pre : list (list byte)) (bad : list byte) (post : list (list byte))
        (out : string) (e : exn) (o : Z) :
  PrintSummary fuel index pre = Printed out ->
  DecodeDeflineSet fuel bad (Some EmptyString) = Throw e o ->
  PrintSummary fuel index (pre ++ bad :: post)
  = Aborted (out ++ block_head (Z.of_nat (List.length pre)) bad)%string e
  /\ PrintSummary fuel index (pre ++ [] :: post)
     = Aborted (out ++ block_head (Z.of_nat (List.length pre)) [])%string
         (PinParseError "Unexpected end of buffer while reading BER tag").
Proof.
  unfold PrintSummary. intros Hpre Hbad. split.
  - rewrite PrintSummary_loop_app, Hpre. cbn [PrintSummary_loop Z.add].
    unfold header_report. rewrite Hbad. reflexivity.
  - rewrite PrintSummary_loop_app, Hpre. cbn [PrintSummary_loop Z.add].
    unfold header_report.
    rewrite (DecodeDeflineSet_header_throws fuel [] (Some EmptyString)
               (PinParseError "Unexpected end of buffer while reading BER tag") 0
               eq_refl).
    reflexivity.
Qed.

Lemma PrintSummary_stops_at_a_header_that_throws_example :
  PrintSummary 6 summary_index_example ([[x30; x80; x00; x00]] ++ [x05] :: [])
  = Aborted ((summary_head summary_index_example ++ block_head 0 [x30; x80; x00; x00]
              ++ "    (no deflines decoded)" ++ newline)
             ++ block_head (Z.of_nat (List.length [[x30; x80; x00; x00]])) [x05])%string
      (PinParseError "Expected Blast-def-line-set sequence")
  /\ PrintSummary 6 summary_index_example ([[x30; x80; x00; x00]] ++ [] :: [])
     = Aborted ((summary_head summary_index_example ++ block_head 0 [x30; x80; x00; x00]
                 ++ "    (no deflines decoded)" ++ newline)
                ++ block_head (Z.of_nat (List.length [[x30; x80; x00; x00]])) [])%string
         (PinParseError "Unexpected end of buffer while reading BER tag").
Proof.
  apply (PrintSummary_stops_at_a_header_that_throws 6 summary_index_example
           [[x30; x80; x00; x00]] [x05] []
           (summary_head summary_index_example ++ block_head 0 [x30; x80; x00; x00]
            ++ "    (no deflines decoded)" ++ newline)%string
           (PinParseError "Expected Blast-def-line-set sequence") 1).
  - vm_compute. reflexivity.
  - vm_compute. reflexivity.
Defined.

Lemma header_report_written (fuel : nat) (i : Z) (ws : list written_defline)
      (out : string) :
  forallb defline_encodable ws = true ->
  size (defline_set_bytes ws) < 2 ^ 63 ->
  (defline_set_fuel ws <= fuel)%nat ->
  header_report fuel i (defline_set_bytes ws) out
  = Printed (out ++ written_block i ws)%string.
Proof.
  intros Hws Hfit Hfuel.
  assert (Hdec : DecodeDeflineSet fuel (defline_set_bytes ws) (Some EmptyString)
                 = Ret (map decoded_defline ws, Some EmptyString)
                       (size (defline_set_bytes ws))).
  { pose proof (DecodeDeflineSet_of_encoding fuel ws [] (Some EmptyString)) as H.
    rewrite app_nil_r in H. apply H; assumption. }
  unfold header_report. cbv zeta. rewrite Hdec. unfold written_block.
  f_equal. rewrite !string_append_assoc.
  destruct ws as [| w ws]; cbn [map]; rewrite ?string_append_assoc, ?append_empty;
    reflexivity.
Qed.

(** X30. [PrintSummary] shows what the headers were written from: for
    headers that are encodings of sets of definition lines, it prints, for
    each header in turn, its size and then every line with its title, its
    Seq-ids and its taxid; it prints no warning and is not left by an
    exception. *)
Theorem PrintSummary_of_encoded_headers (fuel : nat) (index : PinIndex)
        (wss : list (list written_defline)) :
  headers_encodable fuel wss = true ->
  PrintSummary fuel index (map defline_set_bytes wss)
  = Printed (summary_head index ++ written_blocks 0 wss)%string.
Proof.
  unfold PrintSummary, headers_encodable. generalize (summary_head index) as out.
  generalize 0 as i. induction wss as [| ws wss IH]; intros i out Hok.
  - cbn [map PrintSummary_loop written_blocks]. rewrite append_empty. reflexivity.
  - cbn [forallb] in Hok. rewrite !andb_true_iff in Hok.
    destruct Hok as (((Hws & Hfit) & Hfuel) & Hok).
    apply Z.ltb_lt in Hfit. apply Nat.leb_le in Hfuel.
    cbn [map PrintSummary_loop written_blocks].
    rewrite (header_report_written fuel i ws out Hws Hfit Hfuel).
    rewrite (IH (i + 1) _ Hok), string_append_assoc. reflexivity.
Qed.

Lemma PrintSummary_of_encoded_headers_example :
  PrintSummary 6 summary_index_example
    (map defline_set_bytes [written_deflines_example; []])
  = Printed (summary_head summary_index_example
             ++ written_blocks 0 [written_deflines_example; []])%string.
Proof.
  apply (PrintSummary_of_encoded_headers 6 summary_index_example
           [written_deflines_example; []]).
  vm_compute. reflexivity.
Defined.
